(** * The YAML dumper of [yaml/_dumper_state.ts], embedded in Rocq

    The development follows the source file top to bottom: character
    tables and classifiers, the scalar encoder ([chooseScalarStyle],
    [foldLine], [foldString], [escapeString], [blockHeader]), the duplicate
    pre-scan ([inspectNode]) and the [DumperState] class with its
    [stringify*] methods.

    JavaScript strings are sequences of UTF-16 code units: [jsstring] is a
    list of integers.  Objects live in a store addressed by identity, so a
    tree that shares a node or contains a cycle is an ordinary store.  The
    recursion of [stringifyNode] and [inspectNode] follows the input, which
    may be cyclic, so both take fuel; a method that runs on the dumper
    state returns a [result]: a value with the state after the call, a
    thrown error, or no answer within the fuel.

    The schema modules ([_schema.ts], [_type.ts]) are not part of the
    sources at hand: a schema is a parameter, of which the dumper reads
    the two lists of types.

    The definitions come first, then the notions that the statements use,
    then the properties. *)

From Stdlib Require Import ZArith List Bool Lia String Ascii Arith PeanoNat.
From Stdlib Require Import Permutation Sorted.
Import ListNotations.
Local Open Scope Z_scope.

(** ** Strings *)

Definition jsstring := list Z.

(** An ASCII literal of the source, as code units. *)
Definition lit (s : string) : jsstring :=
  map (fun a => Z.of_nat (nat_of_ascii a)) (list_ascii_of_string s).

Fixpoint jsstring_eqb (a b : jsstring) : bool :=
  match a, b with
  | [], [] => true
  | x :: a', y :: b' => (x =? y) && jsstring_eqb a' b'
  | _, _ => false
  end.

(** [string.length] *)
Definition strlen (s : jsstring) : Z := Z.of_nat (List.length s).

(** [string[i]]: [None] stands for [undefined]. *)
Definition strIndex (s : jsstring) (i : Z) : option Z :=
  if i <? 0 then None else nth_error s (Z.to_nat i).

(** [string[i] === c] and [string[i] !== c] for a one-unit string [c]. *)
Definition indexIs (s : jsstring) (i : Z) (c : Z) : bool :=
  match strIndex s i with Some x => x =? c | None => false end.

(** [string.charCodeAt(i)]: [None] stands for [NaN], on which every
    comparison of the source is false and every [!==] is true. *)
Definition charCodeAt (s : jsstring) (i : Z) : option Z := strIndex s i.

(** [" ".repeat(n)]; the count is never negative on a path from
    [stringify], where levels start at 0 and the indent is at least 1. *)
Definition repeatSpace (n : Z) : jsstring := repeat 32 (Z.to_nat n).

(** [string.padStart(n, "0")] *)
Definition padStart0 (n : nat) (s : jsstring) : jsstring :=
  repeat 48 (n - List.length s) ++ s.

(** [String(n)] for a non-negative integer, in decimal. *)
Fixpoint decimalAux (fuel : nat) (n : Z) : jsstring :=
  match fuel with
  | O => []
  | S f => (if n <? 10 then [] else decimalAux f (n / 10)) ++ [48 + n mod 10]
  end.

Definition decimal (n : Z) : jsstring :=
  decimalAux (S (Z.to_nat (Z.log2 n))) n.

(** One upper-case hexadecimal digit. *)
Definition hexDigit (d : Z) : Z := if d <? 10 then 48 + d else 55 + d.

(** [n.toString(16).toUpperCase()] for a non-negative integer. *)
Fixpoint toString16Aux (fuel : nat) (n : Z) : jsstring :=
  match fuel with
  | O => []
  | S f => (if n <? 16 then [] else toString16Aux f (n / 16)) ++ [hexDigit (n mod 16)]
  end.

Definition toString16 (n : Z) : jsstring :=
  toString16Aux (S (Z.to_nat (Z.log2 n))) n.

(** ** Character codes, from [_chars.ts] *)

(** Modelled from the spec: the constants of [_chars.ts] are not part of the
    sources at hand; each name is given the code of the character it names
    (section 4.1 lists the indicator characters). *)
Definition AMPERSAND := 38.
Definition ASTERISK := 42.
Definition COLON := 58.
Definition COMMA := 44.
Definition COMMERCIAL_AT := 64.
Definition DOUBLE_QUOTE := 34.
Definition EXCLAMATION := 33.
Definition GRAVE_ACCENT := 96.
Definition GREATER_THAN := 62.
Definition LEFT_CURLY_BRACKET := 123.
Definition LEFT_SQUARE_BRACKET := 91.
Definition LINE_FEED := 10.
Definition MINUS := 45.
Definition PERCENT := 37.
Definition QUESTION := 63.
Definition RIGHT_CURLY_BRACKET := 125.
Definition RIGHT_SQUARE_BRACKET := 93.
Definition SHARP := 35.
Definition SINGLE_QUOTE := 39.
Definition VERTICAL_LINE := 124.
Definition SPACE := 32.
Definition TAB := 9.

(** Modelled from the spec: [isWhiteSpace] of [_chars.ts] is not part of the
    sources at hand; white space is the space and the tab character. *)
Definition isWhiteSpace (c : Z) : bool := (c =? SPACE) || (c =? TAB).

Definition STYLE_PLAIN := 1.
Definition STYLE_SINGLE := 2.
Definition STYLE_LITERAL := 3.
Definition STYLE_FOLDED := 4.
Definition STYLE_DOUBLE := 5.

Definition ESCAPE_SEQUENCES : list (Z * jsstring) :=
  [ (0x00, lit "\0"); (0x07, lit "\a"); (0x08, lit "\b"); (0x09, lit "\t");
    (0x0a, lit "\n"); (0x0b, lit "\v"); (0x0c, lit "\f"); (0x0d, lit "\r");
    (0x1b, lit "\e"); (0x22, [92; 34]); (0x5c, lit "\\"); (0x85, lit "\N");
    (0xa0, lit "\_"); (0x2028, lit "\L"); (0x2029, lit "\P") ].

(** [ESCAPE_SEQUENCES.get(c)] *)
Fixpoint mapGet (m : list (Z * jsstring)) (c : Z) : option jsstring :=
  match m with
  | [] => None
  | (k, v) :: m' => if k =? c then Some v else mapGet m' c
  end.

Definition DEPRECATED_BOOLEANS_SYNTAX : list jsstring :=
  map lit [ "y"; "Y"; "yes"; "Yes"; "YES"; "on"; "On"; "ON";
            "n"; "N"; "no"; "No"; "NO"; "off"; "Off"; "OFF" ]%string.

(** [array.includes(s)] on an array of strings. *)
Definition includesStr (l : list jsstring) (s : jsstring) : bool :=
  existsb (jsstring_eqb s) l.

(** ** Values, the object store, errors *)

(** A JavaScript value; an object or array is a reference into the store,
    and two references are the same object exactly when they are equal. *)
Inductive value :=
| VUndefined
| VNull
| VBoolean (b : bool)
| VNumber (n : Z)
| VString (s : jsstring)
| VFunction
| VRef (a : nat).

(** A stored object: an array, or a record with its own enumerable
    properties in the order of [Object.keys]. *)
Inductive jsobject :=
| OArray (elems : list value)
| ORecord (props : list (jsstring * value)).

Definition heap := list jsobject.

(** An address outside the store denotes an object without properties. *)
Definition deref (h : heap) (a : nat) : jsobject := nth a h (ORecord []).

(** What the methods of this file throw. *)
Inductive error :=
| CodePointTooLarge
| ImpossibleStyle
| SortKeysInvalid
| TagResolverStyle (tag : jsstring) (style : jsstring)
| UnacceptableKind (v : value).

(** A pure computation that may throw. *)
Inductive exc (A : Type) :=
| Ok (a : A)
| Throw (e : error).
Arguments Ok {A} a.
Arguments Throw {A} e.

(** ** Hexadecimal escapes *)

Definition charCodeToHexString (charCode : Z) : exc jsstring :=
  let hexString := toString16 charCode in
  if charCode <=? 0xff then Ok (lit "\x" ++ padStart0 2 hexString)
  else if charCode <=? 0xffff then Ok (lit "\u" ++ padStart0 4 hexString)
  else if charCode <=? 0xffffffff then Ok (lit "\U" ++ padStart0 8 hexString)
  else Throw CodePointTooLarge.

(** ** Indentation helpers *)

(** [string.split("\n")] *)
Fixpoint splitLF (s : jsstring) : list jsstring :=
  match s with
  | [] => [[]]
  | c :: s' =>
      if c =? LINE_FEED then [] :: splitLF s'
      else match splitLF s' with
           | [] => [[c]]
           | l :: ls => (c :: l) :: ls
           end
  end.

(** [lines.join("\n")] *)
Fixpoint joinLF (ls : list jsstring) : jsstring :=
  match ls with
  | [] => []
  | [l] => l
  | l :: ls' => l ++ LINE_FEED :: joinLF ls'
  end.

Definition indentString (string : jsstring) (spaces : Z) : jsstring :=
  let indent := repeatSpace spaces in
  joinLF (map (fun line => match line with [] => line | _ => indent ++ line end)
              (splitLF string)).

Definition generateNextLine (indent level : Z) : jsstring :=
  LINE_FEED :: repeatSpace (indent * level).

(** ** Character classifier *)

Definition isPrintable (c : Z) : bool :=
  ((0x00020 <=? c) && (c <=? 0x00007e)) ||
  ((0x000a1 <=? c) && (c <=? 0x00d7ff) && negb (c =? 0x2028) && negb (c =? 0x2029)) ||
  ((0x0e000 <=? c) && (c <=? 0x00fffd) && negb (c =? 0xfeff)) ||
  ((0x10000 <=? c) && (c <=? 0x10ffff)).

Definition isPlainSafe (c : Z) : bool :=
  isPrintable c &&
  negb (c =? 0xfeff) &&
  negb (c =? COMMA) &&
  negb (c =? LEFT_SQUARE_BRACKET) &&
  negb (c =? RIGHT_SQUARE_BRACKET) &&
  negb (c =? LEFT_CURLY_BRACKET) &&
  negb (c =? RIGHT_CURLY_BRACKET) &&
  negb (c =? COLON) &&
  negb (c =? SHARP).

Definition isPlainSafeFirst (c : Z) : bool :=
  isPrintable c &&
  negb (c =? 0xfeff) &&
  negb (isWhiteSpace c) &&
  negb (c =? MINUS) &&
  negb (c =? QUESTION) &&
  negb (c =? COLON) &&
  negb (c =? COMMA) &&
  negb (c =? LEFT_SQUARE_BRACKET) &&
  negb (c =? RIGHT_SQUARE_BRACKET) &&
  negb (c =? LEFT_CURLY_BRACKET) &&
  negb (c =? RIGHT_CURLY_BRACKET) &&
  negb (c =? SHARP) &&
  negb (c =? AMPERSAND) &&
  negb (c =? ASTERISK) &&
  negb (c =? EXCLAMATION) &&
  negb (c =? VERTICAL_LINE) &&
  negb (c =? GREATER_THAN) &&
  negb (c =? SINGLE_QUOTE) &&
  negb (c =? DOUBLE_QUOTE) &&
  negb (c =? PERCENT) &&
  negb (c =? COMMERCIAL_AT) &&
  negb (c =? GRAVE_ACCENT).

(** A classifier applied to [charCodeAt]: false on [NaN]. *)
Definition onCode (p : Z -> bool) (c : option Z) : bool :=
  match c with Some x => p x | None => false end.

(** [LEADING_SPACE_REGEXP.test(string)], the expression [/^\n* /]. *)
Fixpoint needIndentIndicator (string : jsstring) : bool :=
  match string with
  | [] => false
  | c :: rest =>
      if c =? LINE_FEED then needIndentIndicator rest else c =? SPACE
  end.

(** ** Choosing a scalar style *)

(** The loop of the single-line case: [None] is the early
    [return STYLE_DOUBLE], otherwise the final value of [plain]. *)
Fixpoint scanSingleLine (chars : jsstring) (plain : bool) : option bool :=
  match chars with
  | [] => Some plain
  | char :: rest =>
      if negb (isPrintable char) then None
      else scanSingleLine rest (plain && isPlainSafe char)
  end.

(** The variables of the block-style loop. *)
Record scan := mkScan {
  hasLineBreak : bool;
  hasFoldableLine : bool;
  previousLineBreak : Z;
  plain : bool
}.

(** The foldable-line test: too long, and not more-indented. *)
Definition foldableAt (string : jsstring) (lineWidth i previousLineBreak : Z) : bool :=
  (lineWidth <? i - previousLineBreak - 1) &&
  negb (indexIs string (previousLineBreak + 1) SPACE).

(** The loop of the block-style case, at index [i] with [chars] the rest of
    [string]; [None] is the early [return STYLE_DOUBLE]. *)
Fixpoint scanBlock (string : jsstring) (shouldTrackWidth : bool) (lineWidth : Z)
    (chars : jsstring) (i : Z) (s : scan) : option (Z * scan) :=
  match chars with
  | [] => Some (i, s)
  | char :: rest =>
      if char =? LINE_FEED then
        let s1 :=
          if shouldTrackWidth then
            mkScan true
                   (hasFoldableLine s || foldableAt string lineWidth i (previousLineBreak s))
                   i
                   (plain s && isPlainSafe char)
          else mkScan true (hasFoldableLine s) (previousLineBreak s)
                      (plain s && isPlainSafe char) in
        scanBlock string shouldTrackWidth lineWidth rest (i + 1) s1
      else if negb (isPrintable char) then None
      else scanBlock string shouldTrackWidth lineWidth rest (i + 1)
             (mkScan (hasLineBreak s) (hasFoldableLine s) (previousLineBreak s)
                     (plain s && isPlainSafe char))
  end.

Definition chooseScalarStyle (string : jsstring) (singleLineOnly : bool)
    (indentPerLevel lineWidth : Z) (testAmbiguousType : jsstring -> bool) : Z :=
  let shouldTrackWidth := negb (lineWidth =? -1) in
  let plain0 := onCode isPlainSafeFirst (charCodeAt string 0) &&
                negb (onCode isWhiteSpace (charCodeAt string (strlen string - 1))) in
  let finish (s : scan) :=
    if negb (hasLineBreak s) && negb (hasFoldableLine s) then
      if plain s && negb (testAmbiguousType string) then STYLE_PLAIN else STYLE_SINGLE
    else if (9 <? indentPerLevel) && needIndentIndicator string then STYLE_DOUBLE
    else if hasFoldableLine s then STYLE_FOLDED else STYLE_LITERAL in
  if singleLineOnly then
    match scanSingleLine string plain0 with
    | None => STYLE_DOUBLE
    | Some p => finish (mkScan false false (-1) p)
    end
  else
    match scanBlock string shouldTrackWidth lineWidth string 0 (mkScan false false (-1) plain0) with
    | None => STYLE_DOUBLE
    | Some (i, s) =>
        finish (mkScan (hasLineBreak s)
                       (hasFoldableLine s ||
                        (shouldTrackWidth && foldableAt string lineWidth i (previousLineBreak s)))
                       (previousLineBreak s) (plain s))
    end.

(** ** Line folding *)

(** [string.slice(a, b)] and [string.slice(a)] for [0 <= a]. *)
Definition slice (s : jsstring) (a b : Z) : jsstring :=
  firstn (Z.to_nat (b - a)) (skipn (Z.to_nat a) s).

Definition sliceFrom (s : jsstring) (a : Z) : jsstring := skipn (Z.to_nat a) s.

(** The match indices of [/ [^ ]/g] from index [i] on: a space followed by
    a character that is not a space (matches cannot overlap). *)
Fixpoint breakIndices (chars : jsstring) (i : Z) : list Z :=
  match chars with
  | c :: ((d :: _) as rest) =>
      if (c =? SPACE) && negb (d =? SPACE) then i :: breakIndices rest (i + 1)
      else breakIndices rest (i + 1)
  | _ => []
  end.

(** The [for] loop of [foldLine] over the matches. *)
Fixpoint foldLineLoop (line : jsstring) (width : Z) (matches : list Z)
    (start curr : Z) (lines : list jsstring) : Z * Z * list jsstring :=
  match matches with
  | [] => (start, curr, lines)
  | next :: more =>
      if width <? next - start then
        let end_ := if start <? curr then curr else next in
        foldLineLoop line width more (end_ + 1) next (lines ++ [slice line start end_])
      else foldLineLoop line width more start next lines
  end.

Definition foldLine (line : jsstring) (width : Z) : jsstring :=
  match line with
  | [] => line
  | c :: _ =>
      if c =? SPACE then line
      else
        let '(start, curr, lines) :=
          foldLineLoop line width (breakIndices line 0) 0 0 [] in
        joinLF
          (if (width <? strlen line - start) && (start <? curr)
           then lines ++ [slice line start curr; sliceFrom line (curr + 1)]
           else lines ++ [sliceFrom line start])
  end.

Definition trimTrailingNewline (string : jsstring) : jsstring :=
  match rev string with
  | c :: r => if c =? LINE_FEED then rev r else string
  | [] => string
  end.

(** The longest prefix of line feeds, and the rest. *)
Fixpoint spanLF (s : jsstring) : jsstring * jsstring :=
  match s with
  | c :: s' =>
      if c =? LINE_FEED then let '(p, r) := spanLF s' in (c :: p, r) else ([], s)
  | [] => ([], [])
  end.

(** The longest prefix without a line feed, and the rest. *)
Fixpoint spanLine (s : jsstring) : jsstring * jsstring :=
  match s with
  | c :: s' =>
      if c =? LINE_FEED then ([], s) else let '(p, r) := spanLine s' in (c :: p, r)
  | [] => ([], [])
  end.

(** The [while] loop of [foldString]: [rest] is the input from
    [lineRe.lastIndex] on, which is empty or starts with a line feed, so
    each [exec] matches at [lastIndex]. *)
Fixpoint foldStringLoop (fuel : nat) (width : Z) (rest : jsstring)
    (prevMoreIndented : bool) (result : jsstring) : jsstring :=
  match fuel, rest with
  | S f, _ :: _ =>
      let '(prefix, afterLF) := spanLF rest in
      let '(line, rest') := spanLine afterLF in
      let moreIndented := indexIs line 0 SPACE in
      let extra :=
        if negb prevMoreIndented && negb moreIndented &&
           negb (match line with [] => true | _ => false end)
        then [LINE_FEED] else [] in
      foldStringLoop f width rest' moreIndented
        (result ++ prefix ++ extra ++ foldLine line width)
  | _, _ => result
  end.

Definition foldString (string : jsstring) (width : Z) : jsstring :=
  let '(first, rest) := spanLine string in
  let result := foldLine first width in
  let prevMoreIndented := indexIs string 0 LINE_FEED || indexIs string 0 SPACE in
  foldStringLoop (List.length string) width rest prevMoreIndented result.

(** ** Double-quoted escaping *)

(** One iteration that does not combine a surrogate pair. *)
Definition escapeChar (char : Z) : exc jsstring :=
  match mapGet ESCAPE_SEQUENCES char with
  | None => if isPrintable char then Ok [char] else charCodeToHexString char
  | Some escapeSeq => Ok escapeSeq
  end.

Definition isHighSurrogate (c : Z) : bool := (0xd800 <=? c) && (c <=? 0xdbff).
Definition isLowSurrogate (c : Z) : bool := (0xdc00 <=? c) && (c <=? 0xdfff).

(** The loop of [escapeString] on the rest [chars] of the input. *)
Fixpoint escapeLoop (chars : jsstring) (result : jsstring) : exc jsstring :=
  let single char rest :=
    match escapeChar char with
    | Ok piece => escapeLoop rest (result ++ piece)
    | Throw e => Throw e
    end in
  match chars with
  | [] => Ok result
  | char :: rest =>
      if isHighSurrogate char then
        match rest with
        | nextChar :: rest' =>
            if isLowSurrogate nextChar then
              match charCodeToHexString
                      ((char - 0xd800) * 0x400 + nextChar - 0xdc00 + 0x10000) with
              | Ok piece => escapeLoop rest' (result ++ piece)
              | Throw e => Throw e
              end
            else single char rest
        | [] => single char rest
        end
      else single char rest
  end.

Definition escapeString (string : jsstring) : exc jsstring :=
  escapeLoop string [].

(** ** Block scalar header *)

Definition blockHeader (string : jsstring) (indentPerLevel : Z) : jsstring :=
  let indentIndicator :=
    if needIndentIndicator string then decimal indentPerLevel else [] in
  let clip := indexIs string (strlen string - 1) LINE_FEED in
  let keep := clip && (indexIs string (strlen string - 2) LINE_FEED ||
                       jsstring_eqb string [LINE_FEED]) in
  let chomp := if keep then lit "+" else if clip then [] else lit "-" in
  indentIndicator ++ chomp ++ [LINE_FEED].

(** ** Schema types, from [_type.ts] and [_schema.ts] *)

(** A [represent] function receives the value and the requested style
    ([None] for [undefined]); it may look into the store. *)
Definition representFn := heap -> value -> option jsstring -> value.

(** [represent] is one function or a table of functions keyed by style. *)
Inductive representSpec :=
| RepresentFn (f : representFn)
| RepresentTable (table : list (jsstring * representFn)).

(** The members of [Type] that the dumper reads. *)
Record YType := mkType {
  tag : jsstring;
  resolve : jsstring -> bool;
  predicate : option (heap -> value -> bool);
  represent : option representSpec;
  defaultStyle : option jsstring
}.

Record Schema := mkSchema {
  schemaImplicitTypes : list YType;
  schemaExplicitTypes : list YType
}.

(** The option [sortKeys]: a boolean, a comparator, or any other value, of
    which only the truthiness is looked at. *)
Inductive sortKeysOption :=
| SortKeysBool (b : bool)
| SortKeysFn (compare : jsstring -> jsstring -> Z)
| SortKeysOther (truthy : bool).

(** An object used as a map from strings to strings. *)
Definition styleTable := list (jsstring * jsstring).

Fixpoint tableGet {A : Type} (m : list (jsstring * A)) (k : jsstring) : option A :=
  match m with
  | [] => None
  | (k', v) :: m' => if jsstring_eqb k' k then Some v else tableGet m' k
  end.

(** [result[tag] = style] *)
Fixpoint tableSet (m : styleTable) (k v : jsstring) : styleTable :=
  match m with
  | [] => [(k, v)]
  | (k', v') :: m' =>
      if jsstring_eqb k' k then (k', v) :: m' else (k', v') :: tableSet m' k v
  end.

Definition compileStyleMap (map : option styleTable) : styleTable :=
  match map with
  | None => []
  | Some m =>
      fold_left
        (fun result '(tag, style) =>
           let tag :=
             if jsstring_eqb (firstn 2 tag) (lit "!!")
             then lit "tag:yaml.org,2002:" ++ skipn 2 tag
             else tag in
           tableSet result tag style)
        m []
  end.

Definition testImplicitResolving (implicitTypes : list YType) (str : jsstring) : bool :=
  existsb (fun type => resolve type str) implicitTypes.

(** ** The dumper state *)

Record DumperStateOptions := mkOptions {
  optSchema : option Schema;
  optIndent : option Z;
  optArrayIndent : option bool;
  optSkipInvalid : option bool;
  optFlowLevel : option Z;
  optStyles : option styleTable;
  optSortKeys : option sortKeysOption;
  optLineWidth : option Z;
  optUseAnchors : option bool;
  optCompatMode : option bool;
  optCondenseFlow : option bool
}.

Record DumperState := mkState {
  schema : Schema;
  indent : Z;
  arrayIndent : bool;
  skipInvalid : bool;
  flowLevel : Z;
  sortKeys : sortKeysOption;
  lineWidth : Z;
  useAnchors : bool;
  compatMode : bool;
  condenseFlow : bool;
  implicitTypes : list YType;
  explicitTypes : list YType;
  duplicates : list nat;
  usedDuplicates : list nat;
  styleMap : styleTable
}.

(** A destructured parameter with its default. *)
Definition orDefault {A : Type} (o : option A) (d : A) : A :=
  match o with Some a => a | None => d end.

(** The constructor; [DEFAULT_SCHEMA] of [_schema.ts] is not part of the
    sources at hand and is a parameter. *)
Definition newDumperState (DEFAULT_SCHEMA : Schema) (o : DumperStateOptions) : DumperState :=
  let schema := orDefault (optSchema o) DEFAULT_SCHEMA in
  {| schema := schema;
     indent := Z.max 1 (orDefault (optIndent o) 2);
     arrayIndent := orDefault (optArrayIndent o) true;
     skipInvalid := orDefault (optSkipInvalid o) false;
     flowLevel := orDefault (optFlowLevel o) (-1);
     styleMap := compileStyleMap (optStyles o);
     sortKeys := orDefault (optSortKeys o) (SortKeysBool false);
     lineWidth := orDefault (optLineWidth o) 80;
     useAnchors := orDefault (optUseAnchors o) true;
     compatMode := orDefault (optCompatMode o) true;
     condenseFlow := orDefault (optCondenseFlow o) false;
     implicitTypes := schemaImplicitTypes schema;
     explicitTypes := schemaExplicitTypes schema;
     duplicates := [];
     usedDuplicates := [] |}.

(** [this.usedDuplicates = u] *)
Definition setUsedDuplicates (this : DumperState) (u : list nat) : DumperState :=
  {| schema := schema this; indent := indent this; arrayIndent := arrayIndent this;
     skipInvalid := skipInvalid this; flowLevel := flowLevel this;
     sortKeys := sortKeys this; lineWidth := lineWidth this;
     useAnchors := useAnchors this; compatMode := compatMode this;
     condenseFlow := condenseFlow this; implicitTypes := implicitTypes this;
     explicitTypes := explicitTypes this; duplicates := duplicates this;
     usedDuplicates := u; styleMap := styleMap this |}.

(** [this.duplicates = d] *)
Definition setDuplicates (this : DumperState) (d : list nat) : DumperState :=
  {| schema := schema this; indent := indent this; arrayIndent := arrayIndent this;
     skipInvalid := skipInvalid this; flowLevel := flowLevel this;
     sortKeys := sortKeys this; lineWidth := lineWidth this;
     useAnchors := useAnchors this; compatMode := compatMode this;
     condenseFlow := condenseFlow this; implicitTypes := implicitTypes this;
     explicitTypes := explicitTypes this; duplicates := d;
     usedDuplicates := usedDuplicates this; styleMap := styleMap this |}.

(** ** Scalars *)

(** The local [indent] of [stringifyScalar]. *)
Definition scalarIndent (this : DumperState) (level : Z) : Z :=
  indent this * Z.max 1 level.

(** The local [lineWidth] of [stringifyScalar]: the width budget handed to
    [chooseScalarStyle] and [foldString]. *)
Definition scalarLineWidth (this : DumperState) (level : Z) : Z :=
  if lineWidth this =? -1 then -1
  else Z.max (Z.min (lineWidth this) 40) (lineWidth this - scalarIndent this level).

(** [string.replace(/'/g, "''")] *)
Definition doubleQuotes (string : jsstring) : jsstring :=
  flat_map (fun c => if c =? SINGLE_QUOTE then [c; c] else [c]) string.

Definition stringifyScalar (this : DumperState) (string : jsstring) (level : Z)
    (isKey : bool) : exc jsstring :=
  match string with
  | [] => Ok (lit "''")
  | _ =>
    if compatMode this && includesStr DEPRECATED_BOOLEANS_SYNTAX string then
      Ok (lit "'" ++ string ++ lit "'")
    else
      let indent' := scalarIndent this level in
      let lineWidth' := scalarLineWidth this level in
      let singleLineOnly :=
        isKey || ((-1 <? flowLevel this) && (flowLevel this <=? level)) in
      let style :=
        chooseScalarStyle string singleLineOnly (indent this) lineWidth'
          (fun str => testImplicitResolving (implicitTypes this) str) in
      if style =? STYLE_PLAIN then Ok string
      else if style =? STYLE_SINGLE then
        Ok (lit "'" ++ doubleQuotes string ++ lit "'")
      else if style =? STYLE_LITERAL then
        Ok (lit "|" ++ blockHeader string (indent this) ++
            trimTrailingNewline (indentString string indent'))
      else if style =? STYLE_FOLDED then
        Ok (lit ">" ++ blockHeader string (indent this) ++
            trimTrailingNewline (indentString (foldString string lineWidth') indent'))
      else if style =? STYLE_DOUBLE then
        match escapeString string with
        | Ok s => Ok ([DOUBLE_QUOTE] ++ s ++ [DOUBLE_QUOTE])
        | Throw e => Throw e
        end
      else Throw ImpossibleStyle
  end.

(** ** Type detection *)

(** Modelled from the spec: [isObject] of [_utils.ts] is not part of the
    sources at hand; a value is object-like when it is a reference into the
    store (containment via objects and arrays only, scalars excluded). *)
Definition isObject (v : value) : bool :=
  match v with VRef _ => true | _ => false end.

(** [Array.isArray(v)] *)
Definition isArray (h : heap) (v : value) : bool :=
  match v with
  | VRef a => match deref h a with OArray _ => true | ORecord _ => false end
  | _ => false
  end.

(** [String(style)] for a style that may be [undefined]. *)
Definition styleKey (style : option jsstring) : jsstring :=
  orDefault style (lit "undefined").

(** The loop of [detectType] over [typeList]; the result is the pair
    [{ tag, object }], or [None] for [null]. *)
Fixpoint detectTypeLoop (this : DumperState) (h : heap) (explicit : bool)
    (typeList : list YType) (object : value) : exc (option (jsstring * value)) :=
  match typeList with
  | [] => Ok None
  | type :: rest =>
      if match predicate type with Some p => p h object | None => false end then
        let tag' := if explicit then tag type else lit "?" in
        match represent type with
        | Some rep =>
            let style :=
              match tableGet (styleMap this) (tag type) with
              | Some (c :: s) => Some (c :: s)
              | _ => defaultStyle type
              end in
            match rep with
            | RepresentFn f => Ok (Some (tag', f h object style))
            | RepresentTable table =>
                match tableGet table (styleKey style) with
                | Some f => Ok (Some (tag', f h object style))
                | None => Throw (TagResolverStyle (tag type) (styleKey style))
                end
            end
        | None => Ok (Some (tag', object))
        end
      else detectTypeLoop this h explicit rest object
  end.

Definition detectType (this : DumperState) (h : heap) (object : value)
    (explicit : bool) : exc (option (jsstring * value)) :=
  detectTypeLoop this h explicit
    (if explicit then explicitTypes this else implicitTypes this) object.

(** ** Rendering *)

(** The outcome of a method that runs on the dumper state: a value and the
    state after the call, a thrown error, or no answer within the fuel. *)
Inductive result (A : Type) :=
| Done (a : A) (this : DumperState)
| Raise (e : error)
| OutOfFuel.
Arguments Done {A} a this.
Arguments Raise {A} e.
Arguments OutOfFuel {A}.

(** [this.stringifyNode(level, object, { block, compact, isKey })], with
    [None] for [null]. *)
Definition nodeRenderer :=
  Z -> value -> bool -> bool -> bool -> DumperState -> result (option jsstring).

(** The separator of a flow sequence. *)
Definition flowSeparator (this : DumperState) : jsstring :=
  lit "," ++ (if negb (condenseFlow this) then lit " " else []).

Fixpoint flowSequenceLoop (rec : nodeRenderer) (elems : list value) (index level : Z)
    (res : jsstring) (this : DumperState) : result jsstring :=
  match elems with
  | [] => Done res this
  | elem :: rest =>
      match rec level elem false false false this with
      | Done None this => flowSequenceLoop rec rest (index + 1) level res this
      | Done (Some string) this =>
          let res := if negb (index =? 0) then res ++ flowSeparator this else res in
          flowSequenceLoop rec rest (index + 1) level (res ++ string) this
      | Raise e => Raise e
      | OutOfFuel => OutOfFuel
      end
  end.

Definition stringifyFlowSequence (rec : nodeRenderer) (object : list value) (level : Z)
    (this : DumperState) : result jsstring :=
  match flowSequenceLoop rec object 0 level [] this with
  | Done res this => Done (lit "[" ++ res ++ lit "]") this
  | Raise e => Raise e
  | OutOfFuel => OutOfFuel
  end.

Fixpoint blockSequenceLoop (rec : nodeRenderer) (elems : list value) (index level : Z)
    (compact : bool) (res : jsstring) (this : DumperState) : result jsstring :=
  match elems with
  | [] => Done res this
  | elem :: rest =>
      match rec (level + 1) elem true true false this with
      | Done None this => blockSequenceLoop rec rest (index + 1) level compact res this
      | Done (Some string) this =>
          let res :=
            if negb compact || negb (index =? 0)
            then res ++ generateNextLine (indent this) level else res in
          let res :=
            if indexIs string 0 LINE_FEED then res ++ lit "-" else res ++ lit "- " in
          blockSequenceLoop rec rest (index + 1) level compact (res ++ string) this
      | Raise e => Raise e
      | OutOfFuel => OutOfFuel
      end
  end.

Definition stringifyBlockSequence (rec : nodeRenderer) (object : list value)
    (level : Z) (compact : bool) (this : DumperState) : result jsstring :=
  match blockSequenceLoop rec object 0 level compact [] this with
  | Done [] this => Done (lit "[]") this
  | Done res this => Done res this
  | Raise e => Raise e
  | OutOfFuel => OutOfFuel
  end.

(** [object[objectKey]] *)
Definition getProp (object : list (jsstring * value)) (objectKey : jsstring) : value :=
  orDefault (tableGet object objectKey) VUndefined.

(** The double quote that condensed flow puts around a key. *)
Definition condenseQuote (this : DumperState) : jsstring :=
  if condenseFlow this then [DOUBLE_QUOTE] else [].

Fixpoint flowMappingLoop (rec : nodeRenderer) (object : list (jsstring * value))
    (objectKeyList : list jsstring) (index level : Z) (res : jsstring)
    (this : DumperState) : result jsstring :=
  match objectKeyList with
  | [] => Done res this
  | objectKey :: rest =>
      let pairBuffer := condenseQuote this in
      let pairBuffer := if negb (index =? 0) then pairBuffer ++ lit ", " else pairBuffer in
      let objectValue := getProp object objectKey in
      match rec level (VString objectKey) false false false this with
      | Done None this => flowMappingLoop rec object rest (index + 1) level res this
      | Done (Some keyString) this =>
          let pairBuffer :=
            if 1024 <? strlen keyString then pairBuffer ++ lit "? " else pairBuffer in
          let pairBuffer :=
            pairBuffer ++ keyString ++ condenseQuote this ++ lit ":" ++
            (if condenseFlow this then [] else lit " ") in
          match rec level objectValue false false false this with
          | Done None this => flowMappingLoop rec object rest (index + 1) level res this
          | Done (Some valueString) this =>
              flowMappingLoop rec object rest (index + 1) level
                (res ++ pairBuffer ++ valueString) this
          | Raise e => Raise e
          | OutOfFuel => OutOfFuel
          end
      | Raise e => Raise e
      | OutOfFuel => OutOfFuel
      end
  end.

Definition stringifyFlowMapping (rec : nodeRenderer) (object : list (jsstring * value))
    (level : Z) (this : DumperState) : result jsstring :=
  match flowMappingLoop rec object (map fst object) 0 level [] this with
  | Done res this => Done (lit "{" ++ res ++ lit "}") this
  | Raise e => Raise e
  | OutOfFuel => OutOfFuel
  end.

(** The default order of [Array.prototype.sort]: strings compared by code
    units. *)
Fixpoint defaultCompare (a b : jsstring) : Z :=
  match a, b with
  | [], [] => 0
  | [], _ :: _ => -1
  | _ :: _, [] => 1
  | x :: a', y :: b' =>
      if x <? y then -1 else if y <? x then 1 else defaultCompare a' b'
  end.

Fixpoint sortInsert (compare : jsstring -> jsstring -> Z) (x : jsstring)
    (l : list jsstring) : list jsstring :=
  match l with
  | [] => [x]
  | y :: l' => if 0 <? compare x y then y :: sortInsert compare x l' else x :: l
  end.

(** [array.sort(compare)]: the sort is stable; it is modelled as an
    insertion sort, which every stable sort agrees with on a consistent
    comparator. *)
Fixpoint sortWith (compare : jsstring -> jsstring -> Z) (l : list jsstring) : list jsstring :=
  match l with
  | [] => []
  | x :: l' => sortInsert compare x (sortWith compare l')
  end.

Fixpoint blockMappingLoop (rec : nodeRenderer) (object : list (jsstring * value))
    (tag : option jsstring) (objectKeyList : list jsstring) (index level : Z)
    (compact : bool) (res : jsstring) (this : DumperState) : result jsstring :=
  match objectKeyList with
  | [] => Done res this
  | objectKey :: rest =>
      let pairBuffer :=
        if negb compact || negb (index =? 0)
        then generateNextLine (indent this) level else [] in
      let objectValue := getProp object objectKey in
      match rec (level + 1) (VString objectKey) true true true this with
      | Done None this =>
          blockMappingLoop rec object tag rest (index + 1) level compact res this
      | Done (Some keyString) this =>
          let explicitPair :=
            match tag with
            | Some t => negb (jsstring_eqb t (lit "?"))
            | None => false
            end || (1024 <? strlen keyString) in
          let pairBuffer :=
            if explicitPair then
              if indexIs keyString 0 LINE_FEED
              then pairBuffer ++ lit "?" else pairBuffer ++ lit "? "
            else pairBuffer in
          let pairBuffer := pairBuffer ++ keyString in
          let pairBuffer :=
            if explicitPair
            then pairBuffer ++ generateNextLine (indent this) level else pairBuffer in
          match rec (level + 1) objectValue true explicitPair false this with
          | Done None this =>
              blockMappingLoop rec object tag rest (index + 1) level compact res this
          | Done (Some valueString) this =>
              let pairBuffer :=
                if indexIs valueString 0 LINE_FEED
                then pairBuffer ++ lit ":" else pairBuffer ++ lit ": " in
              blockMappingLoop rec object tag rest (index + 1) level compact
                (res ++ pairBuffer ++ valueString) this
          | Raise e => Raise e
          | OutOfFuel => OutOfFuel
          end
      | Raise e => Raise e
      | OutOfFuel => OutOfFuel
      end
  end.

Definition stringifyBlockMapping (rec : nodeRenderer) (object : list (jsstring * value))
    (tag : option jsstring) (level : Z) (compact : bool) (this : DumperState)
    : result jsstring :=
  let objectKeyList := map fst object in
  let sorted :=
    match sortKeys this with
    | SortKeysBool true => Ok (sortWith defaultCompare objectKeyList)
    | SortKeysFn compare => Ok (sortWith compare objectKeyList)
    | SortKeysOther true => Throw SortKeysInvalid
    | _ => Ok objectKeyList
    end in
  match sorted with
  | Throw e => Raise e
  | Ok objectKeyList =>
      match blockMappingLoop rec object tag objectKeyList 0 level compact [] this with
      | Done [] this => Done (lit "{}") this
      | Done res this => Done res this
      | Raise e => Raise e
      | OutOfFuel => OutOfFuel
      end
  end.

(** [this.duplicates.indexOf(object)], counting from [i]. *)
Fixpoint indexOfFrom (l : list nat) (a : nat) (i : Z) : Z :=
  match l with
  | [] => -1
  | x :: l' => if Nat.eqb x a then i else indexOfFrom l' a (i + 1)
  end.

Definition indexOf (l : list nat) (a : nat) : Z := indexOfFrom l a 0.

(** [set.has(a)] and [array.includes(a)] on object identities. *)
Definition includes (l : list nat) (a : nat) : bool := existsb (Nat.eqb a) l.

(** [set.add(a)]: a set keeps its elements in insertion order. *)
Definition setAdd (l : list nat) (a : nat) : list nat :=
  if includes l a then l else l ++ [a].

(** [detectType(object, false) ?? detectType(object, true) ??
    { tag: null, object }] *)
Definition resolveType (this : DumperState) (h : heap) (object : value)
    : exc (option jsstring * value) :=
  match detectType this h object false with
  | Throw e => Throw e
  | Ok (Some (t, o)) => Ok (Some t, o)
  | Ok None =>
      match detectType this h object true with
      | Throw e => Throw e
      | Ok (Some (t, o)) => Ok (Some t, o)
      | Ok None => Ok (None, object)
      end
  end.

(** [tag !== null && tag !== "?"] *)
Definition realTag (tag : option jsstring) : bool :=
  match tag with
  | Some t => negb (jsstring_eqb t (lit "?"))
  | None => false
  end.

(** The anchor and the alias of the duplicate with index [n]. *)
Definition anchorText (n : Z) : jsstring := lit "&ref_" ++ decimal n.
Definition aliasText (n : Z) : jsstring := lit "*ref_" ++ decimal n.

(** The end of [stringifyNode]: the tag is put before the text. *)
Definition wrapTag (tag : option jsstring) (r : result jsstring)
    : result (option jsstring) :=
  match r with
  | Done object this =>
      Done (Some (if realTag tag
                  then lit "!<" ++ orDefault tag [] ++ lit "> " ++ object
                  else object)) this
  | Raise e => Raise e
  | OutOfFuel => OutOfFuel
  end.

(** A container's text, with its anchor when it is a duplicate; [sep] is
    the space that flow layout puts after the anchor. *)
Definition withAnchor (duplicate : bool) (duplicateIndex : Z) (sep : jsstring)
    (r : result jsstring) : result jsstring :=
  match r with
  | Done object this =>
      Done (if duplicate then anchorText duplicateIndex ++ sep ++ object else object) this
  | other => other
  end.

(** [tag !== "?"] *)
Definition notQuestionTag (tag : option jsstring) : bool :=
  match tag with
  | Some t => negb (jsstring_eqb t (lit "?"))
  | None => true
  end.

(** [indexOf], [has] and [add] applied to a value: only a reference can be
    found in an array or a set of objects. *)
Definition valueIndexOf (l : list nat) (v : value) : Z :=
  match v with VRef a => indexOf l a | _ => -1 end.

Definition valueHas (l : list nat) (v : value) : bool :=
  match v with VRef a => includes l a | _ => false end.

Definition valueAdd (l : list nat) (v : value) : list nat :=
  match v with VRef a => setAdd l a | _ => l end.

(** The body of [stringifyNode], with [rec] for the calls that the
    container methods make to [this.stringifyNode]. *)
Definition stringifyNodeBody (rec : nodeRenderer) (h : heap) (level : Z)
    (object : value) (block compact isKey : bool) (this : DumperState)
    : result (option jsstring) :=
  match resolveType this h object with
  | Throw e => Raise e
  | Ok (tag, object) =>
    let block :=
      if block then (flowLevel this <? 0) || (level <? flowLevel this) else block in
    let objectOrArray := isObject object || isArray h object in
    let duplicateIndex :=
      if objectOrArray then valueIndexOf (duplicates this) object else -1 in
    let duplicate := negb (duplicateIndex =? -1) in
    let compact :=
      if realTag tag || duplicate || (negb (indent this =? 2) && (0 <? level))
      then false else compact in
    if duplicate && valueHas (usedDuplicates this) object then
      Done (Some (aliasText duplicateIndex)) this
    else
      let this :=
        if objectOrArray && duplicate
        then setUsedDuplicates this (valueAdd (usedDuplicates this) object)
        else this in
      match object with
      | VRef a =>
          match deref h a with
          | ORecord props =>
              if block && negb (List.length (map fst props) =? 0)%nat then
                wrapTag tag (withAnchor duplicate duplicateIndex []
                  (stringifyBlockMapping rec props tag level compact this))
              else
                wrapTag tag (withAnchor duplicate duplicateIndex (lit " ")
                  (stringifyFlowMapping rec props level this))
          | OArray elems =>
              let arrayLevel :=
                if negb (arrayIndent this) && (0 <? level) then level - 1 else level in
              if block && negb (List.length elems =? 0)%nat then
                wrapTag tag (withAnchor duplicate duplicateIndex []
                  (stringifyBlockSequence rec elems arrayLevel compact this))
              else
                wrapTag tag (withAnchor duplicate duplicateIndex (lit " ")
                  (stringifyFlowSequence rec elems arrayLevel this))
          end
      | VString s =>
          if notQuestionTag tag then
            match stringifyScalar this s level isKey with
            | Ok text => wrapTag tag (Done text this)
            | Throw e => Raise e
            end
          else wrapTag tag (Done s this)
      | _ =>
          if skipInvalid this then Done None this
          else Raise (UnacceptableKind object)
      end
  end.

(** [stringifyNode]: the recursion through the container methods is
    bounded by [fuel]. *)
Fixpoint stringifyNode (fuel : nat) (h : heap) (level : Z) (object : value)
    (block compact isKey : bool) (this : DumperState) : result (option jsstring) :=
  match fuel with
  | O => OutOfFuel
  | S fuel =>
      stringifyNodeBody (stringifyNode fuel h) h level object block compact isKey this
  end.

(** ** The duplicate pre-scan *)

(** [Array.isArray(object) ? object : Object.values(object)] *)
Definition entriesOf (h : heap) (a : nat) : list value :=
  match deref h a with
  | OArray elems => elems
  | ORecord props => map snd props
  end.

(** The [for] loop of [inspectNode] over the entries. *)
Fixpoint inspectEntries
    (rec : value -> list nat -> list nat -> option (list nat * list nat))
    (entries : list value) (objects duplicateObjects : list nat)
    : option (list nat * list nat) :=
  match entries with
  | [] => Some (objects, duplicateObjects)
  | value :: rest =>
      match rec value objects duplicateObjects with
      | Some (objects, duplicateObjects) =>
          inspectEntries rec rest objects duplicateObjects
      | None => None
      end
  end.

(** [inspectNode] updates the array [objects] and the set
    [duplicateObjects] in place; here both are passed and returned.
    [None] is no answer within the fuel. *)
Fixpoint inspectNode (fuel : nat) (h : heap) (object : value)
    (objects duplicateObjects : list nat) : option (list nat * list nat) :=
  match fuel with
  | O => None
  | S fuel =>
      match object with
      | VRef a =>
          if includes objects a then Some (objects, setAdd duplicateObjects a)
          else
            inspectEntries (inspectNode fuel h) (entriesOf h a)
              (objects ++ [a]) duplicateObjects
      | _ => Some (objects, duplicateObjects)
      end
  end.

Definition getDuplicateReferences (fuel : nat) (h : heap) (object : value)
    (this : DumperState) : option DumperState :=
  match inspectNode fuel h object [] [] with
  | Some (objects, duplicateObjects) =>
      Some (setUsedDuplicates
              (setDuplicates this (duplicates this ++ duplicateObjects)) [])
  | None => None
  end.

Definition stringify (fuel : nat) (h : heap) (data : value) (this : DumperState)
    : result jsstring :=
  match (if useAnchors this then getDuplicateReferences fuel h data this
         else Some this) with
  | None => OutOfFuel
  | Some this =>
      match stringifyNode fuel h 0 data true true false this with
      | Done (Some string) this => Done (string ++ [LINE_FEED]) this
      | Done None this => Done [] this
      | Raise e => Raise e
      | OutOfFuel => OutOfFuel
      end
  end.

(** ** Notions used in the statements *)

(** The options [o] with [indent] set to [n]. *)
Definition withIndent (o : DumperStateOptions) (n : Z) : DumperStateOptions :=
  {| optSchema := optSchema o; optIndent := Some n;
     optArrayIndent := optArrayIndent o; optSkipInvalid := optSkipInvalid o;
     optFlowLevel := optFlowLevel o; optStyles := optStyles o;
     optSortKeys := optSortKeys o; optLineWidth := optLineWidth o;
     optUseAnchors := optUseAnchors o; optCompatMode := optCompatMode o;
     optCondenseFlow := optCondenseFlow o |}.

(** A UTF-16 code unit. *)
Definition isCodeUnit (c : Z) : Prop := 0 <= c <= 0xFFFF.

(** The code point of a surrogate pair, as [escapeString] computes it. *)
Definition combineSurrogates (char nextChar : Z) : Z :=
  (char - 0xd800) * 0x400 + nextChar - 0xdc00 + 0x10000.

(** An upper-case hexadecimal digit. *)
Definition isHexDigit (c : Z) : bool :=
  ((48 <=? c) && (c <=? 57)) || ((65 <=? c) && (c <=? 70)).

(** The three shapes of an escaped character. *)
Definition verbatimPiece (p : jsstring) : Prop :=
  exists c, p = [c] /\ isPrintable c = true.

Definition namedEscape (p : jsstring) : Prop :=
  In p (map snd ESCAPE_SEQUENCES) /\ List.length p = 2%nat /\ nth_error p 0 = Some 92.

Definition hexEscape (p : jsstring) : Prop :=
  exists digits,
    Forall (fun d => isHexDigit d = true) digits /\
    ((p = lit "\x" ++ digits /\ List.length digits = 2%nat) \/
     (p = lit "\u" ++ digits /\ List.length digits = 4%nat) \/
     (p = lit "\U" ++ digits /\ List.length digits = 8%nat)).

Definition escapedPiece (p : jsstring) : Prop :=
  verbatimPiece p \/ namedEscape p \/ hexEscape p.


(** A resolved value that [stringifyNode] has no branch for: neither an
    object, an array nor a string. *)
Definition unsupportedKind (v : value) : bool :=
  match v with
  | VRef _ | VString _ => false
  | _ => true
  end.

(** ** Inputs of the examples *)

(** No option given: every default applies. *)
Definition noOptions : DumperStateOptions :=
  mkOptions None None None None None None None None None None None.

(** A schema without type matchers: every string is a plain string and
    every other scalar is an unsupported value. *)
Definition bareSchema : Schema := mkSchema [] [].

(** [flowLevel: 0], with [skipInvalid] and [condenseFlow] as given. *)
Definition flowOptions (skip condense : bool) : DumperStateOptions :=
  mkOptions None None None (Some skip) (Some 0) None None None None None (Some condense).

(** [skipInvalid], block layout. *)
Definition skipOptions (skip : bool) : DumperStateOptions :=
  mkOptions None None None (Some skip) None None None None None None None.

(** [{ a: "x", b: "z" }] *)
Definition heapTwoPairs : heap :=
  [ORecord [(lit "a", VString (lit "x")); (lit "b", VString (lit "z"))]].

(** [{ a: f, b: "x", c: "z" }] with [f] a function. *)
Definition heapInvalidFirst : heap :=
  [ORecord [(lit "a", VFunction); (lit "b", VString (lit "x"));
            (lit "c", VString (lit "z"))]].

(** [{ b: "x", a: f, c: "z" }] with [f] a function. *)
Definition heapInvalidMiddle : heap :=
  [ORecord [(lit "b", VString (lit "x")); (lit "a", VFunction);
            (lit "c", VString (lit "z"))]].

(** [{ b: "x", c: "z" }] *)
Definition heapWithoutInvalid : heap :=
  [ORecord [(lit "b", VString (lit "x")); (lit "c", VString (lit "z"))]].

(** [[f, "x", "z"]] with [f] a function. *)
Definition heapInvalidElement : heap :=
  [OArray [VFunction; VString (lit "x"); VString (lit "z")]].

(** The state [this] with the flag [arrayIndent] set to [b]. *)
Definition setArrayIndent (this : DumperState) (b : bool) : DumperState :=
  {| schema := schema this; indent := indent this; arrayIndent := b;
     skipInvalid := skipInvalid this; flowLevel := flowLevel this;
     sortKeys := sortKeys this; lineWidth := lineWidth this;
     useAnchors := useAnchors this; compatMode := compatMode this;
     condenseFlow := condenseFlow this; implicitTypes := implicitTypes this;
     explicitTypes := explicitTypes this; duplicates := duplicates this;
     usedDuplicates := usedDuplicates this; styleMap := styleMap this |}.

(** An outcome with the state after the call changed by [f]. *)
Definition mapState {A : Type} (f : DumperState -> DumperState) (r : result A)
    : result A :=
  match r with
  | Done a this => Done a (f this)
  | Raise e => Raise e
  | OutOfFuel => OutOfFuel
  end.

(** [[ "p", [ "q" ] ]]: a sequence inside a sequence. *)
Definition heapNestedSequence : heap :=
  [OArray [VString (lit "p"); VRef 1]; OArray [VString (lit "q")]].

(** The local variables of [stringifyNode], as functions of what they are
    computed from. *)
Definition blockAt (this : DumperState) (level : Z) (block : bool) : bool :=
  if block then (flowLevel this <? 0) || (level <? flowLevel this) else block.

Definition isDuplicate (this : DumperState) (a : nat) : bool :=
  negb (indexOf (duplicates this) a =? -1).

Definition compactAt (this : DumperState) (tag : option jsstring) (duplicate : bool)
    (level : Z) (compact : bool) : bool :=
  if realTag tag || duplicate || (negb (indent this =? 2) && (0 <? level))
  then false else compact.

Definition markUsed (this : DumperState) (a : nat) : DumperState :=
  if isDuplicate this a
  then setUsedDuplicates this (setAdd (usedDuplicates this) a)
  else this.

Definition arrayLevel (this : DumperState) (level : Z) : Z :=
  if negb (arrayIndent this) && (0 <? level) then level - 1 else level.

(** What [stringifyNode] does with an object that is not written as an
    alias. *)
Definition stringifyContainer (rec : nodeRenderer) (h : heap) (level : Z)
    (tag : option jsstring) (a : nat) (block compact : bool) (this : DumperState)
    : result (option jsstring) :=
  let duplicate := isDuplicate this a in
  let duplicateIndex := indexOf (duplicates this) a in
  let block' := blockAt this level block in
  let compact' := compactAt this tag duplicate level compact in
  let this' := markUsed this a in
  match deref h a with
  | ORecord props =>
      if block' && negb (List.length (map fst props) =? 0)%nat then
        wrapTag tag (withAnchor duplicate duplicateIndex []
          (stringifyBlockMapping rec props tag level compact' this'))
      else
        wrapTag tag (withAnchor duplicate duplicateIndex (lit " ")
          (stringifyFlowMapping rec props level this'))
  | OArray elems =>
      if block' && negb (List.length elems =? 0)%nat then
        wrapTag tag (withAnchor duplicate duplicateIndex []
          (stringifyBlockSequence rec elems (arrayLevel this level) compact' this'))
      else
        wrapTag tag (withAnchor duplicate duplicateIndex (lit " ")
          (stringifyFlowSequence rec elems (arrayLevel this level) this'))
  end.

(** [arrayIndent] as given, every other option at its default. *)
Definition arrayIndentOptions (b : bool) : DumperStateOptions :=
  mkOptions None None (Some b) None None None None None None None None.

(** ** The pre-scan with its sequence of visits *)

(** [inspectNode] with a record of the objects it is called on, in call
    order: [visits] grows by the object at each call on an object. *)
Fixpoint inspectEntriesVisits
    (rec : value -> list nat -> list nat -> list nat ->
           option (list nat * list nat * list nat))
    (entries : list value) (objects duplicateObjects visits : list nat)
    : option (list nat * list nat * list nat) :=
  match entries with
  | [] => Some (objects, duplicateObjects, visits)
  | value :: rest =>
      match rec value objects duplicateObjects visits with
      | Some (objects, duplicateObjects, visits) =>
          inspectEntriesVisits rec rest objects duplicateObjects visits
      | None => None
      end
  end.

Fixpoint inspectNodeVisits (fuel : nat) (h : heap) (object : value)
    (objects duplicateObjects visits : list nat)
    : option (list nat * list nat * list nat) :=
  match fuel with
  | O => None
  | S fuel =>
      match object with
      | VRef a =>
          if includes objects a
          then Some (objects, setAdd duplicateObjects a, visits ++ [a])
          else
            inspectEntriesVisits (inspectNodeVisits fuel h) (entriesOf h a)
              (objects ++ [a]) duplicateObjects (visits ++ [a])
      | _ => Some (objects, duplicateObjects, visits)
      end
  end.

(** The visits that are the first visit of their object, in order; [seen]
    are the visits before. *)
Fixpoint firstVisits (seen visits : list nat) : list nat :=
  match visits with
  | [] => []
  | a :: rest =>
      (if (count_occ Nat.eq_dec seen a =? 0)%nat then [a] else []) ++
      firstVisits (seen ++ [a]) rest
  end.

(** The visits that are the second visit of their object, in order. *)
Fixpoint secondVisits (seen visits : list nat) : list nat :=
  match visits with
  | [] => []
  | a :: rest =>
      (if (count_occ Nat.eq_dec seen a =? 1)%nat then [a] else []) ++
      secondVisits (seen ++ [a]) rest
  end.

(** [[A, B, B, A]] with [A] and [B] two empty objects. *)
Definition heapABBA : heap :=
  [OArray [VRef 1; VRef 2; VRef 2; VRef 1]; ORecord []; ORecord []].

(** An outcome meets [Q] when it is a value and a state that [Q] accepts,
    or a thrown error; [T] says whether running out of fuel is accepted. *)
Definition outcomeSat {A : Type} (T : Prop) (Q : A -> DumperState -> Prop)
    (r : result A) : Prop :=
  match r with
  | Done a this => Q a this
  | Raise _ => True
  | OutOfFuel => T
  end.

(** [st] is [this] with a larger set of used duplicates. *)
Definition extendsUsed (this st : DumperState) : Prop :=
  exists u, st = setUsedDuplicates this u /\ incl (usedDuplicates this) u.

(** ** The containment graph *)

(** The functions that [represent] of a type can call. *)
Definition representFns (t : YType) : list representFn :=
  match represent t with
  | Some (RepresentFn f) => [f]
  | Some (RepresentTable table) => map snd table
  | None => []
  end.

(** Every [represent] of the types yields a primitive value, never an
    object or an array (section 3 of the specification: a represent
    conversion produces the closest primitive printable form). *)
Definition primitiveTypes (types : list YType) : Prop :=
  forall t f h v style,
    In t types -> In f (representFns t) -> isObject (f h v style) = false.

Definition primitiveRepresent (sch : Schema) : Prop :=
  primitiveTypes (schemaImplicitTypes sch ++ schemaExplicitTypes sch).

(** [b] is an entry of the object [a]. *)
Definition child (h : heap) (a b : nat) : Prop := In (VRef b) (entriesOf h a).

(** The objects that the root [data] contains, directly or not. *)
Inductive reachable (h : heap) (data : value) : nat -> Prop :=
| reach_root : forall a, data = VRef a -> reachable h data a
| reach_child : forall a b, reachable h data a -> child h a b -> reachable h data b.

(** A path of containment from [a] to [b], of one step or more, that after
    [a] meets no object of [d]. *)
Inductive pathAvoiding (h : heap) (d : list nat) : nat -> nat -> Prop :=
| path_step : forall a b, child h a b -> ~ In b d -> pathAvoiding h d a b
| path_more : forall a b c,
    pathAvoiding h d a b -> child h b c -> ~ In c d -> pathAvoiding h d a c.

(** After the scan of [a], each entry of [a] is in [objects], and is a
    duplicate unless it was first met after [a]. *)
Definition settled (h : heap) (objects duplicateObjects : list nat) (a : nat) : Prop :=
  forall b, child h a b ->
    In b objects /\
    (indexOf objects a < indexOf objects b \/ In b duplicateObjects).

(** The objects of the store that are not yet in [objects]. *)
Definition unvisited (h : heap) (objects : list nat) : nat :=
  List.length (filter (fun a => negb (includes objects a)) (seq 0 (List.length h))).

(** What a scan adds to [objects] and [duplicateObjects]: [objects] grows
    at its end, without repetition, by objects that are settled; the set of
    duplicates grows, within [objects]. *)
Definition scanGrows (h : heap) (o d o' d' : list nat) : Prop :=
  (exists l, o' = o ++ l /\ forall x, In x l -> settled h o' d' x) /\
  (NoDup o -> NoDup o') /\
  incl d d' /\
  (incl d o -> incl d' o').

(** Where the scan leaves the object [b] that it was called on: in
    [objects], and in the set of duplicates if it was there before, else
    behind the objects that were there before. *)
Definition scanPlaces (o o' d' : list nat) (b : nat) : Prop :=
  In b o' /\
  (In b o -> In b d') /\
  (~ In b o -> Z.of_nat (List.length o) <= indexOf o' b).

(** ** The measure of the render pass *)

(** The duplicates that are not yet used. *)
Definition unusedDuplicates (this : DumperState) : nat :=
  List.length
    (filter (fun a => negb (includes (usedDuplicates this) a)) (duplicates this)).

(** A bound on the depth of the calls that rendering [v] makes, given the
    array [objects] of the pre-scan: an alias needs none; below a duplicate
    that is not yet used, one duplicate less is unused; below any other
    object come duplicates, or objects that are behind it in [objects]. *)
Definition renderWeight (objects : list nat) (this : DumperState) (v : value) : nat :=
  match v with
  | VRef a =>
      let n := List.length objects in
      if isDuplicate this a then
        if includes (usedDuplicates this) a then 0
        else unusedDuplicates this * (n + 2)
      else
        unusedDuplicates this * (n + 2) + (n - Z.to_nat (indexOf objects a)) + 1
  | _ => 0
  end.

(** A state of the render pass: its duplicates are those of the pre-scan
    and its types yield primitive values. *)
Definition renderReady (duplicateObjects : list nat) (this : DumperState) : Prop :=
  duplicates this = duplicateObjects /\
  primitiveTypes (implicitTypes this ++ explicitTypes this).

(** A type in the shape of the null type of the library: it matches
    [null] and represents it by a word, in one of three styles. *)
Definition nullType : YType :=
  {| tag := lit "tag:yaml.org,2002:null";
     resolve := fun s => includesStr (map lit ["~"; "null"; "Null"; "NULL"]%string) s;
     predicate := Some (fun _ v => match v with VNull => true | _ => false end);
     represent :=
       Some (RepresentTable
               [ (lit "lowercase", fun _ _ _ => VString (lit "null"));
                 (lit "uppercase", fun _ _ _ => VString (lit "NULL"));
                 (lit "camelcase", fun _ _ _ => VString (lit "Null")) ]);
     defaultStyle := Some (lit "lowercase") |}.

(** A schema with the null type as its one implicit type. *)
Definition nullSchema : Schema := mkSchema [nullType] [].

(** [a = { self: a, none: null }]: an object that contains itself. *)
Definition heapSelf : heap :=
  [ORecord [(lit "self", VRef 0); (lit "none", VNull)]].

(** [{ x: S, y: S }] with [S = { k: "v" }]: one object referenced
    twice. *)
Definition heapShared : heap :=
  [ORecord [(lit "x", VRef 1); (lit "z", VRef 1)];
   ORecord [(lit "k", VString (lit "v"))]].

(** ** Rendering with the anchors and aliases marked

    The methods below are the [stringify*] methods again, word for word,
    except that the text they build is kept as a list of segments: plain
    text, the anchor of a duplicate, the alias of a duplicate.  Joining
    the segments gives the string of the methods above
    ([stringifyMarked_text]); the marks tell an anchor that the dumper
    wrote from the same characters inside a scalar. *)

Inductive segment :=
| Text (s : jsstring)
| Anchor (n : Z)
| Alias (n : Z).

Definition segmentText (g : segment) : jsstring :=
  match g with
  | Text s => s
  | Anchor n => anchorText n
  | Alias n => aliasText n
  end.

(** The string that a list of segments stands for. *)
Definition textOf (segs : list segment) : jsstring := flat_map segmentText segs.

Definition markedRenderer :=
  Z -> value -> bool -> bool -> bool -> DumperState -> result (option (list segment)).

Fixpoint flowSequenceLoopMarked (rec : markedRenderer) (elems : list value)
    (index level : Z) (res : list segment) (this : DumperState)
    : result (list segment) :=
  match elems with
  | [] => Done res this
  | elem :: rest =>
      match rec level elem false false false this with
      | Done None this => flowSequenceLoopMarked rec rest (index + 1) level res this
      | Done (Some string) this =>
          let res :=
            if negb (index =? 0) then res ++ [Text (flowSeparator this)] else res in
          flowSequenceLoopMarked rec rest (index + 1) level (res ++ string) this
      | Raise e => Raise e
      | OutOfFuel => OutOfFuel
      end
  end.

Definition stringifyFlowSequenceMarked (rec : markedRenderer) (object : list value)
    (level : Z) (this : DumperState) : result (list segment) :=
  match flowSequenceLoopMarked rec object 0 level [] this with
  | Done res this => Done ([Text (lit "[")] ++ res ++ [Text (lit "]")]) this
  | Raise e => Raise e
  | OutOfFuel => OutOfFuel
  end.

Fixpoint blockSequenceLoopMarked (rec : markedRenderer) (elems : list value)
    (index level : Z) (compact : bool) (res : list segment) (this : DumperState)
    : result (list segment) :=
  match elems with
  | [] => Done res this
  | elem :: rest =>
      match rec (level + 1) elem true true false this with
      | Done None this =>
          blockSequenceLoopMarked rec rest (index + 1) level compact res this
      | Done (Some string) this =>
          let res :=
            if negb compact || negb (index =? 0)
            then res ++ [Text (generateNextLine (indent this) level)] else res in
          let res :=
            if indexIs (textOf string) 0 LINE_FEED
            then res ++ [Text (lit "-")] else res ++ [Text (lit "- ")] in
          blockSequenceLoopMarked rec rest (index + 1) level compact (res ++ string) this
      | Raise e => Raise e
      | OutOfFuel => OutOfFuel
      end
  end.

(** [result || s]: the text [s] when the segments stand for the empty
    string. *)
Definition orText (res : list segment) (s : jsstring) : list segment :=
  match textOf res with
  | [] => [Text s]
  | _ => res
  end.

Definition stringifyBlockSequenceMarked (rec : markedRenderer) (object : list value)
    (level : Z) (compact : bool) (this : DumperState) : result (list segment) :=
  match blockSequenceLoopMarked rec object 0 level compact [] this with
  | Done res this => Done (orText res (lit "[]")) this
  | Raise e => Raise e
  | OutOfFuel => OutOfFuel
  end.

Fixpoint flowMappingLoopMarked (rec : markedRenderer) (object : list (jsstring * value))
    (objectKeyList : list jsstring) (index level : Z) (res : list segment)
    (this : DumperState) : result (list segment) :=
  match objectKeyList with
  | [] => Done res this
  | objectKey :: rest =>
      let pairBuffer := [Text (condenseQuote this)] in
      let pairBuffer :=
        if negb (index =? 0) then pairBuffer ++ [Text (lit ", ")] else pairBuffer in
      let objectValue := getProp object objectKey in
      match rec level (VString objectKey) false false false this with
      | Done None this => flowMappingLoopMarked rec object rest (index + 1) level res this
      | Done (Some keyString) this =>
          let pairBuffer :=
            if 1024 <? strlen (textOf keyString)
            then pairBuffer ++ [Text (lit "? ")] else pairBuffer in
          let pairBuffer :=
            pairBuffer ++ keyString ++
            [Text (condenseQuote this ++ lit ":" ++
                   (if condenseFlow this then [] else lit " "))] in
          match rec level objectValue false false false this with
          | Done None this =>
              flowMappingLoopMarked rec object rest (index + 1) level res this
          | Done (Some valueString) this =>
              flowMappingLoopMarked rec object rest (index + 1) level
                (res ++ pairBuffer ++ valueString) this
          | Raise e => Raise e
          | OutOfFuel => OutOfFuel
          end
      | Raise e => Raise e
      | OutOfFuel => OutOfFuel
      end
  end.

Definition stringifyFlowMappingMarked (rec : markedRenderer)
    (object : list (jsstring * value)) (level : Z) (this : DumperState)
    : result (list segment) :=
  match flowMappingLoopMarked rec object (map fst object) 0 level [] this with
  | Done res this => Done ([Text (lit "{")] ++ res ++ [Text (lit "}")]) this
  | Raise e => Raise e
  | OutOfFuel => OutOfFuel
  end.

Fixpoint blockMappingLoopMarked (rec : markedRenderer)
    (object : list (jsstring * value)) (tag : option jsstring)
    (objectKeyList : list jsstring) (index level : Z) (compact : bool)
    (res : list segment) (this : DumperState) : result (list segment) :=
  match objectKeyList with
  | [] => Done res this
  | objectKey :: rest =>
      let pairBuffer :=
        if negb compact || negb (index =? 0)
        then [Text (generateNextLine (indent this) level)] else [] in
      let objectValue := getProp object objectKey in
      match rec (level + 1) (VString objectKey) true true true this with
      | Done None this =>
          blockMappingLoopMarked rec object tag rest (index + 1) level compact res this
      | Done (Some keyString) this =>
          let explicitPair :=
            match tag with
            | Some t => negb (jsstring_eqb t (lit "?"))
            | None => false
            end || (1024 <? strlen (textOf keyString)) in
          let pairBuffer :=
            if explicitPair then
              if indexIs (textOf keyString) 0 LINE_FEED
              then pairBuffer ++ [Text (lit "?")] else pairBuffer ++ [Text (lit "? ")]
            else pairBuffer in
          let pairBuffer := pairBuffer ++ keyString in
          let pairBuffer :=
            if explicitPair
            then pairBuffer ++ [Text (generateNextLine (indent this) level)]
            else pairBuffer in
          match rec (level + 1) objectValue true explicitPair false this with
          | Done None this =>
              blockMappingLoopMarked rec object tag rest (index + 1) level compact res this
          | Done (Some valueString) this =>
              let pairBuffer :=
                if indexIs (textOf valueString) 0 LINE_FEED
                then pairBuffer ++ [Text (lit ":")] else pairBuffer ++ [Text (lit ": ")] in
              blockMappingLoopMarked rec object tag rest (index + 1) level compact
                (res ++ pairBuffer ++ valueString) this
          | Raise e => Raise e
          | OutOfFuel => OutOfFuel
          end
      | Raise e => Raise e
      | OutOfFuel => OutOfFuel
      end
  end.

Definition stringifyBlockMappingMarked (rec : markedRenderer)
    (object : list (jsstring * value)) (tag : option jsstring) (level : Z)
    (compact : bool) (this : DumperState) : result (list segment) :=
  let objectKeyList := map fst object in
  let sorted :=
    match sortKeys this with
    | SortKeysBool true => Ok (sortWith defaultCompare objectKeyList)
    | SortKeysFn compare => Ok (sortWith compare objectKeyList)
    | SortKeysOther true => Throw SortKeysInvalid
    | _ => Ok objectKeyList
    end in
  match sorted with
  | Throw e => Raise e
  | Ok objectKeyList =>
      match blockMappingLoopMarked rec object tag objectKeyList 0 level compact [] this with
      | Done res this => Done (orText res (lit "{}")) this
      | Raise e => Raise e
      | OutOfFuel => OutOfFuel
      end
  end.

Definition wrapTagMarked (tag : option jsstring) (r : result (list segment))
    : result (option (list segment)) :=
  match r with
  | Done object this =>
      Done (Some (if realTag tag
                  then Text (lit "!<" ++ orDefault tag [] ++ lit "> ") :: object
                  else object)) this
  | Raise e => Raise e
  | OutOfFuel => OutOfFuel
  end.

Definition withAnchorMarked (duplicate : bool) (duplicateIndex : Z) (sep : jsstring)
    (r : result (list segment)) : result (list segment) :=
  match r with
  | Done object this =>
      Done (if duplicate then Anchor duplicateIndex :: Text sep :: object else object)
           this
  | other => other
  end.

Definition stringifyNodeBodyMarked (rec : markedRenderer) (h : heap) (level : Z)
    (object : value) (block compact isKey : bool) (this : DumperState)
    : result (option (list segment)) :=
  match resolveType this h object with
  | Throw e => Raise e
  | Ok (tag, object) =>
    let block :=
      if block then (flowLevel this <? 0) || (level <? flowLevel this) else block in
    let objectOrArray := isObject object || isArray h object in
    let duplicateIndex :=
      if objectOrArray then valueIndexOf (duplicates this) object else -1 in
    let duplicate := negb (duplicateIndex =? -1) in
    let compact :=
      if realTag tag || duplicate || (negb (indent this =? 2) && (0 <? level))
      then false else compact in
    if duplicate && valueHas (usedDuplicates this) object then
      Done (Some [Alias duplicateIndex]) this
    else
      let this :=
        if objectOrArray && duplicate
        then setUsedDuplicates this (valueAdd (usedDuplicates this) object)
        else this in
      match object with
      | VRef a =>
          match deref h a with
          | ORecord props =>
              if block && negb (List.length (map fst props) =? 0)%nat then
                wrapTagMarked tag (withAnchorMarked duplicate duplicateIndex []
                  (stringifyBlockMappingMarked rec props tag level compact this))
              else
                wrapTagMarked tag (withAnchorMarked duplicate duplicateIndex (lit " ")
                  (stringifyFlowMappingMarked rec props level this))
          | OArray elems =>
              let arrayLevel :=
                if negb (arrayIndent this) && (0 <? level) then level - 1 else level in
              if block && negb (List.length elems =? 0)%nat then
                wrapTagMarked tag (withAnchorMarked duplicate duplicateIndex []
                  (stringifyBlockSequenceMarked rec elems arrayLevel compact this))
              else
                wrapTagMarked tag (withAnchorMarked duplicate duplicateIndex (lit " ")
                  (stringifyFlowSequenceMarked rec elems arrayLevel this))
          end
      | VString s =>
          if notQuestionTag tag then
            match stringifyScalar this s level isKey with
            | Ok text => wrapTagMarked tag (Done [Text text] this)
            | Throw e => Raise e
            end
          else wrapTagMarked tag (Done [Text s] this)
      | _ =>
          if skipInvalid this then Done None this
          else Raise (UnacceptableKind object)
      end
  end.

Fixpoint stringifyNodeMarked (fuel : nat) (h : heap) (level : Z) (object : value)
    (block compact isKey : bool) (this : DumperState)
    : result (option (list segment)) :=
  match fuel with
  | O => OutOfFuel
  | S fuel =>
      stringifyNodeBodyMarked (stringifyNodeMarked fuel h) h level object
        block compact isKey this
  end.

Definition stringifyMarked (fuel : nat) (h : heap) (data : value) (this : DumperState)
    : result (list segment) :=
  match (if useAnchors this then getDuplicateReferences fuel h data this
         else Some this) with
  | None => OutOfFuel
  | Some this =>
      match stringifyNodeMarked fuel h 0 data true true false this with
      | Done (Some string) this => Done (string ++ [Text [LINE_FEED]]) this
      | Done None this => Done [] this
      | Raise e => Raise e
      | OutOfFuel => OutOfFuel
      end
  end.

(** The outcome of a marked method, with the segments joined. *)
Definition joined (r : result (list segment)) : result jsstring :=
  match r with
  | Done segs this => Done (textOf segs) this
  | Raise e => Raise e
  | OutOfFuel => OutOfFuel
  end.

Definition joinedNode (r : result (option (list segment))) : result (option jsstring) :=
  match r with
  | Done segs this => Done (option_map textOf segs) this
  | Raise e => Raise e
  | OutOfFuel => OutOfFuel
  end.

(** Every alias in [segs] comes after an anchor with its number, or its
    number is in [seen], the anchors written before [segs]. *)
Fixpoint aliasesFollowAnchors (seen : list Z) (segs : list segment) : bool :=
  match segs with
  | [] => true
  | Text _ :: rest => aliasesFollowAnchors seen rest
  | Anchor n :: rest => aliasesFollowAnchors (n :: seen) rest
  | Alias n :: rest => existsb (Z.eqb n) seen && aliasesFollowAnchors seen rest
  end.

(** The numbers of the anchors in [segs]. *)
Fixpoint anchorsOf (segs : list segment) : list Z :=
  match segs with
  | [] => []
  | Anchor n :: rest => n :: anchorsOf rest
  | _ :: rest => anchorsOf rest
  end.

(** No anchor and no alias in [segs]. *)
Definition noMarks (segs : list segment) : bool :=
  forallb (fun g => match g with Text _ => true | _ => false end) segs.

(** The number of every anchor and alias in [segs] is an index below
    [k]. *)
Definition marksBelow (k : Z) (segs : list segment) : bool :=
  forallb (fun g => match g with
                    | Text _ => true
                    | Anchor n | Alias n => (0 <=? n) && (n <? k)
                    end) segs.

(** The number of every used duplicate is in [seen]. *)
Definition usedAreSeen (seen : list Z) (this : DumperState) : Prop :=
  forall a, In a (usedDuplicates this) -> In (indexOf (duplicates this) a) seen.

(** [useAnchors] as given, every other option at its default. *)
Definition anchorOptions (b : bool) : DumperStateOptions :=
  mkOptions None None None None None None None None (Some b) None None.

(** The segments [res] written since the state [this0], when the anchors
    [seen0] were written before: the state has only gained used
    duplicates, every alias of [res] follows its anchor, and every used
    duplicate has its anchor in [seen0] or in [res]. *)
Definition markedSoFar (this0 : DumperState) (seen0 : list Z) (res : list segment)
    (this : DumperState) : Prop :=
  extendsUsed this0 this /\
  aliasesFollowAnchors seen0 res = true /\
  usedAreSeen (anchorsOf res ++ seen0) this /\
  marksBelow (Z.of_nat (List.length (duplicates this0))) res = true.

(** What a call of the marked [stringifyNode] on [v] returns: segments as
    above, without marks and without a change of state when [v] is not an
    object; or [null], without a change of state. *)
Definition nodeMarked (v : value) (seen : list Z) (this : DumperState)
    (o : option (list segment)) (this' : DumperState) : Prop :=
  match o with
  | Some segs =>
      markedSoFar this seen segs this' /\
      (isObject v = false -> noMarks segs = true /\ this' = this)
  | None => this' = this
  end.

(** [sortKeys: true], every other option at its default. *)
Definition sortOptions : DumperStateOptions :=
  mkOptions None None None None None None (Some (SortKeysBool true)) None None None None.

(** [lineWidth] as given, every other option at its default. *)
Definition widthOptions (w : Z) : DumperStateOptions :=
  mkOptions None None None None None None None (Some w) None None None.

(** [{ b: "1st", a: "2nd" }] *)
Definition heapUnsorted : heap :=
  [ORecord [(lit "b", VString (lit "1st")); (lit "a", VString (lit "2nd"))]].

(** The text of a successful outcome, the empty string otherwise. *)
Definition textDone (r : result jsstring) : jsstring :=
  match r with Done s _ => s | _ => [] end.

(** ** Reading back what the encoders write *)

(** The value of an upper-case hexadecimal digit, and of a digit string. *)
Definition hexValue (d : Z) : Z := if d <? 58 then d - 48 else d - 55.

Definition parseHex (digits : jsstring) : Z :=
  fold_left (fun acc d => acc * 16 + hexValue d) digits 0.

(** The value of a decimal digit string. *)
Definition parseDecimal (digits : jsstring) : Z :=
  fold_left (fun acc d => acc * 10 + (d - 48)) digits 0.

(** The escape letter that a [charCodeToHexString] result starts with, and
    the number of digits that follow it. *)
Definition hexPrefix (charCode : Z) : jsstring :=
  if charCode <=? 0xff then lit "\x"
  else if charCode <=? 0xffff then lit "\u" else lit "\U".

Definition hexWidth (charCode : Z) : nat :=
  if charCode <=? 0xff then 2 else if charCode <=? 0xffff then 4 else 8.

(** ** Folding, seen from the folded line *)

(** [chars] with a line feed in place of the character at each index of
    [breaks]; [i] is the index of the first character of [chars]. *)
Fixpoint breakAll (breaks : list Z) (chars : jsstring) (i : Z) : jsstring :=
  match chars with
  | [] => []
  | c :: rest =>
      (if existsb (Z.eqb i) breaks then LINE_FEED else c) :: breakAll breaks rest (i + 1)
  end.

(** A place where a line may be broken: a space followed by a character
    that is not a space. *)
Definition validBreak (line : jsstring) (i : Z) : Prop :=
  strIndex line i = Some SPACE /\
  exists e, strIndex line (i + 1) = Some e /\ e <> SPACE.

(** Strictly increasing indices, all above [lo]. *)
Fixpoint increasingFrom (lo : Z) (ms : list Z) : Prop :=
  match ms with
  | [] => True
  | m :: rest => lo < m /\ increasingFrom m rest
  end.

(** The lines pushed so far, each with its line feed. *)
Definition linesText (lines : list jsstring) : jsstring :=
  flat_map (fun l => l ++ [LINE_FEED]) lines.

(** ** Lines, tags and quotes *)

(** A string without a line feed. *)
Definition oneLine (s : jsstring) : bool :=
  negb (existsb (fun c => c =? LINE_FEED) s).

(** What [indentString] does to one line. *)
Definition indentLine (spaces : Z) (line : jsstring) : jsstring :=
  match line with [] => [] | _ => repeatSpace spaces ++ line end.

(** The tag under which [compileStyleMap] files a style. *)
Definition longTag (tag : jsstring) : jsstring :=
  if jsstring_eqb (firstn 2 tag) (lit "!!")
  then lit "tag:yaml.org,2002:" ++ skipn 2 tag
  else tag.

(** The content of a single-quoted scalar: a doubled quote stands for one
    quote. *)
Fixpoint singleQuotedContent (s : jsstring) : jsstring :=
  match s with
  | c :: ((d :: rest') as rest) =>
      if (c =? SINGLE_QUOTE) && (d =? SINGLE_QUOTE)
      then c :: singleQuotedContent rest'
      else c :: singleQuotedContent rest
  | _ => s
  end.

(** ** Reading double-quoted text *)

(** Where a reader of double-quoted text stands: between characters, after
    a backslash, or inside a hexadecimal escape with [remaining] digits to
    come and [value] read so far. *)
Inductive escapeState :=
| Unescaped
| AfterBackslash
| InHex (remaining : nat) (value : Z).

(** The character that a one-letter escape stands for: the key of
    [ESCAPE_SEQUENCES] whose escape is the backslash and that letter. *)
Definition namedEscapeCode (letter : Z) : option Z :=
  option_map fst (find (fun e => jsstring_eqb (snd e) [92; letter]) ESCAPE_SEQUENCES).

(** The code units of a code point: itself, or its surrogate pair. *)
Definition codeUnits (codePoint : Z) : jsstring :=
  if codePoint <? 0x10000 then [codePoint]
  else [0xd800 + (codePoint - 0x10000) / 0x400;
        0xdc00 + (codePoint - 0x10000) mod 0x400].

(** The string that double-quoted text stands for; [None] when the text
    holds a quote that is not escaped, an unknown escape or an escape that
    is cut short. *)
Fixpoint readDoubleQuoted (st : escapeState) (s : jsstring) : option jsstring :=
  match s with
  | [] => match st with Unescaped => Some [] | _ => None end
  | c :: rest =>
      match st with
      | Unescaped =>
          if c =? 92 then readDoubleQuoted AfterBackslash rest
          else if c =? DOUBLE_QUOTE then None
          else option_map (cons c) (readDoubleQuoted Unescaped rest)
      | AfterBackslash =>
          if c =? 120 then readDoubleQuoted (InHex 2 0) rest
          else if c =? 117 then readDoubleQuoted (InHex 4 0) rest
          else if c =? 85 then readDoubleQuoted (InHex 8 0) rest
          else match namedEscapeCode c with
               | Some code => option_map (cons code) (readDoubleQuoted Unescaped rest)
               | None => None
               end
      | InHex O _ => None
      | InHex (S n) value =>
          let value := value * 16 + hexValue c in
          match n with
          | O => option_map (app (codeUnits value)) (readDoubleQuoted Unescaped rest)
          | S _ => readDoubleQuoted (InHex n value) rest
          end
      end
  end.

Definition doubleQuotedContent (s : jsstring) : option jsstring :=
  readDoubleQuoted Unescaped s.

(** ** Types and keys *)

(** [type.predicate?.(object)] *)
Definition accepts (h : heap) (type : YType) (object : value) : bool :=
  match predicate type with Some p => p h object | None => false end.

(** The order of [sortKeys: true]: [a] may stand before [b]. *)
Definition keyOrder (a b : jsstring) : Prop := defaultCompare a b <= 0.

(** ** Flow layout *)

(** The types of the schema write nothing over several lines on their own
    account: a tag has no line feed, and a string that is written without
    passing [stringifyScalar] (the tag is [?]) has none. *)
Definition oneLineTypes (this : DumperState) (h : heap) : Prop :=
  forall v tg o,
    resolveType this h v = Ok (tg, o) ->
    (forall name, tg = Some name -> oneLine name = true) /\
    (notQuestionTag tg = false -> forall s, o = VString s -> oneLine s = true).

(** Every node from [level] on is in flow layout, sequences included. *)
Definition flowFrom (this : DumperState) (level : Z) : Prop :=
  0 <= flowLevel this <= level /\
  (arrayIndent this = true \/ flowLevel this = 0).

(** [[ "a\nb", { k: "v" } ]]: a sequence with a string of two lines. *)
Definition heapTwoLines : heap :=
  [OArray [VString [97; LINE_FEED; 98]; VRef 1];
   ORecord [(lit "k", VString (lit "v"))]].

(** [{ a: [ "x\ny" ] }] *)
Definition heapTwoLinesNested : heap :=
  [ORecord [(lit "a", VRef 1)]; OArray [VString [120; LINE_FEED; 121]]].

(** [flowLevel] and [arrayIndent] as given, every other option at its
    default. *)
Definition flowLevelOptions (level : Z) (arrays : bool) : DumperStateOptions :=
  mkOptions None None (Some arrays) None (Some level) None None None None None None.

(** The state [this] with the option [sortKeys] set to [s]. *)
Definition setSortKeys (this : DumperState) (s : sortKeysOption) : DumperState :=
  {| schema := schema this; indent := indent this; arrayIndent := arrayIndent this;
     skipInvalid := skipInvalid this; flowLevel := flowLevel this;
     sortKeys := s; lineWidth := lineWidth this;
     useAnchors := useAnchors this; compatMode := compatMode this;
     condenseFlow := condenseFlow this; implicitTypes := implicitTypes this;
     explicitTypes := explicitTypes this; duplicates := duplicates this;
     usedDuplicates := usedDuplicates this; styleMap := styleMap this |}.

(** The state [this] with the option [condenseFlow] set to [c]. *)
Definition setCondenseFlow (this : DumperState) (c : bool) : DumperState :=
  {| schema := schema this; indent := indent this; arrayIndent := arrayIndent this;
     skipInvalid := skipInvalid this; flowLevel := flowLevel this;
     sortKeys := sortKeys this; lineWidth := lineWidth this;
     useAnchors := useAnchors this; compatMode := compatMode this;
     condenseFlow := c; implicitTypes := implicitTypes this;
     explicitTypes := explicitTypes this; duplicates := duplicates this;
     usedDuplicates := usedDuplicates this; styleMap := styleMap this |}.

(** [sortKeys] set to a value that is neither a boolean nor a function,
    [flowLevel] as given. *)
Definition badSortOptions (level : Z) : DumperStateOptions :=
  mkOptions None None None None (Some level) None (Some (SortKeysOther true))
            None None None None.

(** ** References *)

(** The object that a value refers to, if it is one. *)
Definition refOf (v : value) : list nat :=
  match v with VRef a => [a] | _ => [] end.

(** The objects that the entries of [a] refer to, once for each entry. *)
Definition refsOf (h : heap) (a : nat) : list nat :=
  flat_map refOf (entriesOf h a).

(** How often [a] is referred to: by the root [data] and by the entries of
    the objects in [objects]. *)
Definition references (h : heap) (data : value) (objects : list nat) (a : nat) : nat :=
  count_occ Nat.eq_dec (refOf data ++ flat_map (refsOf h) objects) a.

(** ** Cycles without anchors *)

(** [a] lies on a cycle of containment. *)
Definition onCycle (h : heap) (a : nat) : Prop := pathAvoiding h [] a a.

(** The keys of each object of the store are distinct, as the keys of a
    JavaScript object are. *)
Definition distinctKeys (h : heap) : Prop :=
  forall a props, deref h a = ORecord props -> NoDup (map fst props).

(** No type of the schema accepts a string or an object of the store:
    they are written as themselves. *)
Definition plainSchema (this : DumperState) (h : heap) : Prop :=
  forall t v,
    In t (implicitTypes this ++ explicitTypes this) ->
    isObject v = true \/ (exists s, v = VString s) ->
    accepts h t v = false.

(** Some call of [stringifyNode] on [v], with fuel [fuel] and a state that
    comes after [this], returns. *)
Definition rendered (fuel : nat) (h : heap) (this : DumperState) (v : value) : Prop :=
  exists level block compact isKey st o st',
    extendsUsed this st /\
    stringifyNode fuel h level v block compact isKey st = Done o st'.

(** * The tar reader in the second part of the file: its pure helpers

    [TarEntry] and [Untar] read from a [Reader]; the helpers below work on
    bytes only.  A [Uint8Array] is a list of integers. *)

(** [initialChecksum]: eight checksum bytes taken to be spaces. *)
Definition initialChecksum : Z := 8 * 32.

(** [buffer.indexOf(0)], counting from [i]. *)
Fixpoint indexOfZero (buffer : list Z) (i : Z) : Z :=
  match buffer with
  | [] => -1
  | b :: rest => if b =? 0 then i else indexOfZero rest (i + 1)
  end.

Definition trim (buffer : list Z) : list Z :=
  let index := indexOfZero buffer 0 in
  if index =? -1 then buffer else firstn (Z.to_nat index) buffer.

(** The loop of [#checksum] from index [i], with [n] rounds to go; [None]
    is [NaN], the sum once it has met an index outside [header]. *)
Fixpoint checksumLoop (n : nat) (i : Z) (header : list Z) (sum : option Z) : option Z :=
  match n with
  | O => sum
  | S n' =>
      if (148 <=? i) && (i <? 156) then checksumLoop n' (i + 1) header sum
      else
        checksumLoop n' (i + 1) header
          (match sum, strIndex header i with
           | Some s, Some b => Some (s + b)
           | _, _ => None
           end)
  end.

(** [HEADER_LENGTH] of [_common.ts] is not part of the sources at hand and
    is a parameter. *)
Definition checksum (HEADER_LENGTH : Z) (header : list Z) : option Z :=
  checksumLoop (Z.to_nat HEADER_LENGTH) 0 header (Some initialChecksum).

(** The entry size that the constructor of [TarEntry] computes from
    [fileSize], which may be missing: [Math.ceil(size / HEADER_LENGTH)]
    blocks. *)
Definition entrySize (HEADER_LENGTH : Z) (fileSize : option Z) : Z :=
  let size := match fileSize with Some n => n | None => 0 end in
  let blocks := - ((- size) / HEADER_LENGTH) in
  blocks * HEADER_LENGTH.

(** The header with its checksum field, the bytes 148 to 155, replaced. *)
Definition withChecksumField (header field : list Z) : list Z :=
  firstn 148 header ++ field ++ skipn 156 header.

(** ** Entries that are skipped *)

(** Every entry of the object [a] resolves to a value that
    [stringifyNode] has no branch for. *)
Definition allUnsupported (this : DumperState) (h : heap) (a : nat) : Prop :=
  forall e, In e (entriesOf h a) ->
    exists tg rv, resolveType this h e = Ok (tg, rv) /\ unsupportedKind rv = true.

(** The keys of the object [a], if it is not an array, are strings of
    code units. *)
Definition keysAreCodeUnits (h : heap) (a : nat) : Prop :=
  forall props, deref h a = ORecord props ->
    Forall (fun k => Forall isCodeUnit k) (map fst props).

(** The text of a container without entries. *)
Definition emptyBrackets (h : heap) (a : nat) : jsstring :=
  match deref h a with
  | OArray _ => lit "[]"
  | ORecord _ => lit "{}"
  end.

(** [[ f, g ]] with [f] and [g] functions. *)
Definition heapOnlyFunctions : heap := [OArray [VFunction; VFunction]].

(** [condenseFlow] as given, block layout. *)
Definition condenseOptions (c : bool) : DumperStateOptions :=
  mkOptions None None None None None None None None None None (Some c).

(** ** Folded lines *)

(** A line without a place to break it. *)
Definition unbreakable (l : jsstring) : Prop := forall m, ~ validBreak l m.

(** A line that keeps to the width, or cannot be broken. *)
Definition fitsOrUnbreakable (width : Z) (l : jsstring) : Prop :=
  strlen l <= width \/ unbreakable l.

(** ** Anchors, once each *)

(** The segments [res] written between the states [this0] and [this]: the
    duplicates marked as used in between are new and without repetition,
    and their anchors are the anchors of [res], in the same order. *)
Definition anchored (this0 : DumperState) (res : list segment) (this : DumperState)
    : Prop :=
  exists added,
    this = setUsedDuplicates this0 (usedDuplicates this0 ++ added) /\
    anchorsOf res = map (indexOf (duplicates this0)) added /\
    NoDup added /\
    forall a, In a added -> In a (duplicates this0) /\ ~ In a (usedDuplicates this0).

(** What a call of the marked [stringifyNode] on [v] returns, as to
    anchors. *)
Definition nodeAnchored (v : value) (this : DumperState)
    (o : option (list segment)) (this' : DumperState) : Prop :=
  match o with
  | Some segs =>
      anchored this segs this' /\
      (isObject v = false -> noMarks segs = true /\ this' = this)
  | None => this' = this
  end.

(** ** Reading a literal block *)

(** A line without the [spaces] characters in front. *)
Definition unindentLine (spaces : Z) (line : jsstring) : jsstring :=
  skipn (Z.to_nat spaces) line.

(** The string that the body of a literal block stands for: its lines
    without their indentation, with a line feed at the end when one is to
    be restored. *)
Definition literalContent (spaces : Z) (body : jsstring) (finalLineFeed : bool)
    : jsstring :=
  joinLF (map (unindentLine spaces) (splitLF body)) ++
  (if finalLineFeed then [LINE_FEED] else []).

(** ** The characters of an escaped string *)

(** The characters of a string as the loop of [escapeString] takes them: a
    high surrogate with the low surrogate after it is one character, and
    every other code unit is one. *)
Fixpoint characters (chars : jsstring) : list jsstring :=
  match chars with
  | [] => []
  | char :: rest =>
      if isHighSurrogate char then
        match rest with
        | nextChar :: rest' =>
            if isLowSurrogate nextChar
            then [char; nextChar] :: characters rest'
            else [char] :: characters rest
        | [] => [char] :: characters rest
        end
      else [char] :: characters rest
  end.

(** The hexadecimal escape of the code [code]: the prefix and the number
    of digits that go with its size, and digits that are the code. *)
Definition hexEscapeOf (code : Z) (piece : jsstring) : Prop :=
  exists digits,
    piece = hexPrefix code ++ digits /\
    List.length digits = hexWidth code /\
    Forall (fun d => isHexDigit d = true) digits /\
    parseHex digits = code.

(** How one character is written: a surrogate pair as the hexadecimal
    escape of its code point; a code unit with a named escape as that
    escape; any other code unit as itself when it is printable, and as its
    hexadecimal escape when it is not. *)
Definition emittedAs (character piece : jsstring) : Prop :=
  match character with
  | [char] =>
      match mapGet ESCAPE_SEQUENCES char with
      | Some escapeSeq => piece = escapeSeq /\ namedEscape piece
      | None =>
          if isPrintable char then piece = [char] else hexEscapeOf char piece
      end
  | [char; nextChar] =>
      isHighSurrogate char = true /\ isLowSurrogate nextChar = true /\
      hexEscapeOf (combineSurrogates char nextChar) piece
  | _ => False
  end.

(** ** The two passes of [stringify] *)



(** ** The text of a sequence *)

(** The elements [elems] as a sequence method renders them, one after the
    other, each by a call of [rec] at [level]: [texts] has the text of
    each element, [None] for an element that is skipped, and [this'] is
    the state after the last call. *)
Fixpoint elementsRendered (rec : nodeRenderer) (level : Z) (block compact : bool)
    (elems : list value) (this : DumperState) (texts : list (option jsstring))
    (this' : DumperState) : Prop :=
  match elems, texts with
  | [], [] => this' = this
  | elem :: rest, text :: texts' =>
      exists st,
        rec level elem block compact false this = Done text st /\
        elementsRendered rec level block compact rest st texts' this'
  | _, _ => False
  end.

(** The text that [stringifyBlockSequence] builds at [level] from the
    texts of the elements, from the element with index [index] on: each
    element that is not skipped is put on a line of its own, which starts
    with [indent * level] spaces and a dash; the line break is left out
    before the first element when [compact] is set. *)
Fixpoint blockSequenceText (this : DumperState) (level : Z) (compact : bool)
    (index : Z) (texts : list (option jsstring)) : jsstring :=
  match texts with
  | [] => []
  | None :: rest => blockSequenceText this level compact (index + 1) rest
  | Some string :: rest =>
      (if negb compact || negb (index =? 0)
       then generateNextLine (indent this) level else []) ++
      (if indexIs string 0 LINE_FEED then lit "-" else lit "- ") ++ string ++
      blockSequenceText this level compact (index + 1) rest
  end.

(** The text that [stringifyFlowSequence] builds between the brackets. *)
Fixpoint flowSequenceText (this : DumperState) (index : Z)
    (texts : list (option jsstring)) : jsstring :=
  match texts with
  | [] => []
  | None :: rest => flowSequenceText this (index + 1) rest
  | Some string :: rest =>
      (if negb (index =? 0) then flowSeparator this else []) ++ string ++
      flowSequenceText this (index + 1) rest
  end.

(** [result || text] *)
Definition orElse (result text : jsstring) : jsstring :=
  match result with
  | [] => text
  | _ => result
  end.

(** [{ a: ["x", "z"] }]: a sequence inside a mapping. *)
Definition heapSequenceInMapping : heap :=
  [ORecord [(lit "a", VRef 1)]; OArray [VString (lit "x"); VString (lit "z")]].

(** ** What the render pass reaches *)

(** The types of the schema leave the objects objects and the keys
    strings: an object resolves to itself, with or without a tag, and a
    key of an object of the store resolves to a string. *)
Definition rendersAsIs (this : DumperState) (h : heap) : Prop :=
  (forall a, exists tag, resolveType this h (VRef a) = Ok (tag, VRef a)) /\
  (forall a props k,
     deref h a = ORecord props -> In k (map fst props) ->
     exists tag s, resolveType this h (VString k) = Ok (tag, VString s)).

(** The objects [visited] are those that calls of [stringifyNode] between
    the states [this] and [this'] have written in full: every entry of a
    visited object is visited too or is a used duplicate, the visited
    duplicates are used, and a duplicate that has become used is
    visited. *)
Definition covered (h : heap) (this : DumperState) (visited : list nat)
    (this' : DumperState) : Prop :=
  extendsUsed this this' /\
  (forall y c, In y visited -> child h y c ->
     In c visited \/ In c (usedDuplicates this')) /\
  (forall y, In y visited -> isDuplicate this y = true ->
     In y (usedDuplicates this')) /\
  (forall y, In y (usedDuplicates this') ->
     In y (usedDuplicates this) \/ In y visited).

(** A call of [stringifyNode] on [v] between [this] and [this']: when [v]
    is an object, it is visited or was a used duplicate before. *)
Definition nodeCovered (h : heap) (v : value) (this this' : DumperState) : Prop :=
  exists visited,
    covered h this visited this' /\
    forall a, v = VRef a -> In a visited \/ In a (usedDuplicates this).

(** ** The text of a container *)

(** The text of the object [a] without its tag and anchor: what the
    container method returns that [stringifyNode] hands it to. *)
Definition containerText (rec : nodeRenderer) (h : heap) (level : Z)
    (tag : option jsstring) (a : nat) (block compact : bool) (this : DumperState)
    : result jsstring :=
  match deref h a with
  | ORecord props =>
      if blockAt this level block && negb (List.length (map fst props) =? 0)%nat
      then stringifyBlockMapping rec props tag level compact this
      else stringifyFlowMapping rec props level this
  | OArray elems =>
      if blockAt this level block && negb (List.length elems =? 0)%nat
      then stringifyBlockSequence rec elems (arrayLevel this level) compact this
      else stringifyFlowSequence rec elems (arrayLevel this level) this
  end.

(** What stands between the anchor of [a] and its text: nothing in block
    layout, a space in flow layout. *)
Definition anchorSeparator (h : heap) (level : Z) (a : nat) (block : bool)
    (this : DumperState) : jsstring :=
  match deref h a with
  | ORecord props =>
      if blockAt this level block && negb (List.length (map fst props) =? 0)%nat
      then [] else lit " "
  | OArray elems =>
      if blockAt this level block && negb (List.length elems =? 0)%nat
      then [] else lit " "
  end.

(** The text of a tag in front of a node; nothing for no tag and for the
    tag [?]. *)
Definition tagText (tag : option jsstring) : jsstring :=
  if realTag tag then lit "!<" ++ orDefault tag [] ++ lit "> " else [].

(** A type in the shape of the timestamp type of the library, for a store
    whose objects without entries are dates: it accepts them and
    represents each by a string. *)
Definition stampType : YType :=
  {| tag := lit "tag:yaml.org,2002:timestamp";
     resolve := fun _ => false;
     predicate :=
       Some (fun h v =>
               match v with
               | VRef a =>
                   match deref h a with
                   | ORecord [] => true
                   | _ => false
                   end
               | _ => false
               end);
     represent := Some (RepresentFn (fun _ _ _ => VString (lit "2001-12-14")));
     defaultStyle := None |}.

(** A schema with that type as its one implicit type. *)
Definition stampSchema : Schema := mkSchema [stampType] [].

(** [{ x: S, z: S }] with [S] an object without entries, referenced
    twice. *)
Definition heapSharedStamp : heap :=
  [ORecord [(lit "x", VRef 1); (lit "z", VRef 1)]; ORecord []].

(** No array is among the objects that [v] contains, directly or not. *)
Definition arrayFree (h : heap) (v : value) : Prop :=
  forall a, reachable h v a -> isArray h (VRef a) = false.


(** * Properties *)

(** ** The width budget *)

Lemma newDumperState_indent_pos : forall D o, 1 <= indent (newDumperState D o).
Proof. intros D o. unfold newDumperState. simpl. lia. Qed.

Lemma scanBlock_untracked_keeps_foldable :
  forall string lineWidth chars i s i' s',
    scanBlock string false lineWidth chars i s = Some (i', s') ->
    hasFoldableLine s' = hasFoldableLine s.
Proof.
  intros string lineWidth chars.
  induction chars as [|c rest IH]; intros i s i' s' H; simpl in H.
  - now inversion H.
  - destruct (c =? LINE_FEED).
    + apply IH in H. exact H.
    + destruct (negb (isPrintable c)); [discriminate|].
      apply IH in H. exact H.
Qed.

Lemma chooseScalarStyle_unlimited_never_folds :
  forall string singleLineOnly indentPerLevel test,
    chooseScalarStyle string singleLineOnly indentPerLevel (-1) test <> STYLE_FOLDED.
Proof.
  intros string sl ind test. unfold chooseScalarStyle.
  change (negb (-1 =? -1)) with false. cbv zeta.
  destruct sl.
  - destruct (scanSingleLine _ _); [|discriminate]. simpl.
    destruct (b && negb (test string)); discriminate.
  - destruct (scanBlock _ _ _ _ _ _) as [[i s]|] eqn:E; [|discriminate].
    apply scanBlock_untracked_keeps_foldable in E. simpl in E.
    cbn [hasLineBreak hasFoldableLine plain andb]. rewrite E. simpl.
    destruct (negb (hasLineBreak s)).
    + simpl. destruct (plain s && negb (test string)); discriminate.
    + simpl. destruct ((9 <? ind) && needIndentIndicator string); discriminate.
Qed.

(** C7: for a state built by the constructor, the width budget of the
    scalar encoder at level [L] is
    [max (min lineWidth 40) (lineWidth - indent * max 1 L)] when
    [lineWidth] is not -1; it does not increase with [L] and is at least
    [min lineWidth 40]; when [lineWidth] is -1 the budget is -1 and no
    string is folded. *)
Theorem scalarLineWidth_budget :
  forall (D : Schema) (o : DumperStateOptions) (L : Z),
    let this := newDumperState D o in
    (lineWidth this <> -1 ->
       scalarLineWidth this L =
         Z.max (Z.min (lineWidth this) 40)
               (lineWidth this - indent this * Z.max 1 L) /\
       (forall L', L <= L' -> scalarLineWidth this L' <= scalarLineWidth this L) /\
       Z.min (lineWidth this) 40 <= scalarLineWidth this L) /\
    (lineWidth this = -1 ->
       scalarLineWidth this L = -1 /\
       forall string singleLineOnly test,
         chooseScalarStyle string singleLineOnly (indent this)
           (scalarLineWidth this L) test <> STYLE_FOLDED).
Proof.
  intros D o L this.
  pose proof (newDumperState_indent_pos D o) as Hi. fold this in Hi.
  split.
  - intros Hw. unfold scalarLineWidth, scalarIndent.
    destruct (lineWidth this =? -1) eqn:E; [apply Z.eqb_eq in E; contradiction|].
    split; [reflexivity|]. split.
    + intros L' HL. nia.
    + lia.
  - intros Hw. unfold scalarLineWidth. rewrite Hw. simpl. split; [reflexivity|].
    intros. apply chooseScalarStyle_unlimited_never_folds.
Qed.

Lemma scalarLineWidth_budget_witness :
  scalarLineWidth (newDumperState bareSchema noOptions) 3 = 74 /\
  scalarLineWidth (newDumperState bareSchema noOptions) 30 = 40.
Proof.
  split.
  - rewrite (proj1 (proj1 (scalarLineWidth_budget bareSchema noOptions 3)
                      ltac:(discriminate))).
    reflexivity.
  - rewrite (proj1 (proj1 (scalarLineWidth_budget bareSchema noOptions 30)
                      ltac:(discriminate))).
    reflexivity.
Defined.

(** ** The constructor clamps the indent *)

(** C9: an [indent] option below 1 gives the same dumper state as
    [indent = 1], hence the same result of [stringify] on every input. *)
Theorem indent_below_one_is_one :
  forall (D : Schema) (o : DumperStateOptions) (n : Z),
    n < 1 ->
    newDumperState D (withIndent o n) = newDumperState D (withIndent o 1) /\
    indent (newDumperState D (withIndent o n)) = 1 /\
    forall fuel h data,
      stringify fuel h data (newDumperState D (withIndent o n)) =
      stringify fuel h data (newDumperState D (withIndent o 1)).
Proof.
  intros D o n Hn.
  assert (E : newDumperState D (withIndent o n) = newDumperState D (withIndent o 1)).
  { unfold newDumperState, withIndent. simpl.
    replace (Z.max 1 n) with 1 by lia. reflexivity. }
  split; [exact E|]. split.
  - unfold newDumperState, withIndent. simpl. lia.
  - intros. now rewrite E.
Qed.

Lemma indent_below_one_is_one_witness :
  let o := mkOptions None None None None None None None None None None None in
  indent (newDumperState (mkSchema [] []) (withIndent o (-3))) = 1.
Proof.
  intro o.
  exact (proj1 (proj2 (indent_below_one_is_one (mkSchema [] []) o (-3) ltac:(lia)))).
Defined.


(** ** Escaping never throws *)

Lemma hexDigit_isHexDigit : forall d, 0 <= d < 16 -> isHexDigit (hexDigit d) = true.
Proof.
  intros d Hd. unfold hexDigit, isHexDigit.
  destruct (d <? 10) eqn:E.
  - apply Z.ltb_lt in E.
    replace (48 <=? 48 + d) with true by (symmetry; apply Z.leb_le; lia).
    replace (48 + d <=? 57) with true by (symmetry; apply Z.leb_le; lia).
    reflexivity.
  - apply Z.ltb_ge in E.
    replace (65 <=? 55 + d) with true by (symmetry; apply Z.leb_le; lia).
    replace (55 + d <=? 70) with true by (symmetry; apply Z.leb_le; lia).
    apply orb_true_r.
Qed.

Lemma toString16Aux_digits :
  forall fuel n, Forall (fun d => isHexDigit d = true) (toString16Aux fuel n).
Proof.
  induction fuel as [|f IH]; intros n; simpl.
  - constructor.
  - apply Forall_app. split.
    + destruct (n <? 16); [constructor | apply IH].
    + constructor; [|constructor].
      apply hexDigit_isHexDigit. apply Z.mod_pos_bound. lia.
Qed.

Lemma toString16Aux_length :
  forall fuel k n,
    0 <= n < 16 ^ Z.of_nat (S k) ->
    (List.length (toString16Aux fuel n) <= S k)%nat.
Proof.
  induction fuel as [|f IH]; intros k n Hn; simpl.
  - lia.
  - rewrite length_app. simpl.
    destruct (n <? 16) eqn:E.
    + simpl. lia.
    + apply Z.ltb_ge in E.
      destruct k as [|k].
      * simpl in Hn. lia.
      * assert (H : 0 <= n / 16 < 16 ^ Z.of_nat (S k)).
        { split; [apply Z.div_pos; lia|].
          apply Z.div_lt_upper_bound; [lia|].
          replace (Z.of_nat (S (S k))) with (Z.succ (Z.of_nat (S k))) in Hn by lia.
          rewrite Z.pow_succ_r in Hn by lia. lia. }
        specialize (IH k (n / 16) H). lia.
Qed.

Lemma padStart0_hex :
  forall k s,
    (List.length s <= k)%nat ->
    Forall (fun d => isHexDigit d = true) s ->
    Forall (fun d => isHexDigit d = true) (padStart0 k s) /\
    List.length (padStart0 k s) = k.
Proof.
  intros k s Hl Hs. unfold padStart0. split.
  - apply Forall_app. split; [|exact Hs].
    apply Forall_forall. intros x Hx. apply repeat_spec in Hx. now subst.
  - rewrite length_app, repeat_length. lia.
Qed.

Lemma charCodeToHexString_ok :
  forall c, 0 <= c <= 0xffffffff ->
    exists p, charCodeToHexString c = Ok p /\ hexEscape p.
Proof.
  intros c Hc. unfold charCodeToHexString.
  pose proof (toString16Aux_digits (S (Z.to_nat (Z.log2 c))) c) as Hd.
  fold (toString16 c) in Hd. cbv zeta.
  destruct (c <=? 0xff) eqn:E1; [|destruct (c <=? 0xffff) eqn:E2;
    [|destruct (c <=? 0xffffffff) eqn:E3]].
  - apply Z.leb_le in E1.
    destruct (padStart0_hex 2 (toString16 c)) as [Hp Hn]; [|exact Hd|].
    { apply (toString16Aux_length _ 1 c). simpl. lia. }
    eexists; split; [reflexivity|]. exists (padStart0 2 (toString16 c)). auto.
  - apply Z.leb_le in E2.
    destruct (padStart0_hex 4 (toString16 c)) as [Hp Hn]; [|exact Hd|].
    { apply (toString16Aux_length _ 3 c). simpl. lia. }
    eexists; split; [reflexivity|]. exists (padStart0 4 (toString16 c)). auto.
  - destruct (padStart0_hex 8 (toString16 c)) as [Hp Hn]; [|exact Hd|].
    { apply (toString16Aux_length _ 7 c). simpl. lia. }
    eexists; split; [reflexivity|]. exists (padStart0 8 (toString16 c)). auto.
  - apply Z.leb_gt in E3. lia.
Qed.

Lemma mapGet_In : forall m c v, mapGet m c = Some v -> In v (map snd m).
Proof.
  induction m as [|[k w] m IH]; intros c v H; simpl in *; [discriminate|].
  destruct (k =? c); [inversion H; auto | right; eauto].
Qed.

Lemma escape_sequences_shape :
  Forall (fun p => List.length p = 2%nat /\ nth_error p 0 = Some 92)
         (map snd ESCAPE_SEQUENCES).
Proof. repeat constructor. Qed.

Lemma escapeChar_ok :
  forall c, isCodeUnit c -> exists p, escapeChar c = Ok p /\ escapedPiece p.
Proof.
  intros c Hc. unfold escapeChar.
  destruct (mapGet ESCAPE_SEQUENCES c) as [e|] eqn:E.
  - exists e. split; [reflexivity|]. right; left.
    apply mapGet_In in E.
    pose proof (proj1 (Forall_forall _ _) escape_sequences_shape e E) as [H1 H2].
    repeat split; assumption.
  - destruct (isPrintable c) eqn:P.
    + exists [c]. split; [reflexivity|]. left. exists c. auto.
    + destruct (charCodeToHexString_ok c) as [p [Hp Hh]].
      { unfold isCodeUnit in Hc. lia. }
      exists p. split; [exact Hp|]. right; right; exact Hh.
Qed.

Lemma surrogate_pair_in_range :
  forall char nextChar,
    isHighSurrogate char = true -> isLowSurrogate nextChar = true ->
    0x10000 <= combineSurrogates char nextChar <= 0x10FFFF.
Proof.
  intros c n Hc Hn. unfold isHighSurrogate, isLowSurrogate in *.
  apply andb_true_iff in Hc, Hn. destruct Hc as [H1 H2], Hn as [H3 H4].
  apply Z.leb_le in H1, H2, H3, H4. unfold combineSurrogates. lia.
Qed.

Lemma escapeLoop_ok :
  forall n chars result,
    (List.length chars <= n)%nat ->
    Forall isCodeUnit chars ->
    exists pieces,
      escapeLoop chars result = Ok (result ++ List.concat pieces) /\
      Forall escapedPiece pieces.
Proof.
  induction n as [|n IH]; intros chars result Hl Hu.
  - destruct chars; [|simpl in Hl; lia].
    exists []. simpl. rewrite app_nil_r. auto.
  - destruct chars as [|char rest].
    { exists []. simpl. rewrite app_nil_r. auto. }
    inversion Hu as [|? ? Hc Hrest]; subst.
    assert (Single : exists pieces,
      match escapeChar char with
      | Ok piece => escapeLoop rest (result ++ piece)
      | Throw e => Throw e
      end = Ok (result ++ List.concat pieces) /\ Forall escapedPiece pieces).
    { destruct (escapeChar_ok char Hc) as [p [Hp Hs]]. rewrite Hp.
      destruct (IH rest (result ++ p)) as [ps [Hps Hf]];
        [simpl in Hl; lia | exact Hrest |].
      exists (p :: ps). simpl. rewrite Hps, <- app_assoc. auto. }
    simpl. destruct (isHighSurrogate char) eqn:Hh; [|exact Single].
    destruct rest as [|nextChar rest']; [exact Single|].
    destruct (isLowSurrogate nextChar) eqn:Hlo; [|exact Single].
    pose proof (surrogate_pair_in_range char nextChar Hh Hlo) as Hr.
    unfold combineSurrogates in Hr.
    destruct (charCodeToHexString_ok
                ((char - 0xd800) * 0x400 + nextChar - 0xdc00 + 0x10000))
      as [p [Hp Hs]]; [lia|].
    rewrite Hp. inversion Hrest; subst.
    destruct (IH rest' (result ++ p)) as [ps [Hps Hf]];
      [simpl in Hl; lia | assumption |].
    exists (p :: ps). simpl. rewrite Hps, <- app_assoc.
    split; [reflexivity|]. constructor; [right; right; exact Hs | exact Hf].
Qed.


(** ** The result of [stringify] *)



Lemma stringifyNode_unsupported :
  forall fuel h level data block compact isKey this tag v,
    resolveType this h data = Ok (tag, v) ->
    unsupportedKind v = true ->
    stringifyNode (S fuel) h level data block compact isKey this =
      if skipInvalid this then Done None this else Raise (UnacceptableKind v).
Proof.
  intros fuel h level data block compact isKey this tag v R U.
  simpl. unfold stringifyNodeBody. rewrite R.
  destruct v; try discriminate U; simpl; reflexivity.
Qed.

Lemma detectTypeLoop_ext :
  forall st1 st2 h explicit typeList v,
    styleMap st1 = styleMap st2 ->
    detectTypeLoop st1 h explicit typeList v = detectTypeLoop st2 h explicit typeList v.
Proof.
  intros st1 st2 h explicit typeList v E.
  induction typeList as [|t l IH]; simpl; [reflexivity|].
  rewrite E, IH. reflexivity.
Qed.

Lemma resolveType_ext :
  forall st1 st2 h v,
    styleMap st1 = styleMap st2 ->
    implicitTypes st1 = implicitTypes st2 ->
    explicitTypes st1 = explicitTypes st2 ->
    resolveType st1 h v = resolveType st2 h v.
Proof.
  intros st1 st2 h v E1 E2 E3. unfold resolveType, detectType.
  rewrite E2, E3.
  rewrite (detectTypeLoop_ext st1 st2 h false _ v E1).
  rewrite (detectTypeLoop_ext st1 st2 h true _ v E1).
  reflexivity.
Qed.

Lemma resolveType_setUsedDuplicates :
  forall this u h v,
    resolveType (setUsedDuplicates this u) h v = resolveType this h v.
Proof. intros. apply resolveType_ext; reflexivity. Qed.

Lemma resolveType_setDuplicates :
  forall this d h v,
    resolveType (setDuplicates this d) h v = resolveType this h v.
Proof. intros. apply resolveType_ext; reflexivity. Qed.




(** ** Skipped entries and condensed flow mappings *)

(** C5, the code at the failing input: with [skipInvalid] and flow layout,
    dropping the first pair or element leaves its separator behind; the
    same mapping without the invalid pair has none, and neither has the
    mapping with the invalid pair in the middle.  In block layout the
    dropped first pair leaves a line break.  Without [skipInvalid] the
    value raises the error. *)
Theorem skipInvalid_first_entry_leaves_separator :
  (exists this',
     stringify 3 heapInvalidMiddle (VRef 0)
       (newDumperState bareSchema (flowOptions true false)) =
     Done (lit "{b: x, c: z}" ++ [LINE_FEED]) this') /\
  (exists this',
     stringify 3 heapInvalidFirst (VRef 0)
       (newDumperState bareSchema (flowOptions true false)) =
     Done (lit "{, b: x, c: z}" ++ [LINE_FEED]) this') /\
  (exists this',
     stringify 3 heapWithoutInvalid (VRef 0)
       (newDumperState bareSchema (flowOptions true false)) =
     Done (lit "{b: x, c: z}" ++ [LINE_FEED]) this') /\
  (exists this',
     stringify 3 heapInvalidElement (VRef 0)
       (newDumperState bareSchema (flowOptions true false)) =
     Done (lit "[, x, z]" ++ [LINE_FEED]) this') /\
  (exists this',
     stringify 3 heapInvalidFirst (VRef 0)
       (newDumperState bareSchema (skipOptions true)) =
     Done ([LINE_FEED] ++ lit "b: x" ++ [LINE_FEED] ++ lit "c: z" ++ [LINE_FEED]) this') /\
  stringify 3 heapInvalidFirst (VRef 0)
    (newDumperState bareSchema (skipOptions false)) =
  Raise (UnacceptableKind VFunction).
Proof.
  repeat split; try (eexists; vm_compute; reflexivity).
Qed.

(** C6, the code at the failing input: with [condenseFlow] the second pair
    of a flow mapping is written after a double quote, a comma and a
    space; without it the pairs are joined by a comma and a space. *)
Theorem condensed_flow_mapping_separator :
  (exists this',
     stringify 3 heapTwoPairs (VRef 0)
       (newDumperState bareSchema (flowOptions false true)) =
     Done (lit "{" ++ [DOUBLE_QUOTE] ++ lit "a" ++ [DOUBLE_QUOTE] ++ lit ":x" ++
           [DOUBLE_QUOTE] ++ lit ", b" ++ [DOUBLE_QUOTE] ++ lit ":z}" ++
           [LINE_FEED]) this') /\
  (exists this',
     stringify 3 heapTwoPairs (VRef 0)
       (newDumperState bareSchema (flowOptions false false)) =
     Done (lit "{a: x, b: z}" ++ [LINE_FEED]) this').
Proof.
  split; eexists; vm_compute; reflexivity.
Qed.


(** ** The equations of [stringifyNode] *)

Section BodyEquations.

Variable rec : nodeRenderer.
Variable h : heap.
Variables (level : Z) (object : value) (block compact isKey : bool).
Variable this : DumperState.

Lemma body_throw :
  forall e,
    resolveType this h object = Throw e ->
    stringifyNodeBody rec h level object block compact isKey this = Raise e.
Proof. intros e R. unfold stringifyNodeBody. now rewrite R. Qed.

Lemma body_alias :
  forall tag a,
    resolveType this h object = Ok (tag, VRef a) ->
    isDuplicate this a = true ->
    includes (usedDuplicates this) a = true ->
    stringifyNodeBody rec h level object block compact isKey this =
    Done (Some (aliasText (indexOf (duplicates this) a))) this.
Proof.
  intros tag a R D U. unfold stringifyNodeBody. rewrite R. simpl.
  unfold isDuplicate in D. rewrite D, U. reflexivity.
Qed.

Lemma body_container :
  forall tag a,
    resolveType this h object = Ok (tag, VRef a) ->
    isDuplicate this a && includes (usedDuplicates this) a = false ->
    stringifyNodeBody rec h level object block compact isKey this =
    stringifyContainer rec h level tag a block compact this.
Proof.
  intros tag a R D. unfold stringifyNodeBody. rewrite R. simpl.
  unfold isDuplicate in D. rewrite D.
  unfold stringifyContainer, markUsed, isDuplicate, arrayLevel, blockAt, compactAt.
  destruct (negb (indexOf (duplicates this) a =? -1)); reflexivity.
Qed.

Lemma body_string :
  forall tag s,
    resolveType this h object = Ok (tag, VString s) ->
    stringifyNodeBody rec h level object block compact isKey this =
    if notQuestionTag tag then
      match stringifyScalar this s level isKey with
      | Ok text => wrapTag tag (Done text this)
      | Throw e => Raise e
      end
    else wrapTag tag (Done s this).
Proof. intros tag s R. unfold stringifyNodeBody. now rewrite R. Qed.

Lemma body_unsupported :
  forall tag v,
    resolveType this h object = Ok (tag, v) ->
    unsupportedKind v = true ->
    stringifyNodeBody rec h level object block compact isKey this =
    if skipInvalid this then Done None this else Raise (UnacceptableKind v).
Proof.
  intros tag v R U. unfold stringifyNodeBody. rewrite R.
  destruct v; try discriminate U; reflexivity.
Qed.

End BodyEquations.

(** The cases of a call of [stringifyNode], by what the value resolves
    to. *)
Ltac body_cases_tac rec h level object block compact isKey this :=
  let tag := fresh "tg" in
  let v := fresh "rv" in
  let R := fresh "R" in
  let e := fresh "er" in
  let A := fresh "A" in
  destruct (resolveType this h object) as [[tag v]|e] eqn:R;
  [ destruct v;
    [ rewrite (body_unsupported rec h level object block compact isKey this _ _ R eq_refl)
    | rewrite (body_unsupported rec h level object block compact isKey this _ _ R eq_refl)
    | rewrite (body_unsupported rec h level object block compact isKey this _ _ R eq_refl)
    | rewrite (body_unsupported rec h level object block compact isKey this _ _ R eq_refl)
    | rewrite (body_string rec h level object block compact isKey this _ _ R)
    | rewrite (body_unsupported rec h level object block compact isKey this _ _ R eq_refl)
    | match goal with
      | |- context [stringifyNodeBody _ _ _ _ _ _ _ _] =>
          match type of R with
          | _ = Ok (_, VRef ?a) =>
              destruct (isDuplicate this a && includes (usedDuplicates this) a) eqn:A;
              [ apply andb_true_iff in A;
                rewrite (body_alias rec h level object block compact isKey this _ _ R
                           (proj1 A) (proj2 A))
              | rewrite (body_container rec h level object block compact isKey this _ _ R A) ]
          end
      end ]
  | rewrite (body_throw rec h level object block compact isKey this _ R) ].

Tactic Notation "body_cases" constr(rec) constr(h) constr(level) constr(object)
    constr(block) constr(compact) constr(isKey) constr(this) :=
  body_cases_tac rec h level object block compact isKey this.


(** ** The flag [arrayIndent] *)

Section ArrayIndentFlag.

Variable b : bool.
Variables rec rec' : nodeRenderer.

(** [rec'] is [rec] run with the flag set to [b]. *)
Hypothesis rec_flag :
  forall level v b1 b2 b3 this,
    rec' level v b1 b2 b3 (setArrayIndent this b) =
    mapState (fun st => setArrayIndent st b) (rec level v b1 b2 b3 this).

Lemma flowSequenceLoop_flag :
  forall elems index level res this,
    flowSequenceLoop rec' elems index level res (setArrayIndent this b) =
    mapState (fun st => setArrayIndent st b)
      (flowSequenceLoop rec elems index level res this).
Proof.
  induction elems as [|e l IH]; intros index level res this; simpl; [reflexivity|].
  rewrite rec_flag.
  destruct (rec level e false false false this) as [[s|] st| |]; simpl;
    try reflexivity; apply IH.
Qed.

Lemma blockSequenceLoop_flag :
  forall elems index level compact res this,
    blockSequenceLoop rec' elems index level compact res (setArrayIndent this b) =
    mapState (fun st => setArrayIndent st b)
      (blockSequenceLoop rec elems index level compact res this).
Proof.
  induction elems as [|e l IH]; intros index level compact res this; simpl;
    [reflexivity|].
  rewrite rec_flag.
  destruct (rec (level + 1) e true true false this) as [[s|] st| |]; simpl;
    try reflexivity; apply IH.
Qed.

Lemma flowMappingLoop_flag :
  forall object keys index level res this,
    flowMappingLoop rec' object keys index level res (setArrayIndent this b) =
    mapState (fun st => setArrayIndent st b)
      (flowMappingLoop rec object keys index level res this).
Proof.
  induction keys as [|k l IH]; intros index level res this; simpl; [reflexivity|].
  rewrite rec_flag.
  destruct (rec level (VString k) false false false this) as [[s|] st| |]; simpl;
    try reflexivity; [|apply IH].
  rewrite rec_flag.
  destruct (rec level (getProp object k) false false false st) as [[s'|] st'| |];
    simpl; try reflexivity; apply IH.
Qed.

Lemma blockMappingLoop_flag :
  forall object tag keys index level compact res this,
    blockMappingLoop rec' object tag keys index level compact res (setArrayIndent this b) =
    mapState (fun st => setArrayIndent st b)
      (blockMappingLoop rec object tag keys index level compact res this).
Proof.
  induction keys as [|k l IH]; intros index level compact res this; simpl;
    [reflexivity|].
  rewrite rec_flag.
  destruct (rec (level + 1) (VString k) true true true this) as [[s|] st| |]; simpl;
    try reflexivity; [|apply IH].
  rewrite rec_flag.
  match goal with
  | |- context [rec ?l ?v ?x ?y ?z st] =>
      destruct (rec l v x y z st) as [[s'|] st'| |]
  end; simpl; try reflexivity; apply IH.
Qed.

Lemma stringifyFlowMapping_flag :
  forall object level this,
    stringifyFlowMapping rec' object level (setArrayIndent this b) =
    mapState (fun st => setArrayIndent st b)
      (stringifyFlowMapping rec object level this).
Proof.
  intros object level this. unfold stringifyFlowMapping. rewrite flowMappingLoop_flag.
  destruct (flowMappingLoop rec object _ 0 level [] this); reflexivity.
Qed.

Lemma stringifyBlockMapping_flag :
  forall object tag level compact this,
    stringifyBlockMapping rec' object tag level compact (setArrayIndent this b) =
    mapState (fun st => setArrayIndent st b)
      (stringifyBlockMapping rec object tag level compact this).
Proof.
  intros object tg level compact this. unfold stringifyBlockMapping.
  change (sortKeys (setArrayIndent this b)) with (sortKeys this).
  destruct (match sortKeys this with
            | SortKeysBool true => _ | SortKeysFn c => _
            | SortKeysOther true => _ | _ => _ end) as [keys|e]; [|reflexivity].
  rewrite blockMappingLoop_flag.
  destruct (blockMappingLoop rec object tg keys 0 level compact [] this)
    as [[|c s] st| |]; reflexivity.
Qed.

End ArrayIndentFlag.

Lemma wrapTag_mapState :
  forall f tag r, wrapTag tag (mapState f r) = mapState f (wrapTag tag r).
Proof. intros f tag [a st| |]; reflexivity. Qed.

Lemma withAnchor_mapState :
  forall f d i sep r,
    withAnchor d i sep (mapState f r) = mapState f (withAnchor d i sep r).
Proof. intros f d i sep [a st| |]; reflexivity. Qed.

Lemma markUsed_setArrayIndent :
  forall this b a,
    markUsed (setArrayIndent this b) a = setArrayIndent (markUsed this a) b.
Proof.
  intros this b a. unfold markUsed.
  change (isDuplicate (setArrayIndent this b) a) with (isDuplicate this a).
  destruct (isDuplicate this a); reflexivity.
Qed.

Section ArrayIndentBody.

Variable b : bool.
Variables rec rec' : nodeRenderer.
Variable h : heap.

Hypothesis rec_flag :
  forall level v b1 b2 b3 this,
    rec' level v b1 b2 b3 (setArrayIndent this b) =
    mapState (fun st => setArrayIndent st b) (rec level v b1 b2 b3 this).

Hypothesis no_arrays : forall a, isArray h (VRef a) = false.

Lemma stringifyNodeBody_flag :
  forall level object b1 b2 b3 this,
    stringifyNodeBody rec' h level object b1 b2 b3 (setArrayIndent this b) =
    mapState (fun st => setArrayIndent st b)
      (stringifyNodeBody rec h level object b1 b2 b3 this).
Proof.
  intros level object b1 b2 b3 this.
  pose proof (resolveType_ext (setArrayIndent this b) this h object
                eq_refl eq_refl eq_refl) as E.
  destruct (resolveType this h object) as [[tag v]|e] eqn:R.
  2:{ rewrite (body_throw _ _ _ _ _ _ _ _ _ E), (body_throw _ _ _ _ _ _ _ _ _ R).
      reflexivity. }
  destruct v.
  1-4, 6:
    rewrite (body_unsupported _ _ _ _ _ _ _ _ _ _ E eq_refl),
            (body_unsupported _ _ _ _ _ _ _ _ _ _ R eq_refl);
    change (skipInvalid (setArrayIndent this b)) with (skipInvalid this);
    destruct (skipInvalid this); reflexivity.
  - rewrite (body_string _ _ _ _ _ _ _ _ _ _ E), (body_string _ _ _ _ _ _ _ _ _ _ R).
    change (stringifyScalar (setArrayIndent this b) s level b3)
      with (stringifyScalar this s level b3).
    destruct (notQuestionTag tag); [|reflexivity].
    destruct (stringifyScalar this s level b3); reflexivity.
  - destruct (isDuplicate this a && includes (usedDuplicates this) a) eqn:A.
    + apply andb_true_iff in A. destruct A as [A1 A2].
      rewrite (body_alias _ _ _ _ _ _ _ _ _ _ E A1 A2),
              (body_alias _ _ _ _ _ _ _ _ _ _ R A1 A2).
      reflexivity.
    + rewrite (body_container _ _ _ _ _ _ _ _ _ _ E A),
              (body_container _ _ _ _ _ _ _ _ _ _ R A).
      unfold stringifyContainer. rewrite markUsed_setArrayIndent.
      change (isDuplicate (setArrayIndent this b) a) with (isDuplicate this a).
      change (duplicates (setArrayIndent this b)) with (duplicates this).
      change (blockAt (setArrayIndent this b) level b1) with (blockAt this level b1).
      change (compactAt (setArrayIndent this b)) with (compactAt this).
      pose proof (no_arrays a) as Ha. simpl in Ha.
      destruct (deref h a) as [elems|props]; [discriminate|].
      destruct (blockAt this level b1 && _).
      * rewrite (stringifyBlockMapping_flag b rec rec' rec_flag).
        rewrite withAnchor_mapState, wrapTag_mapState. reflexivity.
      * rewrite (stringifyFlowMapping_flag b rec rec' rec_flag).
        rewrite withAnchor_mapState, wrapTag_mapState. reflexivity.
Qed.

End ArrayIndentBody.

(** Without an array in the store, the flag only shows in the state. *)
Lemma stringifyNode_flag_without_arrays :
  forall h b,
    (forall a, isArray h (VRef a) = false) ->
    forall fuel level v b1 b2 b3 this,
      stringifyNode fuel h level v b1 b2 b3 (setArrayIndent this b) =
      mapState (fun st => setArrayIndent st b)
        (stringifyNode fuel h level v b1 b2 b3 this).
Proof.
  intros h b Harr. induction fuel as [|fuel IH];
    intros level v b1 b2 b3 this; [reflexivity|].
  simpl. apply stringifyNodeBody_flag; assumption.
Qed.

(** A block sequence at level [lv] renders its elements at [lv + 1], a
    flow sequence at [lv]: the result depends on the renderer at that
    level only. *)
Lemma stringifyBlockSequence_element_level :
  forall rec rec' lv,
    (forall v b1 b2 b3 st, rec (lv + 1) v b1 b2 b3 st = rec' (lv + 1) v b1 b2 b3 st) ->
    forall elems compact this,
      stringifyBlockSequence rec elems lv compact this =
      stringifyBlockSequence rec' elems lv compact this.
Proof.
  intros rec rec' lv H elems compact this. unfold stringifyBlockSequence.
  assert (L : forall index res st,
            blockSequenceLoop rec elems index lv compact res st =
            blockSequenceLoop rec' elems index lv compact res st).
  { induction elems as [|e l IH]; intros index res st; simpl; [reflexivity|].
    rewrite H. destruct (rec' (lv + 1) e true true false st) as [[s|] st'| |];
      try reflexivity; apply IH. }
  now rewrite L.
Qed.

Lemma stringifyFlowSequence_element_level :
  forall rec rec' lv,
    (forall v b1 b2 b3 st, rec lv v b1 b2 b3 st = rec' lv v b1 b2 b3 st) ->
    forall elems this,
      stringifyFlowSequence rec elems lv this =
      stringifyFlowSequence rec' elems lv this.
Proof.
  intros rec rec' lv H elems this. unfold stringifyFlowSequence.
  assert (L : forall index res st,
            flowSequenceLoop rec elems index lv res st =
            flowSequenceLoop rec' elems index lv res st).
  { induction elems as [|e l IH]; intros index res st; simpl; [reflexivity|].
    rewrite H. destruct (rec' lv e false false false st) as [[s|] st'| |];
      try reflexivity; apply IH. }
  now rewrite L.
Qed.


(** ** The numbering of the duplicates *)

Lemma includes_In : forall l a, includes l a = true <-> In a l.
Proof.
  intros l a. unfold includes. rewrite existsb_exists. split.
  - intros [x [H E]]. apply Nat.eqb_eq in E. now subst.
  - intros H. exists a. split; [exact H | apply Nat.eqb_refl].
Qed.

Lemma includes_false : forall l a, includes l a = false <-> ~ In a l.
Proof.
  intros l a. rewrite <- includes_In. destruct (includes l a); split; congruence.
Qed.

(** The pre-scan and its copy with visits compute the same. *)
Lemma inspectNodeVisits_erase :
  forall h fuel v o d vis,
    inspectNode fuel h v o d =
    match inspectNodeVisits fuel h v o d vis with
    | Some (o', d', _) => Some (o', d')
    | None => None
    end.
Proof.
  intros h. induction fuel as [|fuel IH]; intros v o d vis; [reflexivity|].
  simpl. destruct v; try reflexivity.
  destruct (includes o a); [reflexivity|].
  generalize (o ++ [a]) as o1, (vis ++ [a]) as vis1. generalize d as d1.
  induction (entriesOf h a) as [|e es IHe]; intros d1 o1 vis1; simpl; [reflexivity|].
  rewrite (IH e o1 d1 vis1).
  destruct (inspectNodeVisits fuel h e o1 d1 vis1) as [[[o2 d2] vis2]|]; [|reflexivity].
  apply IHe.
Qed.

Lemma firstVisits_snoc :
  forall l seen a,
    firstVisits seen (l ++ [a]) =
    firstVisits seen l ++
    (if (count_occ Nat.eq_dec (seen ++ l) a =? 0)%nat then [a] else []).
Proof.
  induction l as [|x l IH]; intros seen a; simpl.
  - now rewrite !app_nil_r.
  - rewrite IH, <- !app_assoc. reflexivity.
Qed.

Lemma secondVisits_snoc :
  forall l seen a,
    secondVisits seen (l ++ [a]) =
    secondVisits seen l ++
    (if (count_occ Nat.eq_dec (seen ++ l) a =? 1)%nat then [a] else []).
Proof.
  induction l as [|x l IH]; intros seen a; simpl.
  - now rewrite !app_nil_r.
  - rewrite IH, <- !app_assoc. reflexivity.
Qed.

Lemma count_occ_snoc :
  forall (l : list nat) a x,
    count_occ Nat.eq_dec (l ++ [x]) a =
    (count_occ Nat.eq_dec l a + if Nat.eq_dec x a then 1 else 0)%nat.
Proof.
  intros l a x. rewrite count_occ_app. simpl.
  destruct (Nat.eq_dec x a); reflexivity.
Qed.

Lemma In_firstVisits :
  forall l a, In a (firstVisits [] l) <-> (1 <= count_occ Nat.eq_dec l a)%nat.
Proof.
  induction l as [|x l IH] using rev_ind; intros a.
  - simpl. split; [tauto | lia].
  - rewrite firstVisits_snoc, in_app_iff, IH, count_occ_snoc. simpl.
    destruct (Nat.eq_dec x a) as [E|N].
    + subst. destruct (count_occ Nat.eq_dec l a =? 0)%nat eqn:C; simpl.
      * split; [lia | auto].
      * apply Nat.eqb_neq in C. split; [intros [H|[]]; lia | lia].
    + destruct (count_occ Nat.eq_dec l x =? 0)%nat; simpl.
      * split; [intros [H|[H|[]]]; [lia | contradiction] | intros H; left; lia].
      * split; [intros [H|[]]; lia | intros H; left; lia].
Qed.

Lemma In_secondVisits :
  forall l a, In a (secondVisits [] l) <-> (2 <= count_occ Nat.eq_dec l a)%nat.
Proof.
  induction l as [|x l IH] using rev_ind; intros a.
  - simpl. split; [tauto | lia].
  - rewrite secondVisits_snoc, in_app_iff, IH, count_occ_snoc. simpl.
    destruct (Nat.eq_dec x a) as [E|N].
    + subst. destruct (count_occ Nat.eq_dec l a =? 1)%nat eqn:C; simpl.
      * apply Nat.eqb_eq in C. split; [lia | auto].
      * apply Nat.eqb_neq in C. split; [intros [H|[]]; lia | lia].
    + destruct (count_occ Nat.eq_dec l x =? 1)%nat; simpl.
      * split; [intros [H|[H|[]]]; [lia | contradiction] | intros H; left; lia].
      * split; [intros [H|[]]; lia | intros H; left; lia].
Qed.

(** One visit, on the array of objects and the set of duplicates. *)
Lemma visit_step :
  forall vis a,
    (if includes (firstVisits [] vis) a
     then (firstVisits [] vis, setAdd (secondVisits [] vis) a)
     else (firstVisits [] vis ++ [a], secondVisits [] vis)) =
    (firstVisits [] (vis ++ [a]), secondVisits [] (vis ++ [a])).
Proof.
  intros vis a. rewrite firstVisits_snoc, secondVisits_snoc. simpl.
  destruct (includes (firstVisits [] vis) a) eqn:I.
  - apply includes_In, In_firstVisits in I.
    replace (count_occ Nat.eq_dec vis a =? 0)%nat with false
      by (symmetry; apply Nat.eqb_neq; lia).
    rewrite app_nil_r. f_equal. unfold setAdd.
    destruct (includes (secondVisits [] vis) a) eqn:J.
    + apply includes_In, In_secondVisits in J.
      replace (count_occ Nat.eq_dec vis a =? 1)%nat with false
        by (symmetry; apply Nat.eqb_neq; lia).
      now rewrite app_nil_r.
    + apply includes_false in J. rewrite In_secondVisits in J.
      replace (count_occ Nat.eq_dec vis a =? 1)%nat with true
        by (symmetry; apply Nat.eqb_eq; lia).
      reflexivity.
  - apply includes_false in I. rewrite In_firstVisits in I.
    replace (count_occ Nat.eq_dec vis a =? 0)%nat with true
      by (symmetry; apply Nat.eqb_eq; lia).
    replace (count_occ Nat.eq_dec vis a =? 1)%nat with false
      by (symmetry; apply Nat.eqb_neq; lia).
    now rewrite app_nil_r.
Qed.

(** The array of objects is the sequence of first visits and the set of
    duplicates is the sequence of second visits. *)
Lemma inspectNodeVisits_spec :
  forall h fuel v vis o' d' vis',
    inspectNodeVisits fuel h v (firstVisits [] vis) (secondVisits [] vis) vis =
      Some (o', d', vis') ->
    o' = firstVisits [] vis' /\ d' = secondVisits [] vis'.
Proof.
  intros h. induction fuel as [|fuel IH]; intros v vis o' d' vis' H; [discriminate|].
  simpl in H. destruct v; try (inversion H; subst; split; reflexivity).
  pose proof (visit_step vis a) as S.
  destruct (includes (firstVisits [] vis) a).
  - inversion H; subst. inversion S. split; reflexivity.
  - inversion S as [[S1 S2]]. rewrite S1, S2 in H. clear S S1 S2.
    revert H. generalize (vis ++ [a]) as vis1.
    induction (entriesOf h a) as [|e es IHe]; intros vis1 H; simpl in H.
    + inversion H; subst. split; reflexivity.
    + destruct (inspectNodeVisits fuel h e _ _ vis1) as [[[o2 d2] vis2]|] eqn:E;
        [|discriminate].
      apply IH in E. destruct E; subst. apply IHe in H. exact H.
Qed.


(** ** Invariants of the container methods *)

Lemma getProp_In :
  forall (props : list (jsstring * value)) k,
    In k (map fst props) -> In (getProp props k) (map snd props).
Proof.
  induction props as [|[k' v] props IH]; intros k H; simpl in *; [contradiction|].
  unfold getProp. simpl.
  destruct (jsstring_eqb k' k) eqn:E; simpl; [now left|].
  destruct H as [H|H].
  - subst. exfalso. clear -E. induction k as [|c k IHk]; simpl in E; [discriminate|].
    rewrite Z.eqb_refl in E. simpl in E. auto.
  - right. apply IH in H. exact H.
Qed.

Lemma sortInsert_In :
  forall compare x l y, In y (sortInsert compare x l) -> y = x \/ In y l.
Proof.
  induction l as [|z l IH]; intros y H; simpl in H.
  - destruct H as [H|[]]; auto.
  - destruct (0 <? compare x z).
    + destruct H as [H|H]; [right; left; exact H|].
      apply IH in H. destruct H; [auto | right; right; assumption].
    + destruct H as [H|H]; [auto | right; exact H].
Qed.

Lemma sortWith_In :
  forall compare l y, In y (sortWith compare l) -> In y l.
Proof.
  induction l as [|x l IH]; intros y H; simpl in H; [contradiction|].
  apply sortInsert_In in H. destruct H as [H|H]; [left; auto | right; auto].
Qed.

Section LoopInvariant.

Variable rec : nodeRenderer.
Variable T : Prop.
Variable Inv : DumperState -> Prop.
Variable C : value -> Prop.

(** [rec] keeps the invariant on the values in [C]. *)
Hypothesis rec_inv :
  forall level v b1 b2 b3 this,
    Inv this -> C v ->
    outcomeSat T (fun _ this' => Inv this') (rec level v b1 b2 b3 this).

Lemma flowSequenceLoop_inv :
  forall elems index level res this,
    Inv this -> Forall C elems ->
    outcomeSat T (fun _ this' => Inv this')
      (flowSequenceLoop rec elems index level res this).
Proof.
  induction elems as [|e l IH]; intros index level res this I F; simpl; [exact I|].
  inversion F; subst.
  pose proof (rec_inv level e false false false this I H1) as R.
  destruct (rec level e false false false this) as [[s|] st| |]; simpl in *;
    try exact R; apply IH; assumption.
Qed.

Lemma blockSequenceLoop_inv :
  forall elems index level compact res this,
    Inv this -> Forall C elems ->
    outcomeSat T (fun _ this' => Inv this')
      (blockSequenceLoop rec elems index level compact res this).
Proof.
  induction elems as [|e l IH]; intros index level compact res this I F; simpl;
    [exact I|].
  inversion F; subst.
  pose proof (rec_inv (level + 1) e true true false this I H1) as R.
  destruct (rec (level + 1) e true true false this) as [[s|] st| |]; simpl in *;
    try exact R; apply IH; assumption.
Qed.

Lemma flowMappingLoop_inv :
  forall object keys index level res this,
    Inv this ->
    (forall k, In k keys -> C (VString k) /\ C (getProp object k)) ->
    outcomeSat T (fun _ this' => Inv this')
      (flowMappingLoop rec object keys index level res this).
Proof.
  induction keys as [|k l IH]; intros index level res this I F; simpl; [exact I|].
  destruct (F k (or_introl eq_refl)) as [Ck Cv].
  assert (F' : forall k', In k' l -> C (VString k') /\ C (getProp object k'))
    by (intros; apply F; now right).
  pose proof (rec_inv level (VString k) false false false this I Ck) as R.
  destruct (rec level (VString k) false false false this) as [[s|] st| |];
    simpl in *; try exact R; [|apply IH; assumption].
  pose proof (rec_inv level (getProp object k) false false false st R Cv) as R'.
  destruct (rec level (getProp object k) false false false st) as [[s'|] st'| |];
    simpl in *; try exact R'; apply IH; assumption.
Qed.

Lemma blockMappingLoop_inv :
  forall object tag keys index level compact res this,
    Inv this ->
    (forall k, In k keys -> C (VString k) /\ C (getProp object k)) ->
    outcomeSat T (fun _ this' => Inv this')
      (blockMappingLoop rec object tag keys index level compact res this).
Proof.
  induction keys as [|k l IH]; intros index level compact res this I F; simpl;
    [exact I|].
  destruct (F k (or_introl eq_refl)) as [Ck Cv].
  assert (F' : forall k', In k' l -> C (VString k') /\ C (getProp object k'))
    by (intros; apply F; now right).
  pose proof (rec_inv (level + 1) (VString k) true true true this I Ck) as R.
  destruct (rec (level + 1) (VString k) true true true this) as [[s|] st| |];
    simpl in *; try exact R; [|apply IH; assumption].
  match goal with
  | |- context [rec ?l ?v ?x ?y ?z st] =>
      pose proof (rec_inv l v x y z st R Cv) as R';
      destruct (rec l v x y z st) as [[s'|] st'| |]
  end; simpl in *; try exact R'; apply IH; assumption.
Qed.

Lemma outcomeSat_wrap :
  forall tag d i sep r,
    outcomeSat T (fun (_ : jsstring) this' => Inv this') r ->
    outcomeSat T (fun (_ : option jsstring) this' => Inv this')
      (wrapTag tag (withAnchor d i sep r)).
Proof. intros tag d i sep [a st| |] H; exact H. Qed.

(** The children of an object: its keys, as strings, and its entries. *)
Hypothesis C_strings : forall k, C (VString k).

Lemma stringifyContainer_inv :
  forall h level tag a block compact this,
    Inv (markUsed this a) ->
    Forall C (entriesOf h a) ->
    outcomeSat T (fun _ this' => Inv this')
      (stringifyContainer rec h level tag a block compact this).
Proof.
  intros h level tag a block compact this I F.
  unfold stringifyContainer. unfold entriesOf in F.
  destruct (deref h a) as [elems|props].
  - destruct (blockAt this level block && _); apply outcomeSat_wrap.
    + unfold stringifyBlockSequence.
      pose proof (blockSequenceLoop_inv elems 0 (arrayLevel this level)
                    (compactAt this tag (isDuplicate this a) level compact) []
                    (markUsed this a) I F) as H.
      destruct (blockSequenceLoop _ _ _ _ _ _ _) as [[|c s] st| |]; exact H.
    + unfold stringifyFlowSequence.
      pose proof (flowSequenceLoop_inv elems 0 (arrayLevel this level) []
                    (markUsed this a) I F) as H.
      destruct (flowSequenceLoop _ _ _ _ _ _) as [s st| |]; exact H.
  - assert (K : forall keys, (forall k, In k keys -> In k (map fst props)) ->
              forall k, In k keys -> C (VString k) /\ C (getProp props k)).
    { intros keys Hk k Hin. split; [apply C_strings|].
      apply (proj1 (Forall_forall _ _) F). apply getProp_In. auto. }
    destruct (blockAt this level block && _); apply outcomeSat_wrap.
    + unfold stringifyBlockMapping.
      assert (S : sortKeys (markUsed this a) = sortKeys this)
        by (unfold markUsed; destruct (isDuplicate this a); reflexivity).
      rewrite S.
      assert (L : forall keys, (forall k, In k keys -> In k (map fst props)) ->
                outcomeSat T (fun (_ : jsstring) this' => Inv this')
                  match blockMappingLoop rec props tag keys 0 level
                          (compactAt this tag (isDuplicate this a) level compact) []
                          (markUsed this a) with
                  | Done [] this0 => Done (lit "{}") this0
                  | Done res this0 => Done res this0
                  | Raise e => Raise e
                  | OutOfFuel => OutOfFuel
                  end).
      { intros keys Hk.
        pose proof (blockMappingLoop_inv props tag keys 0 level
                      (compactAt this tag (isDuplicate this a) level compact) []
                      (markUsed this a) I (K keys Hk)) as H.
        destruct (blockMappingLoop _ _ _ _ _ _ _ _ _) as [[|c s] st| |]; exact H. }
      destruct (sortKeys this) as [[|]|cmp|[|]]; simpl;
        try (apply L; intros k Hin; first [exact Hin | eapply sortWith_In; exact Hin]).
      exact Logic.I.
    + unfold stringifyFlowMapping.
      pose proof (flowMappingLoop_inv props (map fst props) 0 level []
                    (markUsed this a) I (K _ (fun k H => H))) as H.
      destruct (flowMappingLoop _ _ _ _ _ _ _) as [s st| |]; exact H.
Qed.

End LoopInvariant.


(** ** What a call of [stringifyNode] leaves unchanged *)

Lemma setUsedDuplicates_same :
  forall this, setUsedDuplicates this (usedDuplicates this) = this.
Proof. intros []; reflexivity. Qed.

Lemma extendsUsed_refl : forall this, extendsUsed this this.
Proof.
  intros this. exists (usedDuplicates this).
  split; [symmetry; apply setUsedDuplicates_same | apply incl_refl].
Qed.

Lemma extendsUsed_trans :
  forall s1 s2 s3, extendsUsed s1 s2 -> extendsUsed s2 s3 -> extendsUsed s1 s3.
Proof.
  intros s1 s2 s3 [u [E1 I1]] [u' [E2 I2]]. subst. exists u'.
  split; [reflexivity|]. simpl in I2. eapply incl_tran; eassumption.
Qed.

Lemma incl_setAdd : forall l a, incl l (setAdd l a).
Proof.
  intros l a. unfold setAdd. destruct (includes l a);
    [apply incl_refl | apply incl_appl, incl_refl].
Qed.

Lemma In_setAdd : forall l a x, In x (setAdd l a) <-> In x l \/ x = a.
Proof.
  intros l a x. unfold setAdd. destruct (includes l a) eqn:E.
  - apply includes_In in E. split; [auto | intros [H|H]; subst; auto].
  - rewrite in_app_iff. simpl. split; intros [H|H]; auto.
    + destruct H as [H|[]]; auto.
Qed.

Lemma extendsUsed_markUsed : forall this a, extendsUsed this (markUsed this a).
Proof.
  intros this a. unfold markUsed. destruct (isDuplicate this a).
  - eexists. split; [reflexivity | apply incl_setAdd].
  - apply extendsUsed_refl.
Qed.

Lemma outcomeSat_impl :
  forall (A : Type) (T : Prop) (Q Q' : A -> DumperState -> Prop) (r : result A),
    (forall a st, Q a st -> Q' a st) ->
    outcomeSat T Q r -> outcomeSat T Q' r.
Proof. intros A T Q Q' [a st| |] H; simpl; auto. Qed.

Lemma stringifyNode_frame :
  forall h fuel level v block compact isKey this,
    outcomeSat True (fun _ st => extendsUsed this st)
      (stringifyNode fuel h level v block compact isKey this).
Proof.
  intros h. induction fuel as [|fuel IH];
    intros level v block compact isKey this; simpl; [exact I|].
  body_cases (stringifyNode fuel h) h level v block compact isKey this;
    simpl; try exact I; try apply extendsUsed_refl.
  - destruct (skipInvalid this); simpl; [apply extendsUsed_refl | exact I].
  - destruct (skipInvalid this); simpl; [apply extendsUsed_refl | exact I].
  - destruct (skipInvalid this); simpl; [apply extendsUsed_refl | exact I].
  - destruct (skipInvalid this); simpl; [apply extendsUsed_refl | exact I].
  - destruct (notQuestionTag tg); [|apply extendsUsed_refl].
    destruct (stringifyScalar this s level isKey); simpl;
      [apply extendsUsed_refl | exact I].
  - destruct (skipInvalid this); simpl; [apply extendsUsed_refl | exact I].
  - apply (stringifyContainer_inv (stringifyNode fuel h) True (extendsUsed this)
             (fun _ => True)).
    + intros level' v' b1 b2 b3 st Hst _.
      eapply outcomeSat_impl; [|apply IH].
      intros o st' H. eapply extendsUsed_trans; eassumption.
    + intros; exact I.
    + apply extendsUsed_markUsed.
    + apply Forall_forall. intros; exact I.
Qed.

Lemma stringifyNode_keeps_duplicates :
  forall h fuel level v block compact isKey this r this',
    stringifyNode fuel h level v block compact isKey this = Done r this' ->
    duplicates this' = duplicates this.
Proof.
  intros h fuel level v block compact isKey this r this' H.
  pose proof (stringifyNode_frame h fuel level v block compact isKey this) as F.
  rewrite H in F. destruct F as [u [E _]]. subst. reflexivity.
Qed.

Lemma NoDup_secondVisits : forall l, NoDup (secondVisits [] l).
Proof.
  induction l as [|x l IH] using rev_ind; [constructor|].
  rewrite secondVisits_snoc. simpl.
  destruct (count_occ Nat.eq_dec l x =? 1)%nat eqn:C.
  - apply Nat.eqb_eq in C. apply NoDup_app; [exact IH | repeat constructor; auto |].
    intros a Ha [E|[]]. subst. apply In_secondVisits in Ha. lia.
  - now rewrite app_nil_r.
Qed.

(** C2, counterexample to the claim as stated: in [[A, B, B, A]] the
    object [A] is visited first before [B], and [B] gets the number 0 and
    [A] the number 1. *)
Lemma anchor_numbers_not_in_first_visit_order :
  inspectNode 3 heapABBA (VRef 0) [] [] = Some ([0; 1; 2]%nat, [2; 1]%nat) /\
  indexOf [0; 1; 2]%nat 1 < indexOf [0; 1; 2]%nat 2 /\
  ~ (indexOf [2; 1]%nat 1 < indexOf [2; 1]%nat 2) /\
  exists this',
    stringify 3 heapABBA (VRef 0) (newDumperState bareSchema noOptions) =
    Done (lit "- &ref_1 {}" ++ [LINE_FEED] ++ lit "- &ref_0 {}" ++ [LINE_FEED] ++
          lit "- *ref_0" ++ [LINE_FEED] ++ lit "- *ref_1" ++ [LINE_FEED]) this'.
Proof.
  split; [reflexivity|]. split; [vm_compute; reflexivity|].
  split; [vm_compute; discriminate|].
  eexists. vm_compute. reflexivity.
Qed.


(** ** The pre-scan: termination and the shape of its result *)

Lemma indexOfFrom_In :
  forall l a i, In a l -> i <= indexOfFrom l a i < i + Z.of_nat (List.length l).
Proof.
  induction l as [|x l IH]; intros a i H; simpl in *; [contradiction|].
  destruct (Nat.eqb x a) eqn:E; [lia|].
  destruct H as [H|H]; [subst; rewrite Nat.eqb_refl in E; discriminate|].
  specialize (IH a (i + 1) H). lia.
Qed.

Lemma indexOfFrom_notIn :
  forall l a i, ~ In a l -> indexOfFrom l a i = -1.
Proof.
  induction l as [|x l IH]; intros a i H; simpl in *; [reflexivity|].
  destruct (Nat.eqb x a) eqn:E.
  - apply Nat.eqb_eq in E. subst. exfalso. auto.
  - apply IH. auto.
Qed.

Lemma indexOfFrom_app_In :
  forall l l' a i, In a l -> indexOfFrom (l ++ l') a i = indexOfFrom l a i.
Proof.
  induction l as [|x l IH]; intros l' a i H; simpl in *; [contradiction|].
  destruct (Nat.eqb x a) eqn:E; [reflexivity|].
  destruct H as [H|H]; [subst; rewrite Nat.eqb_refl in E; discriminate|].
  apply IH. exact H.
Qed.

Lemma indexOfFrom_app_notIn :
  forall l l' a i,
    ~ In a l ->
    indexOfFrom (l ++ a :: l') a i = i + Z.of_nat (List.length l).
Proof.
  induction l as [|x l IH]; intros l' a i H; simpl in *.
  - rewrite Nat.eqb_refl. lia.
  - destruct (Nat.eqb x a) eqn:E.
    + apply Nat.eqb_eq in E. subst. exfalso. auto.
    + rewrite IH by auto. lia.
Qed.

Lemma indexOf_In :
  forall l a, In a l -> 0 <= indexOf l a < Z.of_nat (List.length l).
Proof. intros l a H. unfold indexOf. pose proof (indexOfFrom_In l a 0 H). lia. Qed.

Lemma indexOf_notIn : forall l a, ~ In a l -> indexOf l a = -1.
Proof. intros. now apply indexOfFrom_notIn. Qed.

Lemma isDuplicate_In :
  forall this a, isDuplicate this a = true <-> In a (duplicates this).
Proof.
  intros this a. unfold isDuplicate. split.
  - intros H. destruct (in_dec Nat.eq_dec a (duplicates this)) as [I|N]; [exact I|].
    rewrite (indexOf_notIn _ _ N) in H. discriminate.
  - intros H. pose proof (indexOf_In _ _ H).
    destruct (indexOf (duplicates this) a =? -1) eqn:E; [|reflexivity].
    apply Z.eqb_eq in E. lia.
Qed.

(** More fuel does not change an answer of the pre-scan. *)
Lemma inspectNode_more_fuel :
  forall h fuel fuel' v o d r,
    inspectNode fuel h v o d = Some r ->
    (fuel <= fuel')%nat ->
    inspectNode fuel' h v o d = Some r.
Proof.
  intros h. induction fuel as [|fuel IH]; intros fuel' v o d r H L; [discriminate|].
  destruct fuel' as [|fuel']; [lia|].
  simpl in *. destruct v; try exact H.
  destruct (includes o a); [exact H|].
  revert H. generalize (o ++ [a]) as o1. generalize d as d1.
  induction (entriesOf h a) as [|e es IHe]; intros d1 o1 H; simpl in *; [exact H|].
  destruct (inspectNode fuel h e o1 d1) as [[o2 d2]|] eqn:E; [|discriminate].
  rewrite (IH fuel' e o1 d1 _ E) by lia. apply IHe. exact H.
Qed.


Lemma filter_length_mono :
  forall (A : Type) (p q : A -> bool) l,
    (forall x, q x = true -> p x = true) ->
    (List.length (filter q l) <= List.length (filter p l))%nat.
Proof.
  intros A p q l H. induction l as [|x l IH]; simpl; [lia|].
  destruct (q x) eqn:Q.
  - rewrite (H x Q). simpl. lia.
  - destruct (p x); simpl; lia.
Qed.

Lemma filter_length_strict :
  forall (A : Type) (p q : A -> bool) l a,
    (forall x, q x = true -> p x = true) ->
    In a l -> p a = true -> q a = false ->
    (List.length (filter q l) < List.length (filter p l))%nat.
Proof.
  intros A p q l a H. induction l as [|x l IH]; intros I P Q; simpl; [contradiction|].
  destruct I as [I|I].
  - subst. rewrite P, Q. simpl.
    pose proof (filter_length_mono A p q l H). lia.
  - specialize (IH I P Q). destruct (q x) eqn:Qx.
    + rewrite (H x Qx). simpl. lia.
    + destruct (p x); simpl; lia.
Qed.

Lemma unvisited_app : forall h o l, (unvisited h (o ++ l) <= unvisited h o)%nat.
Proof.
  intros h o l. unfold unvisited. apply filter_length_mono.
  intros x H. apply negb_true_iff in H. apply negb_true_iff.
  apply includes_false in H. apply includes_false.
  intros C. apply H. apply in_or_app. now left.
Qed.

Lemma unvisited_push :
  forall h o a,
    (a < List.length h)%nat -> ~ In a o ->
    (unvisited h (o ++ [a]) < unvisited h o)%nat.
Proof.
  intros h o a L N. unfold unvisited. apply filter_length_strict with (a := a).
  - intros x H. apply negb_true_iff in H. apply negb_true_iff.
    apply includes_false in H. apply includes_false.
    intros C. apply H. apply in_or_app. now left.
  - apply in_seq. lia.
  - apply negb_true_iff. now apply includes_false.
  - apply negb_false_iff. apply includes_In. apply in_or_app. right. now left.
Qed.

Lemma entriesOf_outside :
  forall h a, (List.length h <= a)%nat -> entriesOf h a = [].
Proof.
  intros h a L. unfold entriesOf, deref. now rewrite nth_overflow.
Qed.

Lemma settled_grows :
  forall h o d l d' x,
    settled h o d x -> In x o -> incl d d' -> settled h (o ++ l) d' x.
Proof.
  intros h o d l d' x S I D b C. destruct (S b C) as [Ib P].
  split; [apply in_or_app; now left|].
  unfold indexOf in *. rewrite !indexOfFrom_app_In by assumption.
  destruct P as [P|P]; [now left | right; now apply D].
Qed.

Lemma indexOfFrom_behind :
  forall o l b i,
    ~ In b o -> In b l ->
    i + Z.of_nat (List.length o) <= indexOfFrom (o ++ l) b i.
Proof.
  induction o as [|x o IH]; intros l b i N I; simpl.
  - pose proof (indexOfFrom_In l b i I). lia.
  - destruct (Nat.eqb x b) eqn:E.
    + apply Nat.eqb_eq in E. subst. exfalso. apply N. now left.
    + assert (N' : ~ In b o) by (intros C; apply N; now right).
      specialize (IH l b (i + 1) N' I). lia.
Qed.

Lemma indexOf_app_behind :
  forall o l b,
    ~ In b o -> In b (o ++ l) -> Z.of_nat (List.length o) <= indexOf (o ++ l) b.
Proof.
  intros o l b N I. apply in_app_or in I. destruct I as [I|I]; [contradiction|].
  pose proof (indexOfFrom_behind o l b 0 N I). unfold indexOf. lia.
Qed.


Lemma scanGrows_refl : forall h o d, scanGrows h o d o d.
Proof.
  intros h o d. repeat split; auto using incl_refl.
  exists []. rewrite app_nil_r. split; [reflexivity | intros x []].
Qed.

Lemma scanGrows_trans :
  forall h o d o1 d1 o2 d2,
    scanGrows h o d o1 d1 -> scanGrows h o1 d1 o2 d2 -> scanGrows h o d o2 d2.
Proof.
  intros h o d o1 d1 o2 d2 [[l1 [E1 S1]] [N1 [I1 J1]]] [[l2 [E2 S2]] [N2 [I2 J2]]].
  repeat split; auto.
  - exists (l1 ++ l2). subst. rewrite app_assoc. split; [reflexivity|].
    intros x Hx. apply in_app_or in Hx. destruct Hx as [Hx|Hx].
    + apply settled_grows with (d := d1); auto.
      apply in_or_app. now right.
    + apply S2. exact Hx.
  - eapply incl_tran; eassumption.
Qed.

Lemma scanGrows_unvisited :
  forall h o d o' d',
    scanGrows h o d o' d' -> (unvisited h o' <= unvisited h o)%nat.
Proof. intros h o d o' d' [[l [E _]] _]. subst. apply unvisited_app. Qed.

(** The place of an object of an earlier scan, after a later one. *)
Lemma scanPlaces_later :
  forall h o o1 d1 o2 d2 b,
    scanGrows h o1 d1 o2 d2 ->
    scanPlaces o o1 d1 b -> scanPlaces o o2 d2 b.
Proof.
  intros h o o1 d1 o2 d2 b [[l [E _]] [_ [I _]]] [P1 [P2 P3]]. subst.
  split; [apply in_or_app; now left|]. split; [auto|].
  intros N. unfold indexOf. rewrite indexOfFrom_app_In by exact P1. now apply P3.
Qed.

(** The place of an object of a later scan, seen from an earlier start. *)
Lemma scanPlaces_earlier :
  forall h o d o1 d1 o2 d2 b,
    scanGrows h o d o1 d1 ->
    scanGrows h o1 d1 o2 d2 ->
    scanPlaces o1 o2 d2 b -> scanPlaces o o2 d2 b.
Proof.
  intros h o d o1 d1 o2 d2 b [[l [E _]] _] [[l2 [E2 _]] _] [P1 [P2 P3]]. subst.
  split; [exact P1|]. split.
  - intros I. apply P2. apply in_or_app. now left.
  - intros N. destruct (in_dec Nat.eq_dec b (o ++ l)) as [I|N1].
    + unfold indexOf. rewrite indexOfFrom_app_In by exact I.
      apply (indexOf_app_behind o l b N I).
    + specialize (P3 N1). rewrite length_app in P3. lia.
Qed.

Section ScanEntries.

Variable h : heap.
Variable rec : value -> list nat -> list nat -> option (list nat * list nat).
Variable n : nat.

(** [rec] answers when fewer than [n] objects of the store are unvisited. *)
Hypothesis rec_spec :
  forall v o d,
    (unvisited h o < n)%nat ->
    exists o' d',
      rec v o d = Some (o', d') /\
      scanGrows h o d o' d' /\
      forall b, v = VRef b -> scanPlaces o o' d' b.

Lemma inspectEntries_spec :
  forall es o d,
    (unvisited h o < n)%nat ->
    exists o' d',
      inspectEntries rec es o d = Some (o', d') /\
      scanGrows h o d o' d' /\
      forall b, In (VRef b) es -> scanPlaces o o' d' b.
Proof.
  induction es as [|e es IH]; intros o d U; simpl.
  - exists o, d. split; [reflexivity|]. split; [apply scanGrows_refl|].
    intros b [].
  - destruct (rec_spec e o d U) as [o1 [d1 [E [G P]]]]. rewrite E.
    pose proof (scanGrows_unvisited _ _ _ _ _ G) as U1.
    destruct (IH o1 d1 ltac:(lia)) as [o2 [d2 [E2 [G2 P2]]]].
    exists o2, d2. split; [exact E2|].
    split; [eapply scanGrows_trans; eassumption|].
    intros b [B|B].
    + eapply scanPlaces_later; [exact G2 | apply P; exact B].
    + eapply scanPlaces_earlier; [exact G | exact G2 | apply P2; exact B].
Qed.

End ScanEntries.

Lemma NoDup_snoc :
  forall (l : list nat) a, NoDup l -> ~ In a l -> NoDup (l ++ [a]).
Proof.
  intros l a N I. apply NoDup_app; [exact N | repeat constructor; auto |].
  intros x Hx [E|[]]. subst. contradiction.
Qed.

(** With more fuel than unvisited objects, the pre-scan answers. *)
Lemma inspectNode_spec :
  forall h fuel v o d,
    (unvisited h o < fuel)%nat ->
    exists o' d',
      inspectNode fuel h v o d = Some (o', d') /\
      scanGrows h o d o' d' /\
      forall b, v = VRef b -> scanPlaces o o' d' b.
Proof.
  intros h. induction fuel as [|fuel IH]; intros v o d U; [lia|].
  assert (Skip : forall v', (forall b, v' <> VRef b) ->
            exists o' d', Some (o, d) = Some (o', d') /\ scanGrows h o d o' d' /\
              forall b, v' = VRef b -> scanPlaces o o' d' b).
  { intros v' Hv. exists o, d. split; [reflexivity|].
    split; [apply scanGrows_refl|]. intros b E. exfalso. eapply Hv. exact E. }
  destruct v; try (apply Skip; discriminate). clear Skip. simpl.
  destruct (includes o a) eqn:I.
  - apply includes_In in I. exists o, (setAdd d a). split; [reflexivity|]. split.
    + split; [exists []; rewrite app_nil_r; split; [reflexivity | intros x []]|].
      split; [auto|]. split; [apply incl_setAdd|].
      intros J x Hx. apply In_setAdd in Hx. destruct Hx as [Hx|Hx]; subst; auto.
    + intros b E. inversion E; subst. split; [exact I|]. split.
      * intros _. apply In_setAdd. now right.
      * intros C. contradiction.
  - apply includes_false in I.
    assert (Fin : forall o' d',
              scanGrows h (o ++ [a]) d o' d' ->
              (forall b, In (VRef b) (entriesOf h a) -> scanPlaces (o ++ [a]) o' d' b) ->
              scanGrows h o d o' d' /\
              forall b, VRef a = VRef b -> scanPlaces o o' d' b).
    { intros o' d' [[l [E S]] [N [J K]]] P. subst o'.
      assert (Pa : indexOf ((o ++ [a]) ++ l) a = Z.of_nat (List.length o)).
      { unfold indexOf. rewrite <- app_assoc. simpl.
        rewrite indexOfFrom_app_notIn by exact I. lia. }
      split.
      - split.
        + exists (a :: l). split; [rewrite <- app_assoc; reflexivity|].
          intros x [X|X]; [subst x | apply S; exact X].
          intros b C. destruct (P b C) as [P1 [P2 P3]]. split; [exact P1|].
          destruct (in_dec Nat.eq_dec b (o ++ [a])) as [B|B].
          * right. apply P2. exact B.
          * left. specialize (P3 B). rewrite length_app in P3. simpl in P3. lia.
        + split; [intros Nd; apply N; apply NoDup_snoc; assumption|].
          split; [exact J|].
          intros Jo. apply K. intros x Hx. apply in_or_app. left. now apply Jo.
      - intros b E. inversion E; subst b. split.
        + rewrite <- app_assoc. apply in_or_app. right. now left.
        + split; [intros C; contradiction|]. intros _. lia. }
    destruct (Nat.lt_ge_cases a (List.length h)) as [L|L].
    + pose proof (unvisited_push h o a L I) as U1.
      destruct (inspectEntries_spec h (inspectNode fuel h) fuel IH
                  (entriesOf h a) (o ++ [a]) d ltac:(lia)) as [o' [d' [E [G P]]]].
      exists o', d'. split; [exact E|]. apply Fin; assumption.
    + rewrite (entriesOf_outside h a L) in *. simpl.
      exists (o ++ [a]), d. split; [reflexivity|].
      apply Fin; [apply scanGrows_refl | intros b []].
Qed.


(** ** The render pass terminates *)

Lemma detectTypeLoop_primitive :
  forall this h explicit types v tg v',
    primitiveTypes types ->
    detectTypeLoop this h explicit types v = Ok (Some (tg, v')) ->
    v' = v \/ isObject v' = false.
Proof.
  intros this h explicit types v tg v'.
  induction types as [|t types IH]; intros P H; simpl in H; [discriminate|].
  assert (P' : primitiveTypes types).
  { intros t' f h' w style It If. apply (P t' f h' w style); [now right | exact If]. }
  destruct (match predicate t with Some p => p h v | None => false end);
    [|apply IH; assumption].
  pose proof (fun f h' w style => P t f h' w style (or_introl eq_refl)) as Pt.
  unfold representFns in Pt.
  destruct (represent t) as [[f|table]|].
  - inversion H; subst. right. apply Pt. now left.
  - destruct (tableGet table _) as [f|] eqn:G; [|discriminate].
    inversion H; subst. right. apply Pt.
    clear -G. induction table as [|[k g] table IHt]; simpl in *; [discriminate|].
    destruct (jsstring_eqb k _); [inversion G; now left | right; auto].
  - inversion H; subst. now left.
Qed.

Lemma resolveType_primitive :
  forall this h v tg v',
    primitiveTypes (implicitTypes this ++ explicitTypes this) ->
    resolveType this h v = Ok (tg, v') ->
    v' = v \/ isObject v' = false.
Proof.
  intros this h v tg v' P H. unfold resolveType, detectType in H.
  assert (P1 : primitiveTypes (implicitTypes this)).
  { intros t f h' w style It If. apply (P t f h' w style); [|exact If].
    apply in_or_app. now left. }
  assert (P2 : primitiveTypes (explicitTypes this)).
  { intros t f h' w style It If. apply (P t f h' w style); [|exact If].
    apply in_or_app. now right. }
  destruct (detectTypeLoop this h false (implicitTypes this) v)
    as [[[t1 o1]|]|e1] eqn:E1; try discriminate.
  - inversion H; subst. exact (detectTypeLoop_primitive _ _ _ _ _ _ _ P1 E1).
  - destruct (detectTypeLoop this h true (explicitTypes this) v)
      as [[[t2 o2]|]|e2] eqn:E2; try discriminate.
    + inversion H; subst. exact (detectTypeLoop_primitive _ _ _ _ _ _ _ P2 E2).
    + inversion H; subst. now left.
Qed.

Lemma renderReady_extends :
  forall dups st st', renderReady dups st -> extendsUsed st st' -> renderReady dups st'.
Proof. intros dups st st' [D P] [u [E _]]. subst st'. split; assumption. Qed.

Lemma unusedDuplicates_extends :
  forall st st', extendsUsed st st' -> (unusedDuplicates st' <= unusedDuplicates st)%nat.
Proof.
  intros st st' [u [E I]]. subst st'. unfold unusedDuplicates. simpl.
  apply filter_length_mono. intros x H.
  apply negb_true_iff in H. apply negb_true_iff.
  apply includes_false in H. apply includes_false. auto.
Qed.

Lemma unusedDuplicates_markUsed :
  forall st a,
    isDuplicate st a = true -> includes (usedDuplicates st) a = false ->
    (unusedDuplicates (markUsed st a) < unusedDuplicates st)%nat.
Proof.
  intros st a D U. unfold markUsed. rewrite D. unfold unusedDuplicates. simpl.
  apply filter_length_strict with (a := a).
  - intros x H. apply negb_true_iff in H. apply negb_true_iff.
    apply includes_false in H. apply includes_false.
    intros C. apply H. apply In_setAdd. now left.
  - now apply isDuplicate_In.
  - now rewrite U.
  - apply negb_false_iff, includes_In, In_setAdd. now right.
Qed.

Lemma renderWeight_bound :
  forall objects st v,
    (renderWeight objects st v <=
     unusedDuplicates st * (List.length objects + 2) + List.length objects + 1)%nat.
Proof.
  intros objects st v. unfold renderWeight. destruct v; try lia.
  destruct (isDuplicate st a); [destruct (includes (usedDuplicates st) a)|]; lia.
Qed.

Lemma isDuplicate_extends :
  forall st st' a, extendsUsed st st' -> isDuplicate st' a = isDuplicate st a.
Proof. intros st st' a [u [E _]]. subst. reflexivity. Qed.

Section RenderTerminates.

Variable h : heap.
Variables objects dups : list nat.

(** The result of the pre-scan: every object of [objects] is settled. *)
Hypothesis all_settled : forall x, In x objects -> settled h objects dups x.

Lemma stringifyNode_terminates :
  forall fuel level v block compact isKey st,
    renderReady dups st ->
    (forall a, v = VRef a -> In a objects) ->
    (renderWeight objects st v < fuel)%nat ->
    outcomeSat False (fun _ st' => extendsUsed st st')
      (stringifyNode fuel h level v block compact isKey st).
Proof.
  induction fuel as [|fuel IH]; intros level v block compact isKey st W Hv Hw; [lia|].
  simpl.
  body_cases (stringifyNode fuel h) h level v block compact isKey st.
  all: try (destruct (skipInvalid st); simpl; [apply extendsUsed_refl | exact I]).
  all: try (simpl; first [apply extendsUsed_refl | exact I]).
  - destruct (notQuestionTag tg); [|apply extendsUsed_refl].
    destruct (stringifyScalar st s level isKey); simpl;
      [apply extendsUsed_refl | exact I].
  - (* an object that is not written as an alias *)
    destruct W as [Wd Wp].
    destruct (resolveType_primitive st h v tg (VRef a) Wp R) as [E|E];
      [|discriminate].
    subst v. pose proof (Hv a eq_refl) as Ia. clear Hv.
    pose proof (indexOf_In objects a Ia) as Pa.
    set (n := List.length objects) in *.
    (* the children of [a] are lighter than [a] *)
    assert (Light : forall st' v',
              extendsUsed (markUsed st a) st' ->
              (forall b, v' = VRef b -> child h a b) ->
              (renderWeight objects st' v' < fuel)%nat).
    { intros st' v' X Hc.
      pose proof (unusedDuplicates_extends _ _ X) as U'.
      pose proof (renderWeight_bound objects st' v') as B. fold n in B.
      assert (X0 : extendsUsed st st')
        by (eapply extendsUsed_trans; [apply extendsUsed_markUsed | exact X]).
      unfold renderWeight in Hw. fold n in Hw.
      destruct (isDuplicate st a) eqn:Da.
      - simpl in A. rewrite A in Hw.
        pose proof (unusedDuplicates_markUsed st a Da A) as U1. nia.
      - assert (M : markUsed st a = st) by (unfold markUsed; now rewrite Da).
        rewrite M in U'.
        destruct v' as [| | | | |  |b]; simpl; try lia.
        destruct (all_settled a Ia b (Hc b eq_refl)) as [Ib Sb].
        pose proof (indexOf_In objects b Ib) as Pb. fold n in Pb. fold n.
        rewrite (isDuplicate_extends st st' b X0).
        destruct (isDuplicate st b) eqn:Db.
        + destruct (includes (usedDuplicates st') b); nia.
        + destruct Sb as [Sb|Sb].
          * nia.
          * exfalso. rewrite <- Wd in Sb.
            apply (proj2 (isDuplicate_In st b)) in Sb. congruence. }
    eapply outcomeSat_impl;
      [|apply (stringifyContainer_inv (stringifyNode fuel h) False
                 (fun st' => extendsUsed (markUsed st a) st')
                 (fun v' => (forall b, v' = VRef b -> child h a b) \/
                            (forall b, v' <> VRef b)))].
    + intros o st' X. simpl in X.
      eapply extendsUsed_trans; [apply extendsUsed_markUsed | exact X].
    + intros level' v' b1 b2 b3 st' X Cv.
      eapply outcomeSat_impl;
        [intros o st'' X'; eapply extendsUsed_trans; [exact X | exact X']|].
      apply IH.
      * eapply renderReady_extends; [split; eassumption|].
        eapply extendsUsed_trans; [apply extendsUsed_markUsed | exact X].
      * intros b Eb. destruct Cv as [Cv|Cv]; [|exfalso; eapply Cv; exact Eb].
        apply (all_settled a Ia b (Cv b Eb)).
      * destruct Cv as [Cv|Cv]; [apply Light; assumption|].
        apply Light; [exact X|]. intros b Eb. exfalso. eapply Cv. exact Eb.
    + intros k. right. discriminate.
    + apply extendsUsed_refl.
    + apply Forall_forall. intros x Hx. left. intros b Eb. subst x. exact Hx.
Qed.

End RenderTerminates.


(** ** Cycles *)

Section AfterScan.

Variable h : heap.
Variable data : value.
Variables objects dups : list nat.

Hypothesis all_settled : forall x, In x objects -> settled h objects dups x.
Hypothesis root_seen : forall a, data = VRef a -> In a objects.

Lemma reachable_seen : forall a, reachable h data a -> In a objects.
Proof.
  intros a R. induction R as [a E|a b R IH C].
  - now apply root_seen.
  - apply (all_settled a IH b C).
Qed.

Lemma pathAvoiding_later :
  forall a b,
    pathAvoiding h dups a b -> In a objects ->
    In b objects /\ indexOf objects a < indexOf objects b.
Proof.
  intros a b P Ia. induction P as [a b C N|a b c P IH C N].
  - destruct (all_settled a Ia b C) as [Ib [L|D]]; [auto | contradiction].
  - destruct (IH Ia) as [Ib L].
    destruct (all_settled b Ib c C) as [Ic [L'|D]]; [|contradiction].
    split; [exact Ic | lia].
Qed.

(** An object that contains itself is a duplicate, and every cycle of
    containment goes through a duplicate. *)
Lemma cycles_have_duplicates :
  (forall a, reachable h data a -> child h a a -> In a dups) /\
  (forall a, reachable h data a -> ~ pathAvoiding h dups a a).
Proof.
  split.
  - intros a R C. pose proof (reachable_seen a R) as Ia.
    destruct (all_settled a Ia a C) as [_ [L|D]]; [lia | exact D].
  - intros a R P. pose proof (reachable_seen a R) as Ia.
    destruct (pathAvoiding_later a a P Ia) as [_ L]. lia.
Qed.

End AfterScan.

(** The pre-scan from an empty array and an empty set. *)
Lemma inspectNode_from_empty :
  forall h data,
    exists objects dups,
      (forall fuel, (S (List.length h) <= fuel)%nat ->
         inspectNode fuel h data [] [] = Some (objects, dups)) /\
      (forall x, In x objects -> settled h objects dups x) /\
      (forall a, data = VRef a -> In a objects) /\
      NoDup objects /\ incl dups objects.
Proof.
  intros h data.
  assert (U : (unvisited h [] < S (List.length h))%nat).
  { unfold unvisited.
    pose proof (List.filter_length_le (fun a => negb (includes [] a))
                  (seq 0 (List.length h))) as F.
    rewrite length_seq in F. lia. }
  destruct (inspectNode_spec h (S (List.length h)) data [] [] U)
    as [o [d [E [[[l [El S]] [N [_ J]]] P]]]].
  simpl in El. subst l.
  exists o, d. split; [|split; [exact S|split; [|split]]].
  - intros fuel L. eapply inspectNode_more_fuel; eassumption.
  - intros a Ea. apply (P a Ea).
  - apply N. constructor.
  - apply J. intros x [].
Qed.

(** C3: with [useAnchors] and a schema whose [represent] functions yield
    primitive values, [stringify] answers on every store, cyclic or not:
    with enough fuel the result is a string or a thrown error.  The
    pre-scan returns at once on an object that it has seen; an object that
    contains itself is in the list of duplicates, and every cycle of
    containment goes through a duplicate; a duplicate that is already used
    is written as its alias, without a recursive call. *)
Theorem stringify_terminates_with_anchors :
  forall (D : Schema) (opts : DumperStateOptions) (h : heap) (data : value),
    let this := newDumperState D opts in
    useAnchors this = true ->
    primitiveRepresent (schema this) ->
    (exists fuel0, forall fuel, (fuel0 <= fuel)%nat ->
       stringify fuel h data this <> OutOfFuel) /\
    (exists fuel0 this1,
       (forall fuel, (fuel0 <= fuel)%nat ->
          getDuplicateReferences fuel h data this = Some this1) /\
       (forall a, reachable h data a -> child h a a -> In a (duplicates this1)) /\
       (forall a, reachable h data a ->
          ~ pathAvoiding h (duplicates this1) a a)) /\
    (forall fuel a objects duplicateObjects,
       In a objects ->
       inspectNode (S fuel) h (VRef a) objects duplicateObjects =
       Some (objects, setAdd duplicateObjects a)) /\
    (forall fuel level v block compact isKey st tg a,
       resolveType st h v = Ok (tg, VRef a) ->
       isDuplicate st a = true ->
       includes (usedDuplicates st) a = true ->
       stringifyNode (S fuel) h level v block compact isKey st =
       Done (Some (aliasText (indexOf (duplicates st) a))) st).
Proof.
  intros D opts h data this UA PR.
  destruct (inspectNode_from_empty h data) as [o [d [E [St [Rt [N J]]]]]].
  set (this1 := setUsedDuplicates (setDuplicates this (duplicates this ++ d)) []).
  assert (Dup : duplicates this1 = d) by reflexivity.
  assert (G : forall fuel, (S (List.length h) <= fuel)%nat ->
            getDuplicateReferences fuel h data this = Some this1).
  { intros fuel L. unfold getDuplicateReferences. now rewrite (E fuel L). }
  split; [|split; [|split]].
  - exists (S (List.length h) +
            S (List.length d * (List.length o + 2) + List.length o + 1))%nat.
    intros fuel L. unfold stringify. rewrite UA, (G fuel) by lia.
    assert (Rd : renderReady d this1) by (split; [reflexivity | exact PR]).
    pose proof (stringifyNode_terminates h o d St fuel 0 data true true false
                  this1 Rd Rt) as T.
    assert (W : (renderWeight o this1 data < fuel)%nat).
    { pose proof (renderWeight_bound o this1 data) as B.
      assert (Ud : (unusedDuplicates this1 <= List.length d)%nat).
      { unfold unusedDuplicates. rewrite Dup. apply List.filter_length_le. }
      nia. }
    specialize (T W).
    destruct (stringifyNode fuel h 0 data true true false this1) as [[s|] st| |];
      simpl in T; try discriminate. contradiction.
  - exists (S (List.length h)), this1. split; [exact G|].
    rewrite Dup. apply (cycles_have_duplicates h data o d St Rt).
  - intros fuel a objects duplicateObjects Ia. simpl.
    apply includes_In in Ia. now rewrite Ia.
  - intros fuel level v block compact isKey st tg a R Da Ua. simpl.
    eapply body_alias; eassumption.
Qed.

Lemma nullSchema_primitive : primitiveRepresent nullSchema.
Proof.
  intros t f h v style [E|[]] If. subst t. simpl in If.
  destruct If as [E|[E|[E|[]]]]; subst f; reflexivity.
Qed.

Lemma stringify_terminates_with_anchors_witness :
  exists fuel0, forall fuel, (fuel0 <= fuel)%nat ->
    stringify fuel heapSelf (VRef 0) (newDumperState nullSchema noOptions) <> OutOfFuel.
Proof.
  exact (proj1 (stringify_terminates_with_anchors nullSchema noOptions heapSelf
                  (VRef 0) eq_refl nullSchema_primitive)).
Defined.


(** ** The marked methods write the same text *)

Lemma textOf_app : forall a b, textOf (a ++ b) = textOf a ++ textOf b.
Proof. intros a b. unfold textOf. apply flat_map_app. Qed.

Lemma textOf_Text : forall s rest, textOf (Text s :: rest) = s ++ textOf rest.
Proof. reflexivity. Qed.

Lemma textOf_nil : textOf [] = [].
Proof. reflexivity. Qed.

Lemma textOf_Anchor :
  forall n rest, textOf (Anchor n :: rest) = anchorText n ++ textOf rest.
Proof. reflexivity. Qed.

Lemma textOf_Alias :
  forall n rest, textOf (Alias n :: rest) = aliasText n ++ textOf rest.
Proof. reflexivity. Qed.

(** Joins the segments on both sides of an equation between texts. *)
Ltac join_text :=
  repeat (rewrite ?textOf_app, ?textOf_Text, ?textOf_Anchor, ?textOf_Alias,
            ?textOf_nil);
  repeat rewrite <- app_assoc;
  rewrite ?app_nil_r;
  first [reflexivity | simpl; repeat rewrite <- app_assoc; reflexivity | idtac].

Section JoinedLoops.

Variable rec : nodeRenderer.
Variable recM : markedRenderer.

(** [recM] is [rec] with the segments kept apart. *)
Hypothesis rec_joined :
  forall level v b1 b2 b3 this,
    joinedNode (recM level v b1 b2 b3 this) = rec level v b1 b2 b3 this.

Lemma flowSequenceLoopMarked_text :
  forall elems index level res this,
    joined (flowSequenceLoopMarked recM elems index level res this) =
    flowSequenceLoop rec elems index level (textOf res) this.
Proof.
  induction elems as [|e l IH]; intros index level res this; simpl; [reflexivity|].
  rewrite <- rec_joined.
  destruct (recM level e false false false this) as [[s|] st| |]; simpl;
    try reflexivity; [|apply IH].
  rewrite IH. f_equal. destruct (negb (index =? 0)); join_text.
Qed.

Lemma blockSequenceLoopMarked_text :
  forall elems index level compact res this,
    joined (blockSequenceLoopMarked recM elems index level compact res this) =
    blockSequenceLoop rec elems index level compact (textOf res) this.
Proof.
  induction elems as [|e l IH]; intros index level compact res this; simpl;
    [reflexivity|].
  rewrite <- rec_joined.
  destruct (recM (level + 1) e true true false this) as [[s|] st| |]; simpl;
    try reflexivity; [|apply IH].
  rewrite IH. f_equal.
  destruct (negb compact || negb (index =? 0));
    destruct (indexIs (textOf s) 0 LINE_FEED); join_text.
Qed.

Lemma flowMappingLoopMarked_text :
  forall object keys index level res this,
    joined (flowMappingLoopMarked recM object keys index level res this) =
    flowMappingLoop rec object keys index level (textOf res) this.
Proof.
  intros object. induction keys as [|k l IH]; intros index level res this; simpl;
    [reflexivity|].
  rewrite <- rec_joined.
  destruct (recM level (VString k) false false false this) as [[ks|] st| |]; simpl;
    try reflexivity; [|apply IH].
  rewrite <- rec_joined.
  destruct (recM level (getProp object k) false false false st) as [[vs|] st'| |];
    simpl; try reflexivity; [|apply IH].
  rewrite IH. f_equal.
  destruct (negb (index =? 0)); destruct (1024 <? strlen (textOf ks)); join_text.
Qed.

Lemma blockMappingLoopMarked_text :
  forall object tg keys index level compact res this,
    joined (blockMappingLoopMarked recM object tg keys index level compact res this) =
    blockMappingLoop rec object tg keys index level compact (textOf res) this.
Proof.
  intros object tg. induction keys as [|k l IH];
    intros index level compact res this; simpl; [reflexivity|].
  rewrite <- rec_joined.
  destruct (recM (level + 1) (VString k) true true true this) as [[ks|] st| |]; simpl;
    try reflexivity; [|apply IH].
  rewrite <- rec_joined.
  match goal with
  | |- context [recM ?lv ?v ?x ?y ?z st] =>
      destruct (recM lv v x y z st) as [[vs|] st'| |]
  end; simpl; try reflexivity; [|apply IH].
  rewrite IH. f_equal.
  destruct (negb compact || negb (index =? 0));
    destruct (match tg with
              | Some t => negb (jsstring_eqb t (lit "?"))
              | None => false
              end || (1024 <? strlen (textOf ks)));
    destruct (indexIs (textOf ks) 0 LINE_FEED);
    destruct (indexIs (textOf vs) 0 LINE_FEED); join_text.
Qed.

Lemma orText_text :
  forall res s,
    textOf (orText res s) = match textOf res with [] => s | _ => textOf res end.
Proof.
  intros res s. unfold orText. destruct (textOf res) eqn:E; [|exact E].
  simpl. apply app_nil_r.
Qed.

Lemma stringifyFlowSequenceMarked_text :
  forall object level this,
    joined (stringifyFlowSequenceMarked recM object level this) =
    stringifyFlowSequence rec object level this.
Proof.
  intros object level this. unfold stringifyFlowSequenceMarked, stringifyFlowSequence.
  pose proof (flowSequenceLoopMarked_text object 0 level [] this) as E.
  rewrite textOf_nil in E. rewrite <- E. clear E.
  destruct (flowSequenceLoopMarked recM object 0 level [] this); simpl;
    try reflexivity.
  f_equal. join_text.
Qed.

Lemma stringifyBlockSequenceMarked_text :
  forall object level compact this,
    joined (stringifyBlockSequenceMarked recM object level compact this) =
    stringifyBlockSequence rec object level compact this.
Proof.
  intros object level compact this.
  unfold stringifyBlockSequenceMarked, stringifyBlockSequence.
  pose proof (blockSequenceLoopMarked_text object 0 level compact [] this) as E.
  rewrite textOf_nil in E. rewrite <- E. clear E.
  destruct (blockSequenceLoopMarked recM object 0 level compact [] this); simpl;
    try reflexivity.
  rewrite orText_text. destruct (textOf a); reflexivity.
Qed.

Lemma stringifyFlowMappingMarked_text :
  forall object level this,
    joined (stringifyFlowMappingMarked recM object level this) =
    stringifyFlowMapping rec object level this.
Proof.
  intros object level this. unfold stringifyFlowMappingMarked, stringifyFlowMapping.
  pose proof (flowMappingLoopMarked_text object (map fst object) 0 level [] this) as E.
  rewrite textOf_nil in E. rewrite <- E. clear E.
  destruct (flowMappingLoopMarked recM object (map fst object) 0 level [] this);
    simpl; try reflexivity.
  f_equal. join_text.
Qed.

Lemma stringifyBlockMappingMarked_text :
  forall object tg level compact this,
    joined (stringifyBlockMappingMarked recM object tg level compact this) =
    stringifyBlockMapping rec object tg level compact this.
Proof.
  intros object tg level compact this.
  unfold stringifyBlockMappingMarked, stringifyBlockMapping.
  destruct (match sortKeys this with
            | SortKeysBool true => _ | SortKeysFn c => _
            | SortKeysOther true => _ | _ => _ end) as [keys|e]; [|reflexivity].
  pose proof (blockMappingLoopMarked_text object tg keys 0 level compact [] this) as E.
  rewrite textOf_nil in E. rewrite <- E. clear E.
  destruct (blockMappingLoopMarked recM object tg keys 0 level compact [] this);
    simpl; try reflexivity.
  rewrite orText_text. destruct (textOf a); reflexivity.
Qed.

Lemma wrapTagMarked_text :
  forall tg d i sep r r',
    joined r' = r ->
    joinedNode (wrapTagMarked tg (withAnchorMarked d i sep r')) =
    wrapTag tg (withAnchor d i sep r).
Proof.
  intros tg d i sep r r' E. subst r.
  destruct r' as [segs st| |]; simpl; try reflexivity.
  f_equal. f_equal. destruct (realTag tg); destruct d; join_text.
Qed.

Lemma stringifyNodeBodyMarked_text :
  forall h level object block compact isKey this,
    joinedNode (stringifyNodeBodyMarked recM h level object block compact isKey this) =
    stringifyNodeBody rec h level object block compact isKey this.
Proof.
  intros h level object block compact isKey this.
  unfold stringifyNodeBodyMarked, stringifyNodeBody.
  destruct (resolveType this h object) as [[tg v]|e]; [|reflexivity].
  cbv zeta.
  match goal with
  | |- joinedNode (if ?c then _ else _) = _ =>
      destruct c;
        [cbn [joinedNode option_map];
         rewrite textOf_Alias, textOf_nil, app_nil_r; reflexivity|]
  end.
  match goal with
  | |- context [if ?c then setUsedDuplicates _ _ else _] =>
      generalize (if c then setUsedDuplicates this (valueAdd (usedDuplicates this) v)
                  else this)
  end.
  intros st. destruct v; try (destruct (skipInvalid st); reflexivity).
  - destruct (notQuestionTag tg).
    + destruct (stringifyScalar st s level isKey); [|reflexivity].
      simpl. f_equal. f_equal. destruct (realTag tg); join_text.
    + simpl. f_equal. f_equal. destruct (realTag tg); join_text.
  - destruct (deref h a) as [elems|props].
    + match goal with
      | |- joinedNode (if ?c then _ else _) = _ => destruct c
      end; apply wrapTagMarked_text.
      * apply stringifyBlockSequenceMarked_text.
      * apply stringifyFlowSequenceMarked_text.
    + match goal with
      | |- joinedNode (if ?c then _ else _) = _ => destruct c
      end; apply wrapTagMarked_text.
      * apply stringifyBlockMappingMarked_text.
      * apply stringifyFlowMappingMarked_text.
Qed.

End JoinedLoops.

Lemma stringifyNodeMarked_text :
  forall h fuel level object block compact isKey this,
    joinedNode (stringifyNodeMarked fuel h level object block compact isKey this) =
    stringifyNode fuel h level object block compact isKey this.
Proof.
  intros h. induction fuel as [|fuel IH]; intros; [reflexivity|].
  simpl. apply stringifyNodeBodyMarked_text. exact IH.
Qed.

Lemma stringifyMarked_text :
  forall fuel h data this,
    joined (stringifyMarked fuel h data this) = stringify fuel h data this.
Proof.
  intros fuel h data this. unfold stringifyMarked, stringify.
  destruct (if useAnchors this then getDuplicateReferences fuel h data this
            else Some this) as [st|]; [|reflexivity].
  rewrite <- (stringifyNodeMarked_text h fuel 0 data true true false st).
  destruct (stringifyNodeMarked fuel h 0 data true true false st) as [[s|] st'| |];
    simpl; try reflexivity.
  f_equal. join_text.
Qed.


(** ** Aliases follow anchors *)

Lemma seen_In : forall n seen, existsb (Z.eqb n) seen = true <-> In n seen.
Proof.
  intros n seen. rewrite existsb_exists. split.
  - intros [x [H E]]. apply Z.eqb_eq in E. now subst.
  - intros H. exists n. split; [exact H | apply Z.eqb_refl].
Qed.

Lemma aliasesFollowAnchors_mono :
  forall segs seen seen',
    (forall n, In n seen -> In n seen') ->
    aliasesFollowAnchors seen segs = true ->
    aliasesFollowAnchors seen' segs = true.
Proof.
  induction segs as [|g segs IH]; intros seen seen' M H; simpl in *; [reflexivity|].
  destruct g as [s|n|n].
  - eapply IH; eassumption.
  - apply (IH (n :: seen)); [|exact H].
    intros m [E|I]; [now left | right; auto].
  - apply andb_true_iff in H. destruct H as [H1 H2]. apply andb_true_iff. split.
    + apply seen_In. apply M. now apply seen_In.
    + eapply IH; eassumption.
Qed.

Lemma anchorsOf_app : forall a b, anchorsOf (a ++ b) = anchorsOf a ++ anchorsOf b.
Proof.
  induction a as [|g a IH]; intros b; simpl; [reflexivity|].
  destruct g; simpl; rewrite IH; reflexivity.
Qed.

Lemma aliasesFollowAnchors_app :
  forall s1 s2 seen,
    aliasesFollowAnchors seen s1 = true ->
    aliasesFollowAnchors (anchorsOf s1 ++ seen) s2 = true ->
    aliasesFollowAnchors seen (s1 ++ s2) = true.
Proof.
  induction s1 as [|g s1 IH]; intros s2 seen H1 H2; simpl in *; [exact H2|].
  destruct g as [s|n|n]; simpl in *.
  - apply IH; assumption.
  - apply IH; [exact H1|].
    eapply aliasesFollowAnchors_mono; [|exact H2].
    intros m [E|I]; [apply in_or_app; right; now left|].
    apply in_app_or in I. apply in_or_app.
    destruct I as [I|I]; [now left | right; now right].
  - apply andb_true_iff in H1. destruct H1 as [A B]. rewrite A. simpl.
    apply IH; assumption.
Qed.

Lemma noMarks_app : forall a b, noMarks (a ++ b) = noMarks a && noMarks b.
Proof. intros a b. unfold noMarks. apply forallb_app. Qed.

Lemma noMarks_anchorsOf : forall segs, noMarks segs = true -> anchorsOf segs = [].
Proof.
  induction segs as [|g segs IH]; intros H; simpl in *; [reflexivity|].
  destruct g; simpl in *; try discriminate. apply IH. exact H.
Qed.

Lemma noMarks_follow :
  forall segs seen, noMarks segs = true -> aliasesFollowAnchors seen segs = true.
Proof.
  induction segs as [|g segs IH]; intros seen H; simpl in *; [reflexivity|].
  destruct g; simpl in *; try discriminate. apply IH. exact H.
Qed.

Lemma textOf_empty_anchorsOf : forall segs, textOf segs = [] -> anchorsOf segs = [].
Proof.
  induction segs as [|g segs IH]; intros H; [reflexivity|].
  destruct g as [s|n|n].
  - rewrite textOf_Text in H. apply app_eq_nil in H. simpl. apply IH. tauto.
  - rewrite textOf_Anchor in H. discriminate H.
  - rewrite textOf_Alias in H. discriminate H.
Qed.

Lemma usedAreSeen_mono :
  forall seen seen' st,
    (forall n, In n seen -> In n seen') ->
    usedAreSeen seen st -> usedAreSeen seen' st.
Proof. intros seen seen' st M U a I. apply M. apply U. exact I. Qed.

Lemma marksBelow_app :
  forall k a b, marksBelow k (a ++ b) = marksBelow k a && marksBelow k b.
Proof. intros k a b. unfold marksBelow. apply forallb_app. Qed.

Lemma noMarks_marksBelow : forall k segs, noMarks segs = true -> marksBelow k segs = true.
Proof.
  induction segs as [|g segs IH]; intros H; simpl in *; [reflexivity|].
  destruct g; simpl in *; try discriminate. apply IH. exact H.
Qed.

Lemma extendsUsed_duplicates :
  forall st st', extendsUsed st st' -> duplicates st' = duplicates st.
Proof. intros st st' [u [E _]]. subst. reflexivity. Qed.

Lemma markedSoFar_start :
  forall this seen, usedAreSeen seen this -> markedSoFar this seen [] this.
Proof.
  intros this seen U. split; [apply extendsUsed_refl|]. split; [reflexivity|].
  split; [exact U | reflexivity].
Qed.

(** One more rendered node, after text without marks. *)
Lemma markedSoFar_step :
  forall this0 seen0 res st t segs st',
    markedSoFar this0 seen0 res st ->
    markedSoFar st (anchorsOf res ++ seen0) segs st' ->
    noMarks t = true ->
    markedSoFar this0 seen0 (res ++ t ++ segs) st'.
Proof.
  intros this0 seen0 res st t segs st' [X [F [U B]]] [X' [F' [U' B']]] T.
  split; [eapply extendsUsed_trans; eassumption|]. split; [|split].
  - apply aliasesFollowAnchors_app; [exact F|].
    apply aliasesFollowAnchors_app; [now apply noMarks_follow|].
    rewrite (noMarks_anchorsOf t T). exact F'.
  - rewrite !anchorsOf_app, (noMarks_anchorsOf t T). simpl.
    eapply usedAreSeen_mono; [|exact U'].
    intros n I. rewrite <- app_assoc.
    apply in_app_or in I. destruct I as [I|I].
    + apply in_or_app. right. apply in_or_app. now left.
    + apply in_app_or in I. apply in_or_app.
      destruct I as [I|I]; [now left | right; apply in_or_app; now right].
  - rewrite !marksBelow_app, B, (noMarks_marksBelow _ t T). simpl.
    rewrite (extendsUsed_duplicates _ _ X) in B'. exact B'.
Qed.

(** Text without marks at the end. *)
Lemma markedSoFar_text :
  forall this0 seen0 res st t,
    markedSoFar this0 seen0 res st -> noMarks t = true ->
    markedSoFar this0 seen0 (res ++ t) st.
Proof.
  intros this0 seen0 res st t M T.
  pose proof (markedSoFar_step this0 seen0 res st t [] st M) as S.
  rewrite app_nil_r in S. apply S; [|exact T].
  destruct M as [_ [_ [U _]]]. apply markedSoFar_start. exact U.
Qed.

(** Text without marks on both sides. *)
Lemma markedSoFar_wrap :
  forall this0 seen0 res st t1 t2,
    usedAreSeen seen0 this0 ->
    markedSoFar this0 seen0 res st ->
    noMarks t1 = true -> noMarks t2 = true ->
    markedSoFar this0 seen0 (t1 ++ res ++ t2) st.
Proof.
  intros this0 seen0 res st t1 t2 U M T1 T2.
  rewrite app_assoc. apply markedSoFar_text; [|exact T2].
  apply (markedSoFar_step this0 seen0 [] this0 t1 res st);
    [apply markedSoFar_start; exact U | exact M | exact T1].
Qed.

Lemma markedSoFar_orText :
  forall this0 seen0 res st s,
    markedSoFar this0 seen0 res st ->
    markedSoFar this0 seen0 (orText res s) st.
Proof.
  intros this0 seen0 res st s M. unfold orText.
  destruct (textOf res) eqn:E; [|exact M].
  destruct M as [X [F [U B]]]. rewrite (textOf_empty_anchorsOf res E) in U.
  split; [exact X|]. split; [reflexivity|]. split; [exact U | reflexivity].
Qed.


Section MarkedLoops.

Variable recM : markedRenderer.
Variable dups : list nat.

(** What [recM] returns, on every state of the render pass. *)
Hypothesis rec_marked :
  forall level v b1 b2 b3 st seen,
    renderReady dups st -> usedAreSeen seen st ->
    outcomeSat True (nodeMarked v seen st) (recM level v b1 b2 b3 st).

Variable this0 : DumperState.
Variable seen0 : list Z.
Hypothesis ready0 : renderReady dups this0.

Lemma markedSoFar_ready :
  forall res st, markedSoFar this0 seen0 res st -> renderReady dups st.
Proof.
  intros res st [X _]. eapply renderReady_extends; [exact ready0 | exact X].
Qed.

Lemma markedSoFar_node :
  forall res st v segs st' t,
    markedSoFar this0 seen0 res st ->
    nodeMarked v (anchorsOf res ++ seen0) st (Some segs) st' ->
    noMarks t = true ->
    markedSoFar this0 seen0 (res ++ t ++ segs) st'.
Proof.
  intros res st v segs st' t M [N _] T. eapply markedSoFar_step; eassumption.
Qed.

Lemma flowSequenceLoopMarked_inv :
  forall elems index level res st,
    markedSoFar this0 seen0 res st ->
    outcomeSat True (fun res' st' => markedSoFar this0 seen0 res' st')
      (flowSequenceLoopMarked recM elems index level res st).
Proof.
  induction elems as [|e l IH]; intros index level res st M; simpl; [exact M|].
  pose proof (rec_marked level e false false false st (anchorsOf res ++ seen0)
                (markedSoFar_ready res st M) (proj1 (proj2 (proj2 M)))) as H.
  destruct (recM level e false false false st) as [[segs|] st'| |]; simpl in *;
    try exact I.
  - apply IH. destruct (negb (index =? 0)).
    + rewrite <- app_assoc.
      eapply markedSoFar_node; [exact M | exact H | reflexivity].
    + apply (markedSoFar_node res st e segs st' [] M H eq_refl).
  - subst st'. apply IH. exact M.
Qed.

Lemma blockSequenceLoopMarked_inv :
  forall elems index level compact res st,
    markedSoFar this0 seen0 res st ->
    outcomeSat True (fun res' st' => markedSoFar this0 seen0 res' st')
      (blockSequenceLoopMarked recM elems index level compact res st).
Proof.
  induction elems as [|e l IH]; intros index level compact res st M; simpl;
    [exact M|].
  pose proof (rec_marked (level + 1) e true true false st (anchorsOf res ++ seen0)
                (markedSoFar_ready res st M) (proj1 (proj2 (proj2 M)))) as H.
  destruct (recM (level + 1) e true true false st) as [[segs|] st'| |]; simpl in *;
    try exact I.
  - apply IH.
    destruct (negb compact || negb (index =? 0));
      destruct (indexIs (textOf segs) 0 LINE_FEED);
      repeat rewrite <- app_assoc;
      (eapply markedSoFar_node; [exact M | exact H | reflexivity]).
  - subst st'. apply IH. exact M.
Qed.

Lemma flowMappingLoopMarked_inv :
  forall object keys index level res st,
    markedSoFar this0 seen0 res st ->
    outcomeSat True (fun res' st' => markedSoFar this0 seen0 res' st')
      (flowMappingLoopMarked recM object keys index level res st).
Proof.
  intros object. induction keys as [|k l IH]; intros index level res st M; simpl;
    [exact M|].
  pose proof (rec_marked level (VString k) false false false st
                (anchorsOf res ++ seen0)
                (markedSoFar_ready res st M) (proj1 (proj2 (proj2 M)))) as Hk.
  destruct (recM level (VString k) false false false st) as [[ks|] st1| |];
    simpl in *; try exact I.
  - destruct Hk as [_ Hk]. destruct (Hk eq_refl) as [Tk Ek]. subst st1.
    pose proof (rec_marked level (getProp object k) false false false st
                  (anchorsOf res ++ seen0)
                  (markedSoFar_ready res st M) (proj1 (proj2 (proj2 M)))) as Hv.
    destruct (recM level (getProp object k) false false false st)
      as [[vs|] st2| |]; simpl in *; try exact I.
    + apply IH. eapply markedSoFar_node; [exact M | exact Hv |].
      destruct (negb (index =? 0)); destruct (1024 <? strlen (textOf ks));
        rewrite !noMarks_app, Tk; reflexivity.
    + subst st2. apply IH. exact M.
  - subst st1. apply IH. exact M.
Qed.

Lemma blockMappingLoopMarked_inv :
  forall object tg keys index level compact res st,
    markedSoFar this0 seen0 res st ->
    outcomeSat True (fun res' st' => markedSoFar this0 seen0 res' st')
      (blockMappingLoopMarked recM object tg keys index level compact res st).
Proof.
  intros object tg. induction keys as [|k l IH];
    intros index level compact res st M; simpl; [exact M|].
  pose proof (rec_marked (level + 1) (VString k) true true true st
                (anchorsOf res ++ seen0)
                (markedSoFar_ready res st M) (proj1 (proj2 (proj2 M)))) as Hk.
  destruct (recM (level + 1) (VString k) true true true st) as [[ks|] st1| |];
    simpl in *; try exact I.
  - destruct Hk as [_ Hk]. destruct (Hk eq_refl) as [Tk Ek]. subst st1.
    match goal with
    | |- context [recM ?lv ?v ?x ?y ?z st] =>
        pose proof (rec_marked lv v x y z st (anchorsOf res ++ seen0)
                      (markedSoFar_ready res st M) (proj1 (proj2 (proj2 M)))) as Hv;
        destruct (recM lv v x y z st) as [[vs|] st2| |]
    end; simpl in *; try exact I.
    + apply IH. eapply markedSoFar_node; [exact M | exact Hv |].
      destruct (negb compact || negb (index =? 0));
        destruct (match tg with
                  | Some t => negb (jsstring_eqb t (lit "?"))
                  | None => false
                  end || (1024 <? strlen (textOf ks)));
        destruct (indexIs (textOf ks) 0 LINE_FEED);
        destruct (indexIs (textOf vs) 0 LINE_FEED);
        rewrite !noMarks_app, Tk; reflexivity.
    + subst st2. apply IH. exact M.
  - subst st1. apply IH. exact M.
Qed.

Hypothesis seen0_used : usedAreSeen seen0 this0.

Lemma stringifyFlowSequenceMarked_inv :
  forall object level,
    outcomeSat True (fun segs st' => markedSoFar this0 seen0 segs st')
      (stringifyFlowSequenceMarked recM object level this0).
Proof.
  intros object level. unfold stringifyFlowSequenceMarked.
  pose proof (flowSequenceLoopMarked_inv object 0 level [] this0
                (markedSoFar_start this0 seen0 seen0_used)) as H.
  destruct (flowSequenceLoopMarked recM object 0 level [] this0) as [res st| |];
    simpl in *; try exact I.
  apply (markedSoFar_wrap this0 seen0 res st [Text (lit "[")] [Text (lit "]")]);
    auto.
Qed.

Lemma stringifyBlockSequenceMarked_inv :
  forall object level compact,
    outcomeSat True (fun segs st' => markedSoFar this0 seen0 segs st')
      (stringifyBlockSequenceMarked recM object level compact this0).
Proof.
  intros object level compact. unfold stringifyBlockSequenceMarked.
  pose proof (blockSequenceLoopMarked_inv object 0 level compact [] this0
                (markedSoFar_start this0 seen0 seen0_used)) as H.
  destruct (blockSequenceLoopMarked recM object 0 level compact [] this0)
    as [res st| |]; simpl in *; try exact I.
  apply markedSoFar_orText. exact H.
Qed.

Lemma stringifyFlowMappingMarked_inv :
  forall object level,
    outcomeSat True (fun segs st' => markedSoFar this0 seen0 segs st')
      (stringifyFlowMappingMarked recM object level this0).
Proof.
  intros object level. unfold stringifyFlowMappingMarked.
  pose proof (flowMappingLoopMarked_inv object (map fst object) 0 level [] this0
                (markedSoFar_start this0 seen0 seen0_used)) as H.
  destruct (flowMappingLoopMarked recM object (map fst object) 0 level [] this0)
    as [res st| |]; simpl in *; try exact I.
  apply (markedSoFar_wrap this0 seen0 res st [Text (lit "{")] [Text (lit "}")]);
    auto.
Qed.

Lemma stringifyBlockMappingMarked_inv :
  forall object tg level compact,
    outcomeSat True (fun segs st' => markedSoFar this0 seen0 segs st')
      (stringifyBlockMappingMarked recM object tg level compact this0).
Proof.
  intros object tg level compact. unfold stringifyBlockMappingMarked.
  destruct (match sortKeys this0 with
            | SortKeysBool true => _ | SortKeysFn c => _
            | SortKeysOther true => _ | _ => _ end) as [keys|e]; [|exact I].
  pose proof (blockMappingLoopMarked_inv object tg keys 0 level compact [] this0
                (markedSoFar_start this0 seen0 seen0_used)) as H.
  destruct (blockMappingLoopMarked recM object tg keys 0 level compact [] this0)
    as [res st| |]; simpl in *; try exact I.
  apply markedSoFar_orText. exact H.
Qed.

End MarkedLoops.


Lemma markedSoFar_plain :
  forall st seen segs,
    usedAreSeen seen st -> noMarks segs = true -> markedSoFar st seen segs st.
Proof.
  intros st seen segs U T.
  apply (markedSoFar_text st seen [] st segs); [|exact T].
  apply markedSoFar_start. exact U.
Qed.

(** The anchor and the tag before the text of a container. *)
Lemma withAnchorMarked_inv :
  forall st st1 seen tg (d : bool) idx sep v r,
    extendsUsed st st1 ->
    (d = true -> 0 <= idx < Z.of_nat (List.length (duplicates st))) ->
    outcomeSat True
      (fun segs st' => markedSoFar st1 (if d then idx :: seen else seen) segs st') r ->
    isObject v = true ->
    outcomeSat True (nodeMarked v seen st)
      (wrapTagMarked tg (withAnchorMarked d idx sep r)).
Proof.
  intros st st1 seen tg d idx sep v r X Hd H Ov.
  destruct r as [segs st'| |]; simpl in *; try exact I.
  destruct H as [X' [F [U B]]].
  rewrite (extendsUsed_duplicates _ _ X) in B.
  split; [|intros C; congruence].
  split; [eapply extendsUsed_trans; eassumption|].
  destruct d.
  - specialize (Hd eq_refl).
    assert (Bi : (0 <=? idx) && (idx <? Z.of_nat (List.length (duplicates st))) = true).
    { apply andb_true_iff. split; [apply Z.leb_le | apply Z.ltb_lt]; lia. }
    assert (U' : usedAreSeen (idx :: anchorsOf segs ++ seen) st').
    { eapply usedAreSeen_mono; [|exact U].
      intros n J. apply in_app_or in J. destruct J as [J|[J|J]].
      - right. apply in_or_app. now left.
      - now left.
      - right. apply in_or_app. now right. }
    destruct (realTag tg); simpl; rewrite Bi; simpl; repeat split; assumption.
  - destruct (realTag tg); simpl; repeat split; assumption.
Qed.

Section MarkedBody.

Variable recM : markedRenderer.
Variable dups : list nat.

Hypothesis rec_marked :
  forall level v b1 b2 b3 st seen,
    renderReady dups st -> usedAreSeen seen st ->
    outcomeSat True (nodeMarked v seen st) (recM level v b1 b2 b3 st).

Lemma stringifyNodeBodyMarked_inv :
  forall h level v block compact isKey st seen,
    renderReady dups st -> usedAreSeen seen st ->
    outcomeSat True (nodeMarked v seen st)
      (stringifyNodeBodyMarked recM h level v block compact isKey st).
Proof.
  intros h level v block compact isKey st seen Rdy U.
  unfold stringifyNodeBodyMarked.
  destruct (resolveType st h v) as [[tg v']|e] eqn:R; [|exact I].
  destruct (resolveType_primitive st h v tg v' (proj2 Rdy) R) as [E|E].
  2:{ (* a primitive value *)
      destruct v'; try discriminate E; simpl;
        try (destruct (skipInvalid st); simpl; [reflexivity | exact I]).
      assert (P : forall text,
        outcomeSat True (nodeMarked v seen st)
          (wrapTagMarked tg (Done [Text text] st))).
      { intros text. simpl. split; [|intros _; split; [|reflexivity]].
        - apply markedSoFar_plain; [exact U|]. destruct (realTag tg); reflexivity.
        - destruct (realTag tg); reflexivity. }
      destruct (notQuestionTag tg); [|apply P].
      destruct (stringifyScalar st s level isKey); [apply P | exact I]. }
  subst v'.
  destruct v; simpl;
    try (destruct (skipInvalid st); simpl; [reflexivity | exact I]).
  - (* a string *)
    assert (P : forall text,
      outcomeSat True (nodeMarked (VString s) seen st)
        (wrapTagMarked tg (Done [Text text] st))).
    { intros text. simpl. split; [|intros _; split; [|reflexivity]].
      - apply markedSoFar_plain; [exact U|]. destruct (realTag tg); reflexivity.
      - destruct (realTag tg); reflexivity. }
    destruct (notQuestionTag tg); [|apply P].
    destruct (stringifyScalar st s level isKey); [apply P | exact I].
  - (* an object *)
    fold (isDuplicate st a). set (idx := indexOf (duplicates st) a).
    assert (Range : isDuplicate st a = true ->
              0 <= idx < Z.of_nat (List.length (duplicates st))).
    { intros Dp. apply indexOf_In. now apply isDuplicate_In. }
    destruct (isDuplicate st a) eqn:Dp; simpl.
    + specialize (Range eq_refl).
      destruct (includes (usedDuplicates st) a) eqn:Us; simpl.
      * (* its alias *)
        split; [|intros C; discriminate C].
        split; [apply extendsUsed_refl|]. split; [|split; [exact U|]].
        -- simpl. rewrite andb_true_r. apply seen_In. apply U.
           now apply includes_In.
        -- simpl. rewrite andb_true_r. apply andb_true_iff.
           split; [apply Z.leb_le | apply Z.ltb_lt]; lia.
      * (* its anchor and its text *)
        set (st1 := setUsedDuplicates st (setAdd (usedDuplicates st) a)).
        assert (X1 : extendsUsed st st1).
        { exists (setAdd (usedDuplicates st) a).
          split; [reflexivity | apply incl_setAdd]. }
        assert (U1 : usedAreSeen (idx :: seen) st1).
        { intros b Ib. simpl in Ib. apply In_setAdd in Ib. simpl.
          destruct Ib as [Ib|Ib]; [right; now apply U | left; now subst b]. }
        assert (R1 : renderReady dups st1)
          by (eapply renderReady_extends; eassumption).
        destruct (deref h a) as [elems|props];
          match goal with
          | |- context [if ?c then _ else _] => destruct c
          end;
          apply (withAnchorMarked_inv st st1 seen tg true idx _ (VRef a));
          try assumption; try reflexivity; try (intros _; exact Range).
        -- apply (stringifyBlockSequenceMarked_inv recM dups rec_marked st1
                    (idx :: seen) R1 U1).
        -- apply (stringifyFlowSequenceMarked_inv recM dups rec_marked st1
                    (idx :: seen) R1 U1).
        -- apply (stringifyBlockMappingMarked_inv recM dups rec_marked st1
                    (idx :: seen) R1 U1).
        -- apply (stringifyFlowMappingMarked_inv recM dups rec_marked st1
                    (idx :: seen) R1 U1).
    + (* its text *)
      destruct (deref h a) as [elems|props];
        match goal with
        | |- context [if ?c then _ else _] => destruct c
        end;
        apply (withAnchorMarked_inv st st seen tg false idx _ (VRef a));
        try assumption; try reflexivity; try apply extendsUsed_refl;
        try (intros C; discriminate C).
      * apply (stringifyBlockSequenceMarked_inv recM dups rec_marked st seen Rdy U).
      * apply (stringifyFlowSequenceMarked_inv recM dups rec_marked st seen Rdy U).
      * apply (stringifyBlockMappingMarked_inv recM dups rec_marked st seen Rdy U).
      * apply (stringifyFlowMappingMarked_inv recM dups rec_marked st seen Rdy U).
Qed.

End MarkedBody.

Lemma stringifyNodeMarked_inv :
  forall h dups fuel level v block compact isKey st seen,
    renderReady dups st -> usedAreSeen seen st ->
    outcomeSat True (nodeMarked v seen st)
      (stringifyNodeMarked fuel h level v block compact isKey st).
Proof.
  intros h dups. induction fuel as [|fuel IH];
    intros level v block compact isKey st seen Rdy U; [exact I|].
  simpl. apply (stringifyNodeBodyMarked_inv _ dups IH); assumption.
Qed.


Lemma marksBelow_zero : forall segs, marksBelow 0 segs = true -> noMarks segs = true.
Proof.
  induction segs as [|g segs IH]; intros H; simpl in *; [reflexivity|].
  destruct g as [s|n|n]; simpl in *.
  - apply IH. exact H.
  - apply andb_true_iff in H. destruct H as [H _].
    apply andb_true_iff in H. destruct H as [H1 H2].
    apply Z.leb_le in H1. apply Z.ltb_lt in H2. lia.
  - apply andb_true_iff in H. destruct H as [H _].
    apply andb_true_iff in H. destruct H as [H1 H2].
    apply Z.leb_le in H1. apply Z.ltb_lt in H2. lia.
Qed.

Lemma joined_Done :
  forall r out st,
    joined r = Done out st -> exists segs, r = Done segs st /\ textOf segs = out.
Proof.
  intros [segs st'| |] out st H; simpl in H; try discriminate.
  inversion H; subst. exists segs. auto.
Qed.


(** ** The examples of the specification, evaluated *)

Example empty_string_is_quoted :
  stringifyScalar (newDumperState bareSchema noOptions) [] 0 false = Ok (lit "''").
Proof. reflexivity. Qed.

Example bell_is_escaped : escapeString [7] = Ok (lit "\a").
Proof. reflexivity. Qed.

Example surrogate_pair_is_escaped :
  escapeString [0xd83d; 0xde00] = Ok (lit "\U0001F600").
Proof. reflexivity. Qed.

Example deprecated_boolean_is_quoted :
  stringifyScalar (newDumperState bareSchema noOptions) (lit "yes") 0 false =
  Ok (lit "'yes'").
Proof. reflexivity. Qed.

Example keys_are_sorted :
  textDone (stringify 3 heapUnsorted (VRef 0) (newDumperState bareSchema sortOptions)) =
  lit "a: 2nd" ++ [LINE_FEED] ++ lit "b: 1st" ++ [LINE_FEED].
Proof. vm_compute. reflexivity. Qed.

Example flow_level_zero_at_the_root :
  textDone (stringify 3 heapUnsorted (VRef 0)
              (newDumperState bareSchema (flowOptions false false))) =
  lit "{b: 1st, a: 2nd}" ++ [LINE_FEED].
Proof. vm_compute. reflexivity. Qed.

Example long_line_is_folded :
  chooseScalarStyle (lit "aaaa bbbb cccc dddd eeee ffff gggg hhhh iiii jjjj") false 2
    (scalarLineWidth (newDumperState bareSchema (widthOptions 40)) 0)
    (fun _ => false) = STYLE_FOLDED /\
  foldString (lit "aaaa bbbb cccc dddd eeee ffff gggg hhhh iiii jjjj") 38 =
  lit "aaaa bbbb cccc dddd eeee ffff gggg" ++ [LINE_FEED] ++ lit "hhhh iiii jjjj".
Proof. split; vm_compute; reflexivity. Qed.

Example unlimited_width_does_not_fold :
  chooseScalarStyle (lit "aaaa bbbb cccc dddd eeee ffff gggg hhhh iiii jjjj") false 2
    (scalarLineWidth (newDumperState bareSchema (widthOptions (-1))) 0)
    (fun _ => false) = STYLE_PLAIN.
Proof. vm_compute. reflexivity. Qed.

Example self_reference_is_anchored :
  textDone (stringify 3 heapSelf (VRef 0) (newDumperState nullSchema noOptions)) =
  lit "&ref_0" ++ [LINE_FEED] ++ lit "self: *ref_0" ++ [LINE_FEED] ++
  lit "none: null" ++ [LINE_FEED].
Proof. vm_compute. reflexivity. Qed.


(** * Further properties of the code *)

(** ** The style of a scalar *)

Lemma scanSingleLine_Some :
  forall chars p p',
    scanSingleLine chars p = Some p' ->
    forallb isPrintable chars = true /\ p' = p && forallb isPlainSafe chars.
Proof.
  induction chars as [|c rest IH]; intros p p' H; simpl in *.
  - inversion H. now rewrite andb_true_r.
  - destruct (isPrintable c); simpl in *; [|discriminate].
    destruct (IH _ _ H) as [P E]. split; [exact P|].
    rewrite E. now rewrite andb_assoc.
Qed.

Lemma scanSingleLine_None :
  forall chars p,
    scanSingleLine chars p = None -> forallb isPrintable chars = false.
Proof.
  induction chars as [|c rest IH]; intros p H; simpl in *; [discriminate|].
  destruct (isPrintable c); simpl in *; [eauto | reflexivity].
Qed.

(** A character that a block scalar can hold: a line feed or a printable
    character. *)
Lemma scanBlock_Some :
  forall string track width chars i s i' s',
    scanBlock string track width chars i s = Some (i', s') ->
    forallb (fun c => (c =? LINE_FEED) || isPrintable c) chars = true /\
    i' = i + strlen chars /\
    plain s' = plain s && forallb isPlainSafe chars /\
    hasLineBreak s' = hasLineBreak s || existsb (fun c => c =? LINE_FEED) chars.
Proof.
  intros string track width chars.
  induction chars as [|c rest IH]; intros i s i' s' H; simpl in H.
  - inversion H; subst. unfold strlen. simpl.
    rewrite andb_true_r, orb_false_r. repeat split; lia.
  - unfold strlen in *. rewrite length_cons. simpl forallb. simpl existsb.
    destruct (c =? LINE_FEED) eqn:L.
    + apply IH in H. destruct H as [A [B [C D]]]. simpl.
      split; [exact A|]. split; [lia|].
      destruct track; simpl in C, D; rewrite C, D;
        rewrite ?orb_true_r, ?andb_assoc; auto.
    + destruct (isPrintable c) eqn:P; simpl in H; [|discriminate].
      apply IH in H. destruct H as [A [B [C D]]]. simpl.
      split; [exact A|]. split; [lia|].
      simpl in C, D. rewrite C, D, ?andb_assoc. auto.
Qed.

Lemma scanBlock_None :
  forall string track width chars i s,
    scanBlock string track width chars i s = None ->
    forallb (fun c => (c =? LINE_FEED) || isPrintable c) chars = false.
Proof.
  intros string track width chars.
  induction chars as [|c rest IH]; intros i s H; simpl in *; [discriminate|].
  destruct (c =? LINE_FEED); simpl; [eauto|].
  destruct (isPrintable c); simpl in *; [eauto | reflexivity].
Qed.

Lemma isPlainSafe_printable : forall c, isPlainSafe c = true -> isPrintable c = true.
Proof.
  intros c H. unfold isPlainSafe in H.
  repeat (apply andb_true_iff in H; destruct H as [H _]). exact H.
Qed.

Lemma isPlainSafe_not_LF : isPlainSafe LINE_FEED = false.
Proof. reflexivity. Qed.

Lemma no_LF_printable :
  forall chars,
    forallb (fun c => (c =? LINE_FEED) || isPrintable c) chars = true ->
    existsb (fun c => c =? LINE_FEED) chars = false ->
    forallb isPrintable chars = true.
Proof.
  induction chars as [|c rest IH]; intros A B; simpl in *; [reflexivity|].
  apply andb_true_iff in A. destruct A as [A1 A2].
  apply orb_false_iff in B. destruct B as [B1 B2].
  rewrite B1 in A1. simpl in A1. rewrite A1. simpl. auto.
Qed.

Lemma isPrintable_not_LF : forall c, isPrintable c = true -> (c =? LINE_FEED) = false.
Proof.
  intros c H. destruct (c =? LINE_FEED) eqn:E; [|reflexivity].
  apply Z.eqb_eq in E. subst. discriminate H.
Qed.

Lemma scanSingleLine_printable :
  forall chars p,
    forallb isPrintable chars = true ->
    scanSingleLine chars p = Some (p && forallb isPlainSafe chars).
Proof.
  induction chars as [|c rest IH]; intros p H; simpl in *.
  - now rewrite andb_true_r.
  - apply andb_true_iff in H. destruct H as [H1 H2]. rewrite H1. simpl.
    rewrite (IH _ H2). now rewrite andb_assoc.
Qed.

Lemma scanBlock_one_line :
  forall string track width chars i s,
    forallb isPrintable chars = true ->
    scanBlock string track width chars i s =
    Some (i + strlen chars,
          mkScan (hasLineBreak s) (hasFoldableLine s) (previousLineBreak s)
                 (plain s && forallb isPlainSafe chars)).
Proof.
  intros string track width chars.
  induction chars as [|c rest IH]; intros i s H; simpl in *.
  - unfold strlen. simpl. rewrite Z.add_0_r, andb_true_r. now destruct s.
  - apply andb_true_iff in H. destruct H as [H1 H2].
    rewrite (isPrintable_not_LF _ H1), H1. simpl.
    rewrite (IH _ _ H2). simpl. unfold strlen. rewrite length_cons.
    rewrite andb_assoc. f_equal. f_equal. rewrite Nat2Z.inj_succ. lia.
Qed.

Lemma forallb_isPlainSafe_printable :
  forall chars, forallb isPlainSafe chars = true -> forallb isPrintable chars = true.
Proof.
  intros chars H. apply forallb_forall. intros c Hc.
  apply isPlainSafe_printable. now apply (proj1 (forallb_forall _ _) H).
Qed.

Lemma isPlainSafeFirst_not_space :
  forall string,
    onCode isPlainSafeFirst (charCodeAt string 0) = true ->
    indexIs string 0 SPACE = false.
Proof.
  intros string H. unfold indexIs, charCodeAt in *.
  destruct (strIndex string 0) as [c|]; [|reflexivity]. simpl in H.
  destruct (c =? SPACE) eqn:E; [|reflexivity].
  apply Z.eqb_eq in E. subst. discriminate H.
Qed.

Lemma chooseScalarStyle_plain :
  forall string singleLineOnly indentPerLevel lineWidth test,
    chooseScalarStyle string singleLineOnly indentPerLevel lineWidth test = STYLE_PLAIN
    <->
    onCode isPlainSafeFirst (charCodeAt string 0) = true /\
    onCode isWhiteSpace (charCodeAt string (strlen string - 1)) = false /\
    forallb isPlainSafe string = true /\
    test string = false /\
    (singleLineOnly = true \/ lineWidth = -1 \/ strlen string <= lineWidth).
Proof.
  intros string sl ind w test. unfold chooseScalarStyle. cbv zeta.
  set (plain0 := onCode isPlainSafeFirst (charCodeAt string 0) &&
                 negb (onCode isWhiteSpace (charCodeAt string (strlen string - 1)))).
  split.
  - intros H. destruct sl.
    + destruct (scanSingleLine string plain0) as [p|] eqn:E; [|discriminate H].
      simpl in H. destruct (p && negb (test string)) eqn:PT; [|discriminate H].
      apply andb_true_iff in PT. destruct PT as [P T].
      apply scanSingleLine_Some in E. destruct E as [_ E]. subst p.
      apply andb_true_iff in P. destruct P as [P0 PS].
      unfold plain0 in P0. apply andb_true_iff in P0. destruct P0 as [F L].
      apply negb_true_iff in L. apply negb_true_iff in T. auto 6.
    + destruct (scanBlock string (negb (w =? -1)) w string 0
                  (mkScan false false (-1) plain0)) as [[i s]|] eqn:E;
        [|discriminate H].
      pose proof (scanBlock_Some _ _ _ _ _ _ _ _ E) as [_ [_ [PL _]]].
      simpl in H, PL.
      destruct (negb (hasLineBreak s) &&
                negb (hasFoldableLine s ||
                      negb (w =? -1) && foldableAt string w i (previousLineBreak s)))
        eqn:NB.
      2:{ destruct ((9 <? ind) && needIndentIndicator string); [discriminate H|].
          destruct (hasFoldableLine s || _); discriminate H. }
      destruct (plain s && negb (test string)) eqn:PT; [|discriminate H].
      apply andb_true_iff in PT. destruct PT as [P T].
      rewrite PL in P. apply andb_true_iff in P. destruct P as [P0 PS].
      unfold plain0 in P0. apply andb_true_iff in P0. destruct P0 as [F L].
      apply negb_true_iff in L. apply negb_true_iff in T.
      repeat (split; [assumption|]). right.
      rewrite (scanBlock_one_line _ _ _ _ _ _ (forallb_isPlainSafe_printable _ PS)) in E.
      inversion E; subst i s.
      cbn [hasLineBreak hasFoldableLine previousLineBreak plain negb andb orb] in NB.
      unfold foldableAt in NB. change (-1 + 1) with 0 in NB.
      rewrite (isPlainSafeFirst_not_space _ F) in NB.
      cbn [negb] in NB. rewrite andb_true_r in NB.
      destruct (w =? -1) eqn:W; [left; now apply Z.eqb_eq|right].
      cbn [negb andb] in NB. apply negb_true_iff in NB. apply Z.ltb_ge in NB. lia.
  - intros [F [L [PS [T W]]]].
    assert (P0 : plain0 = true) by (unfold plain0; now rewrite F, L).
    pose proof (forallb_isPlainSafe_printable _ PS) as PR.
    destruct sl.
    + rewrite (scanSingleLine_printable _ _ PR), P0, PS, T. reflexivity.
    + rewrite (scanBlock_one_line _ _ _ _ _ _ PR).
      cbn [hasLineBreak hasFoldableLine previousLineBreak plain negb andb orb].
      rewrite P0, PS, T. unfold foldableAt. change (-1 + 1) with 0.
      rewrite (isPlainSafeFirst_not_space _ F).
      cbn [negb andb]. rewrite andb_true_r.
      destruct W as [W|[W|W]]; [discriminate W | subst w; reflexivity |].
      replace (w <? 0 + strlen string - -1 - 1) with false
        by (symmetry; apply Z.ltb_ge; lia).
      now rewrite andb_false_r.
Qed.

(** The plain style is chosen exactly for the strings that can stand as
    they are: a first character that may open a plain scalar, no white
    space at the end, plain-safe characters throughout, no implicit type
    that would read the text as something else, and no need to fold. *)
Theorem plain_style_iff :
  forall string singleLineOnly indentPerLevel lineWidth test,
    chooseScalarStyle string singleLineOnly indentPerLevel lineWidth test = STYLE_PLAIN
    <->
    onCode isPlainSafeFirst (charCodeAt string 0) = true /\
    onCode isWhiteSpace (charCodeAt string (strlen string - 1)) = false /\
    forallb isPlainSafe string = true /\
    test string = false /\
    (singleLineOnly = true \/ lineWidth = -1 \/ strlen string <= lineWidth).
Proof. exact chooseScalarStyle_plain. Qed.

Lemma chooseScalarStyle_cases :
  forall string singleLineOnly indentPerLevel lineWidth test,
    let style :=
      chooseScalarStyle string singleLineOnly indentPerLevel lineWidth test in
    (style = STYLE_PLAIN \/ style = STYLE_SINGLE ->
       forallb isPrintable string = true) /\
    (style = STYLE_LITERAL \/ style = STYLE_FOLDED ->
       singleLineOnly = false /\
       forallb (fun c => (c =? LINE_FEED) || isPrintable c) string = true /\
       (9 <? indentPerLevel) && needIndentIndicator string = false) /\
    (style = STYLE_FOLDED -> lineWidth <> -1) /\
    (style = STYLE_PLAIN \/ style = STYLE_SINGLE \/ style = STYLE_LITERAL \/
     style = STYLE_FOLDED \/ style = STYLE_DOUBLE).
Proof.
  intros string sl ind w test style. subst style. unfold chooseScalarStyle. cbv zeta.
  set (plain0 := onCode isPlainSafeFirst (charCodeAt string 0) &&
                 negb (onCode isWhiteSpace (charCodeAt string (strlen string - 1)))).
  destruct sl.
  - destruct (scanSingleLine string plain0) as [p|] eqn:E.
    + apply scanSingleLine_Some in E. destruct E as [PR _]. simpl.
      destruct (p && negb (test string));
        (split; [intros _; exact PR|]);
        (split; [intros [H|H]; discriminate H|]);
        (split; [intros H; discriminate H|]); auto.
    + split; [intros [H|H]; discriminate H|].
      split; [intros [H|H]; discriminate H|].
      split; [intros H; discriminate H|]. auto 6.
  - destruct (scanBlock string (negb (w =? -1)) w string 0
                (mkScan false false (-1) plain0)) as [[i s]|] eqn:E.
    + pose proof (scanBlock_Some _ _ _ _ _ _ _ _ E) as [OK [_ [_ HL]]].
      simpl in HL. simpl.
      destruct (negb (hasLineBreak s) &&
                negb (hasFoldableLine s ||
                      negb (w =? -1) && foldableAt string w i (previousLineBreak s)))
        eqn:NB.
      * apply andb_true_iff in NB. destruct NB as [NB _].
        apply negb_true_iff in NB. rewrite NB in HL. symmetry in HL.
        pose proof (no_LF_printable _ OK HL) as PR.
        destruct (plain s && negb (test string));
          (split; [intros _; exact PR|]);
          (split; [intros [H|H]; discriminate H|]);
          (split; [intros H; discriminate H|]); auto.
      * destruct ((9 <? ind) && needIndentIndicator string) eqn:IND.
        { split; [intros [H|H]; discriminate H|].
          split; [intros [H|H]; discriminate H|].
          split; [intros H; discriminate H|]. auto 6. }
        destruct (hasFoldableLine s ||
                  negb (w =? -1) && foldableAt string w i (previousLineBreak s))
          eqn:FO.
        { split; [intros [H|H]; discriminate H|].
          split; [intros _; auto|].
          split; [|auto 6]. intros _ W. subst w.
          simpl in FO. rewrite orb_false_r in FO.
          rewrite (scanBlock_untracked_keeps_foldable _ _ _ _ _ _ _ E) in FO.
          discriminate FO. }
        { split; [intros [H|H]; discriminate H|].
          split; [intros _; auto|].
          split; [intros H; discriminate H|]. auto 6. }
    + split; [intros [H|H]; discriminate H|].
      split; [intros [H|H]; discriminate H|].
      split; [intros H; discriminate H|]. auto 6.
Qed.

(** What each style can rely on, as the comments of [chooseScalarStyle]
    promise: the plain and single-quoted styles are chosen only for text
    that is printable throughout (so without a line feed); a block style
    only where block styles are allowed, for text of printable characters
    and line feeds whose indentation indicator, if one is needed, has one
    digit; the folded style only under a width limit.  Any other text
    is double-quoted. *)
Theorem chooseScalarStyle_postconditions :
  forall string singleLineOnly indentPerLevel lineWidth test,
    let style :=
      chooseScalarStyle string singleLineOnly indentPerLevel lineWidth test in
    (style = STYLE_PLAIN \/ style = STYLE_SINGLE ->
       forallb isPrintable string = true) /\
    (style = STYLE_LITERAL \/ style = STYLE_FOLDED ->
       singleLineOnly = false /\
       forallb (fun c => (c =? LINE_FEED) || isPrintable c) string = true /\
       (9 <? indentPerLevel) && needIndentIndicator string = false) /\
    (style = STYLE_FOLDED -> lineWidth <> -1) /\
    (style = STYLE_PLAIN \/ style = STYLE_SINGLE \/ style = STYLE_LITERAL \/
     style = STYLE_FOLDED \/ style = STYLE_DOUBLE).
Proof. exact chooseScalarStyle_cases. Qed.

(** ** Scalars as text *)

Lemma stringifyScalar_total :
  forall this string level isKey,
    Forall isCodeUnit string ->
    exists text, stringifyScalar this string level isKey = Ok text /\ text <> [].
Proof.
  intros this string level isKey Hu. unfold stringifyScalar.
  destruct string as [|c rest]; [eexists; split; [reflexivity|discriminate]|].
  set (string := c :: rest) in *.
  destruct (compatMode this && includesStr DEPRECATED_BOOLEANS_SYNTAX string).
  { eexists; split; [reflexivity|discriminate]. }
  cbv zeta.
  pose proof (chooseScalarStyle_cases string
                (isKey || (-1 <? flowLevel this) && (flowLevel this <=? level))
                (indent this) (scalarLineWidth this level)
                (fun str => testImplicitResolving (implicitTypes this) str))
    as [_ [_ [_ R]]].
  cbv zeta in R.
  destruct R as [R|[R|[R|[R|R]]]]; rewrite R.
  - eexists; split; [reflexivity|discriminate].
  - eexists; split; [reflexivity|discriminate].
  - eexists; split; [reflexivity|discriminate].
  - eexists; split; [reflexivity|discriminate].
  - change (STYLE_DOUBLE =? STYLE_PLAIN) with false.
    change (STYLE_DOUBLE =? STYLE_SINGLE) with false.
    change (STYLE_DOUBLE =? STYLE_LITERAL) with false.
    change (STYLE_DOUBLE =? STYLE_FOLDED) with false.
    change (STYLE_DOUBLE =? STYLE_DOUBLE) with true. cbv iota.
    unfold escapeString.
    destruct (escapeLoop_ok (List.length string) string [] (le_n _) Hu) as [ps [E _]].
    rewrite E. eexists; split; [reflexivity|discriminate].
Qed.

(** A string of UTF-16 code units always gets a text: neither of the two
    errors that [stringifyScalar] can raise is reachable, and the text is
    never empty (the empty string itself is written as two quotes).  The
    state has an indent of 1 or more, as the constructor sees to, so that
    no indentation is asked for with a negative number of spaces. *)
Theorem stringifyScalar_returns :
  forall this string level isKey,
    1 <= indent this ->
    Forall isCodeUnit string ->
    exists text, stringifyScalar this string level isKey = Ok text /\ text <> [].
Proof. intros this string level isKey _. apply stringifyScalar_total. Qed.

Lemma stringifyScalar_returns_witness :
  Forall isCodeUnit (lit "a: b") /\
  exists text,
    stringifyScalar (newDumperState bareSchema noOptions) (lit "a: b") 0 false = Ok text /\
    text <> [].
Proof.
  assert (H : Forall isCodeUnit (lit "a: b"))
    by (unfold lit; simpl; repeat constructor; unfold isCodeUnit; lia).
  split; [exact H|].
  refine (stringifyScalar_returns (newDumperState bareSchema noOptions) (lit "a: b") 0
            false _ H).
  vm_compute. discriminate.
Defined.

(** A string is written exactly as it is when nothing in it needs
    protection: it is not a deprecated boolean word under [compatMode], its
    first character may open a plain scalar, it does not end in white space,
    all its characters are plain-safe, no implicit type of the schema
    resolves it, and it fits the line (or only one line is allowed, or the
    width is unlimited). *)
Theorem plain_scalar_is_verbatim :
  forall this string level isKey,
    compatMode this && includesStr DEPRECATED_BOOLEANS_SYNTAX string = false ->
    onCode isPlainSafeFirst (charCodeAt string 0) = true ->
    onCode isWhiteSpace (charCodeAt string (strlen string - 1)) = false ->
    forallb isPlainSafe string = true ->
    testImplicitResolving (implicitTypes this) string = false ->
    (isKey = true \/ -1 < flowLevel this <= level \/
     lineWidth this = -1 \/ strlen string <= scalarLineWidth this level) ->
    stringifyScalar this string level isKey = Ok string.
Proof.
  intros this string level isKey C F L PS T W. unfold stringifyScalar.
  destruct string as [|c rest]; [discriminate F|].
  set (string := c :: rest) in *. rewrite C. cbv zeta.
  replace (chooseScalarStyle string _ _ _ _) with STYLE_PLAIN; [reflexivity|].
  symmetry. apply chooseScalarStyle_plain. repeat (split; [assumption|]).
  destruct W as [W|[W|[W|W]]].
  - left. now rewrite W.
  - left. replace (-1 <? flowLevel this) with true by (symmetry; apply Z.ltb_lt; lia).
    replace (flowLevel this <=? level) with true by (symmetry; apply Z.leb_le; lia).
    apply orb_true_r.
  - right. left. unfold scalarLineWidth. now rewrite W.
  - right. right. exact W.
Qed.

Lemma plain_scalar_is_verbatim_witness :
  stringifyScalar (newDumperState bareSchema noOptions) (lit "plain text") 0 false =
  Ok (lit "plain text").
Proof.
  apply plain_scalar_is_verbatim; try reflexivity.
  right. right. right. vm_compute. discriminate.
Defined.

(** A character that is not printable forces the double-quoted style;
    a line feed is the one exception, and only where block styles are
    allowed. *)
Theorem unprintable_text_is_double_quoted :
  forall string singleLineOnly indentPerLevel lineWidth test c,
    In c string ->
    isPrintable c = false ->
    c <> LINE_FEED \/ singleLineOnly = true ->
    chooseScalarStyle string singleLineOnly indentPerLevel lineWidth test = STYLE_DOUBLE.
Proof.
  intros string sl ind w test c Hin NP Hc.
  pose proof (chooseScalarStyle_cases string sl ind w test) as [A [B [_ R]]].
  cbv zeta in A, B, R.
  destruct R as [R|[R|[R|[R|R]]]]; [| | | |exact R]; exfalso.
  - pose proof (proj1 (forallb_forall _ _) (A (or_introl R)) c Hin) as P. congruence.
  - pose proof (proj1 (forallb_forall _ _) (A (or_intror R)) c Hin) as P. congruence.
  - destruct (B (or_introl R)) as [S [P _]].
    pose proof (proj1 (forallb_forall _ _) P c Hin) as Q. cbv beta in Q.
    rewrite NP, orb_false_r in Q. apply Z.eqb_eq in Q.
    destruct Hc as [Hc|Hc]; congruence.
  - destruct (B (or_intror R)) as [S [P _]].
    pose proof (proj1 (forallb_forall _ _) P c Hin) as Q. cbv beta in Q.
    rewrite NP, orb_false_r in Q. apply Z.eqb_eq in Q.
    destruct Hc as [Hc|Hc]; congruence.
Qed.

Lemma unprintable_text_is_double_quoted_witness :
  chooseScalarStyle [97; 7; 98] false 2 80 (fun _ => false) = STYLE_DOUBLE.
Proof.
  apply (unprintable_text_is_double_quoted [97; 7; 98] false 2 80 (fun _ => false) 7).
  - simpl. auto.
  - reflexivity.
  - left. discriminate.
Defined.


(** ** Numbers in the output *)

Lemma hexValue_hexDigit : forall d, 0 <= d < 16 -> hexValue (hexDigit d) = d.
Proof.
  intros d Hd. unfold hexValue, hexDigit.
  destruct (d <? 10) eqn:E.
  - apply Z.ltb_lt in E.
    replace (48 + d <? 58) with true by (symmetry; apply Z.ltb_lt; lia). lia.
  - apply Z.ltb_ge in E.
    replace (55 + d <? 58) with false by (symmetry; apply Z.ltb_ge; lia). lia.
Qed.

Lemma parseHex_snoc :
  forall ds d, parseHex (ds ++ [d]) = parseHex ds * 16 + hexValue d.
Proof. intros ds d. unfold parseHex. now rewrite fold_left_app. Qed.

Lemma parseHex_toString16Aux :
  forall fuel n,
    0 <= n < 2 ^ Z.of_nat fuel -> parseHex (toString16Aux fuel n) = n.
Proof.
  induction fuel as [|f IH]; intros n Hn.
  - simpl in *. assert (n = 0) by lia. now subst.
  - cbn [toString16Aux]. rewrite parseHex_snoc.
    rewrite hexValue_hexDigit by (apply Z.mod_pos_bound; lia).
    destruct (n <? 16) eqn:E.
    + apply Z.ltb_lt in E. cbn. rewrite Z.mod_small by lia. reflexivity.
    + apply Z.ltb_ge in E. rewrite IH.
      * pose proof (Z.div_mod n 16). lia.
      * split; [apply Z.div_pos; lia|].
        rewrite Nat2Z.inj_succ, Z.pow_succ_r in Hn by lia.
        apply Z.div_lt_upper_bound; lia.
Qed.

Lemma log2_fuel : forall n, 0 <= n -> n < 2 ^ Z.of_nat (S (Z.to_nat (Z.log2 n))).
Proof.
  intros n Hn. rewrite Nat2Z.inj_succ, Z2Nat.id by apply Z.log2_nonneg.
  destruct (Z.eq_dec n 0) as [->|Hz]; [reflexivity|].
  apply Z.log2_spec. lia.
Qed.

Lemma parseHex_toString16 : forall n, 0 <= n -> parseHex (toString16 n) = n.
Proof.
  intros n Hn. apply parseHex_toString16Aux. split; [exact Hn|]. now apply log2_fuel.
Qed.

Lemma parseHex_zeros :
  forall k ds, parseHex (repeat 48 k ++ ds) = parseHex ds.
Proof.
  intros k ds. unfold parseHex. rewrite fold_left_app. f_equal.
  induction k as [|k IH]; [reflexivity|]. simpl. exact IH.
Qed.

Lemma parseHex_padStart0 :
  forall k ds, parseHex (padStart0 k ds) = parseHex ds.
Proof. intros k ds. apply parseHex_zeros. Qed.

Lemma charCodeToHexString_digits :
  forall charCode,
    0 <= charCode <= 0xffffffff ->
    exists digits,
      charCodeToHexString charCode = Ok (hexPrefix charCode ++ digits) /\
      List.length digits = hexWidth charCode /\
      Forall (fun d => isHexDigit d = true) digits /\
      parseHex digits = charCode.
Proof.
  intros c Hc. unfold charCodeToHexString, hexPrefix, hexWidth.
  pose proof (toString16Aux_digits (S (Z.to_nat (Z.log2 c))) c) as Hd.
  fold (toString16 c) in Hd. cbv zeta.
  assert (PH : forall k, parseHex (padStart0 k (toString16 c)) = c).
  { intros k. rewrite parseHex_padStart0. apply parseHex_toString16. lia. }
  destruct (c <=? 0xff) eqn:E1; [|destruct (c <=? 0xffff) eqn:E2;
    [|destruct (c <=? 0xffffffff) eqn:E3]].
  - apply Z.leb_le in E1.
    destruct (padStart0_hex 2 (toString16 c)) as [Hp Hn]; [|exact Hd|].
    { apply (toString16Aux_length _ 1 c). simpl. lia. }
    eexists; split; [reflexivity|]. auto.
  - apply Z.leb_le in E2.
    destruct (padStart0_hex 4 (toString16 c)) as [Hp Hn]; [|exact Hd|].
    { apply (toString16Aux_length _ 3 c). simpl. lia. }
    eexists; split; [reflexivity|]. auto.
  - destruct (padStart0_hex 8 (toString16 c)) as [Hp Hn]; [|exact Hd|].
    { apply (toString16Aux_length _ 7 c). simpl. lia. }
    eexists; split; [reflexivity|]. auto.
  - apply Z.leb_gt in E3. lia.
Qed.

(** The hexadecimal escape of a code up to [0xffffffff] is the letter for
    its size ([x], [u] or [U]) followed by exactly 2, 4 or 8 upper-case
    hexadecimal digits whose value is the code; a larger code is refused. *)
Theorem charCodeToHexString_round_trip :
  forall charCode,
    0 <= charCode ->
    (charCode <= 0xffffffff ->
     exists digits,
       charCodeToHexString charCode = Ok (hexPrefix charCode ++ digits) /\
       List.length digits = hexWidth charCode /\
       Forall (fun d => isHexDigit d = true) digits /\
       parseHex digits = charCode) /\
    (0xffffffff < charCode ->
     charCodeToHexString charCode = Throw CodePointTooLarge).
Proof.
  intros c Hc. split.
  - intros Hu. apply charCodeToHexString_digits. lia.
  - intros Hu. unfold charCodeToHexString. cbv zeta.
    replace (c <=? 0xff) with false by (symmetry; apply Z.leb_gt; lia).
    replace (c <=? 0xffff) with false by (symmetry; apply Z.leb_gt; lia).
    replace (c <=? 0xffffffff) with false by (symmetry; apply Z.leb_gt; lia).
    reflexivity.
Qed.

Lemma charCodeToHexString_round_trip_witness :
  (0x1F600 <= 0xffffffff ->
   exists digits,
     charCodeToHexString 0x1F600 = Ok (hexPrefix 0x1F600 ++ digits) /\
     List.length digits = hexWidth 0x1F600 /\
     Forall (fun d => isHexDigit d = true) digits /\
     parseHex digits = 0x1F600) /\
  (0xffffffff < 0x1F600 ->
   charCodeToHexString 0x1F600 = Throw CodePointTooLarge).
Proof. apply (charCodeToHexString_round_trip 0x1F600). lia. Defined.

(** *** Anchor names *)

Lemma parseDecimal_snoc :
  forall ds d, parseDecimal (ds ++ [d]) = parseDecimal ds * 10 + (d - 48).
Proof. intros ds d. unfold parseDecimal. now rewrite fold_left_app. Qed.

Lemma parseDecimal_decimalAux :
  forall fuel n,
    0 <= n < 2 ^ Z.of_nat fuel -> parseDecimal (decimalAux fuel n) = n.
Proof.
  induction fuel as [|f IH]; intros n Hn.
  - simpl in *. assert (n = 0) by lia. now subst.
  - cbn [decimalAux]. rewrite parseDecimal_snoc.
    destruct (n <? 10) eqn:E.
    + apply Z.ltb_lt in E. change (parseDecimal []) with 0.
      rewrite Z.mod_small by lia. lia.
    + apply Z.ltb_ge in E. rewrite IH.
      * pose proof (Z.div_mod n 10). lia.
      * split; [apply Z.div_pos; lia|].
        rewrite Nat2Z.inj_succ, Z.pow_succ_r in Hn by lia.
        apply Z.div_lt_upper_bound; lia.
Qed.

Lemma parseDecimal_decimal : forall n, 0 <= n -> parseDecimal (decimal n) = n.
Proof.
  intros n Hn. apply parseDecimal_decimalAux. split; [exact Hn|]. now apply log2_fuel.
Qed.

Lemma anchorText_injective :
  forall n m, 0 <= n -> 0 <= m -> anchorText n = anchorText m -> n = m.
Proof.
  intros n m Hn Hm H. unfold anchorText in H. apply app_inv_head in H.
  rewrite <- (parseDecimal_decimal n Hn), <- (parseDecimal_decimal m Hm).
  now rewrite H.
Qed.

Lemma indexOfFrom_nth :
  forall l a i,
    In a l -> nth_error l (Z.to_nat (indexOfFrom l a i - i)) = Some a.
Proof.
  induction l as [|x l IH]; intros a i H; [contradiction|].
  cbn [indexOfFrom]. destruct (Nat.eqb x a) eqn:E.
  - apply Nat.eqb_eq in E. subst x. now rewrite Z.sub_diag.
  - destruct H as [H|H]; [subst; rewrite Nat.eqb_refl in E; discriminate|].
    pose proof (indexOfFrom_In l a (i + 1) H) as B.
    replace (Z.to_nat (indexOfFrom l a (i + 1) - i))
      with (S (Z.to_nat (indexOfFrom l a (i + 1) - (i + 1)))) by lia.
    cbn [nth_error]. now apply IH.
Qed.

(** Two different objects that are both duplicates never get the same
    anchor: the anchor of a duplicate is [&ref_] and its index among the
    duplicates in decimal, and different indices are written differently. *)
Theorem anchor_names_are_distinct :
  forall this a b,
    isDuplicate this a = true ->
    isDuplicate this b = true ->
    a <> b ->
    anchorText (indexOf (duplicates this) a) <> anchorText (indexOf (duplicates this) b).
Proof.
  intros this a b Ha Hb Hab E.
  apply isDuplicate_In in Ha, Hb.
  pose proof (indexOf_In _ _ Ha) as Ra. pose proof (indexOf_In _ _ Hb) as Rb.
  apply anchorText_injective in E; [|lia|lia].
  pose proof (indexOfFrom_nth _ _ 0 Ha) as Na.
  pose proof (indexOfFrom_nth _ _ 0 Hb) as Nb.
  fold (indexOf (duplicates this) a) in Na. fold (indexOf (duplicates this) b) in Nb.
  rewrite E in Na. congruence.
Qed.

Lemma anchor_names_are_distinct_witness :
  anchorText (indexOf (duplicates (setDuplicates (newDumperState bareSchema noOptions) [4%nat; 7%nat])) 4%nat)
  <> anchorText (indexOf (duplicates (setDuplicates (newDumperState bareSchema noOptions) [4%nat; 7%nat])) 7%nat).
Proof.
  apply anchor_names_are_distinct; [reflexivity | reflexivity | discriminate].
Defined.


(** ** Folding a line *)

Lemma joinLF_snoc :
  forall lines x, joinLF (lines ++ [x]) = linesText lines ++ x.
Proof.
  induction lines as [|l lines IH]; intros x; [reflexivity|].
  change ((l :: lines) ++ [x]) with (l :: (lines ++ [x])).
  cbn [joinLF]. destruct (lines ++ [x]) as [|y r] eqn:E.
  - destruct lines; discriminate E.
  - rewrite <- E, IH. unfold linesText. cbn [flat_map].
    rewrite <- !app_assoc. reflexivity.
Qed.

Lemma linesText_snoc :
  forall lines x, linesText (lines ++ [x]) = linesText lines ++ x ++ [LINE_FEED].
Proof.
  intros lines x. unfold linesText. rewrite flat_map_app. cbn [flat_map].
  now rewrite app_nil_r.
Qed.

Lemma breakAll_app :
  forall B l1 l2 i,
    breakAll B (l1 ++ l2) i = breakAll B l1 i ++ breakAll B l2 (i + strlen l1).
Proof.
  intros B l1. induction l1 as [|c l1 IH]; intros l2 i.
  - unfold strlen. simpl. now rewrite Z.add_0_r.
  - cbn [app breakAll]. rewrite IH. unfold strlen. rewrite length_cons.
    replace (i + 1 + Z.of_nat (List.length l1)) with (i + Z.of_nat (S (List.length l1)))
      by lia.
    reflexivity.
Qed.

Lemma breakAll_length : forall B l i, List.length (breakAll B l i) = List.length l.
Proof.
  intros B l. induction l as [|c l IH]; intros i; [reflexivity|].
  cbn [breakAll List.length]. now rewrite IH.
Qed.

Lemma existsb_eqb_false :
  forall B i, (forall b, In b B -> b <> i) -> existsb (Z.eqb i) B = false.
Proof.
  induction B as [|b B IH]; intros i H; [reflexivity|].
  cbn [existsb]. rewrite IH by (intros x Hx; apply H; now right).
  destruct (i =? b) eqn:E; [|reflexivity].
  apply Z.eqb_eq in E. exfalso. apply (H b); [now left | congruence].
Qed.

Lemma breakAll_outside :
  forall B l i,
    (forall b, In b B -> b < i \/ i + strlen l <= b) -> breakAll B l i = l.
Proof.
  intros B l. induction l as [|c l IH]; intros i H; [reflexivity|].
  cbn [breakAll]. unfold strlen in *. rewrite length_cons in H.
  rewrite existsb_eqb_false by (intros b Hb; specialize (H b Hb); lia).
  rewrite IH; [reflexivity|]. intros b Hb. specialize (H b Hb). lia.
Qed.

Lemma breakAll_cons_outside :
  forall e B l i,
    e < i \/ i + strlen l <= e -> breakAll (e :: B) l i = breakAll B l i.
Proof.
  intros e B l. induction l as [|c l IH]; intros i H; [reflexivity|].
  cbn [breakAll existsb]. unfold strlen in *. rewrite length_cons in H.
  replace (i =? e) with false by (symmetry; apply Z.eqb_neq; lia).
  cbn [orb]. rewrite IH by lia. reflexivity.
Qed.

Lemma strIndex_Some :
  forall s i c, strIndex s i = Some c -> 0 <= i < strlen s /\ nth_error s (Z.to_nat i) = Some c.
Proof.
  intros s i c H. unfold strIndex in H. destruct (i <? 0) eqn:E; [discriminate|].
  apply Z.ltb_ge in E. split; [|exact H].
  assert (Z.to_nat i < List.length s)%nat by (apply nth_error_Some; congruence).
  unfold strlen. lia.
Qed.

Lemma firstn_succ_split :
  forall (s : jsstring) a e x,
    (a <= e)%nat -> nth_error s e = Some x ->
    firstn (S e) s = firstn a s ++ firstn (e - a) (skipn a s) ++ [x].
Proof.
  intros s a e x Hae Hx.
  assert (Hl : (e < List.length s)%nat) by (apply nth_error_Some; congruence).
  rewrite app_assoc. replace (firstn a s ++ firstn (e - a) (skipn a s)) with (firstn e s).
  - clear a Hae. revert s Hx Hl. induction e as [|e IH]; intros s Hx Hl.
    + destruct s; simpl in *; [discriminate|]. now inversion Hx.
    + destruct s as [|c s]; simpl in *; [discriminate|].
      f_equal. apply IH; [exact Hx | lia].
  - rewrite <- (firstn_skipn a s) at 1. rewrite firstn_app, firstn_firstn.
    rewrite length_firstn. replace (Nat.min e a) with a by lia.
    replace (Nat.min a (List.length s)) with a by lia. reflexivity.
Qed.

(** One more break: the text so far, the characters up to the break, and
    a line feed for the space at the break. *)
Lemma breakAll_push :
  forall line B start e,
    0 <= start <= e ->
    strIndex line e = Some SPACE ->
    (forall b, In b B -> b < start) ->
    breakAll (e :: B) (firstn (Z.to_nat (e + 1)) line) 0 =
    breakAll B (firstn (Z.to_nat start) line) 0 ++ slice line start e ++ [LINE_FEED].
Proof.
  intros line B start e Hse He HB.
  apply strIndex_Some in He. destruct He as [Hr He].
  replace (Z.to_nat (e + 1)) with (S (Z.to_nat e)) by lia.
  rewrite (firstn_succ_split line (Z.to_nat start) (Z.to_nat e) SPACE) by (auto; lia).
  assert (L1 : strlen (firstn (Z.to_nat start) line) = start).
  { unfold strlen in *. rewrite length_firstn. lia. }
  assert (L2 : strlen (firstn (Z.to_nat e - Z.to_nat start) (skipn (Z.to_nat start) line))
               = e - start).
  { unfold strlen in *. rewrite length_firstn, length_skipn. lia. }
  rewrite !breakAll_app, L1, L2. f_equal; [|f_equal].
  - apply breakAll_cons_outside. lia.
  - unfold slice. replace (Z.to_nat (e - start)) with (Z.to_nat e - Z.to_nat start)%nat by lia.
    apply breakAll_outside. intros b [Hb|Hb]; [subst; lia|].
    specialize (HB b Hb). lia.
  - cbn [breakAll existsb]. replace (0 + start + (e - start) =? e) with true
      by (symmetry; apply Z.eqb_eq; lia).
    reflexivity.
Qed.

Lemma foldLineLoop_breaks :
  forall line width ms start curr lines B,
    linesText lines = breakAll B (firstn (Z.to_nat start) line) 0 ->
    0 <= start <= curr + 1 ->
    (forall b, In b B -> validBreak line b /\ b < start) ->
    (start < curr -> validBreak line curr) ->
    increasingFrom curr ms ->
    Forall (validBreak line) ms ->
    exists start' curr' lines' B',
      foldLineLoop line width ms start curr lines = (start', curr', lines') /\
      linesText lines' = breakAll B' (firstn (Z.to_nat start') line) 0 /\
      0 <= start' <= curr' + 1 /\
      (forall b, In b B' -> validBreak line b /\ b < start') /\
      (start' < curr' -> validBreak line curr').
Proof.
  intros line width ms.
  induction ms as [|next more IH]; intros start curr lines B HT Hs HB Hc Hi Hv.
  - exists start, curr, lines, B. cbn [foldLineLoop]. auto.
  - cbn [foldLineLoop]. destruct Hi as [Hlt Hi].
    pose proof (Forall_inv Hv) as Vn. pose proof (Forall_inv_tail Hv) as Vm.
    destruct (width <? next - start).
    + set (end_ := if start <? curr then curr else next).
      assert (Ve : validBreak line end_ /\ start <= end_ <= next).
      { unfold end_. destruct (start <? curr) eqn:E.
        - apply Z.ltb_lt in E. split; [auto|lia].
        - apply Z.ltb_ge in E. split; [exact Vn|lia]. }
      destruct Ve as [Ve He].
      apply (IH (end_ + 1) next (lines ++ [slice line start end_]) (end_ :: B)).
      * rewrite linesText_snoc, HT. symmetry.
        apply breakAll_push; [lia | exact (proj1 Ve) |].
        intros b Hb. exact (proj2 (HB b Hb)).
      * lia.
      * intros b [Hb|Hb]; [subst; split; [exact Ve|lia]|].
        destruct (HB b Hb). split; [assumption|lia].
      * intros _. exact Vn.
      * exact Hi.
      * exact Vm.
    + apply (IH start next lines B); auto.
      lia.
Qed.

Lemma breakIndices_valid :
  forall pre chars,
    Forall (validBreak (pre ++ chars)) (breakIndices chars (strlen pre)).
Proof.
  intros pre chars. revert pre.
  induction chars as [|c rest IH]; intros pre; [constructor|].
  assert (Hnext : Forall (validBreak (pre ++ c :: rest))
                         (breakIndices rest (strlen pre + 1))).
  { specialize (IH (pre ++ [c])). rewrite <- app_assoc in IH. cbn [app] in IH.
    unfold strlen in *. rewrite length_app in IH. cbn [List.length] in IH.
    replace (Z.of_nat (List.length pre + 1)) with (Z.of_nat (List.length pre) + 1) in IH
      by lia.
    exact IH. }
  cbn [breakIndices]. destruct rest as [|d rest']; [constructor|].
  destruct ((c =? SPACE) && negb (d =? SPACE)) eqn:E; [|exact Hnext].
  constructor; [|exact Hnext].
  apply andb_true_iff in E. destruct E as [E1 E2].
  apply Z.eqb_eq in E1. apply negb_true_iff in E2. apply Z.eqb_neq in E2. subst c.
  unfold validBreak, strIndex, strlen.
  replace (Z.of_nat (List.length pre) <? 0) with false by (symmetry; apply Z.ltb_ge; lia).
  replace (Z.of_nat (List.length pre) + 1 <? 0) with false
    by (symmetry; apply Z.ltb_ge; lia).
  rewrite Nat2Z.id. replace (Z.to_nat (Z.of_nat (List.length pre) + 1))
    with (S (List.length pre)) by lia.
  split.
  - rewrite nth_error_app2 by lia. now rewrite Nat.sub_diag.
  - exists d. split; [|exact E2].
    rewrite nth_error_app2 by lia.
    replace (S (List.length pre) - List.length pre)%nat with 1%nat by lia. reflexivity.
Qed.

Lemma breakIndices_increasing :
  forall chars i lo, lo < i -> increasingFrom lo (breakIndices chars i).
Proof.
  induction chars as [|c rest IH]; intros i lo H; [exact I|].
  cbn [breakIndices]. destruct rest as [|d rest']; [exact I|].
  destruct ((c =? SPACE) && negb (d =? SPACE)).
  - split; [exact H|]. apply IH. lia.
  - apply IH. lia.
Qed.

Lemma breakAll_finish :
  forall line B start,
    0 <= start ->
    (forall b, In b B -> validBreak line b /\ b < start) ->
    breakAll B (firstn (Z.to_nat start) line) 0 ++ sliceFrom line start =
    breakAll B line 0.
Proof.
  intros line B start Hs HB. unfold sliceFrom.
  rewrite <- (firstn_skipn (Z.to_nat start) line) at 3.
  rewrite breakAll_app. f_equal. symmetry. apply breakAll_outside.
  intros b Hb. left. destruct (HB b Hb) as [[V _] Hlt].
  apply strIndex_Some in V. destruct V as [V _].
  unfold strlen in *. rewrite length_firstn. lia.
Qed.

Lemma foldLineLoop_short :
  forall line width ms curr,
    Forall (fun m => m <= width) ms ->
    exists curr', foldLineLoop line width ms 0 curr [] = (0, curr', []).
Proof.
  intros line width ms. induction ms as [|next more IH]; intros curr H.
  - exists curr. reflexivity.
  - cbn [foldLineLoop]. rewrite Z.sub_0_r.
    replace (width <? next) with false
      by (symmetry; apply Z.ltb_ge; exact (Forall_inv H)).
    apply IH. exact (Forall_inv_tail H).
Qed.

Lemma foldLine_breaks :
  forall line width,
    exists breaks,
      foldLine line width = breakAll breaks line 0 /\
      forall b, In b breaks -> validBreak line b.
Proof.
  intros line width. unfold foldLine.
  destruct line as [|c rest] eqn:EL.
  { exists []. split; [reflexivity | intros b []]. }
  destruct (c =? SPACE) eqn:EC.
  { exists []. split; [|intros b []]. symmetry. apply breakAll_outside. intros b []. }
  rewrite <- EL.
  assert (Hinc : increasingFrom 0 (breakIndices line 0)).
  { subst line. cbn [breakIndices]. destruct rest as [|d rest']; [exact I|].
    rewrite EC. cbn [andb]. apply breakIndices_increasing. lia. }
  pose proof (breakIndices_valid [] line) as Hval. cbn [app] in Hval.
  change (strlen []) with 0 in Hval.
  destruct (foldLineLoop_breaks line width (breakIndices line 0) 0 0 [] [])
    as [start [curr [lines [B [E [HT [Hs [HB Hc]]]]]]]];
    [reflexivity | lia | intros b [] | intros H; lia | exact Hinc | exact Hval |].
  rewrite E.
  destruct ((width <? strlen line - start) && (start <? curr)) eqn:C.
  - apply andb_true_iff in C. destruct C as [_ C]. apply Z.ltb_lt in C.
    specialize (Hc C). exists (curr :: B). split.
    + replace (lines ++ [slice line start curr; sliceFrom line (curr + 1)])
        with ((lines ++ [slice line start curr]) ++ [sliceFrom line (curr + 1)])
        by (now rewrite <- app_assoc).
      rewrite joinLF_snoc, linesText_snoc, HT.
      rewrite <- (breakAll_push line B start curr);
        [| lia | exact (proj1 Hc) | intros b Hb; exact (proj2 (HB b Hb))].
      apply breakAll_finish; [lia|].
      intros b [Hb|Hb]; [subst; split; [exact Hc|lia]|].
      destruct (HB b Hb). split; [assumption|lia].
    + intros b [Hb|Hb]; [subst; exact Hc | exact (proj1 (HB b Hb))].
  - exists B. split.
    + rewrite joinLF_snoc, HT. apply breakAll_finish; [lia | exact HB].
    + intros b Hb. exact (proj1 (HB b Hb)).
Qed.

Lemma foldLine_short :
  forall line width, strlen line <= width -> foldLine line width = line.
Proof.
  intros line width Hw. unfold foldLine.
  destruct line as [|c rest] eqn:EL; [reflexivity|].
  destruct (c =? SPACE); [reflexivity|]. rewrite <- EL in Hw |- *.
  pose proof (breakIndices_valid [] line) as Hval. cbn [app] in Hval.
  change (strlen []) with 0 in Hval.
  destruct (foldLineLoop_short line width (breakIndices line 0) 0) as [curr E].
  { eapply Forall_impl; [|exact Hval]. intros m [V _].
    apply strIndex_Some in V. cbv beta. lia. }
  rewrite E. rewrite Z.sub_0_r.
  replace (width <? strlen line) with false by (symmetry; apply Z.ltb_ge; lia).
  reflexivity.
Qed.

(** Folding changes a line only by putting line feeds in the place of
    spaces that are followed by a character other than a space: the length
    and every other character stay, and no folded line starts with a
    space.  A line that fits the width is not changed at all. *)
Theorem foldLine_breaks_at_spaces :
  forall line width,
    (exists breaks,
       foldLine line width = breakAll breaks line 0 /\
       forall b, In b breaks -> validBreak line b) /\
    (strlen line <= width -> foldLine line width = line).
Proof.
  intros line width. split; [apply foldLine_breaks | apply foldLine_short].
Qed.


(** ** Lines and indentation *)

Lemma splitLF_not_nil : forall s, splitLF s <> [].
Proof.
  induction s as [|c s IH]; simpl; [discriminate|].
  destruct (c =? LINE_FEED); [discriminate|].
  destruct (splitLF s); discriminate.
Qed.

Lemma joinLF_cons :
  forall l ls, ls <> [] -> joinLF (l :: ls) = l ++ LINE_FEED :: joinLF ls.
Proof. intros l [|x ls] H; [contradiction|reflexivity]. Qed.

Lemma joinLF_splitLF : forall s, joinLF (splitLF s) = s.
Proof.
  induction s as [|c s IH]; [reflexivity|]. cbn [splitLF].
  destruct (c =? LINE_FEED) eqn:E.
  - apply Z.eqb_eq in E. subst c.
    rewrite joinLF_cons by apply splitLF_not_nil. now rewrite IH.
  - pose proof (splitLF_not_nil s) as N.
    destruct (splitLF s) as [|l ls]; [contradiction|].
    destruct ls as [|l' ls'].
    + cbn [joinLF] in *. now rewrite IH.
    + rewrite joinLF_cons in * by discriminate.
      cbn [app]. now rewrite IH.
Qed.

Lemma splitLF_oneLine : forall s, Forall (fun l => oneLine l = true) (splitLF s).
Proof.
  induction s as [|c s IH]; [repeat constructor|]. cbn [splitLF].
  destruct (c =? LINE_FEED) eqn:E.
  - constructor; [reflexivity | exact IH].
  - destruct (splitLF s) as [|l ls]; [repeat constructor; unfold oneLine; simpl; now rewrite E|].
    inversion IH; subst. constructor; [|assumption].
    unfold oneLine in *. cbn [existsb]. now rewrite E.
Qed.

Lemma splitLF_app_oneLine :
  forall l s,
    oneLine l = true ->
    splitLF (l ++ LINE_FEED :: s) = l :: splitLF s.
Proof.
  induction l as [|c l IH]; intros s H; [reflexivity|].
  unfold oneLine in H. cbn [existsb] in H.
  apply negb_true_iff, orb_false_iff in H. destruct H as [H1 H2].
  cbn [app splitLF]. rewrite H1.
  rewrite IH by (unfold oneLine; now rewrite H2). reflexivity.
Qed.

Lemma splitLF_single : forall l, oneLine l = true -> splitLF l = [l].
Proof.
  induction l as [|c l IH]; intros H; [reflexivity|].
  unfold oneLine in H. cbn [existsb] in H.
  apply negb_true_iff, orb_false_iff in H. destruct H as [H1 H2].
  cbn [splitLF]. rewrite H1. rewrite IH by (unfold oneLine; now rewrite H2).
  reflexivity.
Qed.

Lemma splitLF_joinLF :
  forall ls,
    ls <> [] -> Forall (fun l => oneLine l = true) ls -> splitLF (joinLF ls) = ls.
Proof.
  induction ls as [|l ls IH]; intros N H; [contradiction|].
  inversion H as [|? ? H1 H2]; subst.
  destruct ls as [|l' ls'].
  - cbn [joinLF]. now apply splitLF_single.
  - rewrite joinLF_cons by discriminate.
    rewrite splitLF_app_oneLine by exact H1.
    rewrite IH; [reflexivity | discriminate | exact H2].
Qed.

Lemma oneLine_repeatSpace : forall n, oneLine (repeatSpace n) = true.
Proof.
  intros n. unfold oneLine, repeatSpace.
  induction (Z.to_nat n) as [|k IH]; [reflexivity|]. exact IH.
Qed.

Lemma oneLine_app : forall a b, oneLine (a ++ b) = oneLine a && oneLine b.
Proof.
  intros a b. unfold oneLine. rewrite existsb_app. now rewrite negb_orb.
Qed.

Lemma indentString_lines :
  forall string spaces,
    splitLF (indentString string spaces) = map (indentLine spaces) (splitLF string) /\
    joinLF (splitLF string) = string /\
    indentString string 0 = string.
Proof.
  intros string spaces. split; [|split].
  - unfold indentString. cbv zeta.
    rewrite (map_ext _ (indentLine spaces)) by (intros [|c l]; reflexivity).
    apply splitLF_joinLF.
    + intros E. apply map_eq_nil in E. exact (splitLF_not_nil _ E).
    + apply Forall_map. eapply Forall_impl; [|apply splitLF_oneLine].
      intros l Hl. cbv beta in Hl. unfold indentLine. destruct l; [reflexivity|].
      rewrite oneLine_app, oneLine_repeatSpace. exact Hl.
  - apply joinLF_splitLF.
  - unfold indentString. cbv zeta.
    rewrite <- (joinLF_splitLF string) at 2. f_equal.
    rewrite <- (map_id (splitLF string)) at 2. apply map_ext.
    intros l. destruct l; reflexivity.
Qed.

(** Indenting works line by line: for a number of spaces that is not
    negative, the result has the lines of the input, in the same order,
    each with that many spaces in front, except that an empty line stays
    empty.  Splitting into lines and joining again gives the string back,
    so an indent of zero changes nothing. *)
Theorem indentString_by_line :
  forall string spaces,
    0 <= spaces ->
    splitLF (indentString string spaces) = map (indentLine spaces) (splitLF string) /\
    joinLF (splitLF string) = string /\
    indentString string 0 = string.
Proof. intros string spaces _. apply indentString_lines. Qed.

Lemma indentString_by_line_witness :
  splitLF (indentString [97; LINE_FEED; LINE_FEED; 98] 2) =
    map (indentLine 2) (splitLF [97; LINE_FEED; LINE_FEED; 98]) /\
  joinLF (splitLF [97; LINE_FEED; LINE_FEED; 98]) = [97; LINE_FEED; LINE_FEED; 98] /\
  indentString [97; LINE_FEED; LINE_FEED; 98] 0 = [97; LINE_FEED; LINE_FEED; 98].
Proof. apply (indentString_by_line [97; LINE_FEED; LINE_FEED; 98] 2). lia. Defined.

(** ** The table of styles *)

Lemma jsstring_eqb_eq : forall a b, jsstring_eqb a b = true <-> a = b.
Proof.
  induction a as [|x a IH]; intros [|y b]; simpl; split; intros H;
    try reflexivity; try discriminate.
  - apply andb_true_iff in H. destruct H as [H1 H2].
    apply Z.eqb_eq in H1. apply IH in H2. now subst.
  - inversion H; subst. rewrite Z.eqb_refl. simpl. now apply IH.
Qed.

Lemma jsstring_eqb_refl : forall a, jsstring_eqb a a = true.
Proof. intros a. now apply jsstring_eqb_eq. Qed.

Lemma jsstring_eqb_neq : forall a b, jsstring_eqb a b = false <-> a <> b.
Proof.
  intros a b. rewrite <- jsstring_eqb_eq. destruct (jsstring_eqb a b); split; congruence.
Qed.

Lemma tableGet_tableSet :
  forall m k v k',
    tableGet (tableSet m k v) k' =
    if jsstring_eqb k k' then Some v else tableGet m k'.
Proof.
  induction m as [|[x w] m IH]; intros k v k'; cbn [tableSet tableGet].
  - reflexivity.
  - destruct (jsstring_eqb x k) eqn:E.
    + apply jsstring_eqb_eq in E. subst x. cbn [tableGet].
      destruct (jsstring_eqb k k'); reflexivity.
    + cbn [tableGet]. rewrite IH.
      destruct (jsstring_eqb x k') eqn:E'; [|reflexivity].
      apply jsstring_eqb_eq in E'. subst x.
      destruct (jsstring_eqb k k') eqn:E2; [|reflexivity].
      apply jsstring_eqb_eq in E2. subst k'. rewrite jsstring_eqb_refl in E.
      discriminate E.
Qed.

Lemma tableGet_app :
  forall (A : Type) (m1 m2 : list (jsstring * A)) k,
    tableGet (m1 ++ m2) k =
    match tableGet m1 k with Some v => Some v | None => tableGet m2 k end.
Proof.
  intros A m1 m2 k. induction m1 as [|[x w] m1 IH]; [reflexivity|].
  cbn [app tableGet]. destruct (jsstring_eqb x k); [reflexivity | exact IH].
Qed.

Lemma compileStyleMap_fold :
  forall m acc k,
    tableGet
      (fold_left
         (fun result '(tag, style) =>
            let tag :=
              if jsstring_eqb (firstn 2 tag) (lit "!!")
              then lit "tag:yaml.org,2002:" ++ skipn 2 tag
              else tag in
            tableSet result tag style)
         m acc) k =
    match tableGet (rev (map (fun p => (longTag (fst p), snd p)) m)) k with
    | Some v => Some v
    | None => tableGet acc k
    end.
Proof.
  induction m as [|[t s] m IH]; intros acc k; [reflexivity|].
  cbn [fold_left map rev]. rewrite IH, tableGet_app. cbn [fst snd].
  destruct (tableGet (rev (map (fun p => (longTag (fst p), snd p)) m)) k);
    [reflexivity|].
  cbv zeta. rewrite tableGet_tableSet. cbn [tableGet]. unfold longTag.
  destruct (jsstring_eqb _ k); reflexivity.
Qed.

(** Looking a tag up in the compiled style map finds the style of the last
    entry of the given map whose key, with a leading [!!] expanded to
    [tag:yaml.org,2002:], is that tag: the short and the long spelling of a
    tag are one key, and a later entry replaces an earlier one.  Nothing is
    filed under a key that starts with [!!]. *)
Theorem compileStyleMap_lookup :
  forall m k,
    tableGet (compileStyleMap (Some m)) k =
    tableGet (rev (map (fun p => (longTag (fst p), snd p)) m)) k /\
    (jsstring_eqb (firstn 2 k) (lit "!!") = true ->
     tableGet (compileStyleMap (Some m)) k = None).
Proof.
  intros m k.
  assert (E : tableGet (compileStyleMap (Some m)) k =
              tableGet (rev (map (fun p => (longTag (fst p), snd p)) m)) k).
  { unfold compileStyleMap. rewrite compileStyleMap_fold.
    destruct (tableGet _ k); reflexivity. }
  split; [exact E|]. intros Hk. rewrite E.
  assert (G : forall l : list (jsstring * jsstring),
            tableGet (map (fun p => (longTag (fst p), snd p)) l) k = None /\
            tableGet (rev (map (fun p => (longTag (fst p), snd p)) l)) k = None).
  { induction l as [|[t s] l [IH1 IH2]]; [split; reflexivity|].
    assert (N : jsstring_eqb (longTag t) k = false).
    { apply jsstring_eqb_neq. intros Heq. subst k. unfold longTag in Hk.
      destruct (jsstring_eqb (firstn 2 t) (lit "!!")) eqn:T.
      - discriminate Hk.
      - congruence. }
    cbn [map rev fst snd]. split.
    - cbn [tableGet]. now rewrite N.
    - rewrite tableGet_app, IH2. cbn [tableGet]. now rewrite N. }
  exact (proj2 (G m)).
Qed.

(** ** Single quotes *)

Lemma singleQuotedContent_cons :
  forall c s,
    (c =? SINGLE_QUOTE) = false ->
    singleQuotedContent (c :: s) = c :: singleQuotedContent s.
Proof.
  intros c s H. cbn [singleQuotedContent]. destruct s as [|d rest]; [reflexivity|].
  now rewrite H.
Qed.

(** In the single-quoted style every quote of the string is written
    twice and nothing else is changed, so reading doubled quotes as one
    quote gives the string back. *)
Theorem doubleQuotes_round_trip :
  forall string, singleQuotedContent (doubleQuotes string) = string.
Proof.
  induction string as [|c s IH]; [reflexivity|].
  unfold doubleQuotes in *. cbn [flat_map].
  destruct (c =? SINGLE_QUOTE) eqn:E.
  - cbn [app singleQuotedContent]. rewrite E. cbn [andb]. now rewrite IH.
  - cbn [app]. rewrite singleQuotedContent_cons by exact E. now rewrite IH.
Qed.


(** ** Escaping can be undone *)

Lemma readDoubleQuoted_hex :
  forall ds acc rest,
    ds <> [] ->
    readDoubleQuoted (InHex (List.length ds) acc) (ds ++ rest) =
    option_map
      (app (codeUnits (fold_left (fun a d => a * 16 + hexValue d) ds acc)))
      (readDoubleQuoted Unescaped rest).
Proof.
  induction ds as [|d ds IH]; intros acc rest N; [contradiction|].
  cbn [List.length app readDoubleQuoted fold_left]. cbv zeta.
  destruct ds as [|d' ds'].
  - reflexivity.
  - change (List.length (d' :: ds')) with (S (List.length ds')).
    change (S (List.length ds')) with (List.length (d' :: ds')).
    cbn [List.length].
    change (S (List.length ds')) with (List.length (d' :: ds')).
    apply IH. discriminate.
Qed.

Lemma readDoubleQuoted_hexEscape :
  forall c p rest,
    0 <= c <= 0xffffffff ->
    charCodeToHexString c = Ok p ->
    readDoubleQuoted Unescaped (p ++ rest) =
    option_map (app (codeUnits c)) (readDoubleQuoted Unescaped rest).
Proof.
  intros c p rest Hc Hp.
  destruct (charCodeToHexString_digits c Hc) as [ds [E [L [_ V]]]].
  rewrite E in Hp. inversion Hp; subst p. clear Hp.
  assert (N : ds <> []).
  { intros ->. unfold hexWidth in L.
    destruct (c <=? 255); [|destruct (c <=? 65535)]; discriminate L. }
  unfold parseHex in V. rewrite <- V at 2.
  rewrite <- (readDoubleQuoted_hex ds 0 rest N), L.
  unfold hexPrefix, hexWidth.
  destruct (c <=? 255); [|destruct (c <=? 65535)]; reflexivity.
Qed.

Lemma readDoubleQuoted_named :
  forall c e rest,
    mapGet ESCAPE_SEQUENCES c = Some e ->
    readDoubleQuoted Unescaped (e ++ rest) =
    option_map (cons c) (readDoubleQuoted Unescaped rest).
Proof.
  intros c e rest H. unfold ESCAPE_SEQUENCES in H. cbn [mapGet] in H.
  repeat match type of H with
         | (if ?k =? c then _ else _) = _ =>
             let E := fresh "E" in
             destruct (k =? c) eqn:E;
               [apply Z.eqb_eq in E; subst c; inversion H; subst e; reflexivity|]
         end.
  discriminate H.
Qed.

Lemma mapGet_None_plain :
  forall c, mapGet ESCAPE_SEQUENCES c = None -> c <> 92 /\ c <> DOUBLE_QUOTE.
Proof.
  intros c H. split; intros ->; discriminate H.
Qed.

Lemma readDoubleQuoted_verbatim :
  forall c rest,
    mapGet ESCAPE_SEQUENCES c = None ->
    readDoubleQuoted Unescaped (c :: rest) =
    option_map (cons c) (readDoubleQuoted Unescaped rest).
Proof.
  intros c rest H. apply mapGet_None_plain in H. destruct H as [H1 H2].
  cbn [readDoubleQuoted].
  replace (c =? 92) with false by (symmetry; now apply Z.eqb_neq).
  replace (c =? DOUBLE_QUOTE) with false by (symmetry; now apply Z.eqb_neq).
  reflexivity.
Qed.

Lemma isHexDigit_printable : forall d, isHexDigit d = true -> isPrintable d = true.
Proof.
  intros d H. unfold isHexDigit in H. unfold isPrintable.
  apply orb_true_iff in H.
  assert (R : 0x20 <= d <= 0x7e).
  { destruct H as [H|H]; apply andb_true_iff in H; destruct H as [H1 H2];
      apply Z.leb_le in H1, H2; lia. }
  replace (0x20 <=? d) with true by (symmetry; apply Z.leb_le; lia).
  replace (d <=? 0x7e) with true by (symmetry; apply Z.leb_le; lia).
  reflexivity.
Qed.

Lemma escape_sequences_printable :
  forallb (fun e => forallb isPrintable (snd e)) ESCAPE_SEQUENCES = true.
Proof. reflexivity. Qed.

Lemma mapGet_In_pair : forall m c v, mapGet m c = Some v -> In (c, v) m.
Proof.
  induction m as [|[k w] m IH]; intros c v H; simpl in *; [discriminate|].
  destruct (k =? c) eqn:E.
  - apply Z.eqb_eq in E. inversion H; subst. now left.
  - right. now apply IH.
Qed.

(** One character without a surrogate partner: its escape reads back as
    the character and is printable. *)
Lemma escapeChar_round_trip :
  forall c,
    isCodeUnit c ->
    exists p,
      escapeChar c = Ok p /\
      forallb isPrintable p = true /\
      forall rest,
        readDoubleQuoted Unescaped (p ++ rest) =
        option_map (cons c) (readDoubleQuoted Unescaped rest).
Proof.
  intros c Hc. unfold escapeChar.
  destruct (mapGet ESCAPE_SEQUENCES c) as [e|] eqn:E.
  - exists e. split; [reflexivity|]. split.
    + apply mapGet_In_pair in E.
      exact (proj1 (forallb_forall _ _) escape_sequences_printable (c, e) E).
    + intros rest. now apply readDoubleQuoted_named.
  - destruct (isPrintable c) eqn:P.
    + exists [c]. split; [reflexivity|]. split; [simpl; now rewrite P|].
      intros rest. now apply readDoubleQuoted_verbatim.
    + assert (R : 0 <= c <= 0xffffffff) by (unfold isCodeUnit in Hc; lia).
      destruct (charCodeToHexString_digits c R) as [ds [Hp [_ [D _]]]].
      eexists. split; [exact Hp|]. split.
      * rewrite forallb_app. apply andb_true_iff. split.
        { unfold hexPrefix. destruct (c <=? 255); [|destruct (c <=? 65535)]; reflexivity. }
        { apply forallb_forall. intros d Hd. apply isHexDigit_printable.
          exact (proj1 (Forall_forall _ _) D d Hd). }
      * intros rest. rewrite (readDoubleQuoted_hexEscape c _ rest R Hp).
        unfold codeUnits. unfold isCodeUnit in Hc.
        replace (c <? 65536) with true by (symmetry; apply Z.ltb_lt; lia).
        reflexivity.
Qed.

Lemma codeUnits_pair :
  forall char nextChar,
    isHighSurrogate char = true -> isLowSurrogate nextChar = true ->
    codeUnits ((char - 0xd800) * 0x400 + nextChar - 0xdc00 + 0x10000) =
    [char; nextChar].
Proof.
  intros c n Hc Hn. unfold isHighSurrogate, isLowSurrogate in *.
  apply andb_true_iff in Hc, Hn. destruct Hc as [H1 H2], Hn as [H3 H4].
  apply Z.leb_le in H1, H2, H3, H4. unfold codeUnits.
  replace ((c - 55296) * 1024 + n - 56320 + 65536 <? 65536) with false
    by (symmetry; apply Z.ltb_ge; lia).
  replace ((c - 55296) * 1024 + n - 56320 + 65536 - 65536)
    with ((n - 56320) + (c - 55296) * 1024) by lia.
  rewrite Z.div_add, Z.mod_add by lia.
  rewrite Z.div_small, Z.mod_small by lia.
  f_equal; [lia | f_equal; lia].
Qed.

Lemma escapeLoop_round_trip :
  forall n chars result,
    (List.length chars <= n)%nat ->
    Forall isCodeUnit chars ->
    exists out,
      escapeLoop chars result = Ok (result ++ out) /\
      forallb isPrintable out = true /\
      readDoubleQuoted Unescaped out = Some chars.
Proof.
  induction n as [|n IH]; intros chars result Hl Hu.
  - destruct chars; [|simpl in Hl; lia].
    exists []. simpl. rewrite app_nil_r. auto.
  - destruct chars as [|char rest].
    { exists []. simpl. rewrite app_nil_r. auto. }
    inversion Hu as [|? ? Hc Hrest]; subst.
    assert (Single : exists out,
      match escapeChar char with
      | Ok piece => escapeLoop rest (result ++ piece)
      | Throw e => Throw e
      end = Ok (result ++ out) /\
      forallb isPrintable out = true /\
      readDoubleQuoted Unescaped out = Some (char :: rest)).
    { destruct (escapeChar_round_trip char Hc) as [p [Hp [Pp Rp]]]. rewrite Hp.
      destruct (IH rest (result ++ p)) as [out [Ho [Po Ro]]];
        [simpl in Hl; lia | exact Hrest |].
      exists (p ++ out). rewrite Ho, <- app_assoc. split; [reflexivity|].
      split; [rewrite forallb_app; now rewrite Pp, Po|].
      rewrite Rp, Ro. reflexivity. }
    cbn [escapeLoop]. destruct (isHighSurrogate char) eqn:Hh; [|exact Single].
    destruct rest as [|nextChar rest']; [exact Single|].
    destruct (isLowSurrogate nextChar) eqn:Hlo; [|exact Single].
    pose proof (surrogate_pair_in_range char nextChar Hh Hlo) as Hr.
    unfold combineSurrogates in Hr.
    assert (R : 0 <= (char - 0xd800) * 0x400 + nextChar - 0xdc00 + 0x10000 <= 0xffffffff)
      by lia.
    destruct (charCodeToHexString_digits _ R) as [ds [Hp [_ [D _]]]].
    rewrite Hp. inversion Hrest; subst.
    destruct (IH rest' (result ++ hexPrefix ((char - 0xd800) * 0x400 + nextChar - 0xdc00 + 0x10000) ++ ds))
      as [out [Ho [Po Ro]]]; [simpl in Hl; lia | assumption |].
    eexists. rewrite Ho, <- app_assoc. split; [reflexivity|]. split.
    + rewrite !forallb_app, Po, andb_true_r. apply andb_true_iff. split.
      * unfold hexPrefix.
        destruct (_ <=? 255); [|destruct (_ <=? 65535)]; reflexivity.
      * apply forallb_forall. intros d Hd. apply isHexDigit_printable.
        exact (proj1 (Forall_forall _ _) D d Hd).
    + rewrite (readDoubleQuoted_hexEscape _ _ out R Hp), Ro.
      cbn [option_map]. now rewrite (codeUnits_pair char nextChar Hh Hlo).
Qed.

(** Escaping loses nothing and leaves nothing raw: for a string of UTF-16
    code units the escaped text is printable throughout, holds no quote
    that is not escaped, and reads back, escape by escape, as the string
    itself (a surrogate pair written as one [\U] escape reads back as the
    pair). *)
Theorem escapeString_round_trip :
  forall string,
    Forall isCodeUnit string ->
    exists text,
      escapeString string = Ok text /\
      forallb isPrintable text = true /\
      doubleQuotedContent text = Some string.
Proof.
  intros string Hu.
  destruct (escapeLoop_round_trip (List.length string) string [] (le_n _) Hu)
    as [out [E [P Rd]]].
  exists out. unfold escapeString, doubleQuotedContent. now rewrite E.
Qed.

Lemma escapeString_round_trip_witness :
  exists text,
    escapeString [34; 7; 0xd83d; 0xde00; 0xe9; 0xdc00; 92] = Ok text /\
    forallb isPrintable text = true /\
    doubleQuotedContent text = Some [34; 7; 0xd83d; 0xde00; 0xe9; 0xdc00; 92].
Proof.
  apply (escapeString_round_trip [34; 7; 0xd83d; 0xde00; 0xe9; 0xdc00; 92]).
  repeat constructor; unfold isCodeUnit; lia.
Defined.

Lemma mapGet_printable :
  forall c,
    isPrintable c = true -> c <> DOUBLE_QUOTE -> c <> 92 ->
    mapGet ESCAPE_SEQUENCES c = None.
Proof.
  intros c P Q B. unfold ESCAPE_SEQUENCES. cbn [mapGet].
  repeat match goal with
         | |- (if ?k =? c then _ else _) = _ =>
             let E := fresh "E" in
             destruct (k =? c) eqn:E;
               [apply Z.eqb_eq in E; subst c;
                first [discriminate P | exfalso; apply Q; reflexivity
                      | exfalso; apply B; reflexivity]|]
         end.
  reflexivity.
Qed.

Lemma isPrintable_not_high : forall c, isPrintable c = true -> isHighSurrogate c = false.
Proof.
  intros c P. unfold isHighSurrogate. destruct ((55296 <=? c) && (c <=? 56319)) eqn:E;
    [|reflexivity].
  apply andb_true_iff in E. destruct E as [E1 E2]. apply Z.leb_le in E1, E2.
  unfold isPrintable in P.
  replace (c <=? 126) with false in P by (symmetry; apply Z.leb_gt; lia).
  replace (c <=? 55295) with false in P by (symmetry; apply Z.leb_gt; lia).
  replace (57344 <=? c) with false in P by (symmetry; apply Z.leb_gt; lia).
  replace (65536 <=? c) with false in P by (symmetry; apply Z.leb_gt; lia).
  rewrite ?andb_false_r in P. simpl in P. discriminate P.
Qed.

Lemma escapeLoop_safe :
  forall chars result,
    forallb (fun c => isPrintable c && negb (c =? DOUBLE_QUOTE) && negb (c =? 92))
            chars = true ->
    escapeLoop chars result = Ok (result ++ chars).
Proof.
  induction chars as [|c rest IH]; intros result H.
  - simpl. now rewrite app_nil_r.
  - cbn [forallb] in H. apply andb_true_iff in H. destruct H as [Hc Hr].
    apply andb_true_iff in Hc. destruct Hc as [Hc B].
    apply andb_true_iff in Hc. destruct Hc as [P Q].
    apply negb_true_iff, Z.eqb_neq in Q, B.
    cbn [escapeLoop]. rewrite (isPrintable_not_high c P).
    unfold escapeChar. rewrite (mapGet_printable c P Q B), P.
    rewrite IH by exact Hr. now rewrite <- app_assoc.
Qed.

(** Text that needs no escape is left as it is: a string of printable
    characters without a double quote and without a backslash is its own
    escaped form. *)
Theorem escapeString_keeps_safe_text :
  forall string,
    forallb (fun c => isPrintable c && negb (c =? DOUBLE_QUOTE) && negb (c =? 92))
            string = true ->
    escapeString string = Ok string.
Proof. intros string H. unfold escapeString. now rewrite escapeLoop_safe. Qed.

Lemma escapeString_keeps_safe_text_witness :
  escapeString (lit "it's: a #text") = Ok (lit "it's: a #text").
Proof. apply escapeString_keeps_safe_text. reflexivity. Defined.


(** ** Which type a value gets *)

Lemma detectTypeLoop_None :
  forall this h explicit types v,
    detectTypeLoop this h explicit types v = Ok None ->
    forall t, In t types -> accepts h t v = false.
Proof.
  intros this h explicit types v. induction types as [|t0 types IH]; intros H t Ht.
  - contradiction.
  - cbn [detectTypeLoop] in H. fold (accepts h t0 v) in H.
    destruct (accepts h t0 v) eqn:A.
    + destruct (represent t0) as [[f|table]|]; try discriminate H.
      destruct (tableGet table _); discriminate H.
    + destruct Ht as [->|Ht]; [exact A | now apply IH].
Qed.

Lemma detectTypeLoop_Some :
  forall this h explicit types v t' o,
    detectTypeLoop this h explicit types v = Ok (Some (t', o)) ->
    exists t,
      In t types /\ accepts h t v = true /\
      t' = (if explicit then tag t else lit "?").
Proof.
  intros this h explicit types v t' o. induction types as [|t0 types IH]; intros H.
  - discriminate H.
  - cbn [detectTypeLoop] in H. fold (accepts h t0 v) in H.
    destruct (accepts h t0 v) eqn:A.
    + exists t0. split; [now left|]. split; [exact A|].
      destruct (represent t0) as [[f|table]|].
      * now inversion H.
      * destruct (tableGet table _); [now inversion H | discriminate H].
      * now inversion H.
    + destruct (IH H) as [t [I [B E]]]. exists t. split; [now right | auto].
Qed.

(** How a value comes by its tag: when no type of the schema accepts it,
    it stays as it is, without a tag; when an implicit type accepts it, the
    tag is [?], whatever the explicit types say; otherwise the tag is that
    of an explicit type that accepts it. *)
Theorem resolveType_tag :
  forall this h v tg o,
    resolveType this h v = Ok (tg, o) ->
    match tg with
    | None =>
        o = v /\
        forall t, In t (implicitTypes this ++ explicitTypes this) -> accepts h t v = false
    | Some name =>
        (name = lit "?" /\
         exists t, In t (implicitTypes this) /\ accepts h t v = true) \/
        (exists t,
           In t (explicitTypes this) /\ name = tag t /\ accepts h t v = true /\
           forall t0, In t0 (implicitTypes this) -> accepts h t0 v = false)
    end.
Proof.
  intros this h v tg o H. unfold resolveType, detectType in H.
  destruct (detectTypeLoop this h false (implicitTypes this) v) as [[[t1 o1]|]|e1] eqn:E1;
    [| |discriminate H].
  - inversion H; subst. left.
    destruct (detectTypeLoop_Some _ _ _ _ _ _ _ E1) as [t [I [A E]]].
    split; [exact E | exists t; auto].
  - pose proof (detectTypeLoop_None _ _ _ _ _ E1) as N1.
    destruct (detectTypeLoop this h true (explicitTypes this) v) as [[[t2 o2]|]|e2] eqn:E2;
      [| |discriminate H].
    + inversion H; subst. right.
      destruct (detectTypeLoop_Some _ _ _ _ _ _ _ E2) as [t [I [A E]]].
      exists t. auto.
    + inversion H; subst. split; [reflexivity|].
      pose proof (detectTypeLoop_None _ _ _ _ _ E2) as N2.
      intros t Ht. apply in_app_or in Ht. destruct Ht; auto.
Qed.

Lemma resolveType_tag_witness :
  match Some (lit "?") with
  | None =>
      VString (lit "null") = VNull /\
      forall t,
        In t (implicitTypes (newDumperState nullSchema noOptions) ++
              explicitTypes (newDumperState nullSchema noOptions)) ->
        accepts [] t VNull = false
  | Some name =>
      (name = lit "?" /\
       exists t,
         In t (implicitTypes (newDumperState nullSchema noOptions)) /\
         accepts [] t VNull = true) \/
      (exists t,
         In t (explicitTypes (newDumperState nullSchema noOptions)) /\
         name = tag t /\ accepts [] t VNull = true /\
         forall t0,
           In t0 (implicitTypes (newDumperState nullSchema noOptions)) ->
           accepts [] t0 VNull = false)
  end.
Proof.
  apply (resolveType_tag (newDumperState nullSchema noOptions) [] VNull
           (Some (lit "?")) (VString (lit "null"))).
  reflexivity.
Defined.

(** ** Sorted keys *)

Lemma sortInsert_Permutation :
  forall compare x l, Permutation (x :: l) (sortInsert compare x l).
Proof.
  intros compare x l. induction l as [|y l IH]; [apply Permutation_refl|].
  cbn [sortInsert]. destruct (0 <? compare x y).
  - eapply Permutation_trans; [apply perm_swap|]. now apply perm_skip.
  - apply Permutation_refl.
Qed.

Lemma sortWith_Permutation :
  forall compare l, Permutation l (sortWith compare l).
Proof.
  intros compare l. induction l as [|x l IH]; [apply Permutation_refl|].
  cbn [sortWith]. eapply Permutation_trans; [|apply sortInsert_Permutation].
  now apply perm_skip.
Qed.

Lemma defaultCompare_flip :
  forall a b, 0 < defaultCompare a b -> defaultCompare b a <= 0.
Proof.
  induction a as [|x a IH]; intros [|y b] H; simpl in *; try lia.
  destruct (x <? y) eqn:E1; [lia|].
  destruct (y <? x) eqn:E2; [lia|].
  apply IH. exact H.
Qed.

Lemma sortInsert_HdRel :
  forall x y l,
    keyOrder y x -> HdRel keyOrder y l -> HdRel keyOrder y (sortInsert defaultCompare x l).
Proof.
  intros x y l Hyx Hl. destruct l as [|z l]; cbn [sortInsert].
  - constructor. exact Hyx.
  - destruct (0 <? defaultCompare x z).
    + constructor. now inversion Hl.
    + constructor. exact Hyx.
Qed.

Lemma sortInsert_Sorted :
  forall x l, Sorted keyOrder l -> Sorted keyOrder (sortInsert defaultCompare x l).
Proof.
  intros x l. induction l as [|y l IH]; intros S; cbn [sortInsert].
  - repeat constructor.
  - destruct (0 <? defaultCompare x y) eqn:E.
    + apply Z.ltb_lt in E. inversion S; subst. constructor; [now apply IH|].
      apply sortInsert_HdRel; [|assumption]. now apply defaultCompare_flip.
    + apply Z.ltb_ge in E. constructor; [exact S|]. constructor. exact E.
Qed.

(** Sorting the keys loses none and repeats none, whatever the comparator;
    with [sortKeys: true] each key is followed by one that is not smaller
    in the order of the code units. *)
Theorem sorted_keys_are_the_keys :
  forall l,
    (forall compare, Permutation l (sortWith compare l)) /\
    Sorted keyOrder (sortWith defaultCompare l).
Proof.
  intros l. split; [intros compare; apply sortWith_Permutation|].
  induction l as [|x l IH]; [constructor|].
  cbn [sortWith]. now apply sortInsert_Sorted.
Qed.

(** ** What a call of [stringify] changes *)

Lemma extendsUsed_setDuplicates :
  forall this st d,
    extendsUsed (setUsedDuplicates (setDuplicates this d) []) st ->
    exists u, st = setUsedDuplicates (setDuplicates this d) u.
Proof. intros this st d [u [E _]]. exists u. exact E. Qed.

(** A call of [stringify] leaves every option of the state as it was: it
    only appends to [duplicates] and replaces [usedDuplicates].  With
    [useAnchors] what it appends is the set of duplicates that the
    pre-scan [inspectNode] of the root returns, so the duplicates pile up
    when one state writes several documents; without [useAnchors] nothing
    is appended and the used duplicates only grow. *)
Theorem stringify_changes_only_duplicates :
  forall fuel h data this out this',
    stringify fuel h data this = Done out this' ->
    exists found used,
      this' = setUsedDuplicates (setDuplicates this (duplicates this ++ found)) used /\
      (useAnchors this = true ->
       exists objects, inspectNode fuel h data [] [] = Some (objects, found)) /\
      (useAnchors this = false -> found = [] /\ incl (usedDuplicates this) used).
Proof.
  intros fuel h data this out this' H. unfold stringify in H.
  destruct (useAnchors this) eqn:UA.
  - unfold getDuplicateReferences in H.
    destruct (inspectNode fuel h data [] []) as [[objects dups]|]; [|discriminate H].
    pose proof (stringifyNode_frame h fuel 0 data true true false
                  (setUsedDuplicates (setDuplicates this (duplicates this ++ dups)) []))
      as F.
    destruct (stringifyNode fuel h 0 data true true false _) as [[s|] st| |];
      try discriminate H; inversion H; subst; simpl in F;
      destruct F as [u [E _]]; exists dups, u;
      (split; [exact E | split; [intros _; exists objects; reflexivity | discriminate]]).
  - pose proof (stringifyNode_frame h fuel 0 data true true false this) as F.
    destruct (stringifyNode fuel h 0 data true true false this) as [[s|] st| |];
      try discriminate H; inversion H; subst; simpl in F;
      destruct F as [u [E I]]; exists [], u; rewrite app_nil_r;
      (split; [rewrite E; destruct this; reflexivity |
               split; [discriminate | intros _; split; [reflexivity | exact I]]]).
Qed.

Lemma stringify_changes_only_duplicates_witness :
  exists found used,
    setUsedDuplicates
      (setDuplicates (newDumperState bareSchema noOptions) [1%nat]) [1%nat] =
    setUsedDuplicates
      (setDuplicates (newDumperState bareSchema noOptions)
         (duplicates (newDumperState bareSchema noOptions) ++ found)) used /\
    (useAnchors (newDumperState bareSchema noOptions) = true ->
     exists objects, inspectNode 5 heapShared (VRef 0) [] [] = Some (objects, found)) /\
    (useAnchors (newDumperState bareSchema noOptions) = false ->
     found = [] /\ incl (usedDuplicates (newDumperState bareSchema noOptions)) used).
Proof.
  refine (stringify_changes_only_duplicates 5 heapShared (VRef 0)
            (newDumperState bareSchema noOptions) _
            (setUsedDuplicates
               (setDuplicates (newDumperState bareSchema noOptions) [1%nat]) [1%nat])
            _).
  vm_compute. reflexivity.
Defined.


(** ** Flow layout stays on one line *)

Lemma oneLine_printable : forall s, forallb isPrintable s = true -> oneLine s = true.
Proof.
  intros s H. unfold oneLine. apply negb_true_iff.
  induction s as [|c s IH]; [reflexivity|].
  cbn [forallb] in H. apply andb_true_iff in H. destruct H as [H1 H2].
  cbn [existsb]. rewrite (isPrintable_not_LF c H1). now apply IH.
Qed.

Lemma oneLine_cons :
  forall c s, oneLine (c :: s) = negb (c =? LINE_FEED) && oneLine s.
Proof. intros c s. unfold oneLine. cbn [existsb]. now rewrite negb_orb. Qed.

Lemma oneLine_decimalAux : forall fuel n, oneLine (decimalAux fuel n) = true.
Proof.
  induction fuel as [|f IH]; intros n; [reflexivity|].
  cbn [decimalAux]. rewrite oneLine_app. apply andb_true_iff. split.
  - destruct (n <? 10); [reflexivity | apply IH].
  - rewrite oneLine_cons. pose proof (Z.mod_pos_bound n 10).
    replace (48 + n mod 10 =? LINE_FEED) with false
      by (symmetry; apply Z.eqb_neq; unfold LINE_FEED; lia).
    reflexivity.
Qed.

Lemma oneLine_anchorText : forall n, oneLine (anchorText n) = true.
Proof.
  intros n. unfold anchorText, decimal. rewrite oneLine_app.
  now rewrite oneLine_decimalAux.
Qed.

Lemma oneLine_aliasText : forall n, oneLine (aliasText n) = true.
Proof.
  intros n. unfold aliasText, decimal. rewrite oneLine_app.
  now rewrite oneLine_decimalAux.
Qed.

Lemma charCodeToHexString_printable :
  forall c p, charCodeToHexString c = Ok p -> forallb isPrintable p = true.
Proof.
  intros c p H. unfold charCodeToHexString in H. cbv zeta in H.
  assert (D : forall k, forallb isPrintable (padStart0 k (toString16 c)) = true).
  { intros k. unfold padStart0. rewrite forallb_app. apply andb_true_iff. split.
    - apply forallb_forall. intros x Hx. apply repeat_spec in Hx. now subst.
    - apply forallb_forall. intros d Hd. apply isHexDigit_printable.
      exact (proj1 (Forall_forall _ _)
               (toString16Aux_digits (S (Z.to_nat (Z.log2 c))) c) d Hd). }
  assert (G : forall q k,
            forallb isPrintable q = true ->
            forallb isPrintable (q ++ padStart0 k (toString16 c)) = true).
  { intros q k Q. now rewrite forallb_app, Q, D. }
  destruct (c <=? 255); [|destruct (c <=? 65535); [|destruct (c <=? 4294967295)]];
    inversion H; subst.
  - exact (G (lit "\x") 2%nat eq_refl).
  - exact (G (lit "\u") 4%nat eq_refl).
  - exact (G (lit "\U") 8%nat eq_refl).
Qed.

Lemma escapeChar_printable :
  forall c p, escapeChar c = Ok p -> forallb isPrintable p = true.
Proof.
  intros c p H. unfold escapeChar in H.
  destruct (mapGet ESCAPE_SEQUENCES c) as [e|] eqn:E.
  - inversion H; subst. apply mapGet_In_pair in E.
    exact (proj1 (forallb_forall _ _) escape_sequences_printable (c, p) E).
  - destruct (isPrintable c) eqn:P.
    + inversion H; subst. simpl. now rewrite P.
    + now apply charCodeToHexString_printable in H.
Qed.

Lemma escapeLoop_printable :
  forall n chars result r,
    (List.length chars <= n)%nat ->
    escapeLoop chars result = Ok r ->
    exists out, r = result ++ out /\ forallb isPrintable out = true.
Proof.
  induction n as [|n IH]; intros chars result r Hl H.
  - destruct chars; [|simpl in Hl; lia]. simpl in H. inversion H; subst.
    exists []. now rewrite app_nil_r.
  - destruct chars as [|char rest].
    { simpl in H. inversion H; subst. exists []. now rewrite app_nil_r. }
    assert (Single :
      match escapeChar char with
      | Ok piece => escapeLoop rest (result ++ piece)
      | Throw e => Throw e
      end = Ok r ->
      exists out, r = result ++ out /\ forallb isPrintable out = true).
    { intros H'. destruct (escapeChar char) as [p|e] eqn:Ep; [|discriminate H'].
      apply escapeChar_printable in Ep.
      destruct (IH rest (result ++ p) r) as [out [E P]];
        [simpl in Hl; lia | exact H' |].
      exists (p ++ out). rewrite E, <- app_assoc. split; [reflexivity|].
      rewrite forallb_app. now rewrite Ep, P. }
    cbn [escapeLoop] in H. destruct (isHighSurrogate char); [|exact (Single H)].
    destruct rest as [|nextChar rest']; [exact (Single H)|].
    destruct (isLowSurrogate nextChar); [|exact (Single H)].
    destruct (charCodeToHexString _) as [p|e] eqn:Ep; [|discriminate H].
    apply charCodeToHexString_printable in Ep.
    destruct (IH rest' (result ++ p) r) as [out [E P]];
      [simpl in Hl; lia | exact H |].
    exists (p ++ out). rewrite E, <- app_assoc. split; [reflexivity|].
    rewrite forallb_app. now rewrite Ep, P.
Qed.

Lemma includesStr_In : forall l s, includesStr l s = true -> In s l.
Proof.
  intros l s H. unfold includesStr in H. apply existsb_exists in H.
  destruct H as [x [I E]]. apply jsstring_eqb_eq in E. now subst.
Qed.

Lemma deprecated_booleans_oneLine :
  forallb oneLine DEPRECATED_BOOLEANS_SYNTAX = true.
Proof. reflexivity. Qed.

Lemma oneLine_doubleQuotes :
  forall s, oneLine s = true -> oneLine (doubleQuotes s) = true.
Proof.
  induction s as [|c s IH]; intros H; [reflexivity|].
  rewrite oneLine_cons in H. apply andb_true_iff in H. destruct H as [H1 H2].
  unfold doubleQuotes in *. cbn [flat_map]. rewrite oneLine_app, (IH H2), andb_true_r.
  destruct (c =? SINGLE_QUOTE); rewrite !oneLine_cons, H1; reflexivity.
Qed.

Lemma oneLine_three :
  forall a b c,
    oneLine a = true -> oneLine b = true -> oneLine c = true ->
    oneLine (a ++ b ++ c) = true.
Proof. intros a b c A B C. now rewrite !oneLine_app, A, B, C. Qed.

Lemma oneLine_tagged :
  forall name text,
    oneLine name = true -> oneLine text = true ->
    oneLine (lit "!<" ++ name ++ lit "> " ++ text) = true.
Proof. intros name text A B. now rewrite !oneLine_app, A, B. Qed.

(** Where only one line is allowed, a scalar is written on one line. *)
Lemma stringifyScalar_one_line :
  forall this s level isKey text,
    isKey || ((-1 <? flowLevel this) && (flowLevel this <=? level)) = true ->
    stringifyScalar this s level isKey = Ok text ->
    oneLine text = true.
Proof.
  intros this s level isKey text SL H. unfold stringifyScalar in H.
  destruct s as [|c rest]; [inversion H; reflexivity|].
  set (string := c :: rest) in *.
  destruct (compatMode this && includesStr DEPRECATED_BOOLEANS_SYNTAX string) eqn:C.
  { inversion H; subst. apply andb_true_iff in C. destruct C as [_ C].
    apply includesStr_In in C.
    pose proof (proj1 (forallb_forall _ _) deprecated_booleans_oneLine _ C) as O.
    exact (oneLine_three (lit "'") string (lit "'") eq_refl O eq_refl). }
  cbv zeta in H. rewrite SL in H.
  pose proof (chooseScalarStyle_cases string true (indent this)
                (scalarLineWidth this level)
                (fun str => testImplicitResolving (implicitTypes this) str))
    as [A [B [_ R]]].
  cbv zeta in A, B, R.
  destruct R as [R|[R|[R|[R|R]]]].
  - pose proof (oneLine_printable _ (A (or_introl R))) as O.
    rewrite R in H. inversion H; subst. exact O.
  - pose proof (oneLine_printable _ (A (or_intror R))) as O.
    rewrite R in H. inversion H; subst.
    exact (oneLine_three (lit "'") (doubleQuotes string) (lit "'") eq_refl
             (oneLine_doubleQuotes _ O) eq_refl).
  - destruct (B (or_introl R)) as [F _]. discriminate F.
  - destruct (B (or_intror R)) as [F _]. discriminate F.
  - rewrite R in H.
    change (STYLE_DOUBLE =? STYLE_PLAIN) with false in H.
    change (STYLE_DOUBLE =? STYLE_SINGLE) with false in H.
    change (STYLE_DOUBLE =? STYLE_LITERAL) with false in H.
    change (STYLE_DOUBLE =? STYLE_FOLDED) with false in H.
    change (STYLE_DOUBLE =? STYLE_DOUBLE) with true in H. cbv iota in H.
    unfold escapeString in H.
    destruct (escapeLoop string []) as [e|er] eqn:E; [|discriminate H].
    inversion H; subst.
    destruct (escapeLoop_printable _ _ _ _ (le_n _) E) as [out [Eo P]].
    cbn [app] in Eo. subst e.
    exact (oneLine_three [DOUBLE_QUOTE] out [DOUBLE_QUOTE] eq_refl
             (oneLine_printable _ P) eq_refl).
Qed.

Section FlowLoops.

Variable rec : nodeRenderer.
Variable this0 : DumperState.

(** [rec] writes one line at the levels of the flow layout. *)
Hypothesis rec_one_line :
  forall level v b1 b2 b3 st,
    extendsUsed this0 st -> flowLevel this0 <= level ->
    outcomeSat True
      (fun o st' => extendsUsed this0 st' /\ forall s, o = Some s -> oneLine s = true)
      (rec level v b1 b2 b3 st).

Lemma flowSequenceLoop_one_line :
  forall elems index level res st,
    extendsUsed this0 st -> flowLevel this0 <= level -> oneLine res = true ->
    outcomeSat True (fun s st' => extendsUsed this0 st' /\ oneLine s = true)
      (flowSequenceLoop rec elems index level res st).
Proof.
  induction elems as [|e l IH]; intros index level res st X L O; cbn [flowSequenceLoop].
  - split; assumption.
  - pose proof (rec_one_line level e false false false st X L) as R.
    destruct (rec level e false false false st) as [[s|] st1| |]; simpl in R;
      try exact I.
    + destruct R as [X1 O1]. apply IH; [exact X1 | exact L |].
      rewrite oneLine_app, (O1 s eq_refl), andb_true_r.
      destruct (negb (index =? 0)); [|exact O].
      rewrite oneLine_app, O. unfold flowSeparator.
      destruct (negb (condenseFlow st1)); reflexivity.
    + destruct R as [X1 _]. now apply IH.
Qed.

Lemma flowMappingLoop_one_line :
  forall object keys index level res st,
    extendsUsed this0 st -> flowLevel this0 <= level -> oneLine res = true ->
    outcomeSat True (fun s st' => extendsUsed this0 st' /\ oneLine s = true)
      (flowMappingLoop rec object keys index level res st).
Proof.
  induction keys as [|k l IH]; intros index level res st X L O; cbn [flowMappingLoop].
  - split; assumption.
  - cbv zeta.
    pose proof (rec_one_line level (VString k) false false false st X L) as R.
    destruct (rec level (VString k) false false false st) as [[ks|] st1| |];
      simpl in R; try exact I.
    + destruct R as [X1 O1].
      pose proof (rec_one_line level (getProp object k) false false false st1 X1 L) as R2.
      destruct (rec level (getProp object k) false false false st1) as [[vs|] st2| |];
        simpl in R2; try exact I.
      * destruct R2 as [X2 O2]. apply IH; [exact X2 | exact L |].
        rewrite !oneLine_app, O, (O1 ks eq_refl), (O2 vs eq_refl).
        unfold condenseQuote.
        destruct (condenseFlow st); destruct (condenseFlow st1);
          destruct (negb (index =? 0)); destruct (1024 <? strlen ks); reflexivity.
      * destruct R2 as [X2 _]. now apply IH.
    + destruct R as [X1 _]. now apply IH.
Qed.

End FlowLoops.

Lemma extendsUsed_fields :
  forall this st,
    extendsUsed this st ->
    flowLevel st = flowLevel this /\ arrayIndent st = arrayIndent this /\
    forall h v, resolveType st h v = resolveType this h v.
Proof.
  intros this st [u [E _]]. subst st. repeat split.
  intros h v. apply resolveType_setUsedDuplicates.
Qed.

Lemma flowFrom_blockAt :
  forall this level block, flowFrom this level -> blockAt this level block = false.
Proof.
  intros this level block [[H1 H2] _]. unfold blockAt. destruct block; [|reflexivity].
  replace (flowLevel this <? 0) with false by (symmetry; apply Z.ltb_ge; lia).
  replace (level <? flowLevel this) with false by (symmetry; apply Z.ltb_ge; lia).
  reflexivity.
Qed.

Lemma flowFrom_arrayLevel :
  forall this level, flowFrom this level -> flowLevel this <= arrayLevel this level.
Proof.
  intros this level [[H1 H2] [A|Z0]]; unfold arrayLevel.
  - rewrite A. simpl. lia.
  - destruct (negb (arrayIndent this) && (0 <? level)) eqn:E; [|lia].
    apply andb_true_iff in E. destruct E as [_ E]. apply Z.ltb_lt in E. lia.
Qed.

Lemma oneLine_wrapped :
  forall tg (d : bool) i sep text,
    (forall name, tg = Some name -> oneLine name = true) ->
    oneLine sep = true -> oneLine text = true ->
    oneLine
      (if realTag tg
       then lit "!<" ++ orDefault tg [] ++ lit "> " ++
            (if d then anchorText i ++ sep ++ text else text)
       else if d then anchorText i ++ sep ++ text else text) = true.
Proof.
  intros tg d i sep text Ht Hs Hx.
  assert (B : oneLine (if d then anchorText i ++ sep ++ text else text) = true).
  { destruct d; [|exact Hx]. now rewrite !oneLine_app, oneLine_anchorText, Hs, Hx. }
  destruct (realTag tg) eqn:RT; [|exact B].
  destruct tg as [name|]; [|discriminate RT].
  exact (oneLine_tagged name _ (Ht name eq_refl) B).
Qed.

Lemma stringifyNode_flow_one_line :
  forall h fuel level v block compact isKey this,
    oneLineTypes this h -> flowFrom this level ->
    outcomeSat True
      (fun o st => extendsUsed this st /\ forall s, o = Some s -> oneLine s = true)
      (stringifyNode fuel h level v block compact isKey this).
Proof.
  intros h. induction fuel as [|fuel IH];
    intros level v block compact isKey this OT FF; cbn [stringifyNode]; [exact I|].
  assert (NoneOk : outcomeSat True
            (fun o st => extendsUsed this st /\ forall s, o = Some s -> oneLine s = true)
            (if skipInvalid this then Done None this
             else Raise (UnacceptableKind v))).
  { destruct (skipInvalid this); simpl; [|exact I].
    split; [apply extendsUsed_refl | intros s Hs; discriminate Hs]. }
  body_cases (stringifyNode fuel h) h level v block compact isKey this;
    try (destruct (skipInvalid this); simpl; [|exact I];
         split; [apply extendsUsed_refl | intros s Hs; discriminate Hs]).
  - (* a string *)
    destruct (OT _ _ _ R) as [Tn Ts].
    destruct (notQuestionTag tg) eqn:NQ.
    + destruct (stringifyScalar this s level isKey) as [text|e] eqn:E; simpl; [|exact I].
      split; [apply extendsUsed_refl|]. intros x Hx. inversion Hx; subst.
      assert (O : oneLine text = true).
      { apply (stringifyScalar_one_line this s level isKey text); [|exact E].
        destruct FF as [[F1 F2] _].
        replace (-1 <? flowLevel this) with true by (symmetry; apply Z.ltb_lt; lia).
        replace (flowLevel this <=? level) with true by (symmetry; apply Z.leb_le; lia).
        apply orb_true_r. }
      destruct (realTag tg) eqn:RT; [|exact O].
      destruct tg as [name|]; [|discriminate RT].
      exact (oneLine_tagged name _ (Tn name eq_refl) O).
    + simpl. split; [apply extendsUsed_refl|]. intros x Hx. inversion Hx; subst.
      pose proof (Ts eq_refl s eq_refl) as O.
      destruct (realTag tg) eqn:RT; [|exact O].
      destruct tg as [name|]; [|discriminate RT].
      exact (oneLine_tagged name _ (Tn name eq_refl) O).
  - (* an alias *)
    simpl. split; [apply extendsUsed_refl|]. intros x Hx. inversion Hx; subst.
    apply oneLine_aliasText.
  - (* a container *)
    destruct (OT _ _ _ R) as [Tn _].
    assert (RecOk : forall level' v' b1 b2 b3 st,
              extendsUsed this st -> flowLevel this <= level' ->
              outcomeSat True
                (fun o st' => extendsUsed this st' /\
                              forall s, o = Some s -> oneLine s = true)
                (stringifyNode fuel h level' v' b1 b2 b3 st)).
    { intros level' v' b1 b2 b3 st X L.
      destruct (extendsUsed_fields _ _ X) as [F1 [F2 F3]].
      eapply outcomeSat_impl; [|apply IH].
      - intros o st' [X' O']. split; [eapply extendsUsed_trans; eassumption | exact O'].
      - intros v0 tg0 o0 R0. rewrite F3 in R0. exact (OT _ _ _ R0).
      - unfold flowFrom in *. rewrite F1, F2. destruct FF as [[G1 G2] G3].
        split; [lia | exact G3]. }
    pose proof (extendsUsed_markUsed this a) as XM.
    unfold stringifyContainer. rewrite (flowFrom_blockAt this level block FF).
    cbn [andb]. destruct (deref h a) as [elems|props].
    + pose proof (flowSequenceLoop_one_line (stringifyNode fuel h) this RecOk elems 0
                    (arrayLevel this level) [] (markUsed this a) XM
                    (flowFrom_arrayLevel this level FF) eq_refl) as L.
      unfold stringifyFlowSequence.
      destruct (flowSequenceLoop _ _ _ _ _ _) as [res st| |]; simpl in L; try exact I.
      destruct L as [X O]. cbn [withAnchor wrapTag outcomeSat]. split; [exact X|].
      intros x Hx. injection Hx as <-.
      apply (oneLine_wrapped tg (isDuplicate this a) (indexOf (duplicates this) a)
               (lit " ") (lit "[" ++ res ++ lit "]") Tn eq_refl).
      exact (oneLine_three (lit "[") res (lit "]") eq_refl O eq_refl).
    + destruct FF as [[G1 G2] G3].
      pose proof (flowMappingLoop_one_line (stringifyNode fuel h) this RecOk props
                    (map fst props) 0 level [] (markUsed this a) XM G2 eq_refl) as L.
      unfold stringifyFlowMapping.
      destruct (flowMappingLoop _ _ _ _ _ _ _) as [res st| |]; simpl in L; try exact I.
      destruct L as [X O]. cbn [withAnchor wrapTag outcomeSat]. split; [exact X|].
      intros x Hx. injection Hx as <-.
      apply (oneLine_wrapped tg (isDuplicate this a) (indexOf (duplicates this) a)
               (lit " ") (lit "{" ++ res ++ lit "}") Tn eq_refl).
      exact (oneLine_three (lit "{") res (lit "}") eq_refl O eq_refl).
  - simpl. exact I.
Qed.

Lemma bareSchema_oneLineTypes :
  forall o h,
    optSchema o = None -> oneLineTypes (newDumperState bareSchema o) h.
Proof.
  intros o h S v tg x R. unfold resolveType, detectType in R.
  cbn [newDumperState implicitTypes explicitTypes] in R. rewrite S in R. simpl in R.
  inversion R; subst. split; [intros name E; discriminate E | intros E; discriminate E].
Qed.

(** Flow layout keeps to one line.  From a level on which [flowLevel]
    puts everything in flow layout (with [arrayIndent: false] this needs
    [flowLevel] 0, as a sequence is then written one level up), the text
    of a node has no line feed: strings with line feeds are double-quoted.
    So with [flowLevel: 0] a document is one line, ended by the one line
    feed that [stringify] appends; the types of the schema are supposed to
    write no line feed on their own account. *)
Theorem flow_layout_is_one_line :
  forall fuel h this,
    oneLineTypes this h ->
    (forall level v block compact isKey s st,
       flowFrom this level ->
       stringifyNode fuel h level v block compact isKey this = Done (Some s) st ->
       oneLine s = true) /\
    (forall data out this',
       flowLevel this = 0 ->
       stringify fuel h data this = Done out this' ->
       out = [] \/ exists text, out = text ++ [LINE_FEED] /\ oneLine text = true).
Proof.
  intros fuel h this OT. split.
  - intros level v block compact isKey s st FF H.
    pose proof (stringifyNode_flow_one_line h fuel level v block compact isKey this OT FF)
      as L.
    rewrite H in L. destruct L as [_ L]. now apply L.
  - intros data out this' FL H. unfold stringify in H.
    set (pre := if useAnchors this then getDuplicateReferences fuel h data this
                else Some this) in H.
    assert (Hpre : forall st, pre = Some st ->
              oneLineTypes st h /\ flowFrom st 0).
    { intros st E. unfold pre in E. destruct (useAnchors this).
      - unfold getDuplicateReferences in E.
        destruct (inspectNode fuel h data [] []) as [[o d]|]; [|discriminate E].
        inversion E; subst. split.
        + intros v tg x R. rewrite resolveType_setUsedDuplicates in R.
          rewrite resolveType_setDuplicates in R. exact (OT _ _ _ R).
        + unfold flowFrom. cbn [flowLevel arrayIndent setUsedDuplicates setDuplicates].
          rewrite FL. split; [lia | now right].
      - inversion E; subst. split; [exact OT|].
        unfold flowFrom. rewrite FL. split; [lia | now right]. }
    destruct pre as [st|]; [|discriminate H].
    destruct (Hpre st eq_refl) as [OT' FF'].
    pose proof (stringifyNode_flow_one_line h fuel 0 data true true false st OT' FF') as L.
    destruct (stringifyNode fuel h 0 data true true false st) as [[s|] st'| |];
      try discriminate H; inversion H; subst.
    + right. exists s. split; [reflexivity|]. destruct L as [_ L]. now apply L.
    + now left.
Qed.

Lemma flow_layout_is_one_line_witness :
  lit "[" ++ [34; 97; 92; 110; 98; 34] ++ lit ", {k: v}]" ++ [LINE_FEED] = [] \/
  exists text,
    lit "[" ++ [34; 97; 92; 110; 98; 34] ++ lit ", {k: v}]" ++ [LINE_FEED] =
      text ++ [LINE_FEED] /\
    oneLine text = true.
Proof.
  refine (proj2 (flow_layout_is_one_line 4 heapTwoLines
                   (newDumperState bareSchema (flowOptions false false))
                   (bareSchema_oneLineTypes (flowOptions false false) heapTwoLines
                      eq_refl))
                (VRef 0) _ _ eq_refl _).
  vm_compute. reflexivity.
Defined.


(** ** Options that a layout does not read *)

(** *** [sortKeys] in flow layout *)

Section SortKeysFlow.

Variable s : sortKeysOption.
Variables rec rec' : nodeRenderer.

(** [rec'] is [rec] run with [sortKeys] set to [s], on the calls that the
    flow methods make. *)
Hypothesis rec_sort :
  forall level v b2 b3 this,
    rec' level v false b2 b3 (setSortKeys this s) =
    mapState (fun st => setSortKeys st s) (rec level v false b2 b3 this).

Lemma flowSequenceLoop_sort :
  forall elems index level res this,
    flowSequenceLoop rec' elems index level res (setSortKeys this s) =
    mapState (fun st => setSortKeys st s)
      (flowSequenceLoop rec elems index level res this).
Proof.
  induction elems as [|e l IH]; intros index level res this; simpl; [reflexivity|].
  rewrite rec_sort.
  destruct (rec level e false false false this) as [[x|] st| |]; simpl;
    try reflexivity; apply IH.
Qed.

Lemma flowMappingLoop_sort :
  forall object keys index level res this,
    flowMappingLoop rec' object keys index level res (setSortKeys this s) =
    mapState (fun st => setSortKeys st s)
      (flowMappingLoop rec object keys index level res this).
Proof.
  induction keys as [|k l IH]; intros index level res this; simpl; [reflexivity|].
  rewrite rec_sort.
  destruct (rec level (VString k) false false false this) as [[x|] st| |]; simpl;
    try reflexivity; [|apply IH].
  rewrite rec_sort.
  destruct (rec level (getProp object k) false false false st) as [[y|] st'| |];
    simpl; try reflexivity; apply IH.
Qed.

Lemma stringifyFlowSequence_sort :
  forall elems level this,
    stringifyFlowSequence rec' elems level (setSortKeys this s) =
    mapState (fun st => setSortKeys st s) (stringifyFlowSequence rec elems level this).
Proof.
  intros elems level this. unfold stringifyFlowSequence. rewrite flowSequenceLoop_sort.
  destruct (flowSequenceLoop rec elems 0 level [] this); reflexivity.
Qed.

Lemma stringifyFlowMapping_sort :
  forall object level this,
    stringifyFlowMapping rec' object level (setSortKeys this s) =
    mapState (fun st => setSortKeys st s) (stringifyFlowMapping rec object level this).
Proof.
  intros object level this. unfold stringifyFlowMapping. rewrite flowMappingLoop_sort.
  destruct (flowMappingLoop rec object _ 0 level [] this); reflexivity.
Qed.

Lemma markUsed_setSortKeys :
  forall this a, markUsed (setSortKeys this s) a = setSortKeys (markUsed this a) s.
Proof.
  intros this a. unfold markUsed.
  change (isDuplicate (setSortKeys this s) a) with (isDuplicate this a).
  destruct (isDuplicate this a); reflexivity.
Qed.

Lemma stringifyNodeBody_sort :
  forall h level object block compact isKey this,
    blockAt this level block = false ->
    stringifyNodeBody rec' h level object block compact isKey (setSortKeys this s) =
    mapState (fun st => setSortKeys st s)
      (stringifyNodeBody rec h level object block compact isKey this).
Proof.
  intros h level object block compact isKey this B.
  pose proof (resolveType_ext (setSortKeys this s) this h object
                eq_refl eq_refl eq_refl) as E.
  destruct (resolveType this h object) as [[tg v]|e] eqn:R.
  2:{ rewrite (body_throw _ _ _ _ _ _ _ _ _ E), (body_throw _ _ _ _ _ _ _ _ _ R).
      reflexivity. }
  destruct v.
  1-4, 6:
    rewrite (body_unsupported _ _ _ _ _ _ _ _ _ _ E eq_refl),
            (body_unsupported _ _ _ _ _ _ _ _ _ _ R eq_refl);
    change (skipInvalid (setSortKeys this s)) with (skipInvalid this);
    destruct (skipInvalid this); reflexivity.
  - rewrite (body_string _ _ _ _ _ _ _ _ _ _ E), (body_string _ _ _ _ _ _ _ _ _ _ R).
    change (stringifyScalar (setSortKeys this s) s0 level isKey)
      with (stringifyScalar this s0 level isKey).
    destruct (notQuestionTag tg); [|reflexivity].
    destruct (stringifyScalar this s0 level isKey); reflexivity.
  - destruct (isDuplicate this a && includes (usedDuplicates this) a) eqn:A.
    + apply andb_true_iff in A. destruct A as [A1 A2].
      rewrite (body_alias _ _ _ _ _ _ _ _ _ _ E A1 A2),
              (body_alias _ _ _ _ _ _ _ _ _ _ R A1 A2).
      reflexivity.
    + rewrite (body_container _ _ _ _ _ _ _ _ _ _ E A),
              (body_container _ _ _ _ _ _ _ _ _ _ R A).
      unfold stringifyContainer. rewrite markUsed_setSortKeys.
      change (isDuplicate (setSortKeys this s) a) with (isDuplicate this a).
      change (duplicates (setSortKeys this s)) with (duplicates this).
      change (blockAt (setSortKeys this s) level block) with (blockAt this level block).
      change (arrayLevel (setSortKeys this s) level) with (arrayLevel this level).
      rewrite B. cbn [andb].
      destruct (deref h a) as [elems|props].
      * rewrite stringifyFlowSequence_sort.
        rewrite withAnchor_mapState, wrapTag_mapState. reflexivity.
      * rewrite stringifyFlowMapping_sort.
        rewrite withAnchor_mapState, wrapTag_mapState. reflexivity.
Qed.

End SortKeysFlow.

Lemma stringifyNode_sort_inner :
  forall h s fuel level v compact isKey this,
    stringifyNode fuel h level v false compact isKey (setSortKeys this s) =
    mapState (fun st => setSortKeys st s)
      (stringifyNode fuel h level v false compact isKey this).
Proof.
  intros h s. induction fuel as [|fuel IH]; intros level v compact isKey this;
    [reflexivity|].
  cbn [stringifyNode]. apply stringifyNodeBody_sort; [|reflexivity].
  intros level' v' b2 b3 st. apply IH.
Qed.

Lemma stringifyNode_sort_flow :
  forall h s fuel level v block compact isKey this,
    blockAt this level block = false ->
    stringifyNode fuel h level v block compact isKey (setSortKeys this s) =
    mapState (fun st => setSortKeys st s)
      (stringifyNode fuel h level v block compact isKey this).
Proof.
  intros h s [|fuel] level v block compact isKey this B; [reflexivity|].
  cbn [stringifyNode]. apply stringifyNodeBody_sort; [|exact B].
  intros level' v' b2 b3 st. apply stringifyNode_sort_inner.
Qed.

(** Flow layout never sorts: with [flowLevel: 0] the option [sortKeys] is
    not read, so a document is the same under every value of it, the keys
    stand in the order of the object, and a value that is neither a
    boolean nor a function, which block layout refuses, goes unnoticed. *)
Theorem sortKeys_is_not_read_in_flow_layout :
  forall fuel h data this s,
    flowLevel this = 0 ->
    stringify fuel h data (setSortKeys this s) =
    mapState (fun st => setSortKeys st s) (stringify fuel h data this).
Proof.
  intros fuel h data this s FL. unfold stringify.
  change (useAnchors (setSortKeys this s)) with (useAnchors this).
  assert (B : forall st, flowLevel st = 0 -> blockAt st 0 true = false).
  { intros st E. unfold blockAt. rewrite E. reflexivity. }
  destruct (useAnchors this).
  - unfold getDuplicateReferences.
    destruct (inspectNode fuel h data [] []) as [[objects dups]|]; [|reflexivity].
    change (setUsedDuplicates
              (setDuplicates (setSortKeys this s)
                 (duplicates (setSortKeys this s) ++ dups)) [])
      with (setSortKeys
              (setUsedDuplicates (setDuplicates this (duplicates this ++ dups)) []) s).
    rewrite stringifyNode_sort_flow by (apply B; exact FL).
    destruct (stringifyNode fuel h 0 data true true false _) as [[x|] st| |];
      reflexivity.
  - rewrite stringifyNode_sort_flow by (apply B; exact FL).
    destruct (stringifyNode fuel h 0 data true true false this) as [[x|] st| |];
      reflexivity.
Qed.

Lemma sortKeys_is_not_read_in_flow_layout_witness :
  stringify 3 heapUnsorted (VRef 0)
    (setSortKeys (newDumperState bareSchema (flowOptions false false))
       (SortKeysOther true)) =
  mapState (fun st => setSortKeys st (SortKeysOther true))
    (stringify 3 heapUnsorted (VRef 0)
       (newDumperState bareSchema (flowOptions false false))).
Proof. apply sortKeys_is_not_read_in_flow_layout. reflexivity. Defined.


(** ** What the pre-scan finds *)

Lemma reachable_below :
  forall h a e x,
    In e (entriesOf h a) -> reachable h e x -> reachable h (VRef a) x.
Proof.
  intros h a e x He R. induction R as [b E|b c R IH C].
  - subst e. eapply reach_child; [apply reach_root; reflexivity | exact He].
  - eapply reach_child; [exact IH | exact C].
Qed.

Lemma inspectNode_reach :
  forall h fuel v o d o' d',
    inspectNode fuel h v o d = Some (o', d') ->
    forall x, In x o' -> In x o \/ reachable h v x.
Proof.
  intros h. induction fuel as [|fuel IH]; intros v o d o' d' H x Hx; [discriminate|].
  cbn [inspectNode] in H. destruct v; try (inversion H; subst; now left).
  destruct (includes o a).
  { inversion H; subst. now left. }
  assert (L : forall es o1 d1,
            (forall e, In e es -> In e (entriesOf h a)) ->
            inspectEntries (inspectNode fuel h) es o1 d1 = Some (o', d') ->
            In x o1 \/ reachable h (VRef a) x).
  { induction es as [|e es IHe]; intros o1 d1 Sub E; cbn [inspectEntries] in E.
    - inversion E; subst. now left.
    - destruct (inspectNode fuel h e o1 d1) as [[o2 d2]|] eqn:E1; [|discriminate E].
      destruct (IHe o2 d2 (fun e' He' => Sub e' (or_intror He')) E) as [I|R];
        [|now right].
      destruct (IH e o1 d1 o2 d2 E1 x I) as [I1|R1]; [now left|].
      right. eapply reachable_below; [apply Sub; now left | exact R1]. }
  destruct (L (entriesOf h a) (o ++ [a]) d (fun e He => He) H) as [I|R];
    [|now right].
  apply in_app_or in I. destruct I as [I|[I|[]]]; [now left|].
  subst x. right. now apply reach_root.
Qed.

Lemma inspectNodeVisits_refs :
  forall h fuel v o d vis o' d' vis',
    inspectNodeVisits fuel h v o d vis = Some (o', d', vis') ->
    exists no nv,
      o' = o ++ no /\ vis' = vis ++ nv /\
      Permutation nv (refOf v ++ flat_map (refsOf h) no).
Proof.
  intros h. induction fuel as [|fuel IH]; intros v o d vis o' d' vis' H;
    [discriminate|].
  cbn [inspectNodeVisits] in H.
  destruct v;
    try (inversion H; subst; exists [], []; rewrite !app_nil_r;
         repeat split; apply Permutation_refl).
  destruct (includes o a).
  { inversion H; subst. exists [], [a]. rewrite app_nil_r.
    repeat split. apply Permutation_refl. }
  assert (L : forall es o1 d1 vis1,
            inspectEntriesVisits (inspectNodeVisits fuel h) es o1 d1 vis1 =
              Some (o', d', vis') ->
            exists no nv,
              o' = o1 ++ no /\ vis' = vis1 ++ nv /\
              Permutation nv (flat_map refOf es ++ flat_map (refsOf h) no)).
  { induction es as [|e es IHe]; intros o1 d1 vis1 E; cbn [inspectEntriesVisits] in E.
    - inversion E; subst. exists [], []. rewrite !app_nil_r.
      repeat split. apply Permutation_refl.
    - destruct (inspectNodeVisits fuel h e o1 d1 vis1) as [[[o2 d2] vis2]|] eqn:E1;
        [|discriminate E].
      destruct (IH _ _ _ _ _ _ _ E1) as [no1 [nv1 [Eo1 [Ev1 P1]]]].
      destruct (IHe _ _ _ E) as [no2 [nv2 [Eo2 [Ev2 P2]]]].
      exists (no1 ++ no2), (nv1 ++ nv2). subst.
      rewrite <- !app_assoc. repeat split.
      cbn [flat_map]. rewrite flat_map_app.
      eapply Permutation_trans; [apply Permutation_app; eassumption|].
      rewrite <- !app_assoc. apply Permutation_app_head.
      rewrite !app_assoc. apply Permutation_app_tail. apply Permutation_app_comm. }
  destruct (L _ _ _ _ H) as [no [nv [Eo [Ev P]]]].
  exists (a :: no), (a :: nv). subst. rewrite <- !app_assoc. repeat split.
  cbn [refOf app flat_map]. apply perm_skip.
  eapply Permutation_trans; [exact P|]. fold (refsOf h a). apply Permutation_refl.
Qed.

Lemma NoDup_firstVisits : forall l, NoDup (firstVisits [] l).
Proof.
  induction l as [|x l IH] using rev_ind; [constructor|].
  rewrite firstVisits_snoc. simpl.
  destruct (count_occ Nat.eq_dec l x =? 0)%nat eqn:C.
  - apply Nat.eqb_eq in C. apply NoDup_app; [exact IH | repeat constructor; auto |].
    intros a Ha [E|[]]. subst. apply In_firstVisits in Ha. lia.
  - now rewrite app_nil_r.
Qed.

Lemma inspectNode_visits :
  forall h fuel data objects dups,
    inspectNode fuel h data [] [] = Some (objects, dups) ->
    exists visits,
      objects = firstVisits [] visits /\ dups = secondVisits [] visits /\
      Permutation visits (refOf data ++ flat_map (refsOf h) objects).
Proof.
  intros h fuel data objects dups H.
  rewrite (inspectNodeVisits_erase h fuel data [] [] []) in H.
  destruct (inspectNodeVisits fuel h data [] [] []) as [[[o d] vis]|] eqn:E;
    [|discriminate H].
  inversion H; subst o d. exists vis.
  destruct (inspectNodeVisits_spec h fuel data [] _ _ _ E) as [Eo Ed].
  destruct (inspectNodeVisits_refs _ _ _ _ _ _ _ _ _ E) as [no [nv [Eo' [Ev P]]]].
  cbn [app] in Eo', Ev. subst no nv. auto.
Qed.

(** The pre-scan, from nothing: with fuel beyond the size of the store it
    returns; the array [objects] holds exactly the objects that the root
    contains, directly or not, each once; and the duplicates are exactly
    the objects that are referred to twice or more, counting the root and
    every entry of an object in [objects]. *)
Theorem prescan_finds_shared_objects :
  forall h data,
    (forall fuel,
       (S (List.length h) <= fuel)%nat ->
       exists objects dups, inspectNode fuel h data [] [] = Some (objects, dups)) /\
    (forall fuel objects dups,
       inspectNode fuel h data [] [] = Some (objects, dups) ->
       NoDup objects /\
       (forall a, In a objects <-> reachable h data a) /\
       (forall a, In a dups <-> (2 <= references h data objects a)%nat)).
Proof.
  intros h data.
  destruct (inspectNode_from_empty h data) as [o0 [d0 [F [St [Rt [N J]]]]]].
  split.
  - intros fuel L. exists o0, d0. now apply F.
  - intros fuel objects dups H.
    assert (E : objects = o0 /\ dups = d0).
    { pose proof (inspectNode_more_fuel h fuel (Nat.max fuel (S (List.length h)))
                    data [] [] _ H (Nat.le_max_l _ _)) as H1.
      rewrite (F _ (Nat.le_max_r _ _)) in H1. inversion H1. auto. }
    destruct E; subst o0 d0.
    split; [exact N|]. split.
    + intros a. split.
      * intros I. destruct (inspectNode_reach h fuel data [] [] _ _ H a I) as [[]|R].
        exact R.
      * apply (reachable_seen h data objects dups St Rt).
    + intros a. destruct (inspectNode_visits h fuel data objects dups H)
        as [vis [Eo [Ed P]]].
      rewrite Ed, In_secondVisits. unfold references.
      rewrite (Permutation_count_occ Nat.eq_dec) in P. rewrite (P a). reflexivity.
Qed.


(** ** Cycles without anchors *)

Lemma detectTypeLoop_rejected :
  forall this h explicit types v,
    (forall t, In t types -> accepts h t v = false) ->
    detectTypeLoop this h explicit types v = Ok None.
Proof.
  intros this h explicit types v. induction types as [|t0 types IH]; intros H;
    [reflexivity|].
  cbn [detectTypeLoop]. fold (accepts h t0 v). rewrite (H t0 (or_introl eq_refl)).
  apply IH. intros t Ht. apply H. now right.
Qed.

Lemma resolveType_plain :
  forall this h v,
    plainSchema this h ->
    isObject v = true \/ (exists s, v = VString s) ->
    resolveType this h v = Ok (None, v).
Proof.
  intros this h v P K. unfold resolveType, detectType.
  rewrite detectTypeLoop_rejected
    by (intros t Ht; apply P; [apply in_or_app; now left | exact K]).
  rewrite detectTypeLoop_rejected
    by (intros t Ht; apply P; [apply in_or_app; now right | exact K]).
  reflexivity.
Qed.

Lemma plainSchema_extends :
  forall this st h, extendsUsed this st -> plainSchema this h -> plainSchema st h.
Proof. intros this st h [u [E _]] P. subst st. exact P. Qed.

Lemma duplicates_extends :
  forall this st, extendsUsed this st -> duplicates st = duplicates this.
Proof. intros this st [u [E _]]. now subst st. Qed.

Lemma key_is_written :
  forall fuel h level k b1 b2 b3 st o st',
    plainSchema st h ->
    stringifyNode fuel h level (VString k) b1 b2 b3 st = Done o st' ->
    o <> None /\ st' = st.
Proof.
  intros [|fuel] h level k b1 b2 b3 st o st' P H; [discriminate H|].
  cbn [stringifyNode] in H.
  rewrite (body_string _ _ _ _ _ _ _ _ None k
             (resolveType_plain st h (VString k) P (or_intror (ex_intro _ k eq_refl))))
    in H.
  cbn [notQuestionTag] in H.
  destruct (stringifyScalar st k level b3); [|discriminate H].
  cbn [wrapTag realTag] in H. inversion H; subst. split; [discriminate | reflexivity].
Qed.

Lemma rendered_later :
  forall fuel h this st v, extendsUsed this st -> rendered fuel h st v -> rendered fuel h this v.
Proof.
  intros fuel h this st v X [level [b1 [b2 [b3 [st1 [o [st2 [X1 E]]]]]]]].
  exists level, b1, b2, b3, st1, o, st2. split; [|exact E].
  eapply extendsUsed_trans; eassumption.
Qed.

Lemma rendered_here :
  forall fuel h level v b1 b2 b3 st o st',
    stringifyNode fuel h level v b1 b2 b3 st = Done o st' -> rendered fuel h st v.
Proof.
  intros fuel h level v b1 b2 b3 st o st' E.
  exists level, b1, b2, b3, st, o, st'. split; [apply extendsUsed_refl | exact E].
Qed.

Lemma frame_of :
  forall fuel h level v b1 b2 b3 st o st',
    stringifyNode fuel h level v b1 b2 b3 st = Done o st' -> extendsUsed st st'.
Proof.
  intros fuel h level v b1 b2 b3 st o st' E.
  pose proof (stringifyNode_frame h fuel level v b1 b2 b3 st) as F.
  rewrite E in F. exact F.
Qed.

Lemma flowSequenceLoop_children :
  forall fuel h elems index level res st r st',
    flowSequenceLoop (stringifyNode fuel h) elems index level res st = Done r st' ->
    forall e, In e elems -> rendered fuel h st e.
Proof.
  intros fuel h. induction elems as [|x l IH]; intros index level res st r st' H e He;
    [contradiction|].
  cbn [flowSequenceLoop] in H.
  destruct (stringifyNode fuel h level x false false false st) as [[s|] st1| |] eqn:E;
    try discriminate H.
  - destruct He as [->|He]; [eapply rendered_here; exact E|].
    eapply rendered_later; [eapply frame_of; exact E | eapply IH; eassumption].
  - destruct He as [->|He]; [eapply rendered_here; exact E|].
    eapply rendered_later; [eapply frame_of; exact E | eapply IH; eassumption].
Qed.

Lemma blockSequenceLoop_children :
  forall fuel h elems index level compact res st r st',
    blockSequenceLoop (stringifyNode fuel h) elems index level compact res st =
      Done r st' ->
    forall e, In e elems -> rendered fuel h st e.
Proof.
  intros fuel h. induction elems as [|x l IH];
    intros index level compact res st r st' H e He; [contradiction|].
  cbn [blockSequenceLoop] in H.
  destruct (stringifyNode fuel h (level + 1) x true true false st) as [[s|] st1| |] eqn:E;
    try discriminate H.
  - destruct He as [->|He]; [eapply rendered_here; exact E|].
    eapply rendered_later; [eapply frame_of; exact E | eapply IH; eassumption].
  - destruct He as [->|He]; [eapply rendered_here; exact E|].
    eapply rendered_later; [eapply frame_of; exact E | eapply IH; eassumption].
Qed.

Lemma flowMappingLoop_children :
  forall fuel h object keys index level res st r st',
    plainSchema st h ->
    flowMappingLoop (stringifyNode fuel h) object keys index level res st = Done r st' ->
    forall k, In k keys -> rendered fuel h st (getProp object k).
Proof.
  intros fuel h object. induction keys as [|x l IH];
    intros index level res st r st' P H k Hk; [contradiction|].
  cbn [flowMappingLoop] in H. cbv zeta in H.
  destruct (stringifyNode fuel h level (VString x) false false false st)
    as [[ks|] st1| |] eqn:E; try discriminate H.
  2:{ exfalso. exact (proj1 (key_is_written _ _ _ _ _ _ _ _ _ _ P E) eq_refl). }
  destruct (key_is_written _ _ _ _ _ _ _ _ _ _ P E) as [_ ->].
  destruct (stringifyNode fuel h level (getProp object x) false false false st)
    as [[vs|] st2| |] eqn:E2; try discriminate H.
  - destruct Hk as [->|Hk]; [eapply rendered_here; exact E2|].
    pose proof (frame_of _ _ _ _ _ _ _ _ _ _ E2) as X.
    eapply rendered_later; [exact X|].
    eapply IH; [eapply plainSchema_extends; eassumption | exact H | exact Hk].
  - destruct Hk as [->|Hk]; [eapply rendered_here; exact E2|].
    pose proof (frame_of _ _ _ _ _ _ _ _ _ _ E2) as X.
    eapply rendered_later; [exact X|].
    eapply IH; [eapply plainSchema_extends; eassumption | exact H | exact Hk].
Qed.

Lemma blockMappingLoop_children :
  forall fuel h object tag keys index level compact res st r st',
    plainSchema st h ->
    blockMappingLoop (stringifyNode fuel h) object tag keys index level compact res st =
      Done r st' ->
    forall k, In k keys -> rendered fuel h st (getProp object k).
Proof.
  intros fuel h object tag. induction keys as [|x l IH];
    intros index level compact res st r st' P H k Hk; [contradiction|].
  cbn [blockMappingLoop] in H. cbv zeta in H.
  destruct (stringifyNode fuel h (level + 1) (VString x) true true true st)
    as [[ks|] st1| |] eqn:E; try discriminate H.
  2:{ exfalso. exact (proj1 (key_is_written _ _ _ _ _ _ _ _ _ _ P E) eq_refl). }
  destruct (key_is_written _ _ _ _ _ _ _ _ _ _ P E) as [_ ->].
  match type of H with
  | context [stringifyNode fuel h ?l ?v ?x1 ?x2 ?x3 st] =>
      destruct (stringifyNode fuel h l v x1 x2 x3 st) as [[vs|] st2| |] eqn:E2
  end; try discriminate H.
  - destruct Hk as [->|Hk]; [eapply rendered_here; exact E2|].
    pose proof (frame_of _ _ _ _ _ _ _ _ _ _ E2) as X.
    eapply rendered_later; [exact X|].
    eapply IH; [eapply plainSchema_extends; eassumption | exact H | exact Hk].
  - destruct Hk as [->|Hk]; [eapply rendered_here; exact E2|].
    pose proof (frame_of _ _ _ _ _ _ _ _ _ _ E2) as X.
    eapply rendered_later; [exact X|].
    eapply IH; [eapply plainSchema_extends; eassumption | exact H | exact Hk].
Qed.

Lemma getProp_NoDup :
  forall (props : list (jsstring * value)) k v,
    NoDup (map fst props) -> In (k, v) props -> getProp props k = v.
Proof.
  induction props as [|[k' v'] props IH]; intros k v N H; [contradiction|].
  unfold getProp. cbn [tableGet]. cbn [map fst] in N. inversion N as [|? ? N1 N2]; subst.
  destruct H as [H|H].
  - inversion H; subst. now rewrite jsstring_eqb_refl.
  - destruct (jsstring_eqb k' k) eqn:E.
    + apply jsstring_eqb_eq in E. subst k'. exfalso. apply N1.
      change k with (fst (k, v)). now apply in_map.
    + apply IH; assumption.
Qed.

Lemma wrapped_Done :
  forall tg d i sep (r : result jsstring) o st,
    wrapTag tg (withAnchor d i sep r) = Done o st -> exists x, r = Done x st.
Proof.
  intros tg d i sep [x st0| |] o st H; cbn [withAnchor wrapTag] in H;
    try discriminate H.
  inversion H; subst. now exists x.
Qed.

(** A call on an object that returns has called on every entry. *)
Lemma container_children :
  forall fuel h level a b1 b2 b3 st o st',
    distinctKeys h -> plainSchema st h -> duplicates st = [] ->
    stringifyNode (S fuel) h level (VRef a) b1 b2 b3 st = Done o st' ->
    forall b, child h a b -> rendered fuel h st (VRef b).
Proof.
  intros fuel h level a b1 b2 b3 st o st' K P D H b C.
  cbn [stringifyNode] in H.
  assert (ND : isDuplicate st a = false).
  { unfold isDuplicate. rewrite D. reflexivity. }
  rewrite (body_container _ _ _ _ _ _ _ _ None a
             (resolveType_plain st h (VRef a) P (or_introl eq_refl))) in H
    by (rewrite ND; reflexivity).
  unfold stringifyContainer in H.
  assert (M : markUsed st a = st) by (unfold markUsed; now rewrite ND).
  rewrite M in H. unfold child, entriesOf in C.
  destruct (deref h a) as [elems|props] eqn:Da.
  - destruct (blockAt st level b1 && _); apply wrapped_Done in H; destruct H as [x H].
    + unfold stringifyBlockSequence in H.
      destruct (blockSequenceLoop _ _ _ _ _ _ _) as [res st1| |] eqn:L;
        try discriminate H.
      eapply blockSequenceLoop_children; [exact L | exact C].
    + unfold stringifyFlowSequence in H.
      destruct (flowSequenceLoop _ _ _ _ _ _) as [res st1| |] eqn:L;
        try discriminate H.
      eapply flowSequenceLoop_children; [exact L | exact C].
  - apply in_map_iff in C. destruct C as [[k v] [Ev Hin]]. cbn [snd] in Ev. subst v.
    pose proof (getProp_NoDup props k (VRef b) (K a props Da) Hin) as G.
    assert (Hk : In k (map fst props)).
    { change k with (fst (k, VRef b)). now apply in_map. }
    rewrite <- G.
    destruct (blockAt st level b1 && _); apply wrapped_Done in H; destruct H as [x H].
    + unfold stringifyBlockMapping in H. cbv zeta in H.
      destruct (sortKeys st) as [[|]|cmp|[|]]; cbn iota in H; try discriminate H.
      * destruct (blockMappingLoop _ _ _ _ _ _ _ _ _) as [res st1| |] eqn:L;
          try discriminate H.
        eapply blockMappingLoop_children; [exact P | exact L |].
        eapply Permutation_in; [apply sortWith_Permutation | exact Hk].
      * destruct (blockMappingLoop _ _ _ _ _ _ _ _ _) as [res st1| |] eqn:L;
          try discriminate H.
        eapply blockMappingLoop_children; [exact P | exact L | exact Hk].
      * destruct (blockMappingLoop _ _ _ _ _ _ _ _ _) as [res st1| |] eqn:L;
          try discriminate H.
        eapply blockMappingLoop_children; [exact P | exact L |].
        eapply Permutation_in; [apply sortWith_Permutation | exact Hk].
      * destruct (blockMappingLoop _ _ _ _ _ _ _ _ _) as [res st1| |] eqn:L;
          try discriminate H.
        eapply blockMappingLoop_children; [exact P | exact L | exact Hk].
    + unfold stringifyFlowMapping in H.
      destruct (flowMappingLoop _ _ _ _ _ _ _) as [res st1| |] eqn:L;
        try discriminate H.
      eapply flowMappingLoop_children; [exact P | exact L | exact Hk].
Qed.

Lemma pathAvoiding_first :
  forall h a c,
    pathAvoiding h [] a c ->
    exists b, child h a b /\ (b = c \/ pathAvoiding h [] b c).
Proof.
  intros h a c P. induction P as [a c C N|a b' c P IH C N].
  - exists c. auto.
  - destruct IH as [b [Cb [->|Pb]]].
    + exists b'. split; [exact Cb|]. right. apply path_step; [exact C | intros []].
    + exists b. split; [exact Cb|]. right. eapply path_more; [exact Pb | exact C | intros []].
Qed.

Lemma onCycle_next :
  forall h a, onCycle h a -> exists b, child h a b /\ onCycle h b.
Proof.
  intros h a P. destruct (pathAvoiding_first h a a P) as [b [C [->|Pb]]].
  - exists a. auto.
  - exists b. split; [exact C|]. unfold onCycle.
    eapply path_more; [exact Pb | exact C | intros []].
Qed.

Lemma cycle_never_rendered :
  forall h,
    distinctKeys h ->
    forall fuel a this,
      plainSchema this h -> duplicates this = [] -> onCycle h a ->
      ~ rendered fuel h this (VRef a).
Proof.
  intros h K. induction fuel as [|fuel IH]; intros a this P D Cy
    [level [b1 [b2 [b3 [st [o [st' [X E]]]]]]]]; [discriminate E|].
  destruct (onCycle_next h a Cy) as [b [C Cb]].
  pose proof (plainSchema_extends _ _ h X P) as P1.
  pose proof (duplicates_extends _ _ X) as D1. rewrite D in D1.
  pose proof (container_children fuel h level a b1 b2 b3 st o st' K P1 D1 E b C) as R.
  exact (IH b st P1 D1 Cb R).
Qed.

Lemma reachable_rendered :
  forall h data,
    distinctKeys h ->
    forall a, reachable h data a ->
    forall fuel this,
      plainSchema this h -> duplicates this = [] ->
      rendered fuel h this data ->
      exists fuel', rendered fuel' h this (VRef a).
Proof.
  intros h data K a R. induction R as [a E|a b R IH C]; intros fuel this P D Rd.
  - subst data. now exists fuel.
  - destruct (IH fuel this P D Rd) as [f [level [b1 [b2 [b3 [st [o [st' [X E]]]]]]]]].
    destruct f as [|f]; [discriminate E|].
    pose proof (plainSchema_extends _ _ h X P) as P1.
    pose proof (duplicates_extends _ _ X) as D1. rewrite D in D1.
    exists f. eapply rendered_later; [exact X|].
    exact (container_children f h level a b1 b2 b3 st o st' K P1 D1 E b C).
Qed.

(** Without anchors a cycle is never written: when the root contains an
    object that lies on a cycle of containment, and the state holds no
    duplicates (as a fresh state with [useAnchors: false] does), no amount
    of fuel makes [stringify] return a document; the call ends in an error
    or not at all. *)
Theorem cycle_without_anchors_never_returns :
  forall fuel h data this a,
    distinctKeys h ->
    plainSchema this h ->
    useAnchors this = false ->
    duplicates this = [] ->
    reachable h data a ->
    onCycle h a ->
    forall out this', stringify fuel h data this <> Done out this'.
Proof.
  intros fuel h data this a K P UA D R Cy out this' H.
  unfold stringify in H. rewrite UA in H.
  destruct (stringifyNode fuel h 0 data true true false this) as [o st| |] eqn:E;
    try discriminate H.
  destruct (reachable_rendered h data K a R fuel this P D
              (rendered_here _ _ _ _ _ _ _ _ _ _ E)) as [f Rd].
  exact (cycle_never_rendered h K f a this P D Cy Rd).
Qed.

Lemma heapSelf_distinctKeys : distinctKeys heapSelf.
Proof.
  intros [|a] props E.
  - inversion E; subst. repeat constructor; simpl; intuition discriminate.
  - unfold deref, heapSelf in E. destruct a; inversion E; constructor.
Qed.

Lemma bareSchema_plain :
  forall o h, optSchema o = None -> plainSchema (newDumperState bareSchema o) h.
Proof.
  intros o h S t v Ht. cbn [newDumperState implicitTypes explicitTypes] in Ht.
  rewrite S in Ht. contradiction Ht.
Qed.

Lemma cycle_without_anchors_never_returns_witness :
  ~ exists out this',
      stringify 100 heapSelf (VRef 0) (newDumperState bareSchema (anchorOptions false))
      = Done out this'.
Proof.
  intros [out [this' E]].
  refine (cycle_without_anchors_never_returns 100 heapSelf (VRef 0)
            (newDumperState bareSchema (anchorOptions false)) 0%nat
            heapSelf_distinctKeys
            (bareSchema_plain (anchorOptions false) heapSelf eq_refl) eq_refl eq_refl
            (reach_root _ _ _ eq_refl) _ out this' E).
  apply path_step; [|intros []]. unfold child. simpl. now left.
Defined.


(** * The tar reader *)

Lemma indexOfZero_none :
  forall buffer i, Forall (fun b => b <> 0) buffer -> indexOfZero buffer i = -1.
Proof.
  induction buffer as [|b rest IH]; intros i H; [reflexivity|].
  inversion H; subst. cbn [indexOfZero].
  replace (b =? 0) with false by (symmetry; now apply Z.eqb_neq).
  now apply IH.
Qed.

Lemma indexOfZero_first :
  forall a c i,
    Forall (fun b => b <> 0) a ->
    indexOfZero (a ++ 0 :: c) i = i + Z.of_nat (List.length a).
Proof.
  induction a as [|b rest IH]; intros c i H.
  - cbn. lia.
  - inversion H; subst. cbn [app indexOfZero List.length].
    replace (b =? 0) with false by (symmetry; now apply Z.eqb_neq).
    rewrite IH by assumption. lia.
Qed.

(** [trim] cuts at the first zero byte, not only at trailing ones: of a
    buffer that holds a zero it keeps what stands before the first zero,
    whatever comes after it; a buffer without a zero is returned as it
    is. *)
Theorem trim_cuts_at_the_first_zero :
  forall a,
    Forall (fun b => b <> 0) a ->
    trim a = a /\ forall c, trim (a ++ 0 :: c) = a.
Proof.
  intros a H. unfold trim. split.
  - rewrite indexOfZero_none by exact H. reflexivity.
  - intros c. cbv zeta. rewrite indexOfZero_first by exact H.
    replace (0 + Z.of_nat (List.length a) =? -1) with false
      by (symmetry; apply Z.eqb_neq; lia).
    replace (Z.to_nat (0 + Z.of_nat (List.length a))) with (List.length a) by lia.
    rewrite firstn_app, Nat.sub_diag, firstn_all. cbn [firstn]. apply app_nil_r.
Qed.

Lemma trim_cuts_at_the_first_zero_witness :
  trim [104; 105] = [104; 105] /\ forall c, trim ([104; 105] ++ 0 :: c) = [104; 105].
Proof.
  apply trim_cuts_at_the_first_zero. repeat constructor; discriminate.
Defined.

Lemma strIndex_withChecksumField :
  forall header field i,
    (156 <= List.length header)%nat -> List.length field = 8%nat ->
    i < 148 \/ 156 <= i ->
    strIndex (withChecksumField header field) i = strIndex header i.
Proof.
  intros header field i L F R. unfold strIndex, withChecksumField.
  destruct (i <? 0) eqn:E; [reflexivity|]. apply Z.ltb_ge in E.
  assert (L1 : List.length (firstn 148 header) = 148%nat)
    by (rewrite length_firstn; lia).
  destruct R as [R|R].
  - rewrite nth_error_app1 by (rewrite L1; lia).
    rewrite nth_error_firstn.
    replace (Z.to_nat i <? 148)%nat with true by (symmetry; apply Nat.ltb_lt; lia).
    reflexivity.
  - rewrite nth_error_app2 by (rewrite L1; lia).
    rewrite nth_error_app2 by (rewrite L1, F; lia).
    rewrite nth_error_skipn. f_equal. rewrite L1, F. lia.
Qed.

Lemma checksumLoop_field :
  forall header field n i sum,
    (156 <= List.length header)%nat -> List.length field = 8%nat ->
    checksumLoop n i (withChecksumField header field) sum = checksumLoop n i header sum.
Proof.
  intros header field n. induction n as [|n IH]; intros i sum L F; [reflexivity|].
  cbn [checksumLoop]. destruct ((148 <=? i) && (i <? 156)) eqn:E.
  - now apply IH.
  - rewrite strIndex_withChecksumField; [now apply IH | exact L | exact F |].
    apply andb_false_iff in E. destruct E as [E|E];
      [apply Z.leb_gt in E | apply Z.ltb_ge in E]; lia.
Qed.

Lemma checksumLoop_zeros :
  forall k n i s,
    0 <= i -> (Z.to_nat i + n <= k)%nat ->
    checksumLoop n i (repeat 0 k) (Some s) = Some s.
Proof.
  intros k n. induction n as [|n IH]; intros i s Hi Hk; [reflexivity|].
  cbn [checksumLoop]. destruct ((148 <=? i) && (i <? 156)).
  - apply IH; lia.
  - unfold strIndex. replace (i <? 0) with false by (symmetry; apply Z.ltb_ge; lia).
    rewrite (nth_error_repeat 0) by lia. rewrite Z.add_0_r. apply IH; lia.
Qed.

(** The checksum of a header does not depend on the eight bytes of its
    checksum field, and a block of zero bytes, which marks the end of the
    archive, has the initial checksum 256. *)
Theorem checksum_skips_its_field :
  forall HEADER_LENGTH,
    (forall header field,
       (156 <= List.length header)%nat -> List.length field = 8%nat ->
       checksum HEADER_LENGTH (withChecksumField header field) =
       checksum HEADER_LENGTH header) /\
    (forall k,
       (Z.to_nat HEADER_LENGTH <= k)%nat ->
       checksum HEADER_LENGTH (repeat 0 k) = Some initialChecksum).
Proof.
  intros HL. split.
  - intros header field L F. unfold checksum. now apply checksumLoop_field.
  - intros k Hk. unfold checksum. apply checksumLoop_zeros; lia.
Qed.

(** The size that an entry takes in the archive is its file size rounded
    up to whole blocks: a multiple of the block length, not below the file
    size and less than one block above it; a missing file size counts as
    0. *)
Theorem entrySize_rounds_up_to_blocks :
  forall HEADER_LENGTH fileSize,
    0 < HEADER_LENGTH ->
    let size := match fileSize with Some n => n | None => 0 end in
    entrySize HEADER_LENGTH fileSize mod HEADER_LENGTH = 0 /\
    size <= entrySize HEADER_LENGTH fileSize < size + HEADER_LENGTH.
Proof.
  intros HL fileSize H size. unfold entrySize. fold size. cbv zeta. split.
  - apply Z.mod_mul. lia.
  - pose proof (Z.div_mod (- size) HL ltac:(lia)) as D.
    pose proof (Z.mod_pos_bound (- size) HL H) as B. nia.
Qed.

Lemma entrySize_rounds_up_to_blocks_witness :
  entrySize 512 (Some 1000) mod 512 = 0 /\
  1000 <= entrySize 512 (Some 1000) < 1000 + 512.
Proof. apply (entrySize_rounds_up_to_blocks 512 (Some 1000)). lia. Defined.


(** ** Containers of which nothing is left *)

Section AllSkipped.

Variable h : heap.
Variable fuel : nat.
Variable this : DumperState.

Hypothesis skipping : skipInvalid this = true.
Hypothesis plain : plainSchema this h.

Lemma key_written_here :
  forall level k b1 b2 b3,
    Forall isCodeUnit k ->
    exists text,
      stringifyNode (S fuel) h level (VString k) b1 b2 b3 this = Done (Some text) this.
Proof.
  intros level k b1 b2 b3 Hk. cbn [stringifyNode].
  rewrite (body_string _ _ _ _ _ _ _ _ None k
             (resolveType_plain this h (VString k) plain
                (or_intror (ex_intro _ k eq_refl)))).
  cbn [notQuestionTag].
  destruct (stringifyScalar_total this k level b3 Hk) as [text [E _]].
  rewrite E. exists text. reflexivity.
Qed.

Lemma skipped_here :
  forall level e b1 b2 b3,
    (exists tg rv, resolveType this h e = Ok (tg, rv) /\ unsupportedKind rv = true) ->
    stringifyNode (S fuel) h level e b1 b2 b3 this = Done None this.
Proof.
  intros level e b1 b2 b3 [tg [rv [R U]]].
  rewrite (stringifyNode_unsupported _ _ _ _ _ _ _ _ _ _ R U). now rewrite skipping.
Qed.

Lemma flowSequenceLoop_skipped :
  forall elems index level res,
    (forall e, In e elems ->
       exists tg rv, resolveType this h e = Ok (tg, rv) /\ unsupportedKind rv = true) ->
    flowSequenceLoop (stringifyNode (S fuel) h) elems index level res this = Done res this.
Proof.
  induction elems as [|e l IH]; intros index level res H; [reflexivity|].
  cbn [flowSequenceLoop]. rewrite skipped_here by (apply H; now left).
  apply IH. intros e' He'. apply H. now right.
Qed.

Lemma blockSequenceLoop_skipped :
  forall elems index level compact res,
    (forall e, In e elems ->
       exists tg rv, resolveType this h e = Ok (tg, rv) /\ unsupportedKind rv = true) ->
    blockSequenceLoop (stringifyNode (S fuel) h) elems index level compact res this =
    Done res this.
Proof.
  induction elems as [|e l IH]; intros index level compact res H; [reflexivity|].
  cbn [blockSequenceLoop]. rewrite skipped_here by (apply H; now left).
  apply IH. intros e' He'. apply H. now right.
Qed.

Lemma flowMappingLoop_skipped :
  forall object keys index level res,
    (forall k, In k keys ->
       Forall isCodeUnit k /\
       exists tg rv,
         resolveType this h (getProp object k) = Ok (tg, rv) /\
         unsupportedKind rv = true) ->
    flowMappingLoop (stringifyNode (S fuel) h) object keys index level res this =
    Done res this.
Proof.
  induction keys as [|k l IH]; intros index level res H; [reflexivity|].
  cbn [flowMappingLoop]. cbv zeta.
  destruct (H k (or_introl eq_refl)) as [Hk Hv].
  destruct (key_written_here level k false false false Hk) as [text E]. rewrite E.
  rewrite skipped_here by exact Hv.
  apply IH. intros k' Hk'. apply H. now right.
Qed.

Lemma blockMappingLoop_skipped :
  forall object tag keys index level compact res,
    (forall k, In k keys ->
       Forall isCodeUnit k /\
       exists tg rv,
         resolveType this h (getProp object k) = Ok (tg, rv) /\
         unsupportedKind rv = true) ->
    blockMappingLoop (stringifyNode (S fuel) h) object tag keys index level compact res
      this = Done res this.
Proof.
  induction keys as [|k l IH]; intros index level compact res H; [reflexivity|].
  cbn [blockMappingLoop]. cbv zeta.
  destruct (H k (or_introl eq_refl)) as [Hk Hv].
  destruct (key_written_here (level + 1) k true true true Hk) as [text E]. rewrite E.
  rewrite skipped_here by exact Hv.
  apply IH. intros k' Hk'. apply H. now right.
Qed.

End AllSkipped.

(** With [skipInvalid], a sequence or mapping of which every entry is
    dropped is written as the empty container of its kind, [[]] or [{}],
    in block layout as in flow layout, and the state is not changed.  The
    object is not a duplicate, the schema leaves strings and objects to
    themselves, [sortKeys] is a boolean or a function, and the indent is 1
    or more, as the constructor sees to. *)
Theorem skipped_entries_leave_empty_brackets :
  forall fuel h level block compact isKey this a,
    1 <= indent this ->
    skipInvalid this = true ->
    plainSchema this h ->
    sortKeys this <> SortKeysOther true ->
    isDuplicate this a = false ->
    allUnsupported this h a ->
    keysAreCodeUnits h a ->
    stringifyNode (S (S fuel)) h level (VRef a) block compact isKey this =
    Done (Some (emptyBrackets h a)) this.
Proof.
  intros fuel h level block compact isKey this a _ Sk P SK ND AU KC.
  cbn [stringifyNode].
  rewrite (body_container _ _ _ _ _ _ _ _ None a
             (resolveType_plain this h (VRef a) P (or_introl eq_refl)))
    by (rewrite ND; reflexivity).
  unfold stringifyContainer, emptyBrackets.
  assert (M : markUsed this a = this) by (unfold markUsed; now rewrite ND).
  rewrite M, ND. unfold allUnsupported, keysAreCodeUnits, entriesOf in *.
  destruct (deref h a) as [elems|props] eqn:Da.
  - destruct (blockAt this level block && _).
    + unfold stringifyBlockSequence.
      rewrite (blockSequenceLoop_skipped h fuel this Sk) by exact AU. reflexivity.
    + unfold stringifyFlowSequence.
      rewrite (flowSequenceLoop_skipped h fuel this Sk) by exact AU. reflexivity.
  - assert (K : forall keys, (forall k, In k keys -> In k (map fst props)) ->
              forall k, In k keys ->
                Forall isCodeUnit k /\
                exists tg rv,
                  resolveType this h (getProp props k) = Ok (tg, rv) /\
                  unsupportedKind rv = true).
    { intros keys Sub k Hk. split.
      - exact (proj1 (Forall_forall _ _) (KC props eq_refl) k (Sub k Hk)).
      - apply AU. apply getProp_In. now apply Sub. }
    destruct (blockAt this level block && _).
    + unfold stringifyBlockMapping. cbv zeta.
      destruct (sortKeys this) as [[|]|cmp|[|]]; cbn iota.
      * rewrite (blockMappingLoop_skipped h fuel this Sk P)
          by (apply K; intros k Hk; eapply sortWith_In; exact Hk).
        reflexivity.
      * rewrite (blockMappingLoop_skipped h fuel this Sk P)
          by (apply K; intros k Hk; exact Hk).
        reflexivity.
      * rewrite (blockMappingLoop_skipped h fuel this Sk P)
          by (apply K; intros k Hk; eapply sortWith_In; exact Hk).
        reflexivity.
      * exfalso. now apply SK.
      * rewrite (blockMappingLoop_skipped h fuel this Sk P)
          by (apply K; intros k Hk; exact Hk).
        reflexivity.
    + unfold stringifyFlowMapping.
      rewrite (flowMappingLoop_skipped h fuel this Sk P)
        by (apply K; intros k Hk; exact Hk).
      reflexivity.
Qed.

Lemma skipped_entries_leave_empty_brackets_witness :
  stringifyNode 2 heapOnlyFunctions 0 (VRef 0) true true false
    (newDumperState bareSchema (skipOptions true)) =
  Done (Some (emptyBrackets heapOnlyFunctions 0))
       (newDumperState bareSchema (skipOptions true)).
Proof.
  apply (skipped_entries_leave_empty_brackets 0 heapOnlyFunctions 0 true true false
           (newDumperState bareSchema (skipOptions true)) 0%nat).
  - vm_compute. discriminate.
  - reflexivity.
  - apply bareSchema_plain. reflexivity.
  - discriminate.
  - reflexivity.
  - intros e He. simpl in He. destruct He as [<-|[<-|[]]];
      exists None, VFunction; split; reflexivity.
  - intros props E. discriminate E.
Defined.


(** *** [condenseFlow] in block layout *)

Section CondenseBlock.

Variable c : bool.
Variables rec rec' : nodeRenderer.

(** [rec'] is [rec] run with [condenseFlow] set to [c], on the calls that
    the block methods make while no flow level is set. *)
Hypothesis rec_condense :
  forall level v b2 b3 this,
    flowLevel this < 0 ->
    rec' level v true b2 b3 (setCondenseFlow this c) =
    mapState (fun st => setCondenseFlow st c) (rec level v true b2 b3 this).

Hypothesis rec_flowLevel :
  forall level v b1 b2 b3 this o st,
    rec level v b1 b2 b3 this = Done o st -> flowLevel st = flowLevel this.

Lemma blockSequenceLoop_condense :
  forall elems index level compact res this,
    flowLevel this < 0 ->
    blockSequenceLoop rec' elems index level compact res (setCondenseFlow this c) =
    mapState (fun st => setCondenseFlow st c)
      (blockSequenceLoop rec elems index level compact res this).
Proof.
  induction elems as [|e l IH]; intros index level compact res this F; simpl;
    [reflexivity|].
  rewrite rec_condense by exact F.
  destruct (rec (level + 1) e true true false this) as [[x|] st| |] eqn:E; simpl;
    try reflexivity;
    apply IH; rewrite (rec_flowLevel _ _ _ _ _ _ _ _ E); exact F.
Qed.

Lemma blockMappingLoop_condense :
  forall object tag keys index level compact res this,
    flowLevel this < 0 ->
    blockMappingLoop rec' object tag keys index level compact res
      (setCondenseFlow this c) =
    mapState (fun st => setCondenseFlow st c)
      (blockMappingLoop rec object tag keys index level compact res this).
Proof.
  induction keys as [|k l IH]; intros index level compact res this F; simpl;
    [reflexivity|].
  rewrite rec_condense by exact F.
  destruct (rec (level + 1) (VString k) true true true this) as [[x|] st| |] eqn:E;
    simpl; try reflexivity.
  - pose proof (rec_flowLevel _ _ _ _ _ _ _ _ E) as F1.
    rewrite rec_condense by (rewrite F1; exact F).
    match goal with
    | |- context [rec ?lv ?v ?x1 ?x2 ?x3 st] =>
        destruct (rec lv v x1 x2 x3 st) as [[y|] st'| |] eqn:E2
    end; simpl; try reflexivity;
      apply IH; rewrite (rec_flowLevel _ _ _ _ _ _ _ _ E2), F1; exact F.
  - apply IH. rewrite (rec_flowLevel _ _ _ _ _ _ _ _ E). exact F.
Qed.

Lemma stringifyBlockSequence_condense :
  forall elems level compact this,
    flowLevel this < 0 ->
    stringifyBlockSequence rec' elems level compact (setCondenseFlow this c) =
    mapState (fun st => setCondenseFlow st c)
      (stringifyBlockSequence rec elems level compact this).
Proof.
  intros elems level compact this F. unfold stringifyBlockSequence.
  rewrite blockSequenceLoop_condense by exact F.
  destruct (blockSequenceLoop rec elems 0 level compact [] this) as [[|x s] st| |];
    reflexivity.
Qed.

Lemma stringifyBlockMapping_condense :
  forall object tag level compact this,
    flowLevel this < 0 ->
    stringifyBlockMapping rec' object tag level compact (setCondenseFlow this c) =
    mapState (fun st => setCondenseFlow st c)
      (stringifyBlockMapping rec object tag level compact this).
Proof.
  intros object tg level compact this F. unfold stringifyBlockMapping.
  change (sortKeys (setCondenseFlow this c)) with (sortKeys this).
  destruct (match sortKeys this with
            | SortKeysBool true => _ | SortKeysFn cmp => _
            | SortKeysOther true => _ | _ => _ end) as [keys|e]; [|reflexivity].
  rewrite blockMappingLoop_condense by exact F.
  destruct (blockMappingLoop rec object tg keys 0 level compact [] this)
    as [[|x s] st| |]; reflexivity.
Qed.

Lemma markUsed_setCondenseFlow :
  forall this a,
    markUsed (setCondenseFlow this c) a = setCondenseFlow (markUsed this a) c.
Proof.
  intros this a. unfold markUsed.
  change (isDuplicate (setCondenseFlow this c) a) with (isDuplicate this a).
  destruct (isDuplicate this a); reflexivity.
Qed.

Lemma markUsed_flowLevel :
  forall this a, flowLevel (markUsed this a) = flowLevel this.
Proof. intros this a. unfold markUsed. destruct (isDuplicate this a); reflexivity. Qed.

Lemma stringifyNodeBody_condense :
  forall h level object compact isKey this,
    flowLevel this < 0 ->
    stringifyNodeBody rec' h level object true compact isKey (setCondenseFlow this c) =
    mapState (fun st => setCondenseFlow st c)
      (stringifyNodeBody rec h level object true compact isKey this).
Proof.
  intros h level object compact isKey this F.
  pose proof (resolveType_ext (setCondenseFlow this c) this h object
                eq_refl eq_refl eq_refl) as E.
  destruct (resolveType this h object) as [[tg v]|e] eqn:R.
  2:{ rewrite (body_throw _ _ _ _ _ _ _ _ _ E), (body_throw _ _ _ _ _ _ _ _ _ R).
      reflexivity. }
  destruct v.
  1-4, 6:
    rewrite (body_unsupported _ _ _ _ _ _ _ _ _ _ E eq_refl),
            (body_unsupported _ _ _ _ _ _ _ _ _ _ R eq_refl);
    change (skipInvalid (setCondenseFlow this c)) with (skipInvalid this);
    destruct (skipInvalid this); reflexivity.
  - rewrite (body_string _ _ _ _ _ _ _ _ _ _ E), (body_string _ _ _ _ _ _ _ _ _ _ R).
    change (stringifyScalar (setCondenseFlow this c) s level isKey)
      with (stringifyScalar this s level isKey).
    destruct (notQuestionTag tg); [|reflexivity].
    destruct (stringifyScalar this s level isKey); reflexivity.
  - destruct (isDuplicate this a && includes (usedDuplicates this) a) eqn:A.
    + apply andb_true_iff in A. destruct A as [A1 A2].
      rewrite (body_alias _ _ _ _ _ _ _ _ _ _ E A1 A2),
              (body_alias _ _ _ _ _ _ _ _ _ _ R A1 A2).
      reflexivity.
    + rewrite (body_container _ _ _ _ _ _ _ _ _ _ E A),
              (body_container _ _ _ _ _ _ _ _ _ _ R A).
      unfold stringifyContainer. rewrite markUsed_setCondenseFlow.
      change (isDuplicate (setCondenseFlow this c) a) with (isDuplicate this a).
      change (duplicates (setCondenseFlow this c)) with (duplicates this).
      change (blockAt (setCondenseFlow this c) level true) with (blockAt this level true).
      change (compactAt (setCondenseFlow this c)) with (compactAt this).
      change (arrayLevel (setCondenseFlow this c) level) with (arrayLevel this level).
      assert (B : blockAt this level true = true).
      { unfold blockAt. replace (flowLevel this <? 0) with true
          by (symmetry; apply Z.ltb_lt; exact F). reflexivity. }
      rewrite B. cbn [andb].
      pose proof (markUsed_flowLevel this a) as FM.
      destruct (deref h a) as [elems|props].
      * destruct elems as [|e0 elems]; [reflexivity|].
        cbn [List.length Nat.eqb negb].
        rewrite stringifyBlockSequence_condense by (rewrite FM; exact F).
        rewrite withAnchor_mapState, wrapTag_mapState. reflexivity.
      * destruct props as [|p0 props]; [reflexivity|].
        cbn [map List.length Nat.eqb negb].
        rewrite stringifyBlockMapping_condense by (rewrite FM; exact F).
        rewrite withAnchor_mapState, wrapTag_mapState. reflexivity.
Qed.

End CondenseBlock.

Lemma stringifyNode_flowLevel :
  forall fuel h level v b1 b2 b3 this o st,
    stringifyNode fuel h level v b1 b2 b3 this = Done o st ->
    flowLevel st = flowLevel this.
Proof.
  intros fuel h level v b1 b2 b3 this o st E.
  pose proof (stringifyNode_frame h fuel level v b1 b2 b3 this) as F.
  rewrite E in F. destruct F as [u [Eu _]]. now subst st.
Qed.

Lemma stringifyNode_condense :
  forall h c fuel level v compact isKey this,
    flowLevel this < 0 ->
    stringifyNode fuel h level v true compact isKey (setCondenseFlow this c) =
    mapState (fun st => setCondenseFlow st c)
      (stringifyNode fuel h level v true compact isKey this).
Proof.
  intros h c. induction fuel as [|fuel IH]; intros level v compact isKey this F;
    [reflexivity|].
  cbn [stringifyNode]. apply stringifyNodeBody_condense; [| |exact F].
  - intros level' v' b2 b3 st F'. now apply IH.
  - intros level' v' b1 b2 b3 st o st' E.
    exact (stringifyNode_flowLevel _ _ _ _ _ _ _ _ _ _ E).
Qed.

(** Block layout never reads [condenseFlow]: while [flowLevel] is negative
    a document is the same under both values of the option; the empty
    containers, which are written in flow layout, have nothing to
    condense. *)
Theorem condenseFlow_is_not_read_in_block_layout :
  forall fuel h data this c,
    flowLevel this < 0 ->
    stringify fuel h data (setCondenseFlow this c) =
    mapState (fun st => setCondenseFlow st c) (stringify fuel h data this).
Proof.
  intros fuel h data this c FL. unfold stringify.
  change (useAnchors (setCondenseFlow this c)) with (useAnchors this).
  destruct (useAnchors this).
  - unfold getDuplicateReferences.
    destruct (inspectNode fuel h data [] []) as [[objects dups]|]; [|reflexivity].
    change (setUsedDuplicates
              (setDuplicates (setCondenseFlow this c)
                 (duplicates (setCondenseFlow this c) ++ dups)) [])
      with (setCondenseFlow
              (setUsedDuplicates (setDuplicates this (duplicates this ++ dups)) []) c).
    rewrite stringifyNode_condense by exact FL.
    destruct (stringifyNode fuel h 0 data true true false _) as [[x|] st| |];
      reflexivity.
  - rewrite stringifyNode_condense by exact FL.
    destruct (stringifyNode fuel h 0 data true true false this) as [[x|] st| |];
      reflexivity.
Qed.

Lemma condenseFlow_is_not_read_in_block_layout_witness :
  stringify 3 heapTwoPairs (VRef 0)
    (setCondenseFlow (newDumperState bareSchema noOptions) true) =
  mapState (fun st => setCondenseFlow st true)
    (stringify 3 heapTwoPairs (VRef 0) (newDumperState bareSchema noOptions)).
Proof.
  apply condenseFlow_is_not_read_in_block_layout. vm_compute. reflexivity.
Defined.


(** ** The width of folded lines *)

Lemma strlen_slice : forall line s e, strlen (slice line s e) <= Z.max 0 (e - s).
Proof.
  intros line s e. unfold strlen, slice. rewrite length_firstn. lia.
Qed.

Lemma strIndex_slice :
  forall line s e i,
    0 <= s -> 0 <= i < e - s ->
    strIndex (slice line s e) i = strIndex line (s + i).
Proof.
  intros line s e i Hs Hi. unfold strIndex, slice.
  replace (i <? 0) with false by (symmetry; apply Z.ltb_ge; lia).
  replace (s + i <? 0) with false by (symmetry; apply Z.ltb_ge; lia).
  rewrite nth_error_firstn.
  replace (Z.to_nat i <? Z.to_nat (e - s))%nat with true
    by (symmetry; apply Nat.ltb_lt; lia).
  rewrite nth_error_skipn. f_equal. lia.
Qed.

Lemma sliceFrom_slice :
  forall line s, sliceFrom line s = slice line s (Z.max s (strlen line)).
Proof.
  intros line s. unfold sliceFrom, slice. symmetry. apply firstn_all2.
  rewrite length_skipn. unfold strlen. lia.
Qed.

Lemma slice_unbreakable :
  forall line s e,
    0 <= s ->
    strIndex line s <> Some SPACE ->
    (forall m, s < m < e -> ~ validBreak line m) ->
    unbreakable (slice line s e).
Proof.
  intros line s e Hs H0 H m [V1 [x [V2 Nx]]].
  pose proof (strIndex_Some _ _ _ V1) as [B1 _].
  pose proof (strIndex_Some _ _ _ V2) as [B2 _].
  pose proof (strlen_slice line s e) as L.
  rewrite strIndex_slice in V1 by lia. rewrite strIndex_slice in V2 by lia.
  destruct (Z.eq_dec m 0) as [->|Nz].
  - rewrite Z.add_0_r in V1. contradiction.
  - apply (H (s + m)); [lia|]. split; [exact V1|]. exists x.
    rewrite <- Z.add_assoc. auto.
Qed.

Lemma slice_fits :
  forall line s e width, s <= e -> e - s <= width -> strlen (slice line s e) <= width.
Proof. intros line s e width H1 H2. pose proof (strlen_slice line s e). lia. Qed.

Lemma breakIndices_complete :
  forall chars pre m,
    validBreak (pre ++ chars) m -> strlen pre <= m ->
    In m (breakIndices chars (strlen pre)).
Proof.
  induction chars as [|c rest IH]; intros pre m [V1 [x [V2 Nx]]] Hm.
  - exfalso. rewrite app_nil_r in V1. apply strIndex_Some in V1. lia.
  - assert (Step : strlen pre < m -> In m (breakIndices rest (strlen pre + 1))).
    { intros Hlt. specialize (IH (pre ++ [c]) m).
      rewrite <- app_assoc in IH. cbn [app] in IH. unfold strlen in *.
      rewrite length_app in IH. cbn [List.length] in IH.
      replace (Z.of_nat (List.length pre + 1)) with (Z.of_nat (List.length pre) + 1)
        in IH by lia.
      apply IH; [|lia]. split; [exact V1|]. exists x. auto. }
    cbn [breakIndices]. destruct rest as [|d rest'].
    + exfalso. apply strIndex_Some in V2. destruct V2 as [V2 _]. unfold strlen in *.
      rewrite length_app in V2. cbn [List.length] in V2. lia.
    + destruct (Z.eq_dec m (strlen pre)) as [->|N].
      * unfold strIndex, strlen in V1, V2.
        replace (Z.of_nat (List.length pre) <? 0) with false in V1
          by (symmetry; apply Z.ltb_ge; lia).
        replace (Z.of_nat (List.length pre) + 1 <? 0) with false in V2
          by (symmetry; apply Z.ltb_ge; lia).
        rewrite Nat2Z.id in V1.
        replace (Z.to_nat (Z.of_nat (List.length pre) + 1)) with (S (List.length pre))
          in V2 by lia.
        rewrite nth_error_app2 in V1 by lia. rewrite Nat.sub_diag in V1.
        rewrite nth_error_app2 in V2 by lia.
        replace (S (List.length pre) - List.length pre)%nat with 1%nat in V2 by lia.
        cbn in V1, V2. inversion V1; subst c. inversion V2; subst d.
        rewrite Z.eqb_refl.
        replace (x =? SPACE) with false by (symmetry; now apply Z.eqb_neq).
        cbn [andb negb]. now left.
      * destruct ((c =? SPACE) && negb (d =? SPACE)); [right|]; apply Step; lia.
Qed.

Lemma increasingFrom_above :
  forall ms lo m, increasingFrom lo ms -> In m ms -> lo < m.
Proof.
  induction ms as [|x ms IH]; intros lo m H Hm; [contradiction|].
  destruct H as [H1 H2]. destruct Hm as [->|Hm]; [exact H1|].
  specialize (IH x m H2 Hm). lia.
Qed.

(** The loop of [foldLine]: the lines pushed keep to the width or cannot
    be broken. *)
Lemma foldLineLoop_fits :
  forall line width ms start curr lines,
    Forall (fitsOrUnbreakable width) lines ->
    0 <= start <= curr + 1 ->
    start <= strlen line ->
    strIndex line start <> Some SPACE ->
    (forall m, validBreak line m -> m <= curr \/ In m ms) ->
    (start < curr ->
     validBreak line curr /\
     (curr - start <= width \/ forall m, start < m < curr -> ~ validBreak line m)) ->
    increasingFrom curr ms ->
    Forall (validBreak line) ms ->
    exists start' curr' lines',
      foldLineLoop line width ms start curr lines = (start', curr', lines') /\
      Forall (fitsOrUnbreakable width) lines' /\
      0 <= start' <= curr' + 1 /\
      start' <= strlen line /\
      strIndex line start' <> Some SPACE /\
      (forall m, validBreak line m -> m <= curr') /\
      (start' < curr' ->
       validBreak line curr' /\
       (curr' - start' <= width \/
        forall m, start' < m < curr' -> ~ validBreak line m)).
Proof.
  intros line width ms.
  induction ms as [|next more IH]; intros start curr lines FL Hs Hl H0 HC H4 Hi Hv.
  - exists start, curr, lines. cbn [foldLineLoop].
    split; [reflexivity|]. split; [exact FL|]. split; [exact Hs|].
    split; [exact Hl|]. split; [exact H0|]. split; [|exact H4].
    intros m Vm. destruct (HC m Vm) as [L|[]]. exact L.
  - cbn [foldLineLoop]. destruct Hi as [Hlt Hi].
    pose proof (Forall_inv Hv) as Vn. pose proof (Forall_inv_tail Hv) as Vm.
    assert (Gap : forall m, curr < m < next -> ~ validBreak line m).
    { intros m Hm V. destruct (HC m V) as [L|[E|I]]; [lia | lia |].
      pose proof (increasingFrom_above _ _ _ Hi I). lia. }
    assert (HC' : forall m, validBreak line m -> m <= next \/ In m more).
    { intros m V. destruct (HC m V) as [L|[E|I]]; [left; lia | left; lia | now right]. }
    assert (After : forall e, validBreak line e -> strIndex line (e + 1) <> Some SPACE).
    { intros e [_ [x [E Nx]]]. rewrite E. intros C. inversion C. contradiction. }
    assert (Inside : forall e, validBreak line e -> e + 1 <= strlen line).
    { intros e [_ [x [E _]]]. apply strIndex_Some in E. lia. }
    destruct (width <? next - start) eqn:W.
    + destruct (start <? curr) eqn:SC.
      * apply Z.ltb_lt in SC. destruct (H4 SC) as [Vc Fc].
        apply (IH (curr + 1) next (lines ++ [slice line start curr])).
        -- apply Forall_app. split; [exact FL|]. constructor; [|constructor].
           destruct Fc as [Fc|Fc].
           ++ left. apply slice_fits; lia.
           ++ right. apply slice_unbreakable; [lia | exact H0 | exact Fc].
        -- lia.
        -- now apply Inside.
        -- now apply After.
        -- exact HC'.
        -- intros _. split; [exact Vn|]. right. intros m Hm. apply Gap. lia.
        -- exact Hi.
        -- exact Vm.
      * apply Z.ltb_ge in SC.
        apply (IH (next + 1) next (lines ++ [slice line start next])).
        -- apply Forall_app. split; [exact FL|]. constructor; [|constructor].
           right. apply slice_unbreakable; [lia | exact H0 |].
           intros m Hm. apply Gap. lia.
        -- lia.
        -- now apply Inside.
        -- now apply After.
        -- exact HC'.
        -- intros C. lia.
        -- exact Hi.
        -- exact Vm.
    + apply Z.ltb_ge in W. apply (IH start next lines); try assumption.
      * lia.
      * intros _. split; [exact Vn|]. left. lia.
Qed.

Lemma foldLine_fits :
  forall line width,
    indexIs line 0 SPACE = false ->
    exists lines,
      foldLine line width = joinLF lines /\
      Forall (fitsOrUnbreakable width) lines.
Proof.
  intros line width H0. unfold foldLine.
  destruct line as [|c rest] eqn:EL.
  { exists [[]]. split; [reflexivity|]. constructor; [|constructor].
    right. intros m [V _]. apply strIndex_Some in V. unfold strlen in V. simpl in V. lia. }
  assert (NS : (c =? SPACE) = false).
  { unfold indexIs, strIndex in H0. cbn in H0. exact H0. }
  rewrite NS. rewrite <- EL in *.
  assert (S0 : strIndex line 0 <> Some SPACE).
  { subst line. unfold strIndex. cbn. intros C. inversion C. subst c. discriminate NS. }
  assert (Hinc : increasingFrom 0 (breakIndices line 0)).
  { subst line. cbn [breakIndices]. destruct rest as [|d rest']; [exact I|].
    rewrite NS. cbn [andb]. apply breakIndices_increasing. lia. }
  pose proof (breakIndices_valid [] line) as Hval. cbn [app] in Hval.
  change (strlen []) with 0 in Hval.
  assert (HC : forall m, validBreak line m -> m <= 0 \/ In m (breakIndices line 0)).
  { intros m V. right. apply (breakIndices_complete line [] m V).
    destruct V as [V _]. apply strIndex_Some in V. unfold strlen. simpl. lia. }
  destruct (foldLineLoop_fits line width (breakIndices line 0) 0 0 []
              (Forall_nil _) ltac:(lia) ltac:(unfold strlen; lia) S0 HC
              ltac:(intros C; lia) Hinc Hval)
    as [start [curr [lines [E [FL [Hs [Hl [Hst [Hall H4]]]]]]]]].
  rewrite E.
  assert (After : forall e, validBreak line e -> strIndex line (e + 1) <> Some SPACE).
  { intros e [_ [x [Ex Nx]]]. rewrite Ex. intros C. inversion C. contradiction. }
  destruct ((width <? strlen line - start) && (start <? curr)) eqn:C.
  - apply andb_true_iff in C. destruct C as [_ C]. apply Z.ltb_lt in C.
    destruct (H4 C) as [Vc Fc].
    exists (lines ++ [slice line start curr; sliceFrom line (curr + 1)]).
    split; [reflexivity|]. apply Forall_app. split; [exact FL|].
    constructor; [|constructor; [|constructor]].
    + destruct Fc as [Fc|Fc].
      * left. apply slice_fits; lia.
      * right. apply slice_unbreakable; [lia | exact Hst | exact Fc].
    + right. rewrite sliceFrom_slice. apply slice_unbreakable; [lia | now apply After |].
      intros m Hm V. specialize (Hall m V). lia.
  - exists (lines ++ [sliceFrom line start]). split; [reflexivity|].
    apply Forall_app. split; [exact FL|]. constructor; [|constructor].
    apply andb_false_iff in C. destruct C as [C|C].
    + apply Z.ltb_ge in C. left. unfold sliceFrom, strlen in *. rewrite length_skipn. lia.
    + apply Z.ltb_ge in C. right. rewrite sliceFrom_slice.
      apply slice_unbreakable; [lia | exact Hst |].
      intros m Hm V. specialize (Hall m V). lia.
Qed.

(** Folding is greedy and complete: of a line that does not start with a
    space, every line of the result keeps to the width, unless it has no
    place at all where it could be broken (no space followed by a
    character other than a space). *)
Theorem foldLine_lines_fit_or_cannot_break :
  forall line width,
    indexIs line 0 SPACE = false ->
    exists lines,
      foldLine line width = joinLF lines /\
      Forall (fitsOrUnbreakable width) lines.
Proof. exact foldLine_fits. Qed.

Lemma foldLine_lines_fit_or_cannot_break_witness :
  exists lines,
    foldLine (lit "aaa bbb ccccccccc dd") 7 = joinLF lines /\
    Forall (fitsOrUnbreakable 7) lines.
Proof.
  apply (foldLine_lines_fit_or_cannot_break (lit "aaa bbb ccccccccc dd") 7).
  reflexivity.
Defined.


(** ** Every anchor is written once *)

Lemma anchored_refl :
  forall st t, noMarks t = true -> anchored st t st.
Proof.
  intros st t T. exists []. rewrite app_nil_r, setUsedDuplicates_same.
  split; [reflexivity|]. split; [now apply noMarks_anchorsOf|].
  split; [constructor | intros a []].
Qed.

Lemma anchored_extends : forall s0 r s1, anchored s0 r s1 -> extendsUsed s0 s1.
Proof.
  intros s0 r s1 [added [E _]]. exists (usedDuplicates s0 ++ added).
  split; [exact E | apply incl_appl, incl_refl].
Qed.

Lemma anchored_trans :
  forall s0 r1 s1 r2 s2,
    anchored s0 r1 s1 -> anchored s1 r2 s2 -> anchored s0 (r1 ++ r2) s2.
Proof.
  intros s0 r1 s1 r2 s2 [a1 [E1 [A1 [N1 I1]]]] [a2 [E2 [A2 [N2 I2]]]].
  subst s1. cbn [usedDuplicates duplicates setUsedDuplicates] in *.
  exists (a1 ++ a2). split; [|split; [|split]].
  - rewrite E2, app_assoc. reflexivity.
  - now rewrite anchorsOf_app, map_app, A1, A2.
  - apply NoDup_app; [exact N1 | exact N2 |].
    intros a Ia Ja. destruct (I2 a Ja) as [_ C]. apply C.
    apply in_or_app. now right.
  - intros a Ia. apply in_app_or in Ia. destruct Ia as [Ia|Ia]; [now apply I1|].
    destruct (I2 a Ia) as [D C]. split; [exact D|].
    intros U. apply C. apply in_or_app. now left.
Qed.

Lemma anchored_step :
  forall s0 res st t segs st',
    anchored s0 res st -> anchored st segs st' -> noMarks t = true ->
    anchored s0 (res ++ t ++ segs) st'.
Proof.
  intros s0 res st t segs st' A B T.
  eapply anchored_trans; [exact A|].
  eapply anchored_trans; [apply anchored_refl; exact T | exact B].
Qed.

Lemma anchored_wrap :
  forall s0 res st t1 t2,
    anchored s0 res st -> noMarks t1 = true -> noMarks t2 = true ->
    anchored s0 (t1 ++ res ++ t2) st.
Proof.
  intros s0 res st t1 t2 A T1 T2.
  eapply anchored_trans; [apply anchored_refl; exact T1|].
  eapply anchored_trans; [exact A | apply anchored_refl; exact T2].
Qed.

Lemma anchored_orText :
  forall s0 res st s, anchored s0 res st -> anchored s0 (orText res s) st.
Proof.
  intros s0 res st s A. unfold orText.
  destruct (textOf res) eqn:E; [|exact A].
  destruct A as [added [Ea [Aa [N I]]]].
  rewrite (textOf_empty_anchorsOf res E) in Aa.
  exists added. repeat split; try assumption; apply I; assumption.
Qed.

Lemma anchored_cons_text :
  forall s0 t r s1, anchored s0 r s1 -> anchored s0 (Text t :: r) s1.
Proof.
  intros s0 t r s1 A. change (Text t :: r) with ([Text t] ++ r).
  eapply anchored_trans; [apply anchored_refl; reflexivity | exact A].
Qed.

Section OnceLoops.

Variable recM : markedRenderer.
Variable dups : list nat.

Hypothesis rec_once :
  forall level v b1 b2 b3 st,
    renderReady dups st ->
    outcomeSat True (nodeAnchored v st) (recM level v b1 b2 b3 st).

Variable this0 : DumperState.
Hypothesis ready0 : renderReady dups this0.

Lemma anchored_ready : forall res st, anchored this0 res st -> renderReady dups st.
Proof.
  intros res st A. eapply renderReady_extends; [exact ready0|].
  eapply anchored_extends; exact A.
Qed.

Lemma flowSequenceLoopMarked_once :
  forall elems index level res st,
    anchored this0 res st ->
    outcomeSat True (fun res' st' => anchored this0 res' st')
      (flowSequenceLoopMarked recM elems index level res st).
Proof.
  induction elems as [|e l IH]; intros index level res st M; simpl; [exact M|].
  pose proof (rec_once level e false false false st (anchored_ready res st M)) as H.
  destruct (recM level e false false false st) as [[segs|] st'| |]; simpl in *;
    try exact I.
  - apply IH. destruct H as [H _]. destruct (negb (index =? 0)).
    + rewrite <- app_assoc. eapply anchored_step; [exact M | exact H | reflexivity].
    + apply (anchored_step this0 res st [] segs st' M H eq_refl).
  - subst st'. apply IH. exact M.
Qed.

Lemma blockSequenceLoopMarked_once :
  forall elems index level compact res st,
    anchored this0 res st ->
    outcomeSat True (fun res' st' => anchored this0 res' st')
      (blockSequenceLoopMarked recM elems index level compact res st).
Proof.
  induction elems as [|e l IH]; intros index level compact res st M; simpl;
    [exact M|].
  pose proof (rec_once (level + 1) e true true false st (anchored_ready res st M)) as H.
  destruct (recM (level + 1) e true true false st) as [[segs|] st'| |]; simpl in *;
    try exact I.
  - apply IH. destruct H as [H _].
    destruct (negb compact || negb (index =? 0));
      destruct (indexIs (textOf segs) 0 LINE_FEED);
      repeat rewrite <- app_assoc;
      (eapply anchored_step; [exact M | exact H | reflexivity]).
  - subst st'. apply IH. exact M.
Qed.

Lemma flowMappingLoopMarked_once :
  forall object keys index level res st,
    anchored this0 res st ->
    outcomeSat True (fun res' st' => anchored this0 res' st')
      (flowMappingLoopMarked recM object keys index level res st).
Proof.
  intros object. induction keys as [|k l IH]; intros index level res st M; simpl;
    [exact M|].
  pose proof (rec_once level (VString k) false false false st
                (anchored_ready res st M)) as Hk.
  destruct (recM level (VString k) false false false st) as [[ks|] st1| |];
    simpl in *; try exact I.
  - destruct Hk as [_ Hk]. destruct (Hk eq_refl) as [Tk Ek]. subst st1.
    pose proof (rec_once level (getProp object k) false false false st
                  (anchored_ready res st M)) as Hv.
    destruct (recM level (getProp object k) false false false st)
      as [[vs|] st2| |]; simpl in *; try exact I.
    + apply IH. destruct Hv as [Hv _]. eapply anchored_step; [exact M | exact Hv |].
      destruct (negb (index =? 0)); destruct (1024 <? strlen (textOf ks));
        rewrite !noMarks_app, Tk; reflexivity.
    + subst st2. apply IH. exact M.
  - subst st1. apply IH. exact M.
Qed.

Lemma blockMappingLoopMarked_once :
  forall object tg keys index level compact res st,
    anchored this0 res st ->
    outcomeSat True (fun res' st' => anchored this0 res' st')
      (blockMappingLoopMarked recM object tg keys index level compact res st).
Proof.
  intros object tg. induction keys as [|k l IH];
    intros index level compact res st M; simpl; [exact M|].
  pose proof (rec_once (level + 1) (VString k) true true true st
                (anchored_ready res st M)) as Hk.
  destruct (recM (level + 1) (VString k) true true true st) as [[ks|] st1| |];
    simpl in *; try exact I.
  - destruct Hk as [_ Hk]. destruct (Hk eq_refl) as [Tk Ek]. subst st1.
    match goal with
    | |- context [recM ?lv ?v ?x ?y ?z st] =>
        pose proof (rec_once lv v x y z st (anchored_ready res st M)) as Hv;
        destruct (recM lv v x y z st) as [[vs|] st2| |]
    end; simpl in *; try exact I.
    + apply IH. destruct Hv as [Hv _]. eapply anchored_step; [exact M | exact Hv |].
      destruct (negb compact || negb (index =? 0));
        destruct (match tg with
                  | Some t => negb (jsstring_eqb t (lit "?"))
                  | None => false
                  end || (1024 <? strlen (textOf ks)));
        destruct (indexIs (textOf ks) 0 LINE_FEED);
        destruct (indexIs (textOf vs) 0 LINE_FEED);
        rewrite !noMarks_app, Tk; reflexivity.
    + subst st2. apply IH. exact M.
  - subst st1. apply IH. exact M.
Qed.

Lemma stringifyFlowSequenceMarked_once :
  forall object level,
    outcomeSat True (fun segs st' => anchored this0 segs st')
      (stringifyFlowSequenceMarked recM object level this0).
Proof.
  intros object level. unfold stringifyFlowSequenceMarked.
  pose proof (flowSequenceLoopMarked_once object 0 level [] this0
                (anchored_refl this0 [] eq_refl)) as H.
  destruct (flowSequenceLoopMarked recM object 0 level [] this0) as [res st| |];
    simpl in *; try exact I.
  apply (anchored_wrap this0 res st [Text (lit "[")] [Text (lit "]")]); auto.
Qed.

Lemma stringifyBlockSequenceMarked_once :
  forall object level compact,
    outcomeSat True (fun segs st' => anchored this0 segs st')
      (stringifyBlockSequenceMarked recM object level compact this0).
Proof.
  intros object level compact. unfold stringifyBlockSequenceMarked.
  pose proof (blockSequenceLoopMarked_once object 0 level compact [] this0
                (anchored_refl this0 [] eq_refl)) as H.
  destruct (blockSequenceLoopMarked recM object 0 level compact [] this0)
    as [res st| |]; simpl in *; try exact I.
  apply anchored_orText. exact H.
Qed.

Lemma stringifyFlowMappingMarked_once :
  forall object level,
    outcomeSat True (fun segs st' => anchored this0 segs st')
      (stringifyFlowMappingMarked recM object level this0).
Proof.
  intros object level. unfold stringifyFlowMappingMarked.
  pose proof (flowMappingLoopMarked_once object (map fst object) 0 level [] this0
                (anchored_refl this0 [] eq_refl)) as H.
  destruct (flowMappingLoopMarked recM object (map fst object) 0 level [] this0)
    as [res st| |]; simpl in *; try exact I.
  apply (anchored_wrap this0 res st [Text (lit "{")] [Text (lit "}")]); auto.
Qed.

Lemma stringifyBlockMappingMarked_once :
  forall object tg level compact,
    outcomeSat True (fun segs st' => anchored this0 segs st')
      (stringifyBlockMappingMarked recM object tg level compact this0).
Proof.
  intros object tg level compact. unfold stringifyBlockMappingMarked.
  destruct (match sortKeys this0 with
            | SortKeysBool true => _ | SortKeysFn c => _
            | SortKeysOther true => _ | _ => _ end) as [keys|e]; [|exact I].
  pose proof (blockMappingLoopMarked_once object tg keys 0 level compact [] this0
                (anchored_refl this0 [] eq_refl)) as H.
  destruct (blockMappingLoopMarked recM object tg keys 0 level compact [] this0)
    as [res st| |]; simpl in *; try exact I.
  apply anchored_orText. exact H.
Qed.

End OnceLoops.

(** The anchor and the tag before the text of a container. *)
Lemma withAnchorMarked_once :
  forall st tg a sep v r,
    isDuplicate st a = true -> includes (usedDuplicates st) a = false ->
    outcomeSat True
      (fun segs st' =>
         anchored (setUsedDuplicates st (setAdd (usedDuplicates st) a)) segs st') r ->
    isObject v = true ->
    outcomeSat True (nodeAnchored v st)
      (wrapTagMarked tg (withAnchorMarked true (indexOf (duplicates st) a) sep r)).
Proof.
  intros st tg a sep v r Dp Us H Ov.
  destruct r as [segs st'| |];
    cbn [withAnchorMarked wrapTagMarked outcomeSat nodeAnchored] in *; try exact I.
  split; [|intros C; congruence].
  destruct H as [added [E [A [N In']]]].
  cbn [usedDuplicates duplicates setUsedDuplicates] in *.
  assert (SA : setAdd (usedDuplicates st) a = usedDuplicates st ++ [a])
    by (unfold setAdd; now rewrite Us).
  rewrite SA in *.
  assert (Body : anchored st
                   (Anchor (indexOf (duplicates st) a) :: Text sep :: segs) st').
  { exists (a :: added). split; [|split; [|split]].
    - rewrite E, <- app_assoc. reflexivity.
    - cbn [anchorsOf map]. now rewrite A.
    - constructor; [|exact N]. intros C. destruct (In' a C) as [_ C'].
      apply C'. apply in_or_app. right. now left.
    - intros b [<-|Ib].
      + split; [now apply isDuplicate_In | now apply includes_false].
      + destruct (In' b Ib) as [D C]. split; [exact D|].
        intros U. apply C. apply in_or_app. now left. }
  destruct (realTag tg); [|exact Body].
  apply anchored_cons_text. exact Body.
Qed.

Lemma withoutAnchorMarked_once :
  forall st tg idx sep v r,
    outcomeSat True (fun segs st' => anchored st segs st') r ->
    isObject v = true ->
    outcomeSat True (nodeAnchored v st)
      (wrapTagMarked tg (withAnchorMarked false idx sep r)).
Proof.
  intros st tg idx sep v r H Ov.
  destruct r as [segs st'| |];
    cbn [withAnchorMarked wrapTagMarked outcomeSat nodeAnchored] in *; try exact I.
  split; [|intros C; congruence].
  destruct (realTag tg); [|exact H].
  apply anchored_cons_text. exact H.
Qed.

Section OnceBody.

Variable recM : markedRenderer.
Variable dups : list nat.

Hypothesis rec_once :
  forall level v b1 b2 b3 st,
    renderReady dups st ->
    outcomeSat True (nodeAnchored v st) (recM level v b1 b2 b3 st).

Lemma stringifyNodeBodyMarked_once :
  forall h level v block compact isKey st,
    renderReady dups st ->
    outcomeSat True (nodeAnchored v st)
      (stringifyNodeBodyMarked recM h level v block compact isKey st).
Proof.
  intros h level v block compact isKey st Rdy.
  unfold stringifyNodeBodyMarked.
  destruct (resolveType st h v) as [[tg v']|e] eqn:R; [|exact I].
  assert (P : forall w text,
    outcomeSat True (nodeAnchored w st) (wrapTagMarked tg (Done [Text text] st))).
  { intros w text. simpl. split; [|intros _; split; [|reflexivity]].
    - apply anchored_refl. destruct (realTag tg); reflexivity.
    - destruct (realTag tg); reflexivity. }
  destruct (resolveType_primitive st h v tg v' (proj2 Rdy) R) as [E|E].
  2:{ destruct v'; try discriminate E; simpl;
        try (destruct (skipInvalid st); simpl; [reflexivity | exact I]).
      destruct (notQuestionTag tg); [|apply P].
      destruct (stringifyScalar st s level isKey); [apply P | exact I]. }
  subst v'.
  destruct v; simpl;
    try (destruct (skipInvalid st); simpl; [reflexivity | exact I]).
  - destruct (notQuestionTag tg); [|apply P].
    destruct (stringifyScalar st s level isKey); [apply P | exact I].
  - fold (isDuplicate st a).
    destruct (isDuplicate st a) eqn:Dp; simpl.
    + destruct (includes (usedDuplicates st) a) eqn:Us; simpl.
      * split; [|intros C; discriminate C].
        exists []. rewrite app_nil_r, setUsedDuplicates_same.
        split; [reflexivity|]. split; [reflexivity|].
        split; [constructor | intros b []].
      * set (st1 := setUsedDuplicates st (setAdd (usedDuplicates st) a)).
        assert (X1 : extendsUsed st st1).
        { exists (setAdd (usedDuplicates st) a).
          split; [reflexivity | apply incl_setAdd]. }
        assert (R1 : renderReady dups st1)
          by (eapply renderReady_extends; eassumption).
        destruct (deref h a) as [elems|props];
          match goal with
          | |- context [if ?c then _ else _] => destruct c
          end;
          apply (withAnchorMarked_once st tg a _ (VRef a));
          try assumption; try reflexivity.
        -- apply (stringifyBlockSequenceMarked_once recM dups rec_once st1 R1).
        -- apply (stringifyFlowSequenceMarked_once recM dups rec_once st1 R1).
        -- apply (stringifyBlockMappingMarked_once recM dups rec_once st1 R1).
        -- apply (stringifyFlowMappingMarked_once recM dups rec_once st1 R1).
    + destruct (deref h a) as [elems|props];
        match goal with
        | |- context [if ?c then _ else _] => destruct c
        end;
        apply (withoutAnchorMarked_once st tg _ _ (VRef a));
        try reflexivity.
      * apply (stringifyBlockSequenceMarked_once recM dups rec_once st Rdy).
      * apply (stringifyFlowSequenceMarked_once recM dups rec_once st Rdy).
      * apply (stringifyBlockMappingMarked_once recM dups rec_once st Rdy).
      * apply (stringifyFlowMappingMarked_once recM dups rec_once st Rdy).
Qed.

End OnceBody.

Lemma stringifyNodeMarked_once :
  forall h dups fuel level v block compact isKey st,
    renderReady dups st ->
    outcomeSat True (nodeAnchored v st)
      (stringifyNodeMarked fuel h level v block compact isKey st).
Proof.
  intros h dups. induction fuel as [|fuel IH];
    intros level v block compact isKey st Rdy; [exact I|].
  simpl. apply (stringifyNodeBodyMarked_once _ dups IH); assumption.
Qed.

Lemma indexOf_injective :
  forall l a b, In a l -> In b l -> indexOf l a = indexOf l b -> a = b.
Proof.
  intros l a b Ia Ib E.
  pose proof (indexOfFrom_nth _ _ 0 Ia) as Na.
  pose proof (indexOfFrom_nth _ _ 0 Ib) as Nb.
  fold (indexOf l a) in Na. fold (indexOf l b) in Nb.
  rewrite E in Na. congruence.
Qed.

Lemma NoDup_map_indexOf :
  forall dups l,
    NoDup l -> (forall a, In a l -> In a dups) -> NoDup (map (indexOf dups) l).
Proof.
  intros dups l N. induction N as [|x l Hx N IH]; intros Sub; [constructor|].
  cbn [map]. constructor.
  - intros C. apply in_map_iff in C. destruct C as [y [E Iy]].
    apply indexOf_injective in E; [subst; contradiction | |];
      apply Sub; [now right | now left].
  - apply IH. intros a Ia. apply Sub. now right.
Qed.

(** Every duplicate gets its anchor once: under a schema whose
    [represent] functions yield primitive values, in the string that
    [stringify] returns on a fresh state the anchors are, in their order,
    those of the duplicates that the call has marked as used, each of them
    once; so no anchor is written twice. *)
Theorem anchors_are_written_once :
  forall (D : Schema) (opts : DumperStateOptions) (fuel : nat) (h : heap)
         (data : value) (out : jsstring) (this' : DumperState),
    let this := newDumperState D opts in
    primitiveRepresent (schema this) ->
    stringify fuel h data this = Done out this' ->
    exists segs,
      stringifyMarked fuel h data this = Done segs this' /\
      textOf segs = out /\
      anchorsOf segs = map (indexOf (duplicates this')) (usedDuplicates this') /\
      NoDup (anchorsOf segs).
Proof.
  intros D opts fuel h data out this' this PR H.
  rewrite <- stringifyMarked_text in H.
  destruct (joined_Done _ _ _ H) as [segs [E T]].
  exists segs. split; [exact E|]. split; [exact T|].
  clear H T. unfold stringifyMarked in E.
  assert (Node : forall st,
            renderReady (duplicates st) st -> usedDuplicates st = [] ->
            match stringifyNodeMarked fuel h 0 data true true false st with
            | Done (Some string) this0 => Done (string ++ [Text [LINE_FEED]]) this0
            | Done None this0 => Done [] this0
            | Raise e => Raise e
            | OutOfFuel => OutOfFuel
            end = Done segs this' ->
            anchorsOf segs = map (indexOf (duplicates this')) (usedDuplicates this') /\
            NoDup (anchorsOf segs)).
  { intros st Rdy Us N.
    pose proof (stringifyNodeMarked_once h (duplicates st) fuel 0 data true true
                  false st Rdy) as P.
    destruct (stringifyNodeMarked fuel h 0 data true true false st)
      as [[s|] st'| |]; try discriminate; inversion N; subst; simpl in P.
    - destruct P as [[added [Es [A [Nd In']]]] _].
      rewrite Us in Es. cbn [app] in Es. subst this'.
      cbn [usedDuplicates duplicates setUsedDuplicates].
      rewrite anchorsOf_app. cbn [anchorsOf]. rewrite app_nil_r, A.
      split; [reflexivity|]. apply NoDup_map_indexOf; [exact Nd|].
      intros a Ia. exact (proj1 (In' a Ia)).
    - subst this'. rewrite Us. split; [reflexivity | constructor]. }
  destruct (useAnchors this) eqn:UA.
  - destruct (getDuplicateReferences fuel h data this) as [st|] eqn:G;
      [|discriminate].
    unfold getDuplicateReferences in G.
    destruct (inspectNode fuel h data [] []) as [[o d]|]; [|discriminate].
    inversion G; subst st.
    set (st1 := setUsedDuplicates (setDuplicates this (duplicates this ++ d)) []) in *.
    assert (Rdy : renderReady (duplicates st1) st1)
      by (split; [reflexivity | exact PR]).
    apply (Node st1 Rdy eq_refl E).
  - assert (Rdy : renderReady (duplicates this) this)
      by (split; [reflexivity | exact PR]).
    apply (Node this Rdy eq_refl E).
Qed.

Lemma anchors_are_written_once_witness :
  exists segs,
    textOf segs =
      lit "x: &ref_0" ++ [LINE_FEED] ++ lit "  k: v" ++ [LINE_FEED] ++
      lit "z: *ref_0" ++ [LINE_FEED] /\
    anchorsOf segs = [0] /\
    NoDup (anchorsOf segs).
Proof.
  destruct (anchors_are_written_once nullSchema noOptions 3 heapShared (VRef 0)
              (lit "x: &ref_0" ++ [LINE_FEED] ++ lit "  k: v" ++ [LINE_FEED] ++
               lit "z: *ref_0" ++ [LINE_FEED])
              (setUsedDuplicates
                 (setDuplicates (newDumperState nullSchema noOptions) [1%nat])
                 [1%nat])
              nullSchema_primitive)
    as [segs [_ [T [A N]]]].
  - vm_compute. reflexivity.
  - exists segs. split; [exact T|]. split; [exact A | exact N].
Defined.


(** ** The body of a literal block *)

Lemma trimTrailingNewline_snoc :
  forall x, trimTrailingNewline (x ++ [LINE_FEED]) = x.
Proof.
  intros x. unfold trimTrailingNewline. rewrite rev_app_distr. cbn [rev app].
  rewrite Z.eqb_refl. apply rev_involutive.
Qed.

Lemma trimTrailingNewline_keep :
  forall x c, (c =? LINE_FEED) = false -> trimTrailingNewline (x ++ [c]) = x ++ [c].
Proof.
  intros x c H. unfold trimTrailingNewline. rewrite rev_app_distr. cbn [rev app].
  now rewrite H.
Qed.

Lemma indexIs_last :
  forall x c d, indexIs (x ++ [c]) (strlen (x ++ [c]) - 1) d = (c =? d).
Proof.
  intros x c d. unfold indexIs, strIndex, strlen. rewrite length_app. cbn [List.length].
  replace (Z.of_nat (List.length x + 1) - 1 <? 0) with false
    by (symmetry; apply Z.ltb_ge; lia).
  replace (Z.to_nat (Z.of_nat (List.length x + 1) - 1)) with (List.length x) by lia.
  rewrite nth_error_app2 by lia. now rewrite Nat.sub_diag.
Qed.

Lemma linesText_joinLF :
  forall ls, ls <> [] -> linesText ls = joinLF ls ++ [LINE_FEED].
Proof.
  induction ls as [|l ls IH]; intros N; [contradiction|].
  unfold linesText in *. cbn [flat_map]. destruct ls as [|l' ls'].
  - cbn. now rewrite app_nil_r.
  - rewrite joinLF_cons by discriminate. rewrite IH by discriminate.
    rewrite <- !app_assoc. reflexivity.
Qed.

Lemma splitLF_indentString :
  forall string spaces,
    splitLF (indentString string spaces) = map (indentLine spaces) (splitLF string).
Proof.
  intros string spaces. unfold indentString. cbv zeta.
  rewrite (map_ext _ (indentLine spaces)) by (intros [|c l]; reflexivity).
  apply splitLF_joinLF.
  - intros E. apply map_eq_nil in E. exact (splitLF_not_nil _ E).
  - apply Forall_map. eapply Forall_impl; [|apply splitLF_oneLine].
    intros l Hl. cbv beta in Hl. unfold indentLine. destruct l; [reflexivity|].
    rewrite oneLine_app, oneLine_repeatSpace. exact Hl.
Qed.

Lemma unindent_indent :
  forall spaces l, 0 <= spaces -> unindentLine spaces (indentLine spaces l) = l.
Proof.
  intros spaces l H. unfold unindentLine, indentLine. destruct l as [|c l].
  - apply skipn_nil.
  - unfold repeatSpace.
    rewrite skipn_app, repeat_length, Nat.sub_diag.
    rewrite skipn_all2 by (rewrite repeat_length; lia). reflexivity.
Qed.

Lemma oneLine_last :
  forall x c, oneLine (x ++ [c]) = true -> (c =? LINE_FEED) = false.
Proof.
  intros x c H. rewrite oneLine_app in H. apply andb_true_iff in H.
  destruct H as [_ H]. unfold oneLine in H. cbn [existsb] in H.
  rewrite orb_false_r in H. now apply negb_true_iff in H.
Qed.

Lemma literal_body :
  forall string spaces,
    0 <= spaces ->
    literalContent spaces (trimTrailingNewline (indentString string spaces))
      (indexIs string (strlen string - 1) LINE_FEED) = string.
Proof.
  intros string spaces Hn. unfold literalContent.
  pose proof (splitLF_indentString string spaces) as SI.
  pose proof (joinLF_splitLF string) as JS.
  pose proof (joinLF_splitLF (indentString string spaces)) as JI.
  pose proof (splitLF_oneLine string) as OL.
  assert (Back : forall ls, map (unindentLine spaces) (map (indentLine spaces) ls) = ls).
  { intros ls. rewrite map_map. rewrite <- (map_id ls) at 2. apply map_ext.
    intros l. now apply unindent_indent. }
  destruct (exists_last (splitLF_not_nil string)) as [init [lastl E]].
  rewrite E in SI, JS, OL. rewrite map_app in SI. cbn [map] in SI.
  rewrite SI in JI. rewrite joinLF_snoc in JS, JI.
  destruct lastl as [|c0 l0] eqn:EL.
  - (* the last line is empty *)
    cbn [indentLine] in JI, SI. rewrite app_nil_r in JS, JI.
    destruct init as [|i0 init'] eqn:EI.
    + cbn in JS. rewrite <- JS.
      change (indentString [] spaces) with (@nil Z).
      change (trimTrailingNewline []) with (@nil Z).
      cbn [splitLF map joinLF]. unfold unindentLine. rewrite skipn_nil. reflexivity.
    + rewrite <- EI in *.
      assert (NI : init <> []) by (rewrite EI; discriminate).
      assert (NM : map (indentLine spaces) init <> []).
      { intros C. apply map_eq_nil in C. contradiction. }
      rewrite linesText_joinLF in JS, JI by assumption.
      rewrite <- JI, trimTrailingNewline_snoc.
      rewrite splitLF_joinLF.
      * rewrite Back. rewrite <- JS. rewrite indexIs_last, Z.eqb_refl.
        reflexivity.
      * exact NM.
      * apply Forall_map. apply Forall_app in OL. destruct OL as [OL _].
        eapply Forall_impl; [|exact OL].
        intros l Hl. cbv beta in Hl. unfold indentLine. destruct l; [reflexivity|].
        rewrite oneLine_app, oneLine_repeatSpace. exact Hl.
  - (* the last line is not empty *)
    rewrite <- EL in *.
    assert (NL : lastl <> []) by (rewrite EL; discriminate).
    destruct (exists_last NL) as [l1 [c E1]].
    assert (Hc : (c =? LINE_FEED) = false).
    { apply Forall_app in OL. destruct OL as [_ OL].
      pose proof (Forall_inv OL) as O1. cbv beta in O1. rewrite E1 in O1.
      exact (oneLine_last _ _ O1). }
    assert (IL : indentLine spaces lastl = (repeatSpace spaces ++ l1) ++ [c]).
    { unfold indentLine. rewrite EL. rewrite <- EL, E1. now rewrite app_assoc. }
    rewrite IL in JI. rewrite app_assoc in JI.
    rewrite <- JI at 1. rewrite trimTrailingNewline_keep by exact Hc. rewrite JI.
    rewrite splitLF_indentString, Back, E.
    rewrite joinLF_snoc, JS.
    assert (SE : string = (linesText init ++ l1) ++ [c])
      by (rewrite <- JS, E1; now rewrite app_assoc).
    rewrite SE at 2 3. rewrite indexIs_last, Hc.
    apply app_nil_r.
Qed.

(** The body of a literal block keeps the whole string: stripping the
    indentation from every line of the body, and restoring the line feed
    at the end that was dropped if the string ended in one, gives the
    string back. *)
Theorem literal_block_body_round_trip :
  forall string spaces,
    0 <= spaces ->
    literalContent spaces (trimTrailingNewline (indentString string spaces))
      (indexIs string (strlen string - 1) LINE_FEED) = string.
Proof. exact literal_body. Qed.

Lemma literal_block_body_round_trip_witness :
  literalContent 2
    (trimTrailingNewline (indentString [97; LINE_FEED; LINE_FEED; 32; 98; LINE_FEED] 2))
    (indexIs [97; LINE_FEED; LINE_FEED; 32; 98; LINE_FEED]
       (strlen [97; LINE_FEED; LINE_FEED; 32; 98; LINE_FEED] - 1) LINE_FEED) =
  [97; LINE_FEED; LINE_FEED; 32; 98; LINE_FEED].
Proof. apply literal_block_body_round_trip. lia. Defined.


(** ** Two more examples *)

(** Why one line in flow layout needs [arrayIndent] or [flowLevel: 0]:
    with [arrayIndent: false] and [flowLevel: 1] the
    sequence in [{ a: [ "x\ny" ] }] is in flow layout, but its entry is
    written at level 0, below the flow level, where block styles are
    allowed; the string comes out as a literal block inside the
    brackets. *)
Example flow_sequence_below_the_flow_level :
  textDone (stringify 6 heapTwoLinesNested (VRef 0)
              (newDumperState bareSchema (flowLevelOptions 1 false))) =
  lit "a: [|-" ++ [LINE_FEED] ++ lit "  x" ++ [LINE_FEED] ++ lit "  y]" ++ [LINE_FEED].
Proof. vm_compute. reflexivity. Qed.

(** The same document with [arrayIndent: true]: the entry is at level 1
    and is double-quoted. *)
Example flow_sequence_at_the_flow_level :
  textDone (stringify 6 heapTwoLinesNested (VRef 0)
              (newDumperState bareSchema (flowLevelOptions 1 true))) =
  lit "a: [" ++ [34; 120; 92; 110; 121; 34] ++ lit "]" ++ [LINE_FEED].
Proof. vm_compute. reflexivity. Qed.


(** ** Escaping, character by character *)

Lemma concat_characters : forall n chars,
  (List.length chars <= n)%nat -> List.concat (characters chars) = chars.
Proof.
  induction n as [|n IH]; intros chars Hl.
  - destruct chars; [reflexivity | simpl in Hl; lia].
  - destruct chars as [|char rest]; [reflexivity|].
    assert (Single : List.concat ([char] :: characters rest) = char :: rest).
    { simpl. f_equal. apply IH. simpl in Hl. lia. }
    simpl. destruct (isHighSurrogate char); [|exact Single].
    destruct rest as [|nextChar rest']; [exact Single|].
    destruct (isLowSurrogate nextChar); [|exact Single].
    simpl. do 2 f_equal. apply IH. simpl in Hl. lia.
Qed.

Lemma hexEscapeOf_escapedPiece :
  forall code piece, hexEscapeOf code piece -> escapedPiece piece.
Proof.
  intros code piece [digits [E [L [F _]]]]. right; right. exists digits.
  split; [exact F|]. subst piece. unfold hexPrefix, hexWidth in *.
  destruct (code <=? 0xff); [left; auto|].
  destruct (code <=? 0xffff); [right; left; auto | right; right; auto].
Qed.

Lemma escapeChar_emitted :
  forall char, isCodeUnit char ->
    exists piece, escapeChar char = Ok piece /\ emittedAs [char] piece.
Proof.
  intros c Hc. unfold escapeChar, emittedAs.
  destruct (mapGet ESCAPE_SEQUENCES c) as [e|] eqn:E.
  - exists e. split; [reflexivity|]. split; [reflexivity|].
    apply mapGet_In in E.
    pose proof (proj1 (Forall_forall _ _) escape_sequences_shape e E) as [H1 H2].
    repeat split; assumption.
  - destruct (isPrintable c) eqn:P.
    + exists [c]. split; reflexivity.
    + destruct (charCodeToHexString_digits c) as [digits [H1 [H2 [H3 H4]]]].
      { unfold isCodeUnit in Hc. lia. }
      eexists. split; [exact H1|]. exists digits. auto.
Qed.

Lemma emittedAs_escapedPiece :
  forall character piece, emittedAs character piece -> escapedPiece piece.
Proof.
  intros [|c [|d [|x l]]] piece H; cbn [emittedAs] in H; try contradiction.
  - destruct (mapGet ESCAPE_SEQUENCES c).
    + right; left. apply H.
    + destruct (isPrintable c) eqn:P.
      * left. exists c. auto.
      * eapply hexEscapeOf_escapedPiece; exact H.
  - eapply hexEscapeOf_escapedPiece. apply H.
Qed.

Lemma escapeLoop_emitted :
  forall n chars result,
    (List.length chars <= n)%nat ->
    Forall isCodeUnit chars ->
    exists pieces,
      escapeLoop chars result = Ok (result ++ List.concat pieces) /\
      Forall2 emittedAs (characters chars) pieces.
Proof.
  induction n as [|n IH]; intros chars result Hl Hu.
  - destruct chars; [|simpl in Hl; lia].
    exists []. simpl. rewrite app_nil_r. auto.
  - destruct chars as [|char rest].
    { exists []. simpl. rewrite app_nil_r. auto. }
    inversion Hu as [|? ? Hc Hrest]; subst.
    assert (Single : exists pieces,
      match escapeChar char with
      | Ok piece => escapeLoop rest (result ++ piece)
      | Throw e => Throw e
      end = Ok (result ++ List.concat pieces) /\
      Forall2 emittedAs ([char] :: characters rest) pieces).
    { destruct (escapeChar_emitted char Hc) as [p [Hp Hs]]. rewrite Hp.
      destruct (IH rest (result ++ p)) as [ps [Hps Hf]];
        [simpl in Hl; lia | exact Hrest |].
      exists (p :: ps). simpl. rewrite Hps, <- app_assoc. auto. }
    simpl. destruct (isHighSurrogate char) eqn:Hh; [|exact Single].
    destruct rest as [|nextChar rest']; [exact Single|].
    destruct (isLowSurrogate nextChar) eqn:Hlo; [|exact Single].
    pose proof (surrogate_pair_in_range char nextChar Hh Hlo) as Hr.
    destruct (charCodeToHexString_digits (combineSurrogates char nextChar))
      as [digits [H1 [H2 [H3 H4]]]]; [lia|].
    unfold combineSurrogates in H1 at 1. rewrite H1.
    inversion Hrest; subst.
    destruct (IH rest' (result ++ hexPrefix (combineSurrogates char nextChar) ++ digits))
      as [ps [Hps Hf]]; [simpl in Hl; lia | assumption |].
    exists ((hexPrefix (combineSurrogates char nextChar) ++ digits) :: ps).
    simpl. rewrite Hps, <- app_assoc.
    split; [reflexivity|]. constructor; [|exact Hf].
    split; [exact Hh|]. split; [exact Hlo|]. exists digits. auto.
Qed.

(** C8: on a string of UTF-16 code units [escapeString] does not throw: a
    recombined surrogate pair is a code point between 0x10000 and 0x10FFFF,
    below the limit of the internal error.  The result is the
    concatenation of one piece for each character of the string, in order,
    where a surrogate pair counts as one character: the piece is the
    character itself when it is printable and has no named escape, its
    named two-character escape when it has one, and otherwise its
    hexadecimal escape with two, four or eight digits that are its code. *)
Theorem escapeString_never_throws :
  forall string,
    Forall isCodeUnit string ->
    (forall char nextChar,
       isHighSurrogate char = true -> isLowSurrogate nextChar = true ->
       0x10000 <= combineSurrogates char nextChar <= 0x10FFFF) /\
    List.concat (characters string) = string /\
    exists pieces,
      escapeString string = Ok (List.concat pieces) /\
      Forall2 emittedAs (characters string) pieces /\
      Forall escapedPiece pieces.
Proof.
  intros string Hu. split; [exact surrogate_pair_in_range|].
  split; [apply (concat_characters (List.length string)); apply le_n|].
  destruct (escapeLoop_emitted (List.length string) string [] (le_n _) Hu)
    as [ps [H1 H2]].
  exists ps. unfold escapeString. rewrite H1. split; [reflexivity|].
  split; [exact H2|].
  clear H1. induction H2 as [|c p cs ps' Hcp _ IH]; constructor; [|exact IH].
  eapply emittedAs_escapedPiece; exact Hcp.
Qed.

Lemma escapeString_never_throws_witness :
  List.concat (characters [7; 0xd83d; 0xde00; 0xe9; 0xdc00; 34]) =
    [7; 0xd83d; 0xde00; 0xe9; 0xdc00; 34] /\
  exists pieces,
    escapeString [7; 0xd83d; 0xde00; 0xe9; 0xdc00; 34] = Ok (List.concat pieces) /\
    Forall2 emittedAs (characters [7; 0xd83d; 0xde00; 0xe9; 0xdc00; 34]) pieces /\
    Forall escapedPiece pieces.
Proof.
  apply (escapeString_never_throws [7; 0xd83d; 0xde00; 0xe9; 0xdc00; 34]).
  repeat constructor; unfold isCodeUnit; lia.
Defined.


(** ** The render pass reaches every object *)

Lemma rendersAsIs_extends :
  forall this st h, extendsUsed this st -> rendersAsIs this h -> rendersAsIs st h.
Proof.
  intros this st h [u [E _]] [O K]. subst st. split.
  - intros a. destruct (O a) as [tg R]. exists tg.
    now rewrite resolveType_setUsedDuplicates.
  - intros a props k D I. destruct (K a props k D I) as [tg [s R]]. exists tg, s.
    now rewrite resolveType_setUsedDuplicates.
Qed.

Lemma primitiveTypes_extends :
  forall this st,
    extendsUsed this st ->
    primitiveTypes (implicitTypes this ++ explicitTypes this) ->
    primitiveTypes (implicitTypes st ++ explicitTypes st).
Proof. intros this st [u [E _]] P. subst st. exact P. Qed.

Lemma covered_refl : forall h this, covered h this [] this.
Proof.
  intros h this. split; [apply extendsUsed_refl|].
  split; [intros y c []|]. split; [intros y []|]. intros y I. now left.
Qed.

Lemma extendsUsed_incl :
  forall this st, extendsUsed this st -> incl (usedDuplicates this) (usedDuplicates st).
Proof. intros this st [u [E I]]. subst st. exact I. Qed.

Lemma covered_trans :
  forall h s0 v1 s1 v2 s2,
    covered h s0 v1 s1 -> covered h s1 v2 s2 -> covered h s0 (v1 ++ v2) s2.
Proof.
  intros h s0 v1 s1 v2 s2 [X1 [C1 [D1 N1]]] [X2 [C2 [D2 N2]]].
  pose proof (extendsUsed_incl _ _ X2) as I2.
  split; [eapply extendsUsed_trans; eassumption|]. split; [|split].
  - intros y c Iy Ch. apply in_app_or in Iy. destruct Iy as [Iy|Iy].
    + destruct (C1 y c Iy Ch) as [H|H]; [left; apply in_or_app; now left|].
      right. now apply I2.
    + destruct (C2 y c Iy Ch) as [H|H]; [left; apply in_or_app; now right|].
      now right.
  - intros y Iy Dy. apply in_app_or in Iy. destruct Iy as [Iy|Iy].
    + apply I2. now apply D1.
    + apply D2; [exact Iy|]. now rewrite (isDuplicate_extends _ _ y X1).
  - intros y Iy. destruct (N2 y Iy) as [H|H].
    + destruct (N1 y H) as [H1|H1]; [now left|].
      right. apply in_or_app. now left.
    + right. apply in_or_app. now right.
Qed.

Lemma string_is_written :
  forall fuel h level k b1 b2 b3 st o st' tg s,
    resolveType st h (VString k) = Ok (tg, VString s) ->
    stringifyNode fuel h level (VString k) b1 b2 b3 st = Done o st' ->
    o <> None /\ st' = st.
Proof.
  intros [|fuel] h level k b1 b2 b3 st o st' tg s R H; [discriminate H|].
  cbn [stringifyNode] in H. rewrite (body_string _ _ _ _ _ _ _ _ _ _ R) in H.
  destruct (notQuestionTag tg).
  - destruct (stringifyScalar st s level b3); [|discriminate H].
    cbn [wrapTag] in H. inversion H; subst. split; [discriminate | reflexivity].
  - cbn [wrapTag] in H. inversion H; subst. split; [discriminate | reflexivity].
Qed.

Section CoveredLoops.

Variable fuel : nat.
Variable h : heap.

Hypothesis rec_covered :
  forall level v b1 b2 b3 st o st',
    primitiveTypes (implicitTypes st ++ explicitTypes st) ->
    rendersAsIs st h ->
    stringifyNode fuel h level v b1 b2 b3 st = Done o st' ->
    nodeCovered h v st st'.

(** One more entry [e], rendered between [s1] and [s2], after entries
    that were rendered between [s0] and [s1]. *)
Lemma covered_entry :
  forall s0 v0 s1 e s2 (entries : list value),
    covered h s0 v0 s1 ->
    nodeCovered h e s1 s2 ->
    (forall c, In (VRef c) entries -> In c v0 \/ In c (usedDuplicates s1)) ->
    exists v,
      covered h s0 v s2 /\
      forall c, In (VRef c) (entries ++ [e]) -> In c v \/ In c (usedDuplicates s2).
Proof.
  intros s0 v0 s1 e s2 entries C0 [v1 [C1 R1]] E.
  exists (v0 ++ v1). split; [eapply covered_trans; eassumption|].
  pose proof (extendsUsed_incl _ _ (proj1 C1)) as I.
  intros c Ic. apply in_app_or in Ic. destruct Ic as [Ic|[Ic|[]]].
  - destruct (E c Ic) as [H|H]; [left; apply in_or_app; now left|].
    right. now apply I.
  - destruct (R1 c Ic) as [H|H]; [left; apply in_or_app; now right|].
    right. now apply I.
Qed.

Lemma flowSequenceLoop_covered :
  forall elems index level res s0 v0 st r st' (before : list value),
    primitiveTypes (implicitTypes s0 ++ explicitTypes s0) ->
    rendersAsIs s0 h ->
    covered h s0 v0 st ->
    (forall c, In (VRef c) before -> In c v0 \/ In c (usedDuplicates st)) ->
    flowSequenceLoop (stringifyNode fuel h) elems index level res st = Done r st' ->
    exists v,
      covered h s0 v st' /\
      forall c, In (VRef c) (before ++ elems) -> In c v \/ In c (usedDuplicates st').
Proof.
  induction elems as [|e l IH]; intros index level res s0 v0 st r st' before P A C B H;
    cbn [flowSequenceLoop] in H.
  - inversion H; subst. exists v0. rewrite app_nil_r. auto.
  - destruct (stringifyNode fuel h level e false false false st) as [[s|] st1| |] eqn:E;
      try discriminate H;
      (pose proof (rec_covered _ _ _ _ _ _ _ _
                     (primitiveTypes_extends _ _ (proj1 C) P)
                     (rendersAsIs_extends _ _ h (proj1 C) A) E) as N;
       destruct (covered_entry s0 v0 st e st1 before C N B) as [v1 [C1 B1]];
       destruct (IH _ _ _ _ _ _ _ _ (before ++ [e]) P A C1 B1 H) as [v [Cv Bv]];
       exists v; rewrite <- app_assoc in Bv; auto).
Qed.

Lemma blockSequenceLoop_covered :
  forall elems index level compact res s0 v0 st r st' (before : list value),
    primitiveTypes (implicitTypes s0 ++ explicitTypes s0) ->
    rendersAsIs s0 h ->
    covered h s0 v0 st ->
    (forall c, In (VRef c) before -> In c v0 \/ In c (usedDuplicates st)) ->
    blockSequenceLoop (stringifyNode fuel h) elems index level compact res st =
      Done r st' ->
    exists v,
      covered h s0 v st' /\
      forall c, In (VRef c) (before ++ elems) -> In c v \/ In c (usedDuplicates st').
Proof.
  induction elems as [|e l IH];
    intros index level compact res s0 v0 st r st' before P A C B H;
    cbn [blockSequenceLoop] in H.
  - inversion H; subst. exists v0. rewrite app_nil_r. auto.
  - destruct (stringifyNode fuel h (level + 1) e true true false st)
      as [[s|] st1| |] eqn:E; try discriminate H;
      (pose proof (rec_covered _ _ _ _ _ _ _ _
                     (primitiveTypes_extends _ _ (proj1 C) P)
                     (rendersAsIs_extends _ _ h (proj1 C) A) E) as N;
       destruct (covered_entry s0 v0 st e st1 before C N B) as [v1 [C1 B1]];
       destruct (IH _ _ _ _ _ _ _ _ _ (before ++ [e]) P A C1 B1 H) as [v [Cv Bv]];
       exists v; rewrite <- app_assoc in Bv; auto).
Qed.

Lemma flowMappingLoop_covered :
  forall object keys index level res s0 v0 st r st' (before : list value),
    primitiveTypes (implicitTypes s0 ++ explicitTypes s0) ->
    rendersAsIs s0 h ->
    (forall k, In k keys ->
       exists tg s, resolveType s0 h (VString k) = Ok (tg, VString s)) ->
    covered h s0 v0 st ->
    (forall c, In (VRef c) before -> In c v0 \/ In c (usedDuplicates st)) ->
    flowMappingLoop (stringifyNode fuel h) object keys index level res st = Done r st' ->
    exists v,
      covered h s0 v st' /\
      forall c, In (VRef c) (before ++ map (getProp object) keys) ->
        In c v \/ In c (usedDuplicates st').
Proof.
  intros object. induction keys as [|k l IH];
    intros index level res s0 v0 st r st' before P A K C B H;
    cbn [flowMappingLoop] in H; cbv zeta in H.
  - inversion H; subst. exists v0. cbn [map]. rewrite app_nil_r. auto.
  - destruct (K k (or_introl eq_refl)) as [tg [s R]].
    assert (R' : resolveType st h (VString k) = Ok (tg, VString s)).
    { destruct (proj1 C) as [u [Eu _]]. subst st.
      now rewrite resolveType_setUsedDuplicates. }
    destruct (stringifyNode fuel h level (VString k) false false false st)
      as [[ks|] st1| |] eqn:E; try discriminate H.
    2:{ exfalso. exact (proj1 (string_is_written _ _ _ _ _ _ _ _ _ _ _ _ R' E) eq_refl). }
    destruct (string_is_written _ _ _ _ _ _ _ _ _ _ _ _ R' E) as [_ ->].
    destruct (stringifyNode fuel h level (getProp object k) false false false st)
      as [[vs|] st2| |] eqn:E2; try discriminate H;
      (pose proof (rec_covered _ _ _ _ _ _ _ _
                     (primitiveTypes_extends _ _ (proj1 C) P)
                     (rendersAsIs_extends _ _ h (proj1 C) A) E2) as N;
       destruct (covered_entry s0 v0 st (getProp object k) st2 before C N B)
         as [v1 [C1 B1]];
       destruct (IH _ _ _ _ _ _ _ _ (before ++ [getProp object k]) P A
                   (fun k' Hk' => K k' (or_intror Hk')) C1 B1 H) as [v [Cv Bv]];
       exists v; cbn [map]; rewrite <- app_assoc in Bv; auto).
Qed.

Lemma blockMappingLoop_covered :
  forall object tg0 keys index level compact res s0 v0 st r st' (before : list value),
    primitiveTypes (implicitTypes s0 ++ explicitTypes s0) ->
    rendersAsIs s0 h ->
    (forall k, In k keys ->
       exists tg s, resolveType s0 h (VString k) = Ok (tg, VString s)) ->
    covered h s0 v0 st ->
    (forall c, In (VRef c) before -> In c v0 \/ In c (usedDuplicates st)) ->
    blockMappingLoop (stringifyNode fuel h) object tg0 keys index level compact res st =
      Done r st' ->
    exists v,
      covered h s0 v st' /\
      forall c, In (VRef c) (before ++ map (getProp object) keys) ->
        In c v \/ In c (usedDuplicates st').
Proof.
  intros object tg0. induction keys as [|k l IH];
    intros index level compact res s0 v0 st r st' before P A K C B H;
    cbn [blockMappingLoop] in H; cbv zeta in H.
  - inversion H; subst. exists v0. cbn [map]. rewrite app_nil_r. auto.
  - destruct (K k (or_introl eq_refl)) as [tg [s R]].
    assert (R' : resolveType st h (VString k) = Ok (tg, VString s)).
    { destruct (proj1 C) as [u [Eu _]]. subst st.
      now rewrite resolveType_setUsedDuplicates. }
    destruct (stringifyNode fuel h (level + 1) (VString k) true true true st)
      as [[ks|] st1| |] eqn:E; try discriminate H.
    2:{ exfalso. exact (proj1 (string_is_written _ _ _ _ _ _ _ _ _ _ _ _ R' E) eq_refl). }
    destruct (string_is_written _ _ _ _ _ _ _ _ _ _ _ _ R' E) as [_ ->].
    match type of H with
    | context [stringifyNode fuel h ?lv ?v ?x1 ?x2 ?x3 st] =>
        destruct (stringifyNode fuel h lv v x1 x2 x3 st) as [[vs|] st2| |] eqn:E2
    end; try discriminate H;
      (pose proof (rec_covered _ _ _ _ _ _ _ _
                     (primitiveTypes_extends _ _ (proj1 C) P)
                     (rendersAsIs_extends _ _ h (proj1 C) A) E2) as N;
       destruct (covered_entry s0 v0 st (getProp object k) st2 before C N B)
         as [v1 [C1 B1]];
       destruct (IH _ _ _ _ _ _ _ _ _ (before ++ [getProp object k]) P A
                   (fun k' Hk' => K k' (or_intror Hk')) C1 B1 H) as [v [Cv Bv]];
       exists v; cbn [map]; rewrite <- app_assoc in Bv; auto).
Qed.

End CoveredLoops.

Lemma covered_container :
  forall h st a vl st',
    covered h (markUsed st a) vl st' ->
    (forall c, child h a c -> In c vl \/ In c (usedDuplicates st')) ->
    covered h st (a :: vl) st'.
Proof.
  intros h st a vl st' [X [C [D N]]] Ch.
  pose proof (extendsUsed_markUsed st a) as X0.
  split; [eapply extendsUsed_trans; eassumption|]. split; [|split].
  - intros y c [<-|Iy] Hc.
    + destruct (Ch c Hc) as [H|H]; [left; now right | now right].
    + destruct (C y c Iy Hc) as [H|H]; [left; now right | now right].
  - intros y [<-|Iy] Dy.
    + apply (extendsUsed_incl _ _ X). unfold markUsed. rewrite Dy.
      cbn [usedDuplicates setUsedDuplicates]. apply In_setAdd. now right.
    + apply D; [exact Iy|]. now rewrite (isDuplicate_extends _ _ y X0).
  - intros y Iy. destruct (N y Iy) as [H|H]; [|right; now right].
    unfold markUsed in H. destruct (isDuplicate st a); [|now left].
    cbn [usedDuplicates setUsedDuplicates] in H. apply In_setAdd in H.
    destruct H as [H|H]; [now left | right; left; now symmetry].
Qed.

Lemma entry_by_key :
  forall h a props c,
    distinctKeys h -> deref h a = ORecord props -> child h a c ->
    exists k, In k (map fst props) /\ getProp props k = VRef c.
Proof.
  intros h a props c K D Ch. unfold child, entriesOf in Ch. rewrite D in Ch.
  apply in_map_iff in Ch. destruct Ch as [[k v] [Ev Hin]]. cbn [snd] in Ev. subst v.
  exists k. split.
  - change k with (fst (k, VRef c)). now apply in_map.
  - exact (getProp_NoDup props k (VRef c) (K a props D) Hin).
Qed.

Lemma markUsed_types :
  forall st a,
    implicitTypes (markUsed st a) = implicitTypes st /\
    explicitTypes (markUsed st a) = explicitTypes st.
Proof. intros st a. unfold markUsed. destruct (isDuplicate st a); split; reflexivity. Qed.

Lemma stringifyNode_covered :
  forall h,
    distinctKeys h ->
    forall fuel level v b1 b2 b3 st o st',
      primitiveTypes (implicitTypes st ++ explicitTypes st) ->
      rendersAsIs st h ->
      stringifyNode fuel h level v b1 b2 b3 st = Done o st' ->
      nodeCovered h v st st'.
Proof.
  intros h K. induction fuel as [|fuel IH];
    intros level v b1 b2 b3 st o st' P A H; [discriminate H|].
  cbn [stringifyNode] in H.
  assert (Same : st' = st -> (forall a, v = VRef a -> In a (usedDuplicates st)) ->
                 nodeCovered h v st st').
  { intros -> U. exists []. split; [apply covered_refl|]. intros a E. right. now apply U. }
  destruct (resolveType st h v) as [[tg v']|e] eqn:R.
  2:{ rewrite (body_throw _ _ _ _ _ _ _ _ _ R) in H. discriminate H. }
  assert (Scalar : isObject v' = false -> isObject v = false ->
                   nodeCovered h v st st').
  { intros Ov' Ov. apply Same; [|intros a E; subst v; discriminate Ov].
    destruct v'; try discriminate Ov';
      try (rewrite (body_unsupported _ _ _ _ _ _ _ _ _ _ R eq_refl) in H;
           destruct (skipInvalid st); inversion H; reflexivity).
    rewrite (body_string _ _ _ _ _ _ _ _ _ _ R) in H.
    destruct (notQuestionTag tg); [|inversion H; reflexivity].
    destruct (stringifyScalar st s level b3); inversion H; reflexivity. }
  destruct v as [| | | | |  |a];
    try (destruct (resolveType_primitive st h _ tg v' P R) as [E|E];
         [subst v'|]; apply Scalar; auto; reflexivity).
  destruct (proj1 A a) as [tg' R']. rewrite R in R'. inversion R'; subst tg' v'.
  destruct (isDuplicate st a && includes (usedDuplicates st) a) eqn:Al.
  - apply andb_true_iff in Al. destruct Al as [A1 A2].
    rewrite (body_alias _ _ _ _ _ _ _ _ _ _ R A1 A2) in H. inversion H; subst.
    apply Same; [reflexivity|]. intros a' E. inversion E; subst.
    now apply includes_In.
  - rewrite (body_container _ _ _ _ _ _ _ _ _ _ R Al) in H.
    unfold stringifyContainer in H.
    pose proof (extendsUsed_markUsed st a) as X0.
    pose proof (primitiveTypes_extends _ _ X0 P) as P1.
    pose proof (rendersAsIs_extends _ _ h X0 A) as A1.
    pose proof (covered_refl h (markUsed st a)) as C0.
    assert (B0 : forall c, In (VRef c) (@nil value) ->
                   In c [] \/ In c (usedDuplicates (markUsed st a)))
      by (intros c []).
    assert (Fin : forall vl,
              covered h (markUsed st a) vl st' ->
              (forall c, child h a c -> In c vl \/ In c (usedDuplicates st')) ->
              nodeCovered h (VRef a) st st').
    { intros vl C Ch. exists (a :: vl). split; [now apply covered_container|].
      intros a' E. inversion E; subst. left. now left. }
    destruct (deref h a) as [elems|props] eqn:Da.
    + assert (Ce : forall c, child h a c -> In (VRef c) ([] ++ elems)).
      { intros c Ch. unfold child, entriesOf in Ch. now rewrite Da in Ch. }
      destruct (blockAt st level b1 && _); apply wrapped_Done in H; destruct H as [x H].
      * unfold stringifyBlockSequence in H.
        destruct (blockSequenceLoop _ _ _ _ _ _ _) as [res st1| |] eqn:L;
          try discriminate H.
        assert (st1 = st') by (destruct res; inversion H; reflexivity). subst st1.
        destruct (blockSequenceLoop_covered fuel h IH _ _ _ _ _ _ _ _ _ _ []
                    P1 A1 C0 B0 L) as [vl [C B]].
        apply (Fin vl C). intros c Ch. apply B, Ce, Ch.
      * unfold stringifyFlowSequence in H.
        destruct (flowSequenceLoop _ _ _ _ _ _) as [res st1| |] eqn:L;
          try discriminate H.
        inversion H; subst.
        destruct (flowSequenceLoop_covered fuel h IH _ _ _ _ _ _ _ _ _ []
                    P1 A1 C0 B0 L) as [vl [C B]].
        apply (Fin vl C). intros c Ch. apply B, Ce, Ch.
    + assert (Kk : forall keys,
                (forall k, In k keys -> In k (map fst props)) ->
                forall k, In k keys ->
                  exists tg1 s, resolveType (markUsed st a) h (VString k) =
                                Ok (tg1, VString s)).
      { intros keys Sub k Ik. exact (proj2 A1 a props k Da (Sub k Ik)). }
      assert (Ck : forall keys,
                (forall k, In k (map fst props) -> In k keys) ->
                forall c, child h a c -> In (VRef c) ([] ++ map (getProp props) keys)).
      { intros keys Sub c Ch.
        destruct (entry_by_key h a props c K Da Ch) as [k [Ik G]].
        cbn [app]. rewrite <- G. apply in_map. now apply Sub. }
      destruct (blockAt st level b1 && _); apply wrapped_Done in H; destruct H as [x H].
      * unfold stringifyBlockMapping in H. cbv zeta in H.
        assert (Loop : forall keys,
                  (forall k, In k keys -> In k (map fst props)) ->
                  (forall k, In k (map fst props) -> In k keys) ->
                  match blockMappingLoop (stringifyNode fuel h) props tg keys 0 level
                          (compactAt st tg (isDuplicate st a) level b2) []
                          (markUsed st a) with
                  | Done [] this0 => Done (lit "{}") this0
                  | Done res this0 => Done res this0
                  | Raise e => Raise e
                  | OutOfFuel => OutOfFuel
                  end = Done x st' ->
                  nodeCovered h (VRef a) st st').
        { intros keys S1 S2 HL.
          destruct (blockMappingLoop _ _ _ _ _ _ _ _ _) as [res st1| |] eqn:L;
            try discriminate HL.
          assert (st1 = st') by (destruct res; inversion HL; reflexivity). subst st1.
          destruct (blockMappingLoop_covered fuel h IH _ _ _ _ _ _ _ _ _ _ _ _ []
                      P1 A1 (Kk keys S1) C0 B0 L) as [vl [C B]].
          apply (Fin vl C). intros c Ch. apply B. apply (Ck keys S2 c Ch). }
        destruct (sortKeys (markUsed st a)) as [[|]|cmp|[|]]; cbn iota in H;
          try discriminate H;
          first
            [ apply (Loop (map fst props)); [auto | auto | exact H]
            | apply (Loop _ (fun k Hk => sortWith_In _ _ k Hk)
                            (fun k Hk => Permutation_in k
                                           (sortWith_Permutation _ _) Hk) H) ].
      * unfold stringifyFlowMapping in H.
        destruct (flowMappingLoop _ _ _ _ _ _ _) as [res st1| |] eqn:L;
          try discriminate H.
        inversion H; subst.
        destruct (flowMappingLoop_covered fuel h IH _ _ _ _ _ _ _ _ _ _ []
                    P1 A1 (Kk _ (fun k Hk => Hk)) C0 B0 L) as [vl [C B]].
        apply (Fin vl C). intros c Ch. apply B. apply (Ck _ (fun k Hk => Hk) c Ch).
Qed.


(** ** The anchor and the text of a container *)

Lemma markUsed_layout :
  forall st a level block,
    blockAt (markUsed st a) level block = blockAt st level block /\
    arrayLevel (markUsed st a) level = arrayLevel st level.
Proof.
  intros st a level block. unfold markUsed.
  destruct (isDuplicate st a); split; reflexivity.
Qed.

Lemma stringifyContainer_text :
  forall rec h level tg a block compact this,
    stringifyContainer rec h level tg a block compact this =
    wrapTag tg
      (withAnchor (isDuplicate this a) (indexOf (duplicates this) a)
         (anchorSeparator h level a block this)
         (containerText rec h level tg a block
            (compactAt this tg (isDuplicate this a) level compact)
            (markUsed this a))).
Proof.
  intros rec h level tg a block compact this.
  unfold stringifyContainer, containerText, anchorSeparator.
  destruct (markUsed_layout this a level block) as [-> ->].
  destruct (deref h a) as [elems|props];
    destruct (blockAt this level block && _); reflexivity.
Qed.

Lemma wrapped_text :
  forall tg d idx sep r o st,
    wrapTag tg (withAnchor d idx sep r) = Done o st ->
    exists content,
      r = Done content st /\
      o = Some (tagText tg ++ (if d then anchorText idx ++ sep else []) ++ content).
Proof.
  intros tg d idx sep [content st0| |] o st H; cbn [withAnchor wrapTag] in H;
    try discriminate H.
  inversion H; subst. exists content. split; [reflexivity|].
  unfold tagText. destruct (realTag tg); destruct d; cbn [app];
    rewrite <- ?app_assoc; reflexivity.
Qed.

Lemma compactAt_duplicate :
  forall st tg level compact, compactAt st tg true level compact = false.
Proof.
  intros st tg level compact. unfold compactAt.
  destruct (realTag tg); reflexivity.
Qed.

Lemma container_frame :
  forall fuel h level tg a block compact st o st',
    stringifyContainer (stringifyNode fuel h) h level tg a block compact st =
      Done o st' ->
    extendsUsed (markUsed st a) st'.
Proof.
  intros fuel h level tg a block compact st o st' H.
  pose proof (stringifyContainer_inv (stringifyNode fuel h) True
                (extendsUsed (markUsed st a)) (fun _ => True)) as Inv.
  assert (R : forall lv v b1 b2 b3 this,
            extendsUsed (markUsed st a) this -> True ->
            outcomeSat True (fun _ this' => extendsUsed (markUsed st a) this')
              (stringifyNode fuel h lv v b1 b2 b3 this)).
  { intros lv v b1 b2 b3 this X _.
    eapply outcomeSat_impl; [|apply stringifyNode_frame].
    intros x s Xs. eapply extendsUsed_trans; eassumption. }
  specialize (Inv R (fun _ => I) h level tg a block compact st
                (extendsUsed_refl _)).
  rewrite H in Inv. apply Inv. apply Forall_forall. intros; exact I.
Qed.

(** The first time a duplicate is written: its anchor, then its text. *)
Lemma first_rendering :
  forall fuel h level v block compact isKey st tg a o st',
    resolveType st h v = Ok (tg, VRef a) ->
    isDuplicate st a = true ->
    includes (usedDuplicates st) a = false ->
    stringifyNode (S fuel) h level v block compact isKey st = Done o st' ->
    exists content,
      containerText (stringifyNode fuel h) h level tg a block false (markUsed st a) =
        Done content st' /\
      o = Some (tagText tg ++ anchorText (indexOf (duplicates st) a) ++
                anchorSeparator h level a block st ++ content) /\
      In a (usedDuplicates st').
Proof.
  intros fuel h level v block compact isKey st tg a o st' R D U H.
  cbn [stringifyNode] in H.
  rewrite (body_container _ _ _ _ _ _ _ _ _ _ R) in H by (rewrite D, U; reflexivity).
  pose proof (container_frame _ _ _ _ _ _ _ _ _ _ H) as X.
  rewrite stringifyContainer_text, D, compactAt_duplicate in H.
  destruct (wrapped_text _ _ _ _ _ _ _ H) as [content [E O]].
  exists content. split; [exact E|]. split.
  - rewrite O, <- app_assoc. reflexivity.
  - apply (extendsUsed_incl _ _ X). unfold markUsed. rewrite D.
    cbn [usedDuplicates setUsedDuplicates]. apply In_setAdd. now right.
Qed.

(** Without duplicates the state does not change. *)
Lemma stringifyNode_without_duplicates :
  forall h st,
    duplicates st = [] ->
    forall fuel level v block compact isKey,
      outcomeSat True (fun _ st' => st' = st)
        (stringifyNode fuel h level v block compact isKey st).
Proof.
  intros h st D. induction fuel as [|fuel IH];
    intros level v block compact isKey; cbn [stringifyNode]; [exact I|].
  assert (ND : forall a, isDuplicate st a = false)
    by (intros a; unfold isDuplicate; rewrite D; reflexivity).
  body_cases (stringifyNode fuel h) h level v block compact isKey st;
    cbn [outcomeSat]; try exact I; try reflexivity;
    try (destruct (skipInvalid st); cbn [outcomeSat]; [reflexivity | exact I]).
  - destruct (notQuestionTag tg); [|reflexivity].
    destruct (stringifyScalar st s level isKey); cbn [outcomeSat wrapTag];
      [reflexivity | exact I].
  - apply (stringifyContainer_inv (stringifyNode fuel h) True (fun s => s = st)
             (fun _ => True)).
    + intros lv w b1 b2 b3 this -> _. apply IH.
    + intros; exact I.
    + unfold markUsed. now rewrite ND.
    + apply Forall_forall. intros; exact I.
Qed.

(** An object that is written in full when there are no duplicates. *)
Lemma plain_rendering :
  forall fuel h level v block compact isKey st tg a o st',
    duplicates st = [] ->
    resolveType st h v = Ok (tg, VRef a) ->
    stringifyNode (S fuel) h level v block compact isKey st = Done o st' ->
    exists content,
      containerText (stringifyNode fuel h) h level tg a block
        (compactAt st tg false level compact) st = Done content st /\
      o = Some (tagText tg ++ content) /\
      st' = st.
Proof.
  intros fuel h level v block compact isKey st tg a o st' D R H.
  pose proof (stringifyNode_without_duplicates h st D (S fuel) level v block
                compact isKey) as F.
  rewrite H in F. cbn [outcomeSat] in F. subst st'.
  assert (ND : isDuplicate st a = false)
    by (unfold isDuplicate; rewrite D; reflexivity).
  cbn [stringifyNode] in H.
  rewrite (body_container _ _ _ _ _ _ _ _ _ _ R) in H by (rewrite ND; reflexivity).
  rewrite stringifyContainer_text, ND in H.
  assert (M : markUsed st a = st) by (unfold markUsed; now rewrite ND).
  rewrite M in H.
  destruct (wrapped_text _ _ _ _ _ _ _ H) as [content [E O]].
  exists content. split; [exact E|]. split; [exact O | reflexivity].
Qed.

(** ** Every duplicate that the root contains becomes a used duplicate *)

Lemma reachable_is_used :
  forall h data fuel level b1 b2 b3 st o st',
    distinctKeys h ->
    primitiveTypes (implicitTypes st ++ explicitTypes st) ->
    rendersAsIs st h ->
    usedDuplicates st = [] ->
    stringifyNode fuel h level data b1 b2 b3 st = Done o st' ->
    forall a, reachable h data a -> isDuplicate st a = true ->
      In a (usedDuplicates st').
Proof.
  intros h data fuel level b1 b2 b3 st o st' K P A U H.
  destruct (stringifyNode_covered h K fuel level data b1 b2 b3 st o st' P A H)
    as [visited [[X [C [D N]]] R]].
  assert (V : forall a, reachable h data a -> In a visited).
  { intros a Ra. induction Ra as [a E|a b Ra IH Ch].
    - destruct (R a E) as [I|I]; [exact I|]. rewrite U in I. contradiction.
    - destruct (C a b IH Ch) as [I|I]; [exact I|].
      destruct (N b I) as [J|J]; [|exact J]. rewrite U in J. contradiction. }
  intros a Ra Da. apply D; [apply V; exact Ra | exact Da].
Qed.

Lemma prescan_duplicates_reachable :
  forall h fuel data objects dups,
    inspectNode fuel h data [] [] = Some (objects, dups) ->
    forall a, In a dups -> reachable h data a.
Proof.
  intros h fuel data objects dups H a Ia.
  destruct (inspectNode_from_empty h data) as [o0 [d0 [F [_ [_ [_ J]]]]]].
  pose proof (inspectNode_more_fuel h fuel (Nat.max fuel (S (List.length h)))
                data [] [] _ H (Nat.le_max_l _ _)) as H1.
  rewrite (F _ (Nat.le_max_r _ _)) in H1. inversion H1; subst o0 d0.
  destruct (inspectNode_reach h fuel data [] [] _ _ H a (J a Ia)) as [[]|R].
  exact R.
Qed.


(** ** The numbers of the anchors *)

(** C2, as the code has it: after the pre-scan of a fresh state the list
    [duplicates] is the sequence of second visits of the scan, so a node
    that is visited a second time earlier has the smaller number (while
    [objects] is the sequence of first visits); the list has no
    repetition and a call of [stringifyNode] does not change it.  The
    number of an object is its index in the list, in its alias [*ref_N]
    and in its anchor [&ref_N] alike: a duplicate that is used already is
    written as the alias with that number, and one that is not used yet
    as the anchor with that number, after the tag and before the text of
    the object. *)
Theorem duplicates_numbered_by_second_visit :
  forall fuel h data this this1,
    duplicates this = [] ->
    getDuplicateReferences fuel h data this = Some this1 ->
    (exists objects visits,
       inspectNodeVisits fuel h data [] [] [] =
         Some (objects, duplicates this1, visits) /\
       objects = firstVisits [] visits /\
       duplicates this1 = secondVisits [] visits) /\
    NoDup (duplicates this1) /\
    (forall fuel' level v block compact isKey st r st',
       stringifyNode fuel' h level v block compact isKey st = Done r st' ->
       duplicates st' = duplicates st) /\
    (forall fuel' level v block compact isKey st tag a,
       resolveType st h v = Ok (tag, VRef a) ->
       isDuplicate st a = true ->
       includes (usedDuplicates st) a = true ->
       stringifyNode (S fuel') h level v block compact isKey st =
       Done (Some (aliasText (indexOf (duplicates st) a))) st) /\
    (forall fuel' level v block compact isKey st tag a o st',
       resolveType st h v = Ok (tag, VRef a) ->
       isDuplicate st a = true ->
       includes (usedDuplicates st) a = false ->
       stringifyNode (S fuel') h level v block compact isKey st = Done o st' ->
       exists content,
         containerText (stringifyNode fuel' h) h level tag a block false
           (markUsed st a) = Done content st' /\
         o = Some (tagText tag ++ anchorText (indexOf (duplicates st) a) ++
                   anchorSeparator h level a block st ++ content)).
Proof.
  intros fuel h data this this1 Hd H.
  unfold getDuplicateReferences in H.
  rewrite (inspectNodeVisits_erase h fuel data [] [] []) in H.
  destruct (inspectNodeVisits fuel h data [] [] []) as [[[o d] vis]|] eqn:E;
    [|discriminate].
  inversion H; subst. simpl. rewrite Hd. simpl.
  destruct (inspectNodeVisits_spec h fuel data [] o d vis E) as [Ho Hdd].
  split; [exists o, vis; auto|].
  split; [rewrite Hdd; apply NoDup_secondVisits|].
  split; [|split].
  - intros. eapply stringifyNode_keeps_duplicates. eassumption.
  - intros. simpl. eapply body_alias; eassumption.
  - intros fuel' level v block compact isKey st tg a r st' R D U Hn.
    destruct (first_rendering _ _ _ _ _ _ _ _ _ _ _ _ R D U Hn) as [content [C [O _]]].
    exists content. auto.
Qed.

Lemma duplicates_numbered_by_second_visit_witness :
  NoDup [2%nat; 1%nat].
Proof.
  refine (proj1 (proj2 (duplicates_numbered_by_second_visit 3 heapABBA (VRef 0)
                   (newDumperState bareSchema noOptions)
                   (setUsedDuplicates
                      (setDuplicates (newDumperState bareSchema noOptions) [2%nat; 1%nat]) [])
                   _ _))).
  - reflexivity.
  - vm_compute. reflexivity.
Defined.


(** ** Anchors and aliases in a document *)

Lemma rendersAsIs_prescan :
  forall this h d u,
    rendersAsIs this h ->
    rendersAsIs (setUsedDuplicates (setDuplicates this d) u) h.
Proof.
  intros this h d u [O K]. split.
  - intros a. destruct (O a) as [tg R]. exists tg.
    now rewrite resolveType_setUsedDuplicates, resolveType_setDuplicates.
  - intros a props k D I. destruct (K a props k D I) as [tg [s R]]. exists tg, s.
    now rewrite resolveType_setUsedDuplicates, resolveType_setDuplicates.
Qed.

Lemma joinedNode_Done :
  forall r o st,
    r = Done o st -> joinedNode r = Done (option_map textOf o) st.
Proof. intros r o st ->. reflexivity. Qed.

(** The registry of a document and its anchors. *)
Lemma registry_is_anchored :
  forall fuel h data st segs this',
    distinctKeys h ->
    renderReady (duplicates st) st ->
    rendersAsIs st h ->
    usedDuplicates st = [] ->
    match stringifyNodeMarked fuel h 0 data true true false st with
    | Done (Some string) this0 => Done (string ++ [Text [LINE_FEED]]) this0
    | Done None this0 => Done [] this0
    | Raise e => Raise e
    | OutOfFuel => OutOfFuel
    end = Done segs this' ->
    duplicates this' = duplicates st /\
    forall a, reachable h data a -> In a (duplicates st) ->
      count_occ Z.eq_dec (anchorsOf segs) (indexOf (duplicates st) a) = 1%nat.
Proof.
  intros fuel h data st segs this' K Rdy A Us N.
  pose proof (stringifyNodeMarked_once h (duplicates st) fuel 0 data true true
                false st Rdy) as P.
  pose proof (stringifyNodeMarked_text h fuel 0 data true true false st) as J.
  destruct (stringifyNodeMarked fuel h 0 data true true false st)
    as [o st'| |] eqn:E; try discriminate N.
  cbn [joinedNode] in J. symmetry in J.
  assert (Used : forall a, reachable h data a -> In a (duplicates st) ->
                 In a (usedDuplicates st')).
  { intros a Ra Ia.
    apply (reachable_is_used h data fuel 0 true true false st _ st' K (proj2 Rdy)
             A Us J a Ra).
    now apply isDuplicate_In. }
  destruct o as [s|]; inversion N; subst; cbn [outcomeSat nodeAnchored] in P.
  - destruct P as [[added [Es [An [Nd In']]]] _].
    rewrite Us in Es. cbn [app] in Es. subst this'.
    split; [reflexivity|]. intros a Ra Ia.
    specialize (Used a Ra Ia). cbn [usedDuplicates setUsedDuplicates] in Used.
    apply (proj1 (NoDup_count_occ' Z.eq_dec _)).
    + rewrite anchorsOf_app. cbn [anchorsOf]. rewrite app_nil_r, An.
      apply NoDup_map_indexOf; [exact Nd|].
      intros b Ib. exact (proj1 (In' b Ib)).
    + rewrite anchorsOf_app. cbn [anchorsOf]. rewrite app_nil_r, An.
      now apply in_map.
  - subst this'. split; [reflexivity|]. intros a Ra Ia.
    specialize (Used a Ra Ia). rewrite Us in Used. contradiction.
Qed.

Lemma document_anchors :
  forall (D : Schema) (opts : DumperStateOptions) (fuel : nat) (h : heap)
         (data : value) (out : jsstring) (this' : DumperState),
    let this := newDumperState D opts in
    primitiveRepresent (schema this) ->
    stringify fuel h data this = Done out this' ->
    exists segs,
      stringifyMarked fuel h data this = Done segs this' /\
      textOf segs = out /\
      aliasesFollowAnchors [] segs = true /\
      (useAnchors this = false -> noMarks segs = true /\ this' = this) /\
      (distinctKeys h -> rendersAsIs this h -> useAnchors this = true ->
       exists objects registry,
         inspectNode fuel h data [] [] = Some (objects, registry) /\
         duplicates this' = registry /\
         forall a, In a registry ->
           count_occ Z.eq_dec (anchorsOf segs) (indexOf registry a) = 1%nat).
Proof.
  intros D opts fuel h data out this' this PR H.
  rewrite <- stringifyMarked_text in H.
  destruct (joined_Done _ _ _ H) as [segs [E T]].
  exists segs. split; [exact E|]. split; [exact T|].
  clear H T. unfold stringifyMarked in E.
  assert (Node : forall st,
            renderReady (duplicates st) st -> usedDuplicates st = [] ->
            match stringifyNodeMarked fuel h 0 data true true false st with
            | Done (Some string) this0 => Done (string ++ [Text [LINE_FEED]]) this0
            | Done None this0 => Done [] this0
            | Raise e => Raise e
            | OutOfFuel => OutOfFuel
            end = Done segs this' ->
            aliasesFollowAnchors [] segs = true /\
            (duplicates st = [] -> noMarks segs = true /\ this' = st)).
  { intros st Rdy Us N.
    assert (U : usedAreSeen [] st) by (intros a Ia; rewrite Us in Ia; contradiction).
    pose proof (stringifyNodeMarked_inv h (duplicates st) fuel 0 data true true
                  false st [] Rdy U) as P.
    destruct (stringifyNodeMarked fuel h 0 data true true false st)
      as [[s|] st'| |]; try discriminate; inversion N; subst; simpl in P.
    - destruct P as [[X [F [U' B]]] _]. split.
      + apply aliasesFollowAnchors_app; [exact F | reflexivity].
      + intros Dz. rewrite Dz in B. apply marksBelow_zero in B.
        split; [rewrite noMarks_app, B; reflexivity|].
        destruct X as [u [Eu _]]. subst this'.
        rewrite (noMarks_anchorsOf s B) in U'. simpl in U'.
        assert (Z : u = []).
        { destruct u as [|a u]; [reflexivity|].
          exfalso. apply (U' a). now left. }
        rewrite Z, <- Us. apply setUsedDuplicates_same.
    - split; [reflexivity|]. intros _. split; [reflexivity | exact P]. }
  destruct (useAnchors this) eqn:UA.
  - destruct (getDuplicateReferences fuel h data this) as [st|] eqn:G;
      [|discriminate].
    unfold getDuplicateReferences in G.
    destruct (inspectNode fuel h data [] []) as [[o d]|] eqn:Scan; [|discriminate].
    inversion G; subst st.
    set (st1 := setUsedDuplicates (setDuplicates this (duplicates this ++ d)) []) in *.
    assert (Rdy : renderReady (duplicates st1) st1)
      by (split; [reflexivity | exact PR]).
    split; [apply (proj1 (Node st1 Rdy eq_refl E))|].
    split; [intros C; discriminate C|].
    intros K A _. exists o, d. split; [reflexivity|].
    destruct (registry_is_anchored fuel h data st1 segs this' K Rdy
                (rendersAsIs_prescan this h _ [] A) eq_refl E) as [Dp Cn].
    split; [exact Dp|]. intros a Ia.
    apply (Cn a); [|exact Ia].
    eapply prescan_duplicates_reachable; [exact Scan | exact Ia].
  - assert (Rdy : renderReady (duplicates this) this)
      by (split; [reflexivity | exact PR]).
    destruct (Node this Rdy eq_refl E) as [F Z].
    split; [exact F|]. split; [|intros _ _ C; discriminate C].
    intros _. apply Z. reflexivity.
Qed.

(** C1, as the code has it.  Under a schema whose [represent] functions
    yield primitive values, the string that [stringify] returns on a
    fresh state is the text of segments in which every alias [*ref_N]
    comes after an anchor [&ref_N] with the same number; with
    [useAnchors = false] the segments hold no anchor and no alias, and
    the state is unchanged.  When moreover the types of the schema leave
    the objects objects and the keys strings, every node of the registry,
    the duplicates that the pre-scan of the root finds, has its anchor in
    the segments exactly once.

    The first time a node of the registry is rendered, the text is its
    tag, if it has one, its anchor and the text that the container method
    returns for it, and the node becomes a used duplicate; each later
    time the text is its alias and nothing else.  Where there is no
    registry, as with [useAnchors = false], every rendering of an object
    is its tag and the text that the container method returns for it,
    and leaves the state as it was, so that the next occurrence is
    rendered in full again. *)
Theorem aliases_follow_anchors :
  (forall (D : Schema) (opts : DumperStateOptions) (fuel : nat) (h : heap)
          (data : value) (out : jsstring) (this' : DumperState),
     let this := newDumperState D opts in
     primitiveRepresent (schema this) ->
     stringify fuel h data this = Done out this' ->
     exists segs,
       stringifyMarked fuel h data this = Done segs this' /\
       textOf segs = out /\
       aliasesFollowAnchors [] segs = true /\
       (useAnchors this = false -> noMarks segs = true /\ this' = this) /\
       (distinctKeys h -> rendersAsIs this h -> useAnchors this = true ->
        exists objects registry,
          inspectNode fuel h data [] [] = Some (objects, registry) /\
          duplicates this' = registry /\
          forall a, In a registry ->
            count_occ Z.eq_dec (anchorsOf segs) (indexOf registry a) = 1%nat)) /\
  (forall fuel h level v block compact isKey st tag a o st',
     resolveType st h v = Ok (tag, VRef a) ->
     isDuplicate st a = true ->
     includes (usedDuplicates st) a = false ->
     stringifyNode (S fuel) h level v block compact isKey st = Done o st' ->
     exists content,
       containerText (stringifyNode fuel h) h level tag a block false
         (markUsed st a) = Done content st' /\
       o = Some (tagText tag ++ anchorText (indexOf (duplicates st) a) ++
                 anchorSeparator h level a block st ++ content) /\
       In a (usedDuplicates st')) /\
  (forall fuel h level v block compact isKey st tag a,
     resolveType st h v = Ok (tag, VRef a) ->
     isDuplicate st a = true ->
     includes (usedDuplicates st) a = true ->
     stringifyNode (S fuel) h level v block compact isKey st =
     Done (Some (aliasText (indexOf (duplicates st) a))) st) /\
  (forall fuel h level v block compact isKey st tag a o st',
     duplicates st = [] ->
     resolveType st h v = Ok (tag, VRef a) ->
     stringifyNode (S fuel) h level v block compact isKey st = Done o st' ->
     exists content,
       containerText (stringifyNode fuel h) h level tag a block
         (compactAt st tag false level compact) st = Done content st /\
       o = Some (tagText tag ++ content) /\
       st' = st).
Proof.
  split; [exact document_anchors|]. split; [exact first_rendering|].
  split; [|exact plain_rendering].
  intros. cbn [stringifyNode]. eapply body_alias; eassumption.
Qed.

Lemma heapShared_distinctKeys : distinctKeys heapShared.
Proof.
  intros [|[|a]] props E.
  - inversion E; subst. repeat constructor; simpl; intuition discriminate.
  - inversion E; subst. repeat constructor; simpl; intuition discriminate.
  - unfold deref, heapShared in E. destruct a; inversion E; constructor.
Qed.

Lemma nullSchema_rendersAsIs :
  forall o h, optSchema o = None -> rendersAsIs (newDumperState nullSchema o) h.
Proof.
  intros o h S. split.
  - intros a. exists None. unfold resolveType, detectType.
    cbn [newDumperState implicitTypes explicitTypes]. rewrite S. reflexivity.
  - intros a props k _ _. exists None, k. unfold resolveType, detectType.
    cbn [newDumperState implicitTypes explicitTypes]. rewrite S. reflexivity.
Qed.

Lemma aliases_follow_anchors_witness :
  (exists segs,
     textOf segs =
       lit "x: &ref_0" ++ [LINE_FEED] ++ lit "  k: v" ++ [LINE_FEED] ++
       lit "z: *ref_0" ++ [LINE_FEED] /\
     aliasesFollowAnchors [] segs = true /\
     count_occ Z.eq_dec (anchorsOf segs) 0 = 1%nat) /\
  (exists segs,
     textOf segs =
       lit "x:" ++ [LINE_FEED] ++ lit "  k: v" ++ [LINE_FEED] ++
       lit "z:" ++ [LINE_FEED] ++ lit "  k: v" ++ [LINE_FEED] /\
     noMarks segs = true).
Proof.
  split.
  - destruct (proj1 aliases_follow_anchors nullSchema noOptions 3%nat heapShared (VRef 0)
                (lit "x: &ref_0" ++ [LINE_FEED] ++ lit "  k: v" ++ [LINE_FEED] ++
                 lit "z: *ref_0" ++ [LINE_FEED])
                (setUsedDuplicates
                   (setDuplicates (newDumperState nullSchema noOptions) [1%nat])
                   [1%nat])
                nullSchema_primitive)
      as [segs [_ [T [F [_ R]]]]].
    + vm_compute. reflexivity.
    + exists segs. split; [exact T|]. split; [exact F|].
      destruct (R heapShared_distinctKeys
                  (nullSchema_rendersAsIs noOptions heapShared eq_refl) eq_refl)
        as [objects [registry [Scan [_ Cn]]]].
      vm_compute in Scan. inversion Scan; subst.
      apply (Cn 1%nat). now left.
  - destruct (proj1 aliases_follow_anchors nullSchema (anchorOptions false) 3%nat
                heapShared (VRef 0)
                (lit "x:" ++ [LINE_FEED] ++ lit "  k: v" ++ [LINE_FEED] ++
                 lit "z:" ++ [LINE_FEED] ++ lit "  k: v" ++ [LINE_FEED])
                (newDumperState nullSchema (anchorOptions false))
                nullSchema_primitive)
      as [segs [_ [T [_ [N _]]]]].
    + vm_compute. reflexivity.
    + exists segs. split; [exact T | apply (N eq_refl)].
Defined.

Lemma stampSchema_primitive : primitiveRepresent stampSchema.
Proof.
  intros t f h v style Ht Hf. simpl in Ht. destruct Ht as [<-|[]].
  simpl in Hf. destruct Hf as [<-|[]]. reflexivity.
Qed.

(** C1, counterexample to the claim as stated: in [{ x: S, z: S }] the
    object [S] is in the registry, and a type of the schema represents
    it by a string; the string is written at both places, and the
    document has no anchor and no alias. *)
Lemma shared_object_written_as_scalar :
  primitiveRepresent stampSchema /\
  inspectNode 3 heapSharedStamp (VRef 0) [] [] = Some ([0; 1]%nat, [1%nat]) /\
  exists segs this',
    stringifyMarked 3 heapSharedStamp (VRef 0) (newDumperState stampSchema noOptions) =
      Done segs this' /\
    stringify 3 heapSharedStamp (VRef 0) (newDumperState stampSchema noOptions) =
      Done (lit "x: 2001-12-14" ++ [LINE_FEED] ++ lit "z: 2001-12-14" ++ [LINE_FEED])
        this' /\
    duplicates this' = [1%nat] /\
    count_occ Z.eq_dec (anchorsOf segs) (indexOf (duplicates this') 1) = 0%nat /\
    noMarks segs = true.
Proof.
  split; [exact stampSchema_primitive|]. split; [reflexivity|].
  eexists. eexists. split; [vm_compute; reflexivity|].
  split; [vm_compute; reflexivity|]. split; [reflexivity|].
  split; vm_compute; reflexivity.
Qed.


(** ** What a sequence method writes *)

Lemma blockSequenceText_ext :
  forall this st level compact texts index,
    indent st = indent this ->
    blockSequenceText st level compact index texts =
    blockSequenceText this level compact index texts.
Proof.
  intros this st level compact texts. induction texts as [|[s|] l IH];
    intros index E; cbn [blockSequenceText]; [reflexivity| |apply IH; exact E].
  rewrite E, IH by exact E. reflexivity.
Qed.

Lemma flowSequenceText_ext :
  forall this st texts index,
    condenseFlow st = condenseFlow this ->
    flowSequenceText st index texts = flowSequenceText this index texts.
Proof.
  intros this st texts. induction texts as [|[s|] l IH];
    intros index E; cbn [flowSequenceText]; [reflexivity| |apply IH; exact E].
  unfold flowSeparator. rewrite E, IH by exact E. reflexivity.
Qed.

Lemma extendsUsed_options :
  forall this st, extendsUsed this st ->
    indent st = indent this /\ condenseFlow st = condenseFlow this.
Proof. intros this st [u [E _]]. subst. split; reflexivity. Qed.

Lemma stringifyNode_options :
  forall fuel h level v b1 b2 b3 this o st,
    stringifyNode fuel h level v b1 b2 b3 this = Done o st ->
    indent st = indent this /\ condenseFlow st = condenseFlow this.
Proof.
  intros fuel h level v b1 b2 b3 this o st H.
  pose proof (stringifyNode_frame h fuel level v b1 b2 b3 this) as F.
  rewrite H in F. apply extendsUsed_options. exact F.
Qed.

Lemma blockSequenceLoop_lines :
  forall fuel h level compact elems index res this out this',
    blockSequenceLoop (stringifyNode fuel h) elems index level compact res this =
      Done out this' ->
    exists texts,
      elementsRendered (stringifyNode fuel h) (level + 1) true true elems this
        texts this' /\
      out = res ++ blockSequenceText this level compact index texts.
Proof.
  intros fuel h level compact. induction elems as [|e l IH];
    intros index res this out this' H; cbn [blockSequenceLoop] in H.
  - inversion H; subst. exists []. split; [reflexivity|].
    cbn [blockSequenceText]. now rewrite app_nil_r.
  - destruct (stringifyNode fuel h (level + 1) e true true false this)
      as [[s|] st| |] eqn:E; try discriminate H.
    + destruct (stringifyNode_options _ _ _ _ _ _ _ _ _ _ E) as [Ei _].
      apply IH in H. destruct H as [texts [R O]].
      exists (Some s :: texts). split; [exists st; split; [exact E | exact R]|].
      rewrite O. cbn [blockSequenceText].
      rewrite (blockSequenceText_ext this st) by exact Ei. rewrite Ei.
      destruct (negb compact || negb (index =? 0));
        destruct (indexIs s 0 LINE_FEED); now rewrite <- ?app_assoc.
    + destruct (stringifyNode_options _ _ _ _ _ _ _ _ _ _ E) as [Ei _].
      apply IH in H. destruct H as [texts [R O]].
      exists (None :: texts). split; [exists st; split; [exact E | exact R]|].
      rewrite O. cbn [blockSequenceText].
      now rewrite (blockSequenceText_ext this st) by exact Ei.
Qed.

Lemma flowSequenceLoop_texts :
  forall fuel h level elems index res this out this',
    flowSequenceLoop (stringifyNode fuel h) elems index level res this =
      Done out this' ->
    exists texts,
      elementsRendered (stringifyNode fuel h) level false false elems this
        texts this' /\
      out = res ++ flowSequenceText this index texts.
Proof.
  intros fuel h level. induction elems as [|e l IH];
    intros index res this out this' H; cbn [flowSequenceLoop] in H.
  - inversion H; subst. exists []. split; [reflexivity|].
    cbn [flowSequenceText]. now rewrite app_nil_r.
  - destruct (stringifyNode fuel h level e false false false this)
      as [[s|] st| |] eqn:E; try discriminate H.
    + destruct (stringifyNode_options _ _ _ _ _ _ _ _ _ _ E) as [_ Ec].
      apply IH in H. destruct H as [texts [R O]].
      exists (Some s :: texts). split; [exists st; split; [exact E | exact R]|].
      rewrite O. cbn [flowSequenceText].
      rewrite (flowSequenceText_ext this st) by exact Ec.
      unfold flowSeparator. rewrite Ec.
      destruct (negb (index =? 0)); now rewrite <- ?app_assoc.
    + destruct (stringifyNode_options _ _ _ _ _ _ _ _ _ _ E) as [_ Ec].
      apply IH in H. destruct H as [texts [R O]].
      exists (None :: texts). split; [exists st; split; [exact E | exact R]|].
      rewrite O. cbn [flowSequenceText].
      now rewrite (flowSequenceText_ext this st) by exact Ec.
Qed.

Lemma stringifyBlockSequence_lines :
  forall fuel h level compact elems this out this',
    stringifyBlockSequence (stringifyNode fuel h) elems level compact this =
      Done out this' ->
    exists texts,
      elementsRendered (stringifyNode fuel h) (level + 1) true true elems this
        texts this' /\
      out = orElse (blockSequenceText this level compact 0 texts) (lit "[]").
Proof.
  intros fuel h level compact elems this out this' H.
  unfold stringifyBlockSequence in H.
  destruct (blockSequenceLoop (stringifyNode fuel h) elems 0 level compact [] this)
    as [res st| |] eqn:E; try discriminate H.
  apply blockSequenceLoop_lines in E. destruct E as [texts [R O]].
  exists texts. cbn [app] in O. rewrite <- O.
  destruct res; inversion H; subst; split; auto.
Qed.

Lemma stringifyFlowSequence_texts :
  forall fuel h level elems this out this',
    stringifyFlowSequence (stringifyNode fuel h) elems level this = Done out this' ->
    exists texts,
      elementsRendered (stringifyNode fuel h) level false false elems this
        texts this' /\
      out = lit "[" ++ flowSequenceText this 0 texts ++ lit "]".
Proof.
  intros fuel h level elems this out this' H.
  unfold stringifyFlowSequence in H.
  destruct (flowSequenceLoop (stringifyNode fuel h) elems 0 level [] this)
    as [res st| |] eqn:E; try discriminate H.
  apply flowSequenceLoop_texts in E. destruct E as [texts [R O]].
  exists texts. cbn [app] in O. rewrite <- O.
  inversion H; subst; split; auto.
Qed.

Lemma wrapped_sequence :
  forall tag d i sep r o st,
    wrapTag tag (withAnchor d i sep r) = Done o st ->
    exists out, r = Done out st /\
      wrapTag tag (withAnchor d i sep r) =
      wrapTag tag (withAnchor d i sep (Done out st)).
Proof.
  intros tag d i sep [out st'| |] o st H; try discriminate H.
  exists out. simpl in H. inversion H; subst. split; reflexivity.
Qed.

Lemma markUsed_options :
  forall this a,
    indent (markUsed this a) = indent this /\
    condenseFlow (markUsed this a) = condenseFlow this.
Proof. intros this a. unfold markUsed. destruct (isDuplicate this a); split; reflexivity. Qed.

(** ** A node that is not a sequence *)

Section ArrayIndentNode.

Variable b : bool.
Variables rec rec' : nodeRenderer.
Variable h : heap.

Hypothesis rec_flag :
  forall level v b1 b2 b3 this,
    rec' level v b1 b2 b3 (setArrayIndent this b) =
    mapState (fun st => setArrayIndent st b) (rec level v b1 b2 b3 this).

Lemma stringifyNodeBody_flag_node :
  forall level object b1 b2 b3 this,
    (forall tag v, resolveType this h object = Ok (tag, v) -> isArray h v = false) ->
    stringifyNodeBody rec' h level object b1 b2 b3 (setArrayIndent this b) =
    mapState (fun st => setArrayIndent st b)
      (stringifyNodeBody rec h level object b1 b2 b3 this).
Proof.
  intros level object b1 b2 b3 this NA.
  pose proof (resolveType_ext (setArrayIndent this b) this h object
                eq_refl eq_refl eq_refl) as E.
  destruct (resolveType this h object) as [[tag v]|e] eqn:R.
  2:{ rewrite (body_throw _ _ _ _ _ _ _ _ _ E), (body_throw _ _ _ _ _ _ _ _ _ R).
      reflexivity. }
  specialize (NA tag v eq_refl).
  destruct v.
  1-4, 6:
    rewrite (body_unsupported _ _ _ _ _ _ _ _ _ _ E eq_refl),
            (body_unsupported _ _ _ _ _ _ _ _ _ _ R eq_refl);
    change (skipInvalid (setArrayIndent this b)) with (skipInvalid this);
    destruct (skipInvalid this); reflexivity.
  - rewrite (body_string _ _ _ _ _ _ _ _ _ _ E), (body_string _ _ _ _ _ _ _ _ _ _ R).
    change (stringifyScalar (setArrayIndent this b) s level b3)
      with (stringifyScalar this s level b3).
    destruct (notQuestionTag tag); [|reflexivity].
    destruct (stringifyScalar this s level b3); reflexivity.
  - destruct (isDuplicate this a && includes (usedDuplicates this) a) eqn:A.
    + apply andb_true_iff in A. destruct A as [A1 A2].
      rewrite (body_alias _ _ _ _ _ _ _ _ _ _ E A1 A2),
              (body_alias _ _ _ _ _ _ _ _ _ _ R A1 A2).
      reflexivity.
    + rewrite (body_container _ _ _ _ _ _ _ _ _ _ E A),
              (body_container _ _ _ _ _ _ _ _ _ _ R A).
      unfold stringifyContainer. rewrite markUsed_setArrayIndent.
      change (isDuplicate (setArrayIndent this b) a) with (isDuplicate this a).
      change (duplicates (setArrayIndent this b)) with (duplicates this).
      change (blockAt (setArrayIndent this b) level b1) with (blockAt this level b1).
      change (compactAt (setArrayIndent this b)) with (compactAt this).
      simpl in NA.
      destruct (deref h a) as [elems|props]; [discriminate|].
      destruct (blockAt this level b1 && _).
      * rewrite (stringifyBlockMapping_flag b rec rec' rec_flag).
        rewrite withAnchor_mapState, wrapTag_mapState. reflexivity.
      * rewrite (stringifyFlowMapping_flag b rec rec' rec_flag).
        rewrite withAnchor_mapState, wrapTag_mapState. reflexivity.
Qed.

End ArrayIndentNode.

(** ** A node without a sequence below it *)

Section ArrayIndentBelow.

Variable b : bool.
Variables rec rec' : nodeRenderer.
Variable Inv : DumperState -> Prop.
Variable C : value -> Prop.

(** On the values in [C] and the states in [Inv], [rec'] is [rec] run
    with the flag set to [b]; [rec] keeps [Inv]. *)
Hypothesis rec_flag :
  forall level v b1 b2 b3 this,
    Inv this -> C v ->
    rec' level v b1 b2 b3 (setArrayIndent this b) =
    mapState (fun st => setArrayIndent st b) (rec level v b1 b2 b3 this).

Hypothesis rec_inv :
  forall level v b1 b2 b3 this o st,
    Inv this -> rec level v b1 b2 b3 this = Done o st -> Inv st.

Lemma flowMappingLoop_below :
  forall object keys index level res this,
    Inv this ->
    (forall k, In k keys -> C (VString k) /\ C (getProp object k)) ->
    flowMappingLoop rec' object keys index level res (setArrayIndent this b) =
    mapState (fun st => setArrayIndent st b)
      (flowMappingLoop rec object keys index level res this).
Proof.
  induction keys as [|k l IH]; intros index level res this I K; simpl; [reflexivity|].
  destruct (K k (or_introl eq_refl)) as [Ck Cv].
  assert (K' : forall k', In k' l -> C (VString k') /\ C (getProp object k'))
    by (intros k' Hk'; apply K; now right).
  rewrite rec_flag by assumption.
  destruct (rec level (VString k) false false false this) as [[s|] st| |] eqn:E;
    simpl; try reflexivity.
  - pose proof (rec_inv _ _ _ _ _ _ _ _ I E) as I1.
    rewrite rec_flag by assumption.
    destruct (rec level (getProp object k) false false false st)
      as [[s'|] st'| |] eqn:E2; simpl; try reflexivity;
      (apply IH; [exact (rec_inv _ _ _ _ _ _ _ _ I1 E2) | exact K']).
  - apply IH; [exact (rec_inv _ _ _ _ _ _ _ _ I E) | exact K'].
Qed.

Lemma blockMappingLoop_below :
  forall object tag keys index level compact res this,
    Inv this ->
    (forall k, In k keys -> C (VString k) /\ C (getProp object k)) ->
    blockMappingLoop rec' object tag keys index level compact res (setArrayIndent this b) =
    mapState (fun st => setArrayIndent st b)
      (blockMappingLoop rec object tag keys index level compact res this).
Proof.
  induction keys as [|k l IH]; intros index level compact res this I K; simpl;
    [reflexivity|].
  destruct (K k (or_introl eq_refl)) as [Ck Cv].
  assert (K' : forall k', In k' l -> C (VString k') /\ C (getProp object k'))
    by (intros k' Hk'; apply K; now right).
  rewrite rec_flag by assumption.
  destruct (rec (level + 1) (VString k) true true true this) as [[s|] st| |] eqn:E;
    simpl; try reflexivity.
  - pose proof (rec_inv _ _ _ _ _ _ _ _ I E) as I1.
    rewrite rec_flag by assumption.
    match goal with
    | |- context [rec ?l ?v ?x ?y ?z st] =>
        destruct (rec l v x y z st) as [[s'|] st'| |] eqn:E2
    end; simpl; try reflexivity;
      (apply IH; [exact (rec_inv _ _ _ _ _ _ _ _ I1 E2) | exact K']).
  - apply IH; [exact (rec_inv _ _ _ _ _ _ _ _ I E) | exact K'].
Qed.

Hypothesis Inv_markUsed : forall this a, Inv this -> Inv (markUsed this a).
Hypothesis C_strings : forall k, C (VString k).

Variable h : heap.

Lemma stringifyNodeBody_below :
  forall level object b1 b2 b3 this,
    Inv this ->
    (forall tag v,
       resolveType this h object = Ok (tag, v) ->
       isArray h v = false /\
       forall a, v = VRef a -> Forall C (entriesOf h a)) ->
    stringifyNodeBody rec' h level object b1 b2 b3 (setArrayIndent this b) =
    mapState (fun st => setArrayIndent st b)
      (stringifyNodeBody rec h level object b1 b2 b3 this).
Proof.
  intros level object b1 b2 b3 this I NA.
  pose proof (resolveType_ext (setArrayIndent this b) this h object
                eq_refl eq_refl eq_refl) as E.
  destruct (resolveType this h object) as [[tag v]|e] eqn:R.
  2:{ rewrite (body_throw _ _ _ _ _ _ _ _ _ E), (body_throw _ _ _ _ _ _ _ _ _ R).
      reflexivity. }
  destruct (NA tag v eq_refl) as [Na Ce].
  destruct v.
  1-4, 6:
    rewrite (body_unsupported _ _ _ _ _ _ _ _ _ _ E eq_refl),
            (body_unsupported _ _ _ _ _ _ _ _ _ _ R eq_refl);
    change (skipInvalid (setArrayIndent this b)) with (skipInvalid this);
    destruct (skipInvalid this); reflexivity.
  - rewrite (body_string _ _ _ _ _ _ _ _ _ _ E), (body_string _ _ _ _ _ _ _ _ _ _ R).
    change (stringifyScalar (setArrayIndent this b) s level b3)
      with (stringifyScalar this s level b3).
    destruct (notQuestionTag tag); [|reflexivity].
    destruct (stringifyScalar this s level b3); reflexivity.
  - destruct (isDuplicate this a && includes (usedDuplicates this) a) eqn:A.
    + apply andb_true_iff in A. destruct A as [A1 A2].
      rewrite (body_alias _ _ _ _ _ _ _ _ _ _ E A1 A2),
              (body_alias _ _ _ _ _ _ _ _ _ _ R A1 A2).
      reflexivity.
    + rewrite (body_container _ _ _ _ _ _ _ _ _ _ E A),
              (body_container _ _ _ _ _ _ _ _ _ _ R A).
      unfold stringifyContainer. rewrite markUsed_setArrayIndent.
      change (isDuplicate (setArrayIndent this b) a) with (isDuplicate this a).
      change (duplicates (setArrayIndent this b)) with (duplicates this).
      change (blockAt (setArrayIndent this b) level b1) with (blockAt this level b1).
      change (compactAt (setArrayIndent this b)) with (compactAt this).
      specialize (Ce a eq_refl). unfold entriesOf in Ce. simpl in Na.
      destruct (deref h a) as [elems|props]; [discriminate|].
      assert (K : forall keys, (forall k, In k keys -> In k (map fst props)) ->
                forall k, In k keys -> C (VString k) /\ C (getProp props k)).
      { intros keys Hk k Hin. split; [apply C_strings|].
        apply (proj1 (Forall_forall _ _) Ce). apply getProp_In. auto. }
      pose proof (Inv_markUsed this a I) as I1.
      destruct (blockAt this level b1 && _).
      * unfold stringifyBlockMapping.
        change (sortKeys (setArrayIndent (markUsed this a) b))
          with (sortKeys (markUsed this a)).
        destruct (sortKeys (markUsed this a)) as [[|]|cmp|[|]]; cbn iota beta;
          try reflexivity;
          (rewrite blockMappingLoop_below;
           [ destruct (blockMappingLoop rec props tag _ 0 level _ [] (markUsed this a))
               as [[|c s] st| |]; reflexivity
           | exact I1
           | apply K; intros k Hin;
             first [exact Hin | eapply sortWith_In; exact Hin] ]).
      * unfold stringifyFlowMapping.
        rewrite flowMappingLoop_below;
          [ destruct (flowMappingLoop rec props _ 0 level [] (markUsed this a))
              as [s st| |]; reflexivity
          | exact I1
          | apply K; auto ].
Qed.

End ArrayIndentBelow.

Lemma arrayFree_entries :
  forall h a, arrayFree h (VRef a) -> Forall (arrayFree h) (entriesOf h a).
Proof.
  intros h a F. apply Forall_forall. intros e He x Rx.
  apply F. eapply reachable_below; eassumption.
Qed.

Lemma arrayFree_scalar : forall h v, isObject v = false -> arrayFree h v.
Proof.
  intros h v O a R. exfalso. induction R as [a E|a c R IH Ch].
  - subst v. discriminate O.
  - exact IH.
Qed.

(** Without a sequence below the node, the flag only shows in the
    state. *)
Lemma stringifyNode_flag_below :
  forall h b fuel level v b1 b2 b3 this,
    primitiveTypes (implicitTypes this ++ explicitTypes this) ->
    arrayFree h v ->
    stringifyNode fuel h level v b1 b2 b3 (setArrayIndent this b) =
    mapState (fun st => setArrayIndent st b)
      (stringifyNode fuel h level v b1 b2 b3 this).
Proof.
  intros h b. induction fuel as [|fuel IH];
    intros level v b1 b2 b3 this P F; [reflexivity|].
  cbn [stringifyNode].
  apply (stringifyNodeBody_below b (stringifyNode fuel h) (stringifyNode fuel h)
           (fun st => primitiveTypes (implicitTypes st ++ explicitTypes st))
           (arrayFree h)).
  - intros lv w x1 x2 x3 st Ps Fw. now apply IH.
  - intros lv w x1 x2 x3 st o st' Ps E.
    pose proof (stringifyNode_frame h fuel lv w x1 x2 x3 st) as Fr.
    rewrite E in Fr. exact (primitiveTypes_extends _ _ Fr Ps).
  - intros st a Ps. exact (primitiveTypes_extends _ _ (extendsUsed_markUsed st a) Ps).
  - intros k. now apply arrayFree_scalar.
  - exact P.
  - intros tag v' R.
    destruct (resolveType_primitive this h v tag v' P R) as [->|O].
    + split.
      * destruct v as [| | | | | |a]; try reflexivity.
        apply F. now apply reach_root.
      * intros a ->. now apply arrayFree_entries.
    + split; [destruct v'; try reflexivity; discriminate O|].
      intros a ->. discriminate O.
Qed.

(** C10: a sequence met at level [L] is written by the sequence methods
    at [arrayLevel]: with [arrayIndent = false] that is [L - 1] when
    [0 < L], one less than with [arrayIndent = true], and [L] at level 0.

    What is written there.  In block layout every element that is not
    skipped is on a line of its own that starts with [indent * arrayLevel]
    spaces and a dash, and its text is what [stringifyNode] returns for it
    at [arrayLevel + 1]; in flow layout the texts of the elements, which
    [stringifyNode] returns for them at [arrayLevel], stand between
    brackets.  So with [arrayIndent = false] and [0 < L] the lines of the
    sequence are indented for level [L - 1] and its elements are rendered
    at [L], each one level less than with [arrayIndent = true].

    No other kind of node reads the flag: for a value that does not
    resolve to an array, [stringifyNode] does the same with either value
    of the flag as long as the calls for the entries do.  So, under a
    schema whose [represent] functions yield primitive values, the flag
    does not change the result for a node that has no sequence below it,
    and it changes no result on a store without arrays. *)
Theorem arrayIndent_sequence_level :
  (forall this level,
     (arrayIndent this = false -> 0 < level -> arrayLevel this level = level - 1) /\
     (arrayIndent this = false -> level <= 0 -> arrayLevel this level = level) /\
     (arrayIndent this = true -> arrayLevel this level = level) /\
     (0 < level ->
      arrayLevel (setArrayIndent this false) level =
      arrayLevel (setArrayIndent this true) level - 1)) /\
  (forall fuel h level object tag a elems block compact isKey this o this',
     resolveType this h object = Ok (tag, VRef a) ->
     deref h a = OArray elems ->
     isDuplicate this a && includes (usedDuplicates this) a = false ->
     stringifyNode (S fuel) h level object block compact isKey this = Done o this' ->
     exists texts,
       if blockAt this level block && negb (List.length elems =? 0)%nat then
         elementsRendered (stringifyNode fuel h) (arrayLevel this level + 1)
           true true elems (markUsed this a) texts this' /\
         Done o this' =
           wrapTag tag
             (withAnchor (isDuplicate this a) (indexOf (duplicates this) a) []
                (Done
                   (orElse
                      (blockSequenceText this (arrayLevel this level)
                         (compactAt this tag (isDuplicate this a) level compact)
                         0 texts)
                      (lit "[]"))
                   this'))
       else
         elementsRendered (stringifyNode fuel h) (arrayLevel this level)
           false false elems (markUsed this a) texts this' /\
         Done o this' =
           wrapTag tag
             (withAnchor (isDuplicate this a) (indexOf (duplicates this) a) (lit " ")
                (Done (lit "[" ++ flowSequenceText this 0 texts ++ lit "]") this'))) /\
  (forall h b rec rec',
     (forall level v b1 b2 b3 this,
        rec' level v b1 b2 b3 (setArrayIndent this b) =
        mapState (fun st => setArrayIndent st b) (rec level v b1 b2 b3 this)) ->
     forall level object block compact isKey this,
       (forall tag v, resolveType this h object = Ok (tag, v) -> isArray h v = false) ->
       stringifyNodeBody rec' h level object block compact isKey (setArrayIndent this b) =
       mapState (fun st => setArrayIndent st b)
         (stringifyNodeBody rec h level object block compact isKey this)) /\
  (forall h b fuel level v block compact isKey this,
     primitiveTypes (implicitTypes this ++ explicitTypes this) ->
     arrayFree h v ->
     stringifyNode fuel h level v block compact isKey (setArrayIndent this b) =
     mapState (fun st => setArrayIndent st b)
       (stringifyNode fuel h level v block compact isKey this)) /\
  (forall h,
     (forall a, isArray h (VRef a) = false) ->
     forall fuel level v block compact isKey this b,
       stringifyNode fuel h level v block compact isKey (setArrayIndent this b) =
       mapState (fun st => setArrayIndent st b)
         (stringifyNode fuel h level v block compact isKey this)).
Proof.
  split; [|split; [|split; [|split]]].
  - intros this level. repeat split.
    + intros F L. unfold arrayLevel. rewrite F.
      replace (0 <? level) with true by (symmetry; apply Z.ltb_lt; lia).
      reflexivity.
    + intros F L. unfold arrayLevel. rewrite F.
      replace (0 <? level) with false by (symmetry; apply Z.ltb_ge; lia).
      reflexivity.
    + intros F. unfold arrayLevel. rewrite F. reflexivity.
    + intros L. unfold arrayLevel. cbn [arrayIndent setArrayIndent negb andb].
      replace (0 <? level) with true by (symmetry; apply Z.ltb_lt; lia).
      lia.
  - intros fuel h level object tg a elems block compact isKey this o this' R D A H.
    cbn [stringifyNode] in H. rewrite (body_container _ _ _ _ _ _ _ _ _ _ R A) in H.
    unfold stringifyContainer in H. rewrite D in H.
    destruct (markUsed_options this a) as [Ei Ec].
    destruct (blockAt this level block && negb (List.length elems =? 0)%nat).
    + destruct (wrapped_sequence _ _ _ _ _ _ _ H) as [out [E W]].
      apply stringifyBlockSequence_lines in E. destruct E as [texts [Rn O]].
      exists texts. split; [exact Rn|].
      rewrite <- H, W, O.
      now rewrite (blockSequenceText_ext this (markUsed this a)) by exact Ei.
    + destruct (wrapped_sequence _ _ _ _ _ _ _ H) as [out [E W]].
      apply stringifyFlowSequence_texts in E. destruct E as [texts [Rn O]].
      exists texts. split; [exact Rn|].
      rewrite <- H, W, O.
      now rewrite (flowSequenceText_ext this (markUsed this a)) by exact Ec.
  - intros h b rec rec' Hrec level object block compact isKey this NA.
    now apply stringifyNodeBody_flag_node.
  - intros h b fuel level v block compact isKey this P F.
    now apply stringifyNode_flag_below.
  - intros h Harr fuel level v block compact isKey this b.
    apply stringifyNode_flag_without_arrays. exact Harr.
Qed.

Lemma arrayIndent_sequence_level_witness :
  exists texts,
    elementsRendered (stringifyNode 1 heapSequenceInMapping) (0 + 1) true true
      [VString (lit "x"); VString (lit "z")]
      (newDumperState bareSchema (arrayIndentOptions false)) texts
      (newDumperState bareSchema (arrayIndentOptions false)) /\
    Done (Some ([LINE_FEED] ++ lit "- x" ++ [LINE_FEED] ++ lit "- z"))
         (newDumperState bareSchema (arrayIndentOptions false)) =
    wrapTag None
      (withAnchor false (-1) []
         (Done
            (orElse
               (blockSequenceText (newDumperState bareSchema (arrayIndentOptions false))
                  0 false 0 texts)
               (lit "[]"))
            (newDumperState bareSchema (arrayIndentOptions false)))).
Proof.
  exact (proj1 (proj2 arrayIndent_sequence_level) 1%nat heapSequenceInMapping 1
           (VRef 1) None 1%nat [VString (lit "x"); VString (lit "z")] true false false
           (newDumperState bareSchema (arrayIndentOptions false))
           (Some ([LINE_FEED] ++ lit "- x" ++ [LINE_FEED] ++ lit "- z"))
           (newDumperState bareSchema (arrayIndentOptions false))
           eq_refl eq_refl eq_refl eq_refl).
Defined.

(** The sequence of [{ a: ["x", "z"] }] is at level 1: without
    [arrayIndent] its lines are indented for level 0, with it for
    level 1. *)
Example arrayIndent_in_a_mapping :
  textDone (stringify 3 heapSequenceInMapping (VRef 0)
              (newDumperState bareSchema (arrayIndentOptions false))) =
    lit "a:" ++ [LINE_FEED] ++ lit "- x" ++ [LINE_FEED] ++ lit "- z" ++ [LINE_FEED] /\
  textDone (stringify 3 heapSequenceInMapping (VRef 0)
              (newDumperState bareSchema (arrayIndentOptions true))) =
    lit "a:" ++ [LINE_FEED] ++ lit "  - x" ++ [LINE_FEED] ++ lit "  - z" ++ [LINE_FEED].
Proof. split; vm_compute; reflexivity. Qed.
